(** * KeyFlare: hot-key detection and mitigation engine

    A shallow embedding of the Go sources of mingrammer/keyflare:

    - package [algorithm]: the Count-Min Sketch (module [CMS]) and the
      Space-Saving structure (module [SS]), together with the parts of
      Go's [hash/fnv] and [container/heap] that they call (modules [Fnv],
      [SSHeap], [Heap]);
    - package [detector]: the hot-key detector (module [Detector]);
    - package [policy]: the local cache, the policy manager and the
      key-splitting policy (modules [LocalCache], [Manager],
      [KeySplitting]);
    - package [metrics]: the snapshot history (module [History]);
    - package [internal]: the singleton life cycle (module [Engine]);
    - package [keyflare]: the options, their defaults and the construction
      of the engine from them (module [Keyflare]).

    Conventions.  A Go [uint64] is a [Z] in [0, 2^64) and every addition
    wraps ([wrap64]); a Go [int] is a [Z].  A Go [map] is a [gmap]; a slice is
    a [list].  Pointers to heap-allocated [Item]s are addresses into an
    explicit store, so that the aliasing between the key map and the heap
    slice of the Space-Saving structure is visible.  A run-time panic (index
    out of range, division by zero) is the outcome [Panic]; loops are run with
    fuel and [OutOfFuel] is a third outcome, kept apart from [Panic]. *)

From Stdlib Require Import ZArith QArith Lia Bool Ascii.
From stdpp Require Import gmap strings list fin_maps sorting pretty.

Local Open Scope Z_scope.

(** ** Outcomes of possibly panicking code *)

Inductive outcome (A : Type) : Type :=
  | Done (a : A)
  | Panic
  | OutOfFuel.

Arguments Done {A} a.
Arguments Panic {A}.
Arguments OutOfFuel {A}.

Definition obind {A B : Type} (m : outcome A) (f : A -> outcome B) : outcome B :=
  match m with
  | Done a => f a
  | Panic => Panic
  | OutOfFuel => OutOfFuel
  end.

Notation "x <- m ;; k" := (obind m (fun x => k))
  (at level 100, m at next level, right associativity).

(** Indexing a slice with a Go [int]: out of range panics. *)
Definition index {A : Type} (l : list A) (i : Z) : outcome A :=
  if i <? 0 then Panic
  else match l !! Z.to_nat i with
       | Some a => Done a
       | None => Panic
       end.

(** ** Machine integers *)

Definition two64 : Z := 2 ^ 64.
Definition two32 : Z := 2 ^ 32.
Definition MaxUint64 : Z := two64 - 1.
Definition wrap64 (x : Z) : Z := x mod two64.
Definition wrap32 (x : Z) : Z := x mod two32.

(** The value of an [int64] computation whose mathematical result is [x]
    (two's complement), also the conversion [int64(x)] of a [uint64]. *)
Definition int64 (x : Z) : Z :=
  let u := x mod two64 in
  if u >=? 2 ^ 63 then u - two64 else u.

(** ** hash/fnv: the 32-bit FNV-1a hash *)

Module Fnv.

Definition offset32 : Z := 2166136261.
Definition prime32 : Z := 16777619.

Definition byteZ (b : Byte.byte) : Z := Z.of_N (Byte.to_N b).

(** [New32a] *)
Definition New32a : Z := offset32.

(** [sum32a.Write]: for each byte, xor it in, then multiply. *)
Definition Write (h : Z) (data : list Z) : Z :=
  fold_left (fun hash c => wrap32 (Z.lxor hash c * prime32)) data h.

Definition Sum32 (h : Z) : Z := h.

End Fnv.

(** ** algorithm.CountMinSketch *)

Module CMS.

Record CountMinSketch : Type := mkCMS {
  depth : Z;
  width : Z;
  matrix : list (list Z)
}.

(** The closure stored in every slot of [hashFuncs]: FNV-1a over the key
    followed by the four little-endian bytes of the seed. *)
Definition hashFunc (data : list Byte.byte) (s : Z) : Z :=
  let h := Fnv.New32a in
  let h := Fnv.Write h (map Fnv.byteZ data) in
  let h := Fnv.Write h [ s mod 256; Z.shiftr s 8 mod 256;
                         Z.shiftr s 16 mod 256; Z.shiftr s 24 mod 256 ] in
  Fnv.Sum32 h.

(** [NewCountMinSketch].  The Go constructor derives [depth] and [width]
    from two floating-point parameters ([ceil (ln (1/delta))] and
    [ceil (e/epsilon)]); the embedding starts from the two resulting
    integers.  [make] with a negative length panics. *)
Definition NewCountMinSketch (depth width : Z) : outcome CountMinSketch :=
  if (depth <? 0) || (width <? 0) then Panic
  else Done (mkCMS depth width
               (replicate (Z.to_nat depth) (replicate (Z.to_nat width) 0))).

(** The column selected in row [i]:
    [hashFuncs[i](key, uint32(i)) % uint32(cms.width)]. *)
Definition column (cms : CountMinSketch) (key : list Byte.byte) (i : Z)
  : outcome Z :=
  let w := wrap32 (width cms) in
  if w =? 0 then Panic
  else Done (hashFunc key (wrap32 i) mod w).

(** One iteration of the loop of [Add]: [cms.matrix[i][j] += count]. *)
Definition add_row (key : list Byte.byte) (count : Z) (i : Z)
    (cms : CountMinSketch) : outcome CountMinSketch :=
  j <- column cms key i ;;
  row <- index (matrix cms) i ;;
  c <- index row j ;;
  Done (mkCMS (depth cms) (width cms)
          (<[Z.to_nat i := <[Z.to_nat j := wrap64 (c + count)]> row]>
             (matrix cms))).

(** [for i := lo; i < cms.depth; i++ { body }], with [n] iterations left. *)
Fixpoint add_loop (key : list Byte.byte) (count : Z) (n : nat) (i : Z)
    (cms : CountMinSketch) : outcome CountMinSketch :=
  match n with
  | O => Done cms
  | S n' =>
      cms' <- add_row key count i cms ;;
      add_loop key count n' (i + 1) cms'
  end.

(** [CountMinSketch.Add] *)
Definition Add (cms : CountMinSketch) (key : list Byte.byte) (count : Z)
  : outcome CountMinSketch :=
  add_loop key count (Z.to_nat (depth cms)) 0 cms.

Definition estimate_row (cms : CountMinSketch) (key : list Byte.byte)
    (i : Z) (min : Z) : outcome Z :=
  j <- column cms key i ;;
  row <- index (matrix cms) i ;;
  c <- index row j ;;
  Done (if c <? min then c else min).

Fixpoint estimate_loop (cms : CountMinSketch) (key : list Byte.byte)
    (n : nat) (i : Z) (min : Z) : outcome Z :=
  match n with
  | O => Done min
  | S n' =>
      min' <- estimate_row cms key i min ;;
      estimate_loop cms key n' (i + 1) min'
  end.

(** [CountMinSketch.Estimate] *)
Definition Estimate (cms : CountMinSketch) (key : list Byte.byte)
  : outcome Z :=
  estimate_loop cms key (Z.to_nat (depth cms)) 0 MaxUint64.

(** [CountMinSketch.Reset] *)
Definition Reset (cms : CountMinSketch) : CountMinSketch :=
  mkCMS (depth cms) (width cms) (map (map (fun _ => 0)) (matrix cms)).

(** [CountMinSketch.Decay]: every counter [c] becomes
    [uint64(float64(c) * factor)], written [scale c]. *)
Definition Decay (scale : Z -> Z) (cms : CountMinSketch) : CountMinSketch :=
  mkCMS (depth cms) (width cms) (map (map scale) (matrix cms)).

(** A stream of [Add] calls, applied from left to right. *)
Fixpoint AddAll (cms : CountMinSketch) (ops : list (list Byte.byte * Z))
  : outcome CountMinSketch :=
  match ops with
  | [] => Done cms
  | (k, n) :: ops' => cms' <- Add cms k n ;; AddAll cms' ops'
  end.

End CMS.

(** The conversion [[]byte(key)] of a Go string. *)
Definition bytes_of (s : string) : list Byte.byte :=
  String.list_byte_of_string s.

(** ** algorithm.Item and the heap of pointers to items *)

Module Algo.

Record Item : Type := mkItem {
  Key : string;
  Count : Z;
  Error : Z;
  Index : Z
}.

Definition set_Index (it : Item) (i : Z) : Item :=
  mkItem (Key it) (Count it) (Error it) i.
Definition set_Count (it : Item) (c : Z) : Item :=
  mkItem (Key it) c (Error it) (Index it).
Definition set_Error (it : Item) (e : Z) : Item :=
  mkItem (Key it) (Count it) e (Index it).

End Algo.
Import Algo.

(** A pointer to an [Item] is an address into the store of allocated items. *)
Abbreviation addr := nat (only parsing).

(** Dereferencing: an address outside the store is a nil/dangling pointer. *)
Definition deref (m : list Item) (a : addr) : outcome Item :=
  match m !! a with
  | Some it => Done it
  | None => Panic
  end.

(** A [SpaceSavingHeap] value (a slice of pointers) together with the store
    its pointers point into. *)
Record hstate : Type := mkH {
  slots : list addr;
  cells : list Item
}.

(** The methods of [SpaceSavingHeap] ([heap.Interface]). *)
Module SSHeap.

Definition Len (s : hstate) : Z := Z.of_nat (length (slots s)).

(** [h[i].Count < h[j].Count] *)
Definition Less (s : hstate) (i j : Z) : outcome bool :=
  a <- index (slots s) i ;;
  x <- deref (cells s) a ;;
  b <- index (slots s) j ;;
  y <- deref (cells s) b ;;
  Done (Count x <? Count y).

(** [h[i], h[j] = h[j], h[i]; h[i].Index = i; h[j].Index = j] *)
Definition Swap (s : hstate) (i j : Z) : outcome hstate :=
  a <- index (slots s) i ;;
  b <- index (slots s) j ;;
  let h := <[Z.to_nat j := a]> (<[Z.to_nat i := b]> (slots s)) in
  x <- deref (cells s) b ;;
  let m := <[b := set_Index x i]> (cells s) in
  y <- deref m a ;;
  let m := <[a := set_Index y j]> m in
  Done (mkH h m).

(** [item.Index = n; *h = append( *h, item)] *)
Definition Push (s : hstate) (x : addr) : outcome hstate :=
  let n := Len s in
  it <- deref (cells s) x ;;
  Done (mkH (slots s ++ [x]) (<[x := set_Index it n]> (cells s))).

(** [item := old[n-1]; item.Index = -1; *h = old[0 : n-1]; return item] *)
Definition Pop (s : hstate) : outcome (hstate * addr) :=
  let n := Len s in
  item <- index (slots s) (n - 1) ;;
  it <- deref (cells s) item ;;
  Done (mkH (take (Z.to_nat (n - 1)) (slots s))
            (<[item := set_Index it (-1)]> (cells s)),
        item).

End SSHeap.

(** ** container/heap, instantiated at [SpaceSavingHeap]

    Go's [int] arithmetic: [/] truncates toward zero ([Z.quot]).  The test
    [j1 < 0] in [down] guards against overflow in Go; here it only fires for
    a negative start index. *)
Module Heap.

(** [up]: one loop iteration per unit of fuel. *)
Fixpoint up (fuel : nat) (s : hstate) (j : Z) : outcome hstate :=
  match fuel with
  | O => OutOfFuel
  | S fuel' =>
      let i := Z.quot (j - 1) 2 in
      if i =? j then Done s
      else
        lt <- SSHeap.Less s j i ;;
        if negb lt then Done s
        else
          s' <- SSHeap.Swap s i j ;;
          up fuel' s' i
  end.

(** The loop of [down]; the result carries the final value of [i]. *)
Fixpoint down_loop (fuel : nat) (s : hstate) (i n : Z)
  : outcome (hstate * Z) :=
  match fuel with
  | O => OutOfFuel
  | S fuel' =>
      let j1 := 2 * i + 1 in
      if (j1 >=? n) || (j1 <? 0) then Done (s, i)
      else
        let j2 := j1 + 1 in
        j <- (if j2 <? n
              then (lt <- SSHeap.Less s j2 j1 ;; Done (if lt then j2 else j1))
              else Done j1) ;;
        lt <- SSHeap.Less s j i ;;
        if negb lt then Done (s, i)
        else
          s' <- SSHeap.Swap s i j ;;
          down_loop fuel' s' j n
  end.

(** Fuel that suffices for both loops on a heap of this length. *)
Definition fuel_for (s : hstate) : nat := S (length (slots s)).

(** [down(h, i0, n)] returns [i > i0]. *)
Definition down (s : hstate) (i0 n : Z) : outcome (hstate * bool) :=
  r <- down_loop (fuel_for s) s i0 n ;;
  Done (fst r, snd r >? i0).

(** [for i := n/2 - 1; i >= 0; i-- { down(h, i, n) }], [k] iterations left *)
Fixpoint init_loop (k : nat) (s : hstate) (i n : Z) : outcome hstate :=
  match k with
  | O => Done s
  | S k' =>
      r <- down s i n ;;
      init_loop k' (fst r) (i - 1) n
  end.

Definition Init (s : hstate) : outcome hstate :=
  let n := SSHeap.Len s in
  init_loop (Z.to_nat (Z.quot n 2)) s (Z.quot n 2 - 1) n.

Definition Push (s : hstate) (x : addr) : outcome hstate :=
  s' <- SSHeap.Push s x ;;
  up (fuel_for s') s' (SSHeap.Len s' - 1).

Definition Pop (s : hstate) : outcome (hstate * addr) :=
  let n := SSHeap.Len s - 1 in
  s1 <- SSHeap.Swap s 0 n ;;
  r <- down s1 0 n ;;
  SSHeap.Pop (fst r).

Definition Fix (s : hstate) (i : Z) : outcome hstate :=
  r <- down s i (SSHeap.Len s) ;;
  if negb (snd r) then up (fuel_for (fst r)) (fst r) i
  else Done (fst r).

End Heap.

(** ** algorithm.SpaceSaving *)

Module SS.

Record SpaceSaving : Type := mkSS {
  capacity : Z;
  items : gmap string addr;
  heap : list addr;
  mem : list Item
}.

Definition hs (ss : SpaceSaving) : hstate := mkH (heap ss) (mem ss).

Definition with_hs (ss : SpaceSaving) (its : gmap string addr) (s : hstate)
  : SpaceSaving :=
  mkSS (capacity ss) its (slots s) (cells s).

(** [NewSpaceSaving]; [make] with a negative capacity panics. *)
Definition NewSpaceSaving (capacity : Z) : outcome SpaceSaving :=
  if capacity <? 0 then Panic else Done (mkSS capacity ∅ [] []).

(** [SpaceSaving.Add] *)
Definition Add (ss : SpaceSaving) (key : string) (count : Z)
  : outcome SpaceSaving :=
  match items ss !! key with
  | Some a =>
      (* the key already exists: increment its count *)
      item <- deref (mem ss) a ;;
      let item' := set_Count item (wrap64 (Count item + count)) in
      s <- Heap.Fix (mkH (heap ss) (<[a := item']> (mem ss))) (Index item') ;;
      Done (with_hs ss (items ss) s)
  | None =>
      if SSHeap.Len (hs ss) <? capacity ss then
        (* below capacity: allocate a new item and push it *)
        let a := length (mem ss) in
        let item := mkItem key count 0 0 in
        s <- Heap.Push (mkH (heap ss) (mem ss ++ [item])) a ;;
        Done (with_hs ss (<[key := a]> (items ss)) s)
      else
        (* replace the smallest item *)
        a <- index (heap ss) 0 ;;
        smallest <- deref (mem ss) a ;;
        let newCount := wrap64 (Count smallest + count) in
        let newError := Count smallest in
        let its := delete (Key smallest) (items ss) in
        let smallest' := mkItem key newCount newError (Index smallest) in
        let its := <[key := a]> its in
        s <- Heap.Fix (mkH (heap ss) (<[a := smallest']> (mem ss))) 0 ;;
        Done (with_hs ss its s)
  end.

(** The loop [for len(copyHeap) > 0] of [TopK]: pop and append a copy of
    the popped item. *)
Fixpoint drain (fuel : nat) (s : hstate) (result : list Item)
  : outcome (hstate * list Item) :=
  if SSHeap.Len s >? 0 then
    match fuel with
    | O => OutOfFuel
    | S fuel' =>
        r <- Heap.Pop s ;;
        it <- deref (cells (fst r)) (snd r) ;;
        drain fuel' (fst r) (result ++ [it])
    end
  else Done (s, result).

(** [SpaceSaving.TopK].  [copyHeap] is a fresh slice holding the same
    pointers, so the [Index] writes of [Swap] and [Pop] land in the shared
    items; the slice [ss.heap] itself is not changed. *)
Definition TopK (ss : SpaceSaving) (k : Z)
  : outcome (list Item * SpaceSaving) :=
  let copyHeap := mkH (heap ss) (mem ss) in
  r <- drain (length (heap ss)) copyHeap [] ;;
  let result := snd r in
  let k := if k >? Z.of_nat (length result)
           then Z.of_nat (length result) else k in
  let result := reverse result in
  if k <? 0 then Panic
  else Done (take (Z.to_nat k) result,
             mkSS (capacity ss) (items ss) (heap ss) (cells (fst r))).

(** The loop of [Decay] over the entries of [ss.items].  [scale] stands
    for [fun x => uint64(float64(x) * factor)]. *)
Fixpoint decay_items (scale : Z -> Z) (entries : list (string * addr))
    (m : list Item) : outcome (list Item) :=
  match entries with
  | [] => Done m
  | (_, a) :: rest =>
      item <- deref m a ;;
      let item := set_Count item (scale (Count item)) in
      let item := set_Error item (scale (Error item)) in
      decay_items scale rest (<[a := item]> m)
  end.

(** [SpaceSaving.Decay] *)
Definition Decay (scale : Z -> Z) (ss : SpaceSaving) : outcome SpaceSaving :=
  m <- decay_items scale (map_to_list (items ss)) (mem ss) ;;
  s <- Heap.Init (mkH (heap ss) m) ;;
  Done (with_hs ss (items ss) s).

(** [SpaceSaving.Clear] *)
Definition Clear (ss : SpaceSaving) : SpaceSaving :=
  mkSS (capacity ss) ∅ [] (mem ss).

(** A stream of [Add] calls. *)
Fixpoint AddAll (ss : SpaceSaving) (ops : list (string * Z))
  : outcome SpaceSaving :=
  match ops with
  | [] => Done ss
  | (k, n) :: ops' => ss' <- Add ss k n ;; AddAll ss' ops'
  end.

(** [SpaceSaving.Count] *)
Definition Count (ss : SpaceSaving) (key : string) : outcome Z :=
  match items ss !! key with
  | Some a => item <- deref (mem ss) a ;; Done (Count item)
  | None => Done 0
  end.

End SS.

(** ** detector.hotKeyDetector *)

Module Detector.

Definition DefaultTopK : Z := 100.
Definition DefaultDecayInterval : Z := 60 * 1000000000.

(** [detector.Config].  The two floating-point fields are represented by
    what the code computes from them: [ErrorRate] by the sketch width
    [ceil (e / ErrorRate)] and [DecayFactor] by the map
    [fun c => uint64(float64(c) * DecayFactor)] on counters; both are
    taken after defaulting.  Durations and times are in nanoseconds. *)
Record Config : Type := mkConfig {
  Width : Z;
  CfgTopK : Z;
  DecayScale : Z -> Z;
  DecayInterval : Z;
  HotThreshold : Z
}.

Record KeyCount : Type := mkKeyCount {
  Key : string;
  Count : Z
}.

Record hotKeyDetector : Type := mkDetector {
  sketch : CMS.CountMinSketch;
  topK : SS.SpaceSaving;
  config : Config;
  lastDecay : Z;
  decayInterval : Z
}.

(** [detector.New]: the integer defaults, then a sketch at 99%%
    confidence (depth [ceil (ln 100) = 5]) and a Space-Saving structure of
    capacity [TopK]. *)
Definition New (cfg : Config) (now : Z) : outcome hotKeyDetector :=
  let cfg := if CfgTopK cfg <=? 0
             then mkConfig (Width cfg) DefaultTopK (DecayScale cfg)
                           (DecayInterval cfg) (HotThreshold cfg)
             else cfg in
  let cfg := if DecayInterval cfg <=? 0
             then mkConfig (Width cfg) (CfgTopK cfg) (DecayScale cfg)
                           DefaultDecayInterval (HotThreshold cfg)
             else cfg in
  sk <- CMS.NewCountMinSketch 5 (Width cfg) ;;
  tk <- SS.NewSpaceSaving (CfgTopK cfg) ;;
  Done (mkDetector sk tk cfg now (DecayInterval cfg)).

(** [Increment]; [now] is the reading of [time.Now()]. *)
Definition Increment (d : hotKeyDetector) (now : Z) (key : string)
    (count : Z) : outcome hotKeyDetector :=
  let decay := now - lastDecay d >=? decayInterval d in
  let sk := if decay then CMS.Decay (DecayScale (config d)) (sketch d)
            else sketch d in
  let last := if decay then now else lastDecay d in
  sk <- CMS.Add sk (bytes_of key) count ;;
  tk <- SS.Add (topK d) key count ;;
  Done (mkDetector sk tk (config d) last (decayInterval d)).

(** [GetCount] *)
Definition GetCount (d : hotKeyDetector) (key : string) : outcome Z :=
  CMS.Estimate (sketch d) (bytes_of key).

(** The first loop of [TopK]: one [KeyCount] per item, carrying the
    sketch estimate of the item's key. *)
Fixpoint estimate_all (sk : CMS.CountMinSketch) (its : list Item)
  : outcome (list KeyCount) :=
  match its with
  | [] => Done []
  | item :: rest =>
      accurateCount <- CMS.Estimate sk (bytes_of (Algo.Key item)) ;;
      result <- estimate_all sk rest ;;
      Done (mkKeyCount (Algo.Key item) accurateCount :: result)
  end.

(** [if result[i].Count < result[j].Count { swap }] *)
Definition sort_step (result : list KeyCount) (i j : nat) : list KeyCount :=
  match result !! i, result !! j with
  | Some x, Some y =>
      if Count x <? Count y then <[j := x]> (<[i := y]> result) else result
  | _, _ => result
  end.

(** [for j := i + 1; j < len(result); j++], with [n] iterations left *)
Fixpoint sort_inner (n : nat) (i j : nat) (result : list KeyCount)
  : list KeyCount :=
  match n with
  | O => result
  | S n' => sort_inner n' i (S j) (sort_step result i j)
  end.

(** [for i := 0; i < len(result)-1; i++], with [n] iterations left *)
Fixpoint sort_outer (n : nat) (i : nat) (result : list KeyCount)
  : list KeyCount :=
  match n with
  | O => result
  | S n' =>
      sort_outer n' (S i)
        (sort_inner (length result - S i) i (S i) result)
  end.

Definition sort_desc (result : list KeyCount) : list KeyCount :=
  sort_outer (length result - 1) 0 result.

(** [hotKeyDetector.TopK]; the detector is returned as well because
    [SpaceSaving.TopK] writes to the shared items. *)
Definition TopK (d : hotKeyDetector)
  : outcome (list KeyCount * hotKeyDetector) :=
  r <- SS.TopK (topK d) (CfgTopK (config d)) ;;
  result <- estimate_all (sketch d) (fst r) ;;
  Done (sort_desc result,
        mkDetector (sketch d) (snd r) (config d) (lastDecay d)
                   (decayInterval d)).

(** [for _, kc := range topK { if kc.Key == key { return true } }] *)
Fixpoint contains_key (l : list KeyCount) (key : string) : bool :=
  match l with
  | [] => false
  | kc :: rest => if String.eqb (Key kc) key then true
                  else contains_key rest key
  end.

(** [hotKeyDetector.IsHot] *)
Definition IsHot (d : hotKeyDetector) (key : string)
  : outcome (bool * hotKeyDetector) :=
  count <- GetCount d key ;;
  if HotThreshold (config d) >? 0 then
    Done (count >=? HotThreshold (config d), d)
  else
    r <- TopK d ;;
    Done (contains_key (fst r) key, snd r).

(** [hotKeyDetector.Reset] *)
Definition Reset (d : hotKeyDetector) (now : Z) : outcome hotKeyDetector :=
  tk <- SS.NewSpaceSaving (CfgTopK (config d)) ;;
  Done (mkDetector (CMS.Reset (sketch d)) tk (config d) now
                   (decayInterval d)).

End Detector.

(** ** policy: the local cache

A [float64] is represented by a rational; rounding is not modelled.
[time.Time] and [time.Duration] are integers (nanoseconds).  The clock
reading and the eight random bytes consumed by a call are arguments. *)

Module LocalCache.

Definition Second : Z := 1000000000.
Definition MaxInt64 : Z := 2 ^ 63 - 1.

(** The conversions [int(x)] and [time.Duration(x)] of a float:
    truncation toward zero. *)
Definition trunc (x : Q) : Z := Z.quot (Qnum x) (Z.pos (Qden x)).

Record LocalCacheConfig : Type := mkLocalCacheConfig {
  TTL : Q;
  Jitter : Q;
  Capacity : Q;
  RefreshAhead : Q
}.

Section WithValue.

(** The payload type ([any] in the source). *)
Context {V : Type}.

Record CacheItem : Type := mkCacheItem {
  Key : string;
  Value : V;
  Expiration : Z;
  RefreshAt : Z
}.

(** [IsExpired]: [time.Now().After(c.Expiration)] *)
Definition IsExpired (now : Z) (c : CacheItem) : bool :=
  (now >? Expiration c)%Z.

(** [ShouldRefresh]: [time.Now().After(c.RefreshAt)] *)
Definition ShouldRefresh (now : Z) (c : CacheItem) : bool :=
  (now >? RefreshAt c)%Z.

Record localCachePolicy : Type := mkLocalCachePolicy {
  config : LocalCacheConfig;
  cache : gmap string CacheItem;
  size : Z
}.

Definition newLocalCachePolicy (cfg : LocalCacheConfig)
  : localCachePolicy :=
  mkLocalCachePolicy cfg ∅ 0.

(** The dynamic type of [ctx.Data]. *)
Inductive RequestData : Type :=
  | GetRequest
  | SetRequest (value : V) (ttl : option Q)
  | OtherRequest.

Record Context : Type := mkContext {
  CtxKey : string;
  CtxData : RequestData
}.

Inductive ResultData : Type :=
  | CacheHit (key : string) (value : V) (shouldRefresh : bool)
  | CacheMiss (key : string)
  | CacheSet (key : string) (ttl : Q).

Inductive ApplyError : Type :=
  | UnsupportedOperation
  | InvalidSetRequest.

Record Result : Type := mkResult {
  ResData : option ResultData;
  ResError : option ApplyError
}.

(** [handleGet] *)
Definition handleGet (p : localCachePolicy) (now : Z) (ctx : Context)
  : Result * localCachePolicy :=
  match cache p !! CtxKey ctx with
  | None => (mkResult (Some (CacheMiss (CtxKey ctx))) None, p)
  | Some item =>
      if IsExpired now item then
        (mkResult (Some (CacheMiss (CtxKey ctx))) None,
         mkLocalCachePolicy (config p) (delete (CtxKey ctx) (cache p))
                            (size p - 1)%Z)
      else
        (mkResult (Some (CacheHit (CtxKey ctx) (Value item)
                                  (ShouldRefresh now item))) None, p)
  end.

(** The [int64] assembled from the eight random bytes. *)
Definition int64_of_bytes (bs : list Z) : Z :=
  let u := fold_left (fun acc b => (acc * 256 + b mod 256)%Z) bs 0%Z in
  let u := (u mod 2 ^ 64)%Z in
  if (u >=? 2 ^ 63)%Z then (u - 2 ^ 64)%Z else u.

(** [calculateTTLWithJitter] *)
Definition calculateTTLWithJitter (p : localCachePolicy)
    (randomBytes : list Z) : Q :=
  if Qle_bool (Jitter (config p)) 0 then TTL (config p)
  else
    let jitterRange := (TTL (config p) * Jitter (config p))%Q in
    let randomValue :=
      (inject_Z (int64_of_bytes randomBytes) / inject_Z MaxInt64)%Q in
    let jitter := (randomValue * jitterRange)%Q in
    (TTL (config p) + jitter)%Q.

(** The loop of [evictLRU] over the entries of the map, in the order
    [entries] in which the iteration visits them. *)
Fixpoint oldest_entry (entries : list (string * CacheItem))
    (oldestKey : string) (oldestTime : Z) (first : bool)
  : string * Z * bool :=
  match entries with
  | [] => (oldestKey, oldestTime, first)
  | (key, item) :: rest =>
      if first || (Expiration item <? oldestTime)%Z
      then oldest_entry rest key (Expiration item) false
      else oldest_entry rest oldestKey oldestTime first
  end.

(** [evictLRU].  Go visits the map in an unspecified order; the order of
    [map_to_list] is one of them.  The initial value of [oldestTime] is
    never compared, because [first] holds at the first entry. *)
Definition evictLRU (p : localCachePolicy) : localCachePolicy :=
  let '(oldestKey, _, _) :=
    oldest_entry (map_to_list (cache p)) "" (-1)%Z true in
  if negb (String.eqb oldestKey "") then
    mkLocalCachePolicy (config p) (delete oldestKey (cache p))
                       (size p - 1)%Z
  else p.

(** [handleSet] *)
Definition handleSet (p : localCachePolicy) (now : Z)
    (randomBytes : list Z) (ctx : Context) : Result * localCachePolicy :=
  match CtxData ctx with
  | SetRequest value _ =>
      let p :=
        match cache p !! CtxKey ctx with
        | None =>
            if (size p >=? trunc (Capacity (config p)))%Z
            then evictLRU p else p
        | Some _ => p
        end in
      let ttl := calculateTTLWithJitter p randomBytes in
      let expiration := (now + trunc ttl * Second)%Z in
      let refreshAt :=
        (now + trunc (ttl * RefreshAhead (config p))%Q * Second)%Z in
      let item := mkCacheItem (CtxKey ctx) value expiration refreshAt in
      let sz := match cache p !! CtxKey ctx with
                | None => (size p + 1)%Z
                | Some _ => size p
                end in
      (mkResult (Some (CacheSet (CtxKey ctx) ttl)) None,
       mkLocalCachePolicy (config p) (<[CtxKey ctx := item]> (cache p)) sz)
  | _ => (mkResult None (Some InvalidSetRequest), p)
  end.

(** [localCachePolicy.Apply] *)
Definition Apply (p : localCachePolicy) (now : Z) (randomBytes : list Z)
    (ctx : Context) : Result * localCachePolicy :=
  match CtxData ctx with
  | GetRequest => handleGet p now ctx
  | SetRequest _ _ => handleSet p now randomBytes ctx
  | OtherRequest => (mkResult None (Some UnsupportedOperation), p)
  end.

Record CacheStats : Type := mkCacheStats {
  StatsSize : Z;
  StatsCapacity : Z;
  StatsExpiredItems : Z
}.

(** [GetCacheStats]; [now] is the clock reading of the [IsExpired]
    calls. *)
Definition GetCacheStats (p : localCachePolicy) (now : Z) : CacheStats :=
  let expiredCount :=
    fold_left (fun expiredCount e =>
                 if IsExpired now (snd e) then (expiredCount + 1)%Z
                 else expiredCount)
              (map_to_list (cache p)) 0%Z in
  mkCacheStats (size p) (trunc (Capacity (config p))) expiredCount.

(** A run of [Apply] calls, each with its clock reading and random
    bytes. *)
Fixpoint ApplyAll (p : localCachePolicy)
    (calls : list (Z * list Z * Context)) : localCachePolicy :=
  match calls with
  | [] => p
  | (now, rnd, ctx) :: rest => ApplyAll (snd (Apply p now rnd ctx)) rest
  end.

End WithValue.

Arguments CacheItem : clear implicits.
Arguments localCachePolicy : clear implicits.
Arguments RequestData : clear implicits.
Arguments Context : clear implicits.
Arguments ResultData : clear implicits.
Arguments Result : clear implicits.

End LocalCache.

(** ** policy: the manager *)

Module Manager.

Definition LocalCache : string := "local-cache".
Definition KeySplitting : string := "key-splitting".

Record KeySplittingConfig : Type := mkKeySplittingConfig {
  Shards : Z
}.

(** The dynamic type of [Config.Parameters]. *)
Inductive Parameters : Type :=
  | ParamLocalCache (c : LocalCache.LocalCacheConfig)
  | ParamKeySplitting (c : KeySplittingConfig)
  | ParamOther.

Record Config : Type := mkConfig {
  Type_ : string;
  Params : Parameters;
  WhitelistKeys : list string;
  WhitelistPatterns : list string
}.

Inductive error : Type :=
  | InvalidParameters (ty : string)
  | UnsupportedPolicyType (ty : string)
  | CompileError (pattern : string)
  | InvalidWhitelistPattern (pattern : string) (cause : error).

Section WithRegexp.

(** Go's [regexp] package: the compiled form, [regexp.Compile] (which
    fails on some strings) and [Regexp.MatchString]. *)
Context {V : Type} {Regexp : Type}.
Variable Compile : string -> option Regexp.
Variable MatchString : Regexp -> string -> bool.

Inductive Policy : Type :=
  | LocalCachePolicy (p : LocalCache.localCachePolicy V)
  | KeySplittingPolicy (c : KeySplittingConfig).

Record manager : Type := mkManager {
  policy : Policy;
  patternRegexps : gmap string Regexp;
  whitelistKeys : gmap string bool
}.

(** [manager.RegisterPattern] *)
Definition RegisterPattern (m : manager) (pattern : string)
  : error + manager :=
  match Compile pattern with
  | None => inl (CompileError pattern)
  | Some r =>
      inr (mkManager (policy m) (<[pattern := r]> (patternRegexps m))
                     (whitelistKeys m))
  end.

(** The loop of [New] over [config.WhitelistPatterns]. *)
Fixpoint register_all (m : manager) (patterns : list string)
  : error + manager :=
  match patterns with
  | [] => inr m
  | pattern :: rest =>
      match RegisterPattern m pattern with
      | inl err => inl (InvalidWhitelistPattern pattern err)
      | inr m' => register_all m' rest
      end
  end.

(** [policy.New] *)
Definition New (cfg : Config) : error + manager :=
  let p :=
    if String.eqb (Type_ cfg) LocalCache then
      match Params cfg with
      | ParamLocalCache params =>
          inr (LocalCachePolicy (LocalCache.newLocalCachePolicy params))
      | _ => inl (InvalidParameters LocalCache)
      end
    else if String.eqb (Type_ cfg) KeySplitting then
      match Params cfg with
      | ParamKeySplitting params => inr (KeySplittingPolicy params)
      | _ => inl (InvalidParameters KeySplitting)
      end
    else inl (UnsupportedPolicyType (Type_ cfg)) in
  match p with
  | inl err => inl err
  | inr p =>
      let m := mkManager p ∅ ∅ in
      let m := mkManager p ∅
                 (fold_left (fun wl key => <[key := true]> wl)
                            (WhitelistKeys cfg) (whitelistKeys m)) in
      register_all m (WhitelistPatterns cfg)
  end.

(** [manager.GetPolicy] *)
Definition GetPolicy (m : manager) (key : string) : option Policy :=
  if default false (whitelistKeys m !! key) then Some (policy m)
  else if existsb (fun e => MatchString (snd e) key)
                  (map_to_list (patternRegexps m))
  then Some (policy m)
  else None.

Definition AddWhitelistKey (m : manager) (key : string) : manager :=
  mkManager (policy m) (patternRegexps m) (<[key := true]> (whitelistKeys m)).

Definition RemoveWhitelistKey (m : manager) (key : string) : manager :=
  mkManager (policy m) (patternRegexps m) (delete key (whitelistKeys m)).

End WithRegexp.

Arguments Policy : clear implicits.
Arguments manager : clear implicits.

End Manager.

(** ** policy: key splitting

[rand.Int()] is an argument of [handleLookAsideGet]; it is never
negative.  [fmt.Sprintf] with the verb [%d] prints a Go [int] in
decimal ([pretty]). *)

Module KeySplitting.

Import Manager.

Section WithValue.

Context {V : Type}.

Record keySplittingPolicy : Type := mkKeySplittingPolicy {
  config : KeySplittingConfig
}.

Definition newKeySplittingPolicy (config : KeySplittingConfig)
  : keySplittingPolicy :=
  mkKeySplittingPolicy config.

(** The two action types that [Apply] returns in [Result.Data]. *)
Record KeySplittingGetAction : Type := mkGetAction {
  GetOriginalKey : string;
  RandShardKey : string;
  GetShardKeys : list string
}.

Record KeySplittingSetAction : Type := mkSetAction {
  OriginalKey : string;
  ShardKeys : list string;
  Value : V;
  TTL : option Q;
  Action : string
}.

Inductive ResultData : Type :=
  | GetAction (a : KeySplittingGetAction)
  | SetAction (a : KeySplittingSetAction).

Record Result : Type := mkResult {
  ResData : option ResultData;
  ResError : option LocalCache.ApplyError
}.

(** [fmt.Sprintf("%s:shard:%d", key, i)] *)
Definition shardKey (key : string) (i : Z) : string :=
  key +:+ ":shard:" +:+ pretty i.

(** [for i := range shards { shardKeys[i] = ... }], with [n] iterations
    left *)
Fixpoint fill_shards (key : string) (n : nat) (i : Z)
    (shardKeys : list string) : list string :=
  match n with
  | O => shardKeys
  | S n' =>
      fill_shards key n' (i + 1) (<[Z.to_nat i := shardKey key i]> shardKeys)
  end.

(** [generateShardKeys]; [make] with a negative length panics. *)
Definition generateShardKeys (p : keySplittingPolicy) (key : string)
  : outcome (list string) :=
  let shards := Shards (config p) in
  if shards <? 0 then Panic
  else
    let shardKeys := replicate (Z.to_nat shards) EmptyString in
    Done (fill_shards key (Z.to_nat shards) 0 shardKeys).

(** [handleLookAsideGet]; the remainder by zero panics. *)
Definition handleLookAsideGet (p : keySplittingPolicy) (rnd : Z)
    (key : string) : outcome Result :=
  shardKeys <- generateShardKeys p key ;;
  if Shards (config p) =? 0 then Panic
  else
    randShardKey <- index shardKeys (Z.rem rnd (Shards (config p))) ;;
    Done (mkResult (Some (GetAction (mkGetAction key randShardKey shardKeys)))
                   None).

(** [handleLookAsideSet]; the field [Action] is left at its zero value. *)
Definition handleLookAsideSet (p : keySplittingPolicy) (key : string)
    (value : V) (ttl : option Q) : outcome Result :=
  shardKeys <- generateShardKeys p key ;;
  Done (mkResult (Some (SetAction (mkSetAction key shardKeys value ttl
                                               EmptyString)))
                 None).

(** [keySplittingPolicy.Apply] *)
Definition Apply (p : keySplittingPolicy) (rnd : Z)
    (ctx : LocalCache.Context V) : outcome Result :=
  match LocalCache.CtxData ctx with
  | LocalCache.GetRequest => handleLookAsideGet p rnd (LocalCache.CtxKey ctx)
  | LocalCache.SetRequest value ttl =>
      handleLookAsideSet p (LocalCache.CtxKey ctx) value ttl
  | LocalCache.OtherRequest =>
      Done (mkResult None (Some LocalCache.UnsupportedOperation))
  end.

End WithValue.

Arguments KeySplittingSetAction : clear implicits.
Arguments ResultData : clear implicits.
Arguments Result : clear implicits.

End KeySplitting.

(** ** metrics: the snapshot history *)

Module History.

Record KeyMetadata : Type := mkKeyMetadata {
  FirstSeen : Z;
  LastSeen : Z;
  PrevCount : Z
}.

Record HotKeySnapshot : Type := mkSnapshot {
  Timestamp : Z;
  Keys : list Detector.KeyCount;
  KeyMeta : gmap string KeyMetadata
}.

Record hotKeyHistory : Type := mkHistory {
  snapshots : list HotKeySnapshot;
  maxSize : Z;
  keyMeta : gmap string KeyMetadata
}.

(** [newHotKeyHistory] *)
Definition newHotKeyHistory (maxSize : Z) : hotKeyHistory :=
  let maxSize := if (maxSize <=? 0)%Z then 30%Z else maxSize in
  mkHistory [] maxSize ∅.

(** The first loop of [Add]: metadata of every key of the new list, in
    [currentMeta] and in [h.keyMeta]. *)
Fixpoint update_meta (now : Z) (keys : list Detector.KeyCount)
    (currentMeta km : gmap string KeyMetadata)
  : gmap string KeyMetadata * gmap string KeyMetadata :=
  match keys with
  | [] => (currentMeta, km)
  | kc :: rest =>
      let existing :=
        match km !! Detector.Key kc with
        | None => mkKeyMetadata now now 0
        | Some existing =>
            mkKeyMetadata (FirstSeen existing) now (PrevCount existing)
        end in
      update_meta now rest
        (<[Detector.Key kc := existing]> currentMeta)
        (<[Detector.Key kc := existing]> km)
  end.

(** The last loop of [Add]: previous counts for the next call. *)
Fixpoint update_prev (keys : list Detector.KeyCount)
    (km : gmap string KeyMetadata) : gmap string KeyMetadata :=
  match keys with
  | [] => km
  | kc :: rest =>
      let km :=
        match km !! Detector.Key kc with
        | Some meta =>
            <[Detector.Key kc :=
                mkKeyMetadata (FirstSeen meta) (LastSeen meta)
                              (Detector.Count kc)]> km
        | None => km
        end in
      update_prev rest km
  end.

(** [hotKeyHistory.Add] *)
Definition Add (h : hotKeyHistory) (now : Z) (keys : list Detector.KeyCount)
  : hotKeyHistory :=
  let '(currentMeta, km) := update_meta now keys ∅ (keyMeta h) in
  let snapshot := mkSnapshot now keys currentMeta in
  let snaps := snapshots h ++ [snapshot] in
  let snaps := if (Z.of_nat (length snaps) >? maxSize h)%Z
               then drop 1 snaps else snaps in
  mkHistory snaps (maxSize h) (update_prev keys km).

(** [hotKeyHistory.GetLatest] *)
Definition GetLatest (h : hotKeyHistory) : option HotKeySnapshot :=
  last (snapshots h).

Inductive Trend : Type := TrendNew | Rising | Falling | Stable.

(** The trend computed by [handleHotKeys] for an entry of a snapshot;
    [None] when the snapshot has no metadata for the key. *)
Definition trend (snapshot : HotKeySnapshot) (kc : Detector.KeyCount)
  : option Trend :=
  match KeyMeta snapshot !! Detector.Key kc with
  | Some meta =>
      if (PrevCount meta =? 0)%Z then Some TrendNew
      else if (Detector.Count kc >? PrevCount meta)%Z then Some Rising
      else if (Detector.Count kc <? PrevCount meta)%Z then Some Falling
      else Some Stable
  | None => None
  end.

(** A run of [Add] calls. *)
Fixpoint AddAll (h : hotKeyHistory)
    (calls : list (Z * list Detector.KeyCount)) : hotKeyHistory :=
  match calls with
  | [] => h
  | (now, keys) :: rest => AddAll (Add h now keys) rest
  end.

(** [TimeSeriesData]; rates and intervals are [float64] in the source,
    rationals here. *)
Module TimeSeriesData.
Record t : Type := mk {
  Timestamp : Z;
  Keys : gmap string Z;
  Rates : gmap string Q;
  Interval : Q
}.
End TimeSeriesData.

(** [for _, kc := range snapshot.Keys { if kc.Key == key { ...; break } }] *)
Fixpoint find_count (l : list Detector.KeyCount) (key : string) : Z :=
  match l with
  | [] => 0%Z
  | kc :: rest =>
      if String.eqb (Detector.Key kc) key then Detector.Count kc
      else find_count rest key
  end.

(** The body of the loop of [GetTimeSeries] over the requested keys;
    [later] is [i > startIdx]. *)
Definition series_key (later : bool) (interval : Q)
    (snapshot : HotKeySnapshot)
    (st : gmap string Z * gmap string Q * gmap string Z) (key : string)
  : gmap string Z * gmap string Q * gmap string Z :=
  let '(keyData, rateData, prevCounts) := st in
  let currentCount := find_count (Keys snapshot) key in
  let rate :=
    if later && negb (Qle_bool interval 0) then
      match prevCounts !! key with
      | Some prevCount =>
          let delta := int64 (int64 currentCount - int64 prevCount) in
          let delta := if (delta <? 0)%Z then 0%Z else delta in
          (inject_Z delta / interval)%Q
      | None => (inject_Z currentCount / interval)%Q
      end
    else 0%Q in
  (<[key := currentCount]> keyData, <[key := rate]> rateData,
   <[key := currentCount]> prevCounts).

(** The loop of [GetTimeSeries] over the snapshots from [startIdx] on.
    [Duration.Seconds] is the duration divided by 10^9. *)
Fixpoint series_loop (snaps : list HotKeySnapshot) (keys : list string)
    (later : bool) (prevCounts : gmap string Z) (prevTimestamp : Z)
    (result : list TimeSeriesData.t) : list TimeSeriesData.t :=
  match snaps with
  | [] => result
  | snapshot :: rest =>
      let interval :=
        if later
        then (inject_Z (Timestamp snapshot - prevTimestamp)
              / inject_Z 1000000000)%Q
        else 0%Q in
      let '(keyData, rateData, prevCounts) :=
        fold_left (series_key later interval snapshot) keys
                  (∅, ∅, prevCounts) in
      series_loop rest keys true prevCounts (Timestamp snapshot)
        (result ++ [TimeSeriesData.mk (Timestamp snapshot) keyData rateData
                                      interval])
  end.

(** [hotKeyHistory.GetTimeSeries] *)
Definition GetTimeSeries (h : hotKeyHistory) (keys : list string)
    (maxPoints : Z) : list TimeSeriesData.t :=
  let len := Z.of_nat (length (snapshots h)) in
  if (len =? 0)%Z then []
  else
    let startIdx :=
      if (maxPoints >? 0)%Z && (len >? maxPoints)%Z
      then (len - maxPoints)%Z else 0%Z in
    series_loop (drop (Z.to_nat startIdx) (snapshots h)) keys false ∅ 0%Z [].

End History.

(** ** internal: the singleton life cycle *)

Module Engine.

Inductive error : Type :=
  | AlreadyInitialized
  | NotInitialized
  | AlreadyRunning
  | NotRunning
  | PolicyError
  | CollectorError.

(** The fields of [KeyFlare] that the life cycle reads or writes. *)
Record KeyFlare : Type := mkKeyFlare {
  isRunning : bool
}.

(** The package variable [globalInstance]; [None] is [nil]. *)
Definition global : Type := option KeyFlare.

(** [internal.New]; [policyManager] is the result of [policy.New]
    ([true] for a nil error). *)
Definition New (g : global) (policyManager : bool) : option error * global :=
  match g with
  | Some _ => (Some AlreadyInitialized, g)
  | None =>
      if negb policyManager then (Some PolicyError, g)
      else (None, Some (mkKeyFlare false))
  end.

(** [internal.Start]; [collector] is the result of [metrics.Start()]
    ([true] for a nil error). *)
Definition Start (g : global) (collector : bool) : option error * global :=
  match g with
  | None => (Some NotInitialized, g)
  | Some kf =>
      if isRunning kf then (Some AlreadyRunning, g)
      else if negb collector then (Some CollectorError, g)
      else (None, Some (mkKeyFlare true))
  end.

(** [internal.Stop]; [collector] is the result of [metrics.Stop()]. *)
Definition Stop (g : global) (collector : bool) : option error * global :=
  match g with
  | None => (Some NotInitialized, g)
  | Some kf =>
      if isRunning kf then
        if negb collector then (Some CollectorError, g)
        else (None, None)
      else (None, None)
  end.

(** [internal.GetInstance] *)
Definition GetInstance (g : global) : error + KeyFlare :=
  match g with
  | None => inl NotInitialized
  | Some kf => if isRunning kf then inr kf else inl NotRunning
  end.

End Engine.

(** ** keyflare: options, defaults and construction

The floating-point options are rationals; the only operations on them
are the comparison with zero and copying.  Durations are integers
(nanoseconds). *)

Module Keyflare.

Definition Second : Z := 1000000000.

Definition DefaultDetectorErrorRate : Q := 1 # 100.
Definition DefaultDetectorTopK : Z := 100.
Definition DefaultDetectorDecayFactor : Q := 98 # 100.
Definition DefaultDetectorDecayInterval : Z := 60 * Second.
Definition DefaultDetectorHotThreshold : Z := 0.

Definition DefaultLocalCacheTTL : Q := 60.
Definition DefaultLocalCacheJitter : Q := 2 # 10.
Definition DefaultLocalCacheCapacity : Q := 1000.
Definition DefaultLocalCacheRefreshAhead : Q := 8 # 10.

Definition DefaultKeySplittingShards : Z := 10.

Definition DefaultMetricsNamespace : string := "keyflare".
Definition DefaultMetricsServerAddress : string := ":9121".
Definition DefaultMetricsCollectionInterval : Z := 15 * Second.
Definition DefaultMetricsHotKeyLimit : Z := 10.
Definition DefaultMetricsHotKeyHistorySize : Z := 10.
Definition DefaultMetricsEnableAPI : bool := true.

Definition LocalCache : string := "local-cache".
Definition KeySplitting : string := "key-splitting".

Record DetectorOptions : Type := mkDetectorOptions {
  ErrorRate : Q;
  TopK : Z;
  DecayFactor : Q;
  DecayInterval : Z;
  HotThreshold : Z
}.

Record LocalCacheParams : Type := mkLocalCacheParams {
  TTL : Q;
  Jitter : Q;
  Capacity : Q;
  RefreshAhead : Q
}.

Record KeySplittingParams : Type := mkKeySplittingParams {
  Shards : Z
}.

(** The dynamic type of [PolicyOptions.Parameters]. *)
Inductive AnyParams : Type :=
  | NilParams
  | IsLocalCacheParams (p : LocalCacheParams)
  | IsKeySplittingParams (p : KeySplittingParams)
  | OtherParams.

Record PolicyOptions : Type := mkPolicyOptions {
  Type_ : string;
  Parameters : AnyParams;
  WhitelistKeys : list string;
  WhitelistPatterns : list string
}.

Record MetricsOptions : Type := mkMetricsOptions {
  Namespace : string;
  MetricServerAddress : string;
  CollectionInterval : Z;
  HotKeyMetricLimit : Z;
  HotKeyHistorySize : Z;
  EnableAPI : bool
}.

Record Options : Type := mkOptions {
  Detector_ : DetectorOptions;
  Policy_ : PolicyOptions;
  Metrics_ : MetricsOptions;
  EnableMetrics : bool
}.

Definition Option_ : Type := Options -> Options.

Definition DefaultDetectorOptions : DetectorOptions :=
  mkDetectorOptions DefaultDetectorErrorRate DefaultDetectorTopK
    DefaultDetectorDecayFactor DefaultDetectorDecayInterval
    DefaultDetectorHotThreshold.

Definition DefaultLocalCacheParams : LocalCacheParams :=
  mkLocalCacheParams DefaultLocalCacheTTL DefaultLocalCacheJitter
    DefaultLocalCacheCapacity DefaultLocalCacheRefreshAhead.

Definition DefaultKeySplittingParams : KeySplittingParams :=
  mkKeySplittingParams DefaultKeySplittingShards.

Definition DefaultPolicyOptions : PolicyOptions :=
  mkPolicyOptions LocalCache (IsLocalCacheParams DefaultLocalCacheParams)
    [] [].

Definition DefaultMetricsOptions : MetricsOptions :=
  mkMetricsOptions DefaultMetricsNamespace DefaultMetricsServerAddress
    DefaultMetricsCollectionInterval DefaultMetricsHotKeyLimit
    DefaultMetricsHotKeyHistorySize DefaultMetricsEnableAPI.

Definition DefaultOptions : Options :=
  mkOptions DefaultDetectorOptions DefaultPolicyOptions
    DefaultMetricsOptions true.

Definition WithDetectorOptions (opts : DetectorOptions) : Option_ :=
  fun o => mkOptions opts (Policy_ o) (Metrics_ o) (EnableMetrics o).


Definition WithMetricsOptions (opts : MetricsOptions) : Option_ :=
  fun o => mkOptions (Detector_ o) (Policy_ o) opts (EnableMetrics o).

Definition WithMetricsEnabled (enabled : bool) : Option_ :=
  fun o => mkOptions (Detector_ o) (Policy_ o) (Metrics_ o) enabled.

(** [applyDetectorDefaults] *)
Definition applyDetectorDefaults (opts : DetectorOptions) : DetectorOptions :=
  let opts := if Qle_bool (ErrorRate opts) 0
              then mkDetectorOptions DefaultDetectorErrorRate (TopK opts)
                     (DecayFactor opts) (DecayInterval opts)
                     (HotThreshold opts)
              else opts in
  let opts := if TopK opts <=? 0
              then mkDetectorOptions (ErrorRate opts) DefaultDetectorTopK
                     (DecayFactor opts) (DecayInterval opts)
                     (HotThreshold opts)
              else opts in
  let opts := if Qle_bool (DecayFactor opts) 0
              then mkDetectorOptions (ErrorRate opts) (TopK opts)
                     DefaultDetectorDecayFactor (DecayInterval opts)
                     (HotThreshold opts)
              else opts in
  let opts := if DecayInterval opts <=? 0
              then mkDetectorOptions (ErrorRate opts) (TopK opts)
                     (DecayFactor opts) DefaultDetectorDecayInterval
                     (HotThreshold opts)
              else opts in
  opts.

(** [applyLocalCacheDefaults] *)
Definition applyLocalCacheDefaults (params : LocalCacheParams)
  : LocalCacheParams :=
  let params := if Qle_bool (TTL params) 0
                then mkLocalCacheParams DefaultLocalCacheTTL (Jitter params)
                       (Capacity params) (RefreshAhead params)
                else params in
  let params := if Qle_bool (Jitter params) 0
                then mkLocalCacheParams (TTL params) DefaultLocalCacheJitter
                       (Capacity params) (RefreshAhead params)
                else params in
  let params := if Qle_bool (Capacity params) 0
                then mkLocalCacheParams (TTL params) (Jitter params)
                       DefaultLocalCacheCapacity (RefreshAhead params)
                else params in
  let params := if Qle_bool (RefreshAhead params) 0
                then mkLocalCacheParams (TTL params) (Jitter params)
                       (Capacity params) DefaultLocalCacheRefreshAhead
                else params in
  params.

(** [applyKeySplittingDefaults] *)
Definition applyKeySplittingDefaults (params : KeySplittingParams)
  : KeySplittingParams :=
  if Shards params <=? 0
  then mkKeySplittingParams DefaultKeySplittingShards
  else params.

(** [applyPolicyDefaults]; a nil slice and an empty slice are the same
    list. *)
Definition applyPolicyDefaults (opts : PolicyOptions) : PolicyOptions :=
  let opts := if String.eqb (Type_ opts) EmptyString
              then mkPolicyOptions LocalCache (Parameters opts)
                     (WhitelistKeys opts) (WhitelistPatterns opts)
              else opts in
  let params :=
    if String.eqb (Type_ opts) LocalCache then
      match Parameters opts with
      | NilParams => IsLocalCacheParams DefaultLocalCacheParams
      | IsLocalCacheParams params =>
          IsLocalCacheParams (applyLocalCacheDefaults params)
      | other => other
      end
    else if String.eqb (Type_ opts) KeySplitting then
      match Parameters opts with
      | NilParams => IsKeySplittingParams DefaultKeySplittingParams
      | IsKeySplittingParams params =>
          IsKeySplittingParams (applyKeySplittingDefaults params)
      | other => other
      end
    else Parameters opts in
  mkPolicyOptions (Type_ opts) params (WhitelistKeys opts)
    (WhitelistPatterns opts).

(** [applyMetricsDefaults] *)
Definition applyMetricsDefaults (opts : MetricsOptions) : MetricsOptions :=
  let opts := if String.eqb (Namespace opts) EmptyString
              then mkMetricsOptions DefaultMetricsNamespace
                     (MetricServerAddress opts) (CollectionInterval opts)
                     (HotKeyMetricLimit opts) (HotKeyHistorySize opts)
                     (EnableAPI opts)
              else opts in
  let opts := if String.eqb (MetricServerAddress opts) EmptyString
              then mkMetricsOptions (Namespace opts)
                     DefaultMetricsServerAddress (CollectionInterval opts)
                     (HotKeyMetricLimit opts) (HotKeyHistorySize opts)
                     (EnableAPI opts)
              else opts in
  let opts := if CollectionInterval opts <=? 0
              then mkMetricsOptions (Namespace opts)
                     (MetricServerAddress opts)
                     DefaultMetricsCollectionInterval
                     (HotKeyMetricLimit opts) (HotKeyHistorySize opts)
                     (EnableAPI opts)
              else opts in
  let opts := if HotKeyMetricLimit opts <=? 0
              then mkMetricsOptions (Namespace opts)
                     (MetricServerAddress opts) (CollectionInterval opts)
                     DefaultMetricsHotKeyLimit (HotKeyHistorySize opts)
                     (EnableAPI opts)
              else opts in
  let opts := if HotKeyHistorySize opts <=? 0
              then mkMetricsOptions (Namespace opts)
                     (MetricServerAddress opts) (CollectionInterval opts)
                     (HotKeyMetricLimit opts) DefaultMetricsHotKeyHistorySize
                     (EnableAPI opts)
              else opts in
  opts.

(** [applyOptionsDefaults] *)
Definition applyOptionsDefaults (opts : Options) : Options :=
  mkOptions (applyDetectorDefaults (Detector_ opts))
            (applyPolicyDefaults (Policy_ opts))
            (applyMetricsDefaults (Metrics_ opts))
            (EnableMetrics opts).

(** [convertPolicyParams]; [ParamOther] is the nil result. *)
Definition convertPolicyParams (policyType : string) (params : AnyParams)
  : Manager.Parameters :=
  if String.eqb policyType LocalCache then
    match params with
    | IsLocalCacheParams p =>
        Manager.ParamLocalCache
          (LocalCache.mkLocalCacheConfig (TTL p) (Jitter p) (Capacity p)
                                         (RefreshAhead p))
    | _ => Manager.ParamOther
    end
  else if String.eqb policyType KeySplitting then
    match params with
    | IsKeySplittingParams p =>
        Manager.ParamKeySplitting (Manager.mkKeySplittingConfig (Shards p))
    | _ => Manager.ParamOther
    end
  else Manager.ParamOther.

(** [detector.Config] and [metrics.Config] as [New] fills them, and
    [internal.Config]. *)
Record DetectorConfig : Type := mkDetectorConfig {
  CfgErrorRate : Q;
  CfgTopK : Z;
  CfgDecayFactor : Q;
  CfgDecayInterval : Z;
  CfgHotThreshold : Z
}.

Record MetricsConfig : Type := mkMetricsConfig {
  CfgNamespace : string;
  CfgMetricServerAddress : string;
  CfgCollectionInterval : Z;
  CfgHotKeyMetricLimit : Z;
  CfgHotKeyHistorySize : Z
}.

Record Config : Type := mkConfig {
  CfgDetector : DetectorConfig;
  CfgPolicy : Manager.Config;
  CfgMetrics : MetricsConfig;
  CfgEnableMetrics : bool
}.

(** The conversion to the internal configuration in [New].  The product
    of two [time.Duration]s is an [int64] product. *)
Definition toConfig (options : Options) : Config :=
  mkConfig
    (mkDetectorConfig
       (ErrorRate (Detector_ options))
       (TopK (Detector_ options))
       (DecayFactor (Detector_ options))
       (int64 (DecayInterval (Detector_ options) * Second))
       (HotThreshold (Detector_ options)))
    (Manager.mkConfig
       (Type_ (Policy_ options))
       (convertPolicyParams (Type_ (Policy_ options))
                            (Parameters (Policy_ options)))
       (WhitelistKeys (Policy_ options))
       (WhitelistPatterns (Policy_ options)))
    (mkMetricsConfig
       (Namespace (Metrics_ options))
       (MetricServerAddress (Metrics_ options))
       (int64 (CollectionInterval (Metrics_ options) * Second))
       (HotKeyMetricLimit (Metrics_ options))
       (HotKeyHistorySize (Metrics_ options)))
    (EnableMetrics options).

(** The options that [New] arrives at: the defaults, then the given
    options in order, then the defaults for what is still unset. *)
Definition resolve (opts : list Option_) : Options :=
  applyOptionsDefaults (fold_left (fun options opt => opt options) opts
                                  DefaultOptions).

Section WithRegexp.

Context {V Regexp : Type}.
Variable Compile : string -> option Regexp.

(** [internal.New] on a configuration: [policy.New] decides whether the
    policy manager exists. *)
Definition internalNew (g : Engine.global) (config : Config)
  : option Engine.error * Engine.global :=
  Engine.New g
    (match Manager.New (V:=V) Compile (CfgPolicy config) with
     | inr _ => true
     | inl _ => false
     end).

(** [keyflare.New] *)
Definition New (g : Engine.global) (opts : list Option_)
  : option Engine.error * Engine.global :=
  internalNew g (toConfig (resolve opts)).

End WithRegexp.

End Keyflare.

(** * Vocabulary of the statements *)

(** A policy without jitter: TTL 60 s, capacity [cap], refresh at 80%%. *)
Definition plain_policy (cap : Z) : LocalCache.localCachePolicy string :=
  LocalCache.newLocalCachePolicy
    (LocalCache.mkLocalCacheConfig 60 0 (inject_Z cap) (8 # 10)).

Definition set_ctx (key value : string) (ttl : option Q)
  : LocalCache.Context string :=
  LocalCache.mkContext key (LocalCache.SetRequest value ttl).

(** What the capacity bound of the local cache asks of a policy: the
    [size] field counts the entries, and stays within the capacity. *)
Definition within_capacity {V : Type} (p : LocalCache.localCachePolicy V)
  : Prop :=
  LocalCache.size p = Z.of_nat (base.size (LocalCache.cache p)) /\
  LocalCache.size p <= LocalCache.trunc
                         (LocalCache.Capacity (LocalCache.config p)).

(** The calls of the life cycle, each with the outcome of the step it
    depends on ([policy.New], [metrics.Start], [metrics.Stop]). *)
Inductive life_op : Type :=
  | CallNew (policyManager : bool)
  | CallStart (collector : bool)
  | CallStop (collector : bool).

Definition life_step (g : Engine.global) (op : life_op)
  : option Engine.error * Engine.global :=
  match op with
  | CallNew ok => Engine.New g ok
  | CallStart ok => Engine.Start g ok
  | CallStop ok => Engine.Stop g ok
  end.


(** A stand-in for [regexp.Compile] on which the statements can be
    run: a pattern is refused when its square brackets do not pair up (as
    Go refuses the pattern of the repository's test, an opening bracket
    that is never closed); the compiled form is the pattern itself. *)
Fixpoint brackets_pair (s : string) (opened : bool) : bool :=
  match s with
  | EmptyString => negb opened
  | String c rest =>
      if Ascii.eqb c "["%char then
        if opened then brackets_pair rest opened else brackets_pair rest true
      else if Ascii.eqb c "]"%char then
        if opened then brackets_pair rest false else brackets_pair rest opened
      else brackets_pair rest opened
  end.

Definition bracket_Compile (pattern : string) : option string :=
  if brackets_pair pattern false then Some pattern else None.


(** The count that a key has in a list of [KeyCount]s: that of its last
    entry (the lists produced by the detector have one entry per key). *)
Fixpoint last_count (l : list Detector.KeyCount) (k : string) : option Z :=
  match l with
  | [] => None
  | kc :: rest =>
      match last_count rest k with
      | Some c => Some c
      | None => if String.eqb (Detector.Key kc) k
                then Some (Detector.Count kc) else None
      end
  end.

(** The clock reading of the first call of a run of [History.Add] calls
    whose list holds the key [k], and the clock reading and count of the
    last such call. *)
Fixpoint first_seen (calls : list (Z * list Detector.KeyCount)) (k : string)
  : option Z :=
  match calls with
  | [] => None
  | (now, keys) :: rest =>
      match last_count keys k with
      | Some _ => Some now
      | None => first_seen rest k
      end
  end.

Fixpoint last_seen (calls : list (Z * list Detector.KeyCount)) (k : string)
  : option (Z * Z) :=
  match calls with
  | [] => None
  | (now, keys) :: rest =>
      match last_seen rest k with
      | Some r => Some r
      | None =>
          match last_count keys k with
          | Some c => Some (now, c)
          | None => None
          end
      end
  end.

(** The clock reading and the key list of a snapshot. *)
Definition stamp (s : History.HotKeySnapshot)
  : Z * list Detector.KeyCount :=
  (History.Timestamp s, History.Keys s).

(** What a point of a time series shows of the snapshot it is made
    from, for the requested keys: the snapshot's clock reading, for each
    requested key its count in the snapshot (that of its first entry, 0
    without one) and a rate that is not negative, and nothing for any
    other key. *)
Definition series_point (keys : list string) (s : History.HotKeySnapshot)
    (p : History.TimeSeriesData.t) : Prop :=
  History.TimeSeriesData.Timestamp p = History.Timestamp s /\
  (forall key,
     History.TimeSeriesData.Keys p !! key
     = if in_dec String.string_dec key keys
       then Some (History.find_count (History.Keys s) key) else None) /\
  (forall key,
     In key keys <-> is_Some (History.TimeSeriesData.Rates p !! key)) /\
  (forall key r,
     History.TimeSeriesData.Rates p !! key = Some r -> (0 <= r)%Q).

(** What the first loop of [History.Add] stores for a key whose metadata
    was [o] before the call. *)
Definition touch (now : Z) (o : option History.KeyMetadata)
  : History.KeyMetadata :=
  match o with
  | None => History.mkKeyMetadata now now 0
  | Some e =>
      History.mkKeyMetadata (History.FirstSeen e) now (History.PrevCount e)
  end.

(** The trend of a count against the count of the previous snapshot, as
    [handleHotKeys] computes it. *)
Definition classify (current prev : Z) : History.Trend :=
  if prev =? 0 then History.TrendNew
  else if current >? prev then History.Rising
  else if current <? prev then History.Falling
  else History.Stable.

Definition kc (k : string) (c : Z) : Detector.KeyCount :=
  Detector.mkKeyCount k c.

(** *** Count-Min Sketch *)

(** The column of [key] in row [i] of a sketch of width [w]. *)
Definition col (w : Z) (key : list Byte.byte) (i : Z) : Z :=
  CMS.hashFunc key (wrap32 i) mod wrap32 w.

(** The counter in row [i], column [j]; 0 outside the matrix. *)
Definition cell (cms : CMS.CountMinSketch) (i j : Z) : Z :=
  match index (CMS.matrix cms) i with
  | Done row => match index row j with Done c => c | _ => 0 end
  | _ => 0
  end.

(** The shape that [NewCountMinSketch] establishes, with a width that is
    not zero as a [uint32] and counters that are [uint64] values. *)
Definition cms_wf (cms : CMS.CountMinSketch) : Prop :=
  0 <= CMS.depth cms /\ 0 <= CMS.width cms /\ wrap32 (CMS.width cms) <> 0 /\
  length (CMS.matrix cms) = Z.to_nat (CMS.depth cms) /\
  Forall (fun row => length row = Z.to_nat (CMS.width cms) /\
                     Forall (fun c => 0 <= c < two64) row) (CMS.matrix cms).

(** The sum of the counts of the operations whose key satisfies [P]. *)
Fixpoint sum_where {K : Type} (P : K -> bool) (ops : list (K * Z)) : Z :=
  match ops with
  | [] => 0
  | (k, n) :: rest => (if P k then n else 0) + sum_where P rest
  end.

Definition bytes_eqb (a b : list Byte.byte) : bool :=
  if List.list_eq_dec Byte.byte_eq_dec a b then true else false.

(** The counts added for key [k], for all keys, and for the keys that fall
    into column [j] of row [i]. *)
Definition key_total (ops : list (list Byte.byte * Z)) (k : list Byte.byte)
  : Z := sum_where (fun k' => bytes_eqb k' k) ops.
Definition stream_total {K : Type} (ops : list (K * Z)) : Z :=
  sum_where (fun _ => true) ops.
Definition col_total (w : Z) (ops : list (list Byte.byte * Z)) (i j : Z) : Z :=
  sum_where (fun k' => col w k' i =? j) ops.

(** The sketch of the detector's defaults: 5 rows of 272 counters. *)
Definition default_sketch : CMS.CountMinSketch :=
  CMS.mkCMS 5 272 (replicate 5%nat (replicate 272%nat 0)).

(** *** The heap of item pointers *)

(** Every pointer of the slice points into the store. *)
Definition valid (s : hstate) : Prop :=
  Forall (fun a => (a < length (cells s))%nat) (slots s).

(** Two stores hold the same items up to their [Index] fields. *)
Definition same_data (m m' : list Item) : Prop :=
  length m' = length m /\
  forall a it, m !! a = Some it ->
    exists it', m' !! a = Some it' /\ Key it' = Key it /\
                Count it' = Count it /\ Error it' = Error it.

(** [s'] arises from [s] by moving pointers within the slice and rewriting
    [Index] fields of the items the slice points to. *)
Definition shuffled (s s' : hstate) : Prop :=
  slots s' ≡ₚ slots s /\
  same_data (cells s) (cells s') /\
  forall a, a ∉ slots s -> cells s' !! a = cells s !! a.

(** Each item of the slice knows its position; when [lax], an item may
    instead carry the index -1 that [Pop] leaves behind. *)
Definition idx_ok (lax : bool) (s : hstate) : Prop :=
  forall k a it,
    slots s !! k = Some a -> cells s !! a = Some it ->
    Index it = Z.of_nat k \/ (lax = true /\ Index it = -1).

(** The count of the item in slot [i]. *)
Definition cnt (s : hstate) (i : Z) : Z :=
  match index (slots s) i with
  | Done a => match cells s !! a with Some it => Count it | None => 0 end
  | _ => 0
  end.

(** The exchange of two positions. *)
Definition transp (i j k : Z) : Z :=
  if k =? i then j else if k =? j then i else k.

(** A property of heap states that every in-range [Swap] preserves. *)
Definition swap_closed (I : hstate -> Prop) : Prop :=
  forall s i j s',
    valid s -> 0 <= i < SSHeap.Len s -> 0 <= j < SSHeap.Len s ->
    I s -> SSHeap.Swap s i j = Done s' -> I s'.

(** The slice has no repeated pointer and its items know their place. *)
Definition placed (lax : bool) (s : hstate) : Prop :=
  NoDup (slots s) /\ idx_ok lax s.

(** *** The Space-Saving structure *)

(** The key map and the heap slice describe the same nodes. *)
Definition linked (its : gmap string nat) (s : hstate) : Prop :=
  (forall key a, its !! key = Some a ->
     a ∈ slots s /\ exists it, cells s !! a = Some it /\ Key it = key) /\
  (forall a, a ∈ slots s ->
     exists it, cells s !! a = Some it /\ its !! Key it = Some a).

(** The structural invariant of [SpaceSaving]; with [lax] the [Index]
    fields may have been reset to -1 by [TopK]. *)
Definition ss_inv (lax : bool) (ss : SS.SpaceSaving) : Prop :=
  valid (SS.hs ss) /\ placed lax (SS.hs ss) /\
  linked (SS.items ss) (SS.hs ss) /\
  Z.of_nat (length (SS.heap ss)) <= SS.capacity ss.

(** Two stores agree on the [Key] and [Index] of every item. *)
Definition same_place (m m' : list Item) : Prop :=
  length m' = length m /\
  forall a it, m !! a = Some it ->
    exists it', m' !! a = Some it' /\ Key it' = Key it /\
                Index it' = Index it.

(** The operations that change a Space-Saving structure. *)
Inductive ss_op : Type :=
  | OpAdd (key : string) (count : Z)
  | OpDecay (scale : Z -> Z)
  | OpClear.

Definition run_op (ss : SS.SpaceSaving) (op : ss_op)
  : outcome SS.SpaceSaving :=
  match op with
  | OpAdd key count => SS.Add ss key count
  | OpDecay scale => SS.Decay scale ss
  | OpClear => Done (SS.Clear ss)
  end.

Fixpoint run_ops (ss : SS.SpaceSaving) (ops : list ss_op)
  : outcome SS.SpaceSaving :=
  match ops with
  | [] => Done ss
  | op :: rest => ss' <- run_op ss op ;; run_ops ss' rest
  end.

(** *** The detector *)

(** A list of [KeyCount]s is ordered by count, non-increasing. *)
Definition descending (l : list Detector.KeyCount) : Prop :=
  forall a b x y,
    (a <= b)%nat -> l !! a = Some x -> l !! b = Some y ->
    Detector.Count y <= Detector.Count x.

(** The first [i] entries dominate everything that follows them. *)
Definition settled (i : nat) (l : list Detector.KeyCount) : Prop :=
  forall a b x y,
    (a < i)%nat -> (a <= b)%nat -> l !! a = Some x -> l !! b = Some y ->
    Detector.Count y <= Detector.Count x.

(** The decay map sends [uint64] values to [uint64] values. *)
Definition scale_ok (scale : Z -> Z) : Prop :=
  forall c, 0 <= c < two64 -> 0 <= scale c < two64.

(** The invariant of detector states: a well-formed sketch, a consistent
    Space-Saving structure (whose [Index] fields [TopK] may have reset) of
    the configured, positive capacity. *)
Definition det_inv (d : Detector.hotKeyDetector) : Prop :=
  cms_wf (Detector.sketch d) /\
  ss_inv true (Detector.topK d) /\
  SS.capacity (Detector.topK d) = Detector.CfgTopK (Detector.config d) /\
  0 < Detector.CfgTopK (Detector.config d) /\
  scale_ok (Detector.DecayScale (Detector.config d)).

(** The operations of the [Detector] interface that change or may change
    the state, with the clock reading where the code takes one. *)
Inductive det_op : Type :=
  | DoIncrement (now : Z) (key : string) (count : Z)
  | DoTopK
  | DoIsHot (key : string)
  | DoReset (now : Z).

Definition det_step (d : Detector.hotKeyDetector) (op : det_op)
  : outcome Detector.hotKeyDetector :=
  match op with
  | DoIncrement now key count => Detector.Increment d now key count
  | DoTopK => r <- Detector.TopK d ;; Done (snd r)
  | DoIsHot key => r <- Detector.IsHot d key ;; Done (snd r)
  | DoReset now => Detector.Reset d now
  end.

Fixpoint det_run (d : Detector.hotKeyDetector) (ops : list det_op)
  : outcome Detector.hotKeyDetector :=
  match ops with
  | [] => Done d
  | op :: rest => d' <- det_step d op ;; det_run d' rest
  end.

(** The item stored at an address (a blank item outside the store). *)
Definition item_at (m : list Item) (a : nat) : Item :=
  default (mkItem "" 0 0 0) (m !! a).

(** *** Scenarios *)

(** A detector with the default sketch width, TopK 3, a decay of 98%% in
    integer arithmetic and threshold [thr]; the third scenario of the
    specification, with a [TopK] call in the middle. *)
Definition scenario_config (thr : Z) : Detector.Config :=
  Detector.mkConfig 272 3 (fun c => c * 98 / 100) 60000000000 thr.

Definition scenario_ops : list det_op :=
  [DoIncrement 1 "popular" 100; DoIncrement 2 "rare" 10; DoTopK;
   DoIncrement 3 "medium" 50; DoIncrement 4 "other" 1].

Definition scenario_detector (thr : Z) : outcome Detector.hotKeyDetector :=
  d0 <- Detector.New (scenario_config thr) 0 ;; det_run d0 scenario_ops.

(** The second scenario of the specification, continued by a decay, a
    further add and a clear. *)
Definition scenario_ss_ops : list ss_op :=
  [OpAdd "first" 10; OpAdd "second" 5; OpAdd "third" 1;
   OpDecay (fun c => c / 2); OpAdd "first" 1; OpClear; OpAdd "again" 7].

(** *** Heap order *)

(** The parent of slot [j >= 1]. *)
Definition parent (j : Z) : Z := (j - 1) / 2.

(** The counts form a min-heap. *)
Definition heap_ordered (s : hstate) : Prop :=
  forall j, 1 <= j < SSHeap.Len s -> cnt s (parent j) <= cnt s j.

(** A min-heap except that slot [i] may be too large for its children:
    the state in which [down] is started at [i]. *)
Definition ordered_below (s : hstate) (i : Z) : Prop :=
  (forall j, 1 <= j < SSHeap.Len s -> parent j <> i ->
             cnt s (parent j) <= cnt s j) /\
  (forall j, 1 <= j < SSHeap.Len s -> parent j = i -> 1 <= i ->
             cnt s (parent i) <= cnt s j).

(** A min-heap except that slot [j] may be too small for its parent: the
    state in which [up] is started at [j]. *)
Definition ordered_above (s : hstate) (j : Z) : Prop :=
  (forall k, 1 <= k < SSHeap.Len s -> k <> j ->
             cnt s (parent k) <= cnt s k) /\
  (forall k, 1 <= k < SSHeap.Len s -> parent k = j -> 1 <= j ->
             cnt s (parent j) <= cnt s k).

(** The first [n] slots form a min-heap below level [lo]: every slot
    whose parent is at [lo] or later is at least its parent. *)
Definition heap_from (s : hstate) (n lo : Z) : Prop :=
  forall j, 1 <= j < n -> lo <= parent j -> cnt s (parent j) <= cnt s j.

(** The state in which [down] runs at slot [i] within the first [n]
    slots, below level [lo]: as [heap_from], except that slot [i] may be
    too large for its children. *)
Definition sifting (s : hstate) (n lo i : Z) : Prop :=
  (forall j, 1 <= j < n -> lo <= parent j -> parent j <> i ->
             cnt s (parent j) <= cnt s j) /\
  (forall j, 1 <= j < n -> parent j = i -> 1 <= i -> lo <= parent i ->
             cnt s (parent i) <= cnt s j).

(** *** The Metwally bounds *)

(** The total added for key [k] by a stream of [Add]s. *)
Definition ss_true (ops : list (string * Z)) (k : string) : Z :=
  sum_where (String.eqb k) ops.

(** Every node of the heap satisfies [P key count error]. *)
Definition nodes_sat (P : string -> Z -> Z -> Prop) (s : hstate) : Prop :=
  forall a it, a ∈ slots s -> cells s !! a = Some it ->
               P (Key it) (Count it) (Error it).

(** The bounds on a node after the stream [ops]. *)
Definition node_bounds (ops : list (string * Z)) (key : string)
    (count error : Z) : Prop :=
  0 <= error <= count /\
  count - error <= ss_true ops key <= count /\
  count <= stream_total ops.

(** The invariant behind the Metwally guarantee: a min-heap whose nodes
    satisfy the bounds, while a key without a node has been added at most
    as often as any node counts, and not at all while the structure has
    free capacity. *)
Definition metwally (ops : list (string * Z)) (ss : SS.SpaceSaving) : Prop :=
  Forall (fun op => 0 <= snd op) ops /\
  heap_ordered (SS.hs ss) /\
  nodes_sat (node_bounds ops) (SS.hs ss) /\
  forall k, SS.items ss !! k = None ->
    nodes_sat (fun _ count _ => ss_true ops k <= count) (SS.hs ss) /\
    (Z.of_nat (length (SS.heap ss)) < SS.capacity ss -> ss_true ops k = 0).

(** * Properties *)

(** ** The local cache *)

Section LocalCacheFacts.

Import LocalCache.


(** C5: a [SetRequest] carrying a TTL override [t] is to be stored with
    TTL exactly [t].  The code never reads the override: the outcome of
    [Apply] is the same for every value of the override, and a request
    with override 10 on a policy with TTL 60 and no jitter is answered
    with [CacheSet] TTL 60 and expires 60 s after [now]. *)
Theorem local_cache_ttl_override_ignored :
  (forall (V : Type) (p : localCachePolicy V) now rnd key (value : V) t1 t2,
      Apply p now rnd (mkContext key (SetRequest value t1)) =
      Apply p now rnd (mkContext key (SetRequest value t2))) /\
  (let r := Apply (plain_policy 100) 1000 [] (set_ctx "k" "v" (Some 10%Q)) in
   ResData (fst r) = Some (CacheSet "k" 60%Q) /\
   Expiration <$> (cache (snd r) !! "k") = Some (1000 + 60 * Second)%Z).
Proof.
  split.
  - intros. reflexivity.
  - vm_compute. split; reflexivity.
Qed.

(** The entry that [evictLRU] selects is an entry of the map, provided the
    map has one. *)
Lemma oldest_entry_key {V} (entries : list (string * CacheItem V)) :
  forall k t f,
    (oldest_entry entries k t f).1.1 = k \/
    (oldest_entry entries k t f).1.1 ∈ entries.*1.
Proof.
  induction entries as [|[key item] rest IH]; intros k t f; simpl.
  - left. reflexivity.
  - destruct (f || (Expiration item <? t)%Z).
    + destruct (IH key (Expiration item) false) as [->|Hin].
      * right. apply elem_of_cons. left. reflexivity.
      * right. apply elem_of_cons. right. exact Hin.
    + destruct (IH k t f) as [Heq|Hin]; [left; exact Heq|].
      right. apply elem_of_cons. right. exact Hin.
Qed.

Lemma oldest_entry_first {V} (entries : list (string * CacheItem V)) k t :
  entries <> [] -> (oldest_entry entries k t true).1.1 ∈ entries.*1.
Proof.
  destruct entries as [|[key item] rest]; [congruence|]. intros _. simpl.
  destruct (oldest_entry_key rest key (Expiration item) false) as [->|Hin].
  - apply elem_of_cons. left. reflexivity.
  - apply elem_of_cons. right. exact Hin.
Qed.

(** With no entry under the empty key, [evictLRU] removes one entry of a
    cache that has any. *)
Lemma evictLRU_removes {V} (p : localCachePolicy V) :
  cache p !! "" = None -> cache p <> ∅ ->
  exists k, is_Some (cache p !! k) /\
    evictLRU p = mkLocalCachePolicy (config p) (delete k (cache p))
                                    (LocalCache.size p - 1)%Z.
Proof.
  intros Hempty Hne. unfold evictLRU.
  assert (Hl : map_to_list (cache p) <> []).
  { intros Hl. apply Hne. apply map_to_list_empty_iff. exact Hl. }
  pose proof (oldest_entry_first (map_to_list (cache p)) "" (-1)%Z Hl) as Hin.
  destruct (oldest_entry (map_to_list (cache p)) "" (-1)%Z true)
    as [[k t] f]. simpl in Hin.
  apply list_elem_of_fmap in Hin as ([k' item] & Hk & Hin). simpl in Hk.
  subst k'. apply elem_of_map_to_list in Hin.
  exists k. split; [eauto|].
  destruct (String.eqb_spec k ""); [congruence|]. reflexivity.
Qed.

(** The capacity bound holds as long as no entry is stored under the empty
    key: every [Apply] keeps [size] equal to the number of entries and
    within the capacity. *)
Lemma Apply_within_capacity {V} (p : localCachePolicy V) now rnd ctx :
  (1 <= trunc (Capacity (config p)))%Z ->
  cache p !! "" = None -> CtxKey ctx <> "" ->
  within_capacity p ->
  let p' := snd (Apply p now rnd ctx) in
  config p' = config p /\ cache p' !! "" = None /\ within_capacity p'.
Proof.
  intros Hcap Hempty Hkey [Hsz Hle]. unfold Apply.
  destruct (CtxData ctx) as [|value ttl|] eqn:Hdata; simpl.
  - unfold handleGet.
    destruct (cache p !! CtxKey ctx) as [item|] eqn:Hlook;
      [|unfold within_capacity; auto].
    destruct (IsExpired now item); [|unfold within_capacity; auto].
    simpl. split; [reflexivity|]. split.
    + rewrite lookup_delete_ne by congruence. exact Hempty.
    + unfold within_capacity. simpl.
      rewrite map_size_delete_Some by eauto.
      assert (base.size (cache p) <> 0%nat).
      { intros H0. apply map_size_empty_inv in H0. rewrite H0 in Hlook.
        rewrite lookup_empty in Hlook. discriminate. }
      lia.
  - unfold handleSet. rewrite Hdata.
    destruct (cache p !! CtxKey ctx) as [item|] eqn:Hlook.
    + rewrite Hlook. simpl. split; [reflexivity|]. split.
      * rewrite lookup_insert_ne by congruence. exact Hempty.
      * unfold within_capacity. simpl.
        rewrite map_size_insert_Some by eauto. auto.
    + destruct (Z.geb_spec (LocalCache.size p) (trunc (Capacity (config p))))
        as [Hfull|Hroom].
      * assert (Hne : cache p <> ∅).
        { intros H0. rewrite H0, map_size_empty in Hsz. lia. }
        destruct (evictLRU_removes p Hempty Hne) as (k & Hk & ->).
        assert (Hgone : delete k (cache p) !! CtxKey ctx = None)
          by (apply lookup_delete_None; right; exact Hlook).
        simpl. rewrite Hgone. simpl. split; [reflexivity|]. split.
        -- rewrite lookup_insert_ne by congruence.
           apply lookup_delete_None. right. exact Hempty.
        -- unfold within_capacity. simpl.
           rewrite map_size_insert_None by exact Hgone.
           rewrite map_size_delete_Some by exact Hk.
           assert (base.size (cache p) <> 0%nat).
           { intros H0. apply map_size_empty_inv in H0. contradiction. }
           lia.
      * rewrite Hlook. simpl. split; [reflexivity|]. split.
        -- rewrite lookup_insert_ne by congruence. exact Hempty.
        -- unfold within_capacity. simpl.
           rewrite map_size_insert_None by exact Hlook. lia.
  - unfold within_capacity. auto.
Qed.

Lemma capacity_respected_without_empty_key {V} cfg
    (calls : list (Z * list Z * Context V)) :
  (1 <= trunc (Capacity cfg))%Z ->
  Forall (fun c => CtxKey c.2 <> "") calls ->
  within_capacity (ApplyAll (newLocalCachePolicy cfg) calls).
Proof.
  intros Hcap Hkeys.
  assert (H : forall p : localCachePolicy V,
             config p = cfg -> cache p !! "" = None -> within_capacity p ->
             within_capacity (ApplyAll p calls)).
  { induction Hkeys as [|[[now rnd] ctx] rest Hk _ IH]; intros p Hc He Hw;
      simpl; [exact Hw|].
    destruct (Apply_within_capacity p now rnd ctx) as (Hc' & He' & Hw');
      [rewrite Hc; exact Hcap|exact He|exact Hk|exact Hw|].
    apply IH; [congruence|exact He'|exact Hw']. }
  apply H; [reflexivity|apply lookup_empty|].
  unfold within_capacity. simpl. rewrite map_size_empty. lia.
Qed.

(** C6: the cache is to hold at most [N] entries.  With capacity 1,
    storing the empty key and then another key leaves two entries:
    [evictLRU] finds the empty key as the oldest entry and takes it for
    its "nothing found" marker. *)
Theorem local_cache_capacity_exceeded_by_empty_key :
  let p := ApplyAll (plain_policy 1)
             [ (0%Z, [], set_ctx "" "v" None);
               (1%Z, [], set_ctx "a" "w" None) ] in
  trunc (Capacity (config p)) = 1%Z /\
  base.size (cache p) = 2%nat /\
  LocalCache.size p = 2%Z.
Proof. vm_compute. repeat split; reflexivity. Qed.

End LocalCacheFacts.

(** ** The engine life cycle *)

(** C9: [Stop] is to fail with [NotRunning] on an engine that is
    initialized but not running, and a successful [Stop] is to leave the
    singleton in place.  The code does neither: on an initialized,
    not-running engine [Stop] reports no error, and every [Stop] without an
    error clears the singleton, so that a following [Stop] finds nothing. *)
Theorem stop_clears_singleton :
  (forall c, Engine.Stop (Some (Engine.mkKeyFlare false)) c = (None, None)) /\
  (forall g c g', Engine.Stop g c = (None, g') -> g' = None) /\
  (forall c1 c2,
      fst (Engine.Stop (snd (Engine.Stop (Some (Engine.mkKeyFlare true)) true))
                       c1) = Some Engine.NotInitialized /\
      Engine.GetInstance
        (snd (Engine.Start
                (snd (Engine.Stop (Some (Engine.mkKeyFlare true)) true)) c2))
      = inl Engine.NotInitialized).
Proof.
  split; [|split].
  - intros c. reflexivity.
  - intros [[[]]|] [] g'; simpl; intros H; inversion H; reflexivity.
  - intros c1 c2. split; reflexivity.
Qed.

(** ** The policy manager *)

Section ManagerFacts.

Import Manager.

Context {V Regexp : Type}.
Variable Compile : string -> option Regexp.







End ManagerFacts.




(** ** The snapshot history *)

Section HistoryFacts.

Import History.

Lemma last_count_In l k c :
  last_count l k = Some c -> In (Detector.mkKeyCount k c) l.
Proof.
  induction l as [|x rest IH]; simpl; [discriminate|].
  destruct (last_count rest k) as [c'|].
  - intros [= ->]. right. apply IH. reflexivity.
  - destruct (String.eqb (Detector.Key x) k) eqn:E; [|discriminate].
    intros [= <-]. apply String.eqb_eq in E. subst k. left.
    destruct x; reflexivity.
Qed.

Lemma last_count_None l k :
  last_count l k = None <-> forall x, In x l -> Detector.Key x <> k.
Proof.
  induction l as [|x rest IH]; simpl.
  - split; [intros _ y []|reflexivity].
  - destruct (last_count rest k) as [c|].
    + split; [discriminate|]. intros H. exfalso.
      assert (Some c = None) as Hc; [|discriminate].
      apply IH. intros y Hy. apply H. right. exact Hy.
    + destruct (String.eqb (Detector.Key x) k) eqn:E.
      * split; [discriminate|]. intros H. apply String.eqb_eq in E.
        exfalso. apply (H x); [left; reflexivity|exact E].
      * split; [|reflexivity]. intros _ y [<-|Hy].
        -- apply String.eqb_neq. exact E.
        -- apply IH; [reflexivity|exact Hy].
Qed.

Lemma last_count_cons_eq x rest :
  last_count (x :: rest) (Detector.Key x) <> None.
Proof.
  simpl. destruct (last_count rest (Detector.Key x)); [discriminate|].
  rewrite String.eqb_refl. discriminate.
Qed.

Lemma touch_touch now o : touch now (Some (touch now o)) = touch now o.
Proof. destruct o; reflexivity. Qed.

Lemma update_meta_lookup now keys :
  forall cm km cm' km' k,
    update_meta now keys cm km = (cm', km') ->
    (last_count keys k <> None ->
       cm' !! k = Some (touch now (km !! k)) /\
       km' !! k = Some (touch now (km !! k))) /\
    (last_count keys k = None -> cm' !! k = cm !! k /\ km' !! k = km !! k).
Proof.
  induction keys as [|x rest IH]; intros cm km cm' km' k Hup; simpl in Hup.
  - inversion Hup; subst. split; [intros H; exfalso; apply H; reflexivity|].
    intros _. split; reflexivity.
  - fold (touch now (km !! Detector.Key x)) in Hup.
    destruct (IH _ _ _ _ k Hup) as [Hin Hout]. simpl.
    destruct (last_count rest k) as [c|] eqn:Hrest.
    + split; [intros _|discriminate].
      destruct Hin as [H1 H2]; [discriminate|]. rewrite H1, H2.
      destruct (decide (Detector.Key x = k)) as [->|Hne].
      * rewrite lookup_insert_eq, touch_touch. split; reflexivity.
      * rewrite lookup_insert_ne by exact Hne. split; reflexivity.
    + destruct Hout as [H1 H2]; [reflexivity|]. rewrite H1, H2.
      destruct (String.eqb (Detector.Key x) k) eqn:E.
      * apply String.eqb_eq in E. subst k. rewrite !lookup_insert_eq.
        split; [intros _; split; reflexivity|discriminate].
      * apply String.eqb_neq in E. rewrite !lookup_insert_ne by exact E.
        split; [intros H; exfalso; apply H; reflexivity|].
        intros _. split; reflexivity.
Qed.

Lemma update_prev_lookup keys :
  forall km k,
    update_prev keys km !! k =
    match km !! k, last_count keys k with
    | Some m, Some c => Some (mkKeyMetadata (FirstSeen m) (LastSeen m) c)
    | o, _ => o
    end.
Proof.
  induction keys as [|x rest IH]; intros km k; simpl.
  - destruct (km !! k); reflexivity.
  - rewrite IH. clear IH.
    destruct (decide (Detector.Key x = k)) as [<-|Hne].
    + rewrite String.eqb_refl.
      destruct (km !! Detector.Key x) as [m|] eqn:Hm.
      * rewrite lookup_insert_eq. simpl.
        destruct (last_count rest (Detector.Key x)); reflexivity.
      * rewrite Hm. reflexivity.
    + apply String.eqb_neq in Hne as E. rewrite E.
      assert ((match km !! Detector.Key x with
               | Some meta =>
                   <[Detector.Key x :=
                       mkKeyMetadata (FirstSeen meta) (LastSeen meta)
                         (Detector.Count x)]> km
               | None => km
               end) !! k = km !! k) as ->.
      { destruct (km !! Detector.Key x); [|reflexivity].
        apply lookup_insert_ne. exact Hne. }
      destruct (km !! k); [|reflexivity].
      destruct (last_count rest k); reflexivity.
Qed.

(** The previous count on record for a key. *)
Lemma add_keyMeta h now keys k :
  keyMeta (Add h now keys) !! k =
  match last_count keys k with
  | Some c =>
      Some (mkKeyMetadata (FirstSeen (touch now (keyMeta h !! k))) now c)
  | None => keyMeta h !! k
  end.
Proof.
  unfold Add.
  destruct (update_meta now keys ∅ (keyMeta h)) as [cm km] eqn:Hup.
  simpl. rewrite update_prev_lookup.
  destruct (update_meta_lookup _ _ _ _ _ _ k Hup) as [Hin Hout].
  destruct (last_count keys k) as [c|].
  - destruct Hin as [_ H2]; [discriminate|]. rewrite H2.
    destruct (keyMeta h !! k); reflexivity.
  - destruct Hout as [_ H2]; [reflexivity|]. rewrite H2.
    destruct (keyMeta h !! k); reflexivity.
Qed.

Lemma add_maxSize h now keys : maxSize (Add h now keys) = maxSize h.
Proof.
  unfold Add. destruct (update_meta now keys ∅ (keyMeta h)). reflexivity.
Qed.

(** The snapshot appended by [Add] is the latest one, and it records for
    each of its keys the metadata as it was before the call, touched. *)
Lemma add_latest h now keys :
  (0 < maxSize h)%Z ->
  exists snap,
    GetLatest (Add h now keys) = Some snap /\
    Timestamp snap = now /\ Keys snap = keys /\
    forall k, last_count keys k <> None ->
      KeyMeta snap !! k = Some (touch now (keyMeta h !! k)).
Proof.
  intros Hmax. unfold Add, GetLatest.
  destruct (update_meta now keys ∅ (keyMeta h)) as [cm km] eqn:Hup.
  exists (mkSnapshot now keys cm). simpl. split.
  - destruct (Z.of_nat (length (snapshots h ++ [mkSnapshot now keys cm]))
              >? maxSize h)%Z eqn:E.
    + destruct (snapshots h) as [|s0 rest] eqn:Hs.
      * rewrite Z.gtb_ltb in E. apply Z.ltb_lt in E. simpl in E.
        exfalso. lia.
      * simpl. rewrite drop_0. apply last_snoc.
    + apply last_snoc.
  - split; [reflexivity|]. split; [reflexivity|].
    intros k Hk.
    destruct (update_meta_lookup _ _ _ _ _ _ k Hup) as [Hin _].
    apply Hin. exact Hk.
Qed.

Lemma addall_app h c1 c2 : AddAll h (c1 ++ c2) = AddAll (AddAll h c1) c2.
Proof.
  revert h. induction c1 as [|[now keys] rest IH]; intros h; simpl;
    [reflexivity|apply IH].
Qed.

Lemma addall_maxSize h calls : maxSize (AddAll h calls) = maxSize h.
Proof.
  revert h. induction calls as [|[now keys] rest IH]; intros h; simpl;
    [reflexivity|]. rewrite IH. apply add_maxSize.
Qed.

Lemma new_maxSize n : (0 < maxSize (newHotKeyHistory n))%Z.
Proof. unfold newHotKeyHistory. simpl. destruct (n <=? 0)%Z eqn:E; lia. Qed.

Lemma addall_unseen h calls k :
  (forall call, In call calls -> last_count (snd call) k = None) ->
  keyMeta (AddAll h calls) !! k = keyMeta h !! k.
Proof.
  revert h. induction calls as [|[now keys] rest IH]; intros h Hall; simpl;
    [reflexivity|].
  rewrite IH by (intros c Hc; apply Hall; right; exact Hc).
  rewrite add_keyMeta.
  pose proof (Hall (now, keys) (or_introl eq_refl)) as Hk. simpl in Hk.
  rewrite Hk. reflexivity.
Qed.

(** C7: in a history built by [Add] calls, take two consecutive calls with
    lists [L1] then [L2].  The snapshot of the second call is the latest
    one; for every key of [L2] it records as [PrevCount] the count that the
    key has in [L1] when it is there, and 0 when the key occurs in no
    earlier call; the trend derived from the snapshot is the comparison of
    the key's count in [L2] with that [PrevCount]. *)
Theorem snapshot_prev_count n calls now1 L1 now2 L2 :
  let h := AddAll (newHotKeyHistory n) (calls ++ [(now1, L1); (now2, L2)]) in
  exists snap,
    GetLatest h = Some snap /\ Timestamp snap = now2 /\ Keys snap = L2 /\
    forall x, In x L2 ->
      exists meta,
        KeyMeta snap !! Detector.Key x = Some meta /\
        trend snap x = Some (classify (Detector.Count x) (PrevCount meta)) /\
        (forall c1, last_count L1 (Detector.Key x) = Some c1 ->
                    PrevCount meta = c1) /\
        ((forall call, In call (calls ++ [(now1, L1)]) ->
                       last_count (snd call) (Detector.Key x) = None) ->
         PrevCount meta = 0%Z).
Proof.
  intros h. subst h. rewrite addall_app. simpl.
  set (h0 := AddAll (newHotKeyHistory n) calls).
  assert (Hmax : (0 < maxSize (Add h0 now1 L1))%Z).
  { rewrite add_maxSize. unfold h0. rewrite addall_maxSize.
    apply new_maxSize. }
  destruct (add_latest (Add h0 now1 L1) now2 L2 Hmax)
    as (snap & Hlatest & Hts & Hkeys & Hmeta).
  exists snap. split; [exact Hlatest|]. split; [exact Hts|].
  split; [exact Hkeys|].
  intros x Hx.
  assert (Hin : last_count L2 (Detector.Key x) <> None).
  { intros Hnone. apply last_count_None with (x := x) in Hnone;
      [apply Hnone; reflexivity|exact Hx]. }
  specialize (Hmeta _ Hin).
  exists (touch now2 (keyMeta (Add h0 now1 L1) !! Detector.Key x)).
  split; [exact Hmeta|]. split.
  - unfold trend. rewrite Hmeta. unfold classify.
    destruct (PrevCount _ =? 0)%Z; [reflexivity|].
    destruct (Detector.Count x >? _)%Z; [reflexivity|].
    destruct (Detector.Count x <? _)%Z; reflexivity.
  - split.
    + intros c1 Hc1. rewrite add_keyMeta, Hc1. reflexivity.
    + intros Hnew. rewrite add_keyMeta.
      assert (Hk1 : last_count L1 (Detector.Key x) = None).
      { apply (Hnew (now1, L1)). apply in_or_app. right. left. reflexivity. }
      rewrite Hk1. unfold h0. rewrite addall_unseen.
      * reflexivity.
      * intros c Hc. apply Hnew. apply in_or_app. left. exact Hc.
Qed.

End HistoryFacts.

(** The scenario of the repository's trend test: history of size 5, a
    first list stable/rising/falling and a second one that adds a new key. *)
Lemma snapshot_prev_count_scenario :
  let L1 := [kc "stable" 100; kc "rising" 50; kc "falling" 200] in
  let L2 := [kc "stable" 100; kc "rising" 80; kc "falling" 120; kc "new" 30] in
  let h := History.AddAll (History.newHotKeyHistory 5) [(10, L1); (20, L2)] in
  exists snap,
    History.GetLatest h = Some snap /\
    History.Timestamp snap = 20 /\ History.Keys snap = L2 /\
    forall x, In x L2 ->
      exists meta,
        History.KeyMeta snap !! Detector.Key x = Some meta /\
        History.trend snap x
        = Some (classify (Detector.Count x) (History.PrevCount meta)) /\
        (forall c1, last_count L1 (Detector.Key x) = Some c1 ->
                    History.PrevCount meta = c1) /\
        ((forall call, In call ([] ++ [(10, L1)]) ->
                       last_count (snd call) (Detector.Key x) = None) ->
         History.PrevCount meta = 0).
Proof.
  exact (snapshot_prev_count 5 [] 10
           [kc "stable" 100; kc "rising" 50; kc "falling" 200] 20
           [kc "stable" 100; kc "rising" 80; kc "falling" 120; kc "new" 30]).
Defined.

(** The values of that scenario: previous counts 100/50/200/0 and trends
    stable/rising/falling/new. *)
Example trend_scenario_values :
  let L1 := [kc "stable" 100; kc "rising" 50; kc "falling" 200] in
  let L2 := [kc "stable" 100; kc "rising" 80; kc "falling" 120; kc "new" 30] in
  let h := History.AddAll (History.newHotKeyHistory 5) [(10, L1); (20, L2)] in
  match History.GetLatest h with
  | Some snap =>
      map (fun x => History.PrevCount <$>
                      (History.KeyMeta snap !! Detector.Key x)) L2
      = [Some 100; Some 50; Some 200; Some 0] /\
      map (History.trend snap) L2
      = [Some History.Stable; Some History.Rising; Some History.Falling;
         Some History.TrendNew]
  | None => False
  end.
Proof. vm_compute. split; reflexivity. Qed.

(** ** Outcomes and indexing *)

Lemma obind_Done {A B : Type} (m : outcome A) (f : A -> outcome B) b :
  obind m f = Done b -> exists a, m = Done a /\ f a = Done b.
Proof. destruct m; simpl; intros H; try discriminate. eauto. Qed.

Lemma index_Done {A : Type} (l : list A) i a :
  index l i = Done a <-> 0 <= i /\ l !! Z.to_nat i = Some a.
Proof.
  unfold index. destruct (i <? 0) eqn:E.
  - apply Z.ltb_lt in E. split; [discriminate|lia].
  - apply Z.ltb_ge in E. destruct (l !! Z.to_nat i).
    + split; [intros [= ->]; auto|intros [_ [= ->]]; reflexivity].
    + split; [discriminate|intros [_ H]; discriminate].
Qed.

Lemma index_in_range {A : Type} (l : list A) i :
  0 <= i < Z.of_nat (length l) -> exists a, index l i = Done a.
Proof.
  intros Hi. destruct (lookup_lt_is_Some_2 l (Z.to_nat i)) as [a Ha]; [lia|].
  exists a. apply index_Done. split; [lia|exact Ha].
Qed.

(** Case analysis on every integer comparison of the goal. *)
Ltac zbool :=
  repeat match goal with
    | |- context [?a <=? ?b] => destruct (Z.leb_spec a b)
    | |- context [?a <? ?b] => destruct (Z.ltb_spec a b)
    | |- context [?a =? ?b] => destruct (Z.eqb_spec a b)
    end;
  simpl; try reflexivity; try lia.

(** ** The Count-Min Sketch *)

Section CMSFacts.

Import CMS.

Lemma wrap32_le w : 0 <= w -> wrap32 w <= w.
Proof. intros H. unfold wrap32, two32. apply Z.mod_le; lia. Qed.

Lemma col_range w key i :
  0 <= w -> wrap32 w <> 0 -> 0 <= col w key i < w.
Proof.
  intros Hw Hnz. unfold col.
  assert (0 <= wrap32 w) by (unfold wrap32, two32; apply Z.mod_pos_bound; lia).
  pose proof (wrap32_le w Hw).
  pose proof (Z.mod_pos_bound (hashFunc key (wrap32 i)) (wrap32 w)). lia.
Qed.

Lemma column_spec cms key i :
  cms_wf cms -> column cms key i = Done (col (width cms) key i).
Proof.
  intros (_ & _ & Hnz & _). unfold column.
  destruct (wrap32 (width cms) =? 0) eqn:E; [|reflexivity].
  apply Z.eqb_eq in E. contradiction.
Qed.

Lemma new_wf d w cms :
  NewCountMinSketch d w = Done cms -> wrap32 w <> 0 ->
  cms_wf cms /\ depth cms = d /\ width cms = w /\
  forall i j, cell cms i j = 0.
Proof.
  unfold NewCountMinSketch. intros H Hnz.
  destruct ((d <? 0) || (w <? 0)) eqn:E; [discriminate|].
  apply orb_false_iff in E as [Hd Hw].
  apply Z.ltb_ge in Hd. apply Z.ltb_ge in Hw.
  inversion H; subst; clear H. simpl.
  split; [|split; [reflexivity|split; [reflexivity|]]].
  - repeat split; simpl; try assumption.
    + apply length_replicate.
    + apply Forall_forall. intros row Hrow.
      apply elem_of_replicate in Hrow as [-> _].
      split; [apply length_replicate|].
      apply Forall_forall. intros c Hc.
      apply elem_of_replicate in Hc as [-> _]. unfold two64. lia.
  - intros i j. unfold cell, index. simpl.
    destruct (i <? 0); [reflexivity|].
    destruct (replicate (Z.to_nat d) (replicate (Z.to_nat w) 0)
                !! Z.to_nat i) as [row|] eqn:Hrow; [|reflexivity].
    apply lookup_replicate in Hrow as [-> _].
    destruct (j <? 0); [reflexivity|].
    destruct (replicate (Z.to_nat w) 0 !! Z.to_nat j) as [c|] eqn:Hc;
      [|reflexivity].
    apply lookup_replicate in Hc as [-> _]. reflexivity.
Qed.

Lemma wf_row cms i :
  cms_wf cms -> 0 <= i < depth cms ->
  exists row, index (matrix cms) i = Done row /\
              length row = Z.to_nat (width cms) /\
              Forall (fun c => 0 <= c < two64) row.
Proof.
  intros (Hd & Hw & Hnz & Hlen & Hrows) Hi.
  destruct (index_in_range (matrix cms) i) as [row Hrow]; [lia|].
  exists row. split; [exact Hrow|].
  apply index_Done in Hrow as [_ Hrow].
  rewrite Forall_forall in Hrows. apply Hrows.
  apply list_elem_of_lookup. eauto.
Qed.

Lemma cell_bounded cms i j : cms_wf cms -> 0 <= cell cms i j < two64.
Proof.
  intros (Hd & Hw & Hnz & Hlen & Hrows). unfold cell.
  destruct (index (matrix cms) i) as [row| |] eqn:Hrow;
    try (unfold two64; lia).
  destruct (index row j) as [c| |] eqn:Hc; try (unfold two64; lia).
  apply index_Done in Hrow as [_ Hrow]. apply index_Done in Hc as [_ Hc].
  rewrite Forall_forall in Hrows.
  destruct (Hrows row) as [_ Hb]; [apply list_elem_of_lookup; eauto|].
  rewrite Forall_forall in Hb. apply Hb. apply list_elem_of_lookup. eauto.
Qed.

Lemma wrap64_range x : 0 <= wrap64 x < two64.
Proof. unfold wrap64, two64. apply Z.mod_pos_bound. lia. Qed.

Lemma add_row_spec key n i cms :
  cms_wf cms -> 0 <= i < depth cms ->
  exists cms',
    add_row key n i cms = Done cms' /\ cms_wf cms' /\
    depth cms' = depth cms /\ width cms' = width cms /\
    forall i' j',
      cell cms' i' j' =
      if (i' =? i) && (j' =? col (width cms) key i)
      then wrap64 (cell cms i' j' + n) else cell cms i' j'.
Proof.
  intros Hwf Hi. unfold add_row. rewrite column_spec by exact Hwf. simpl.
  destruct (wf_row cms i Hwf Hi) as (row & Hrow & Hlen & Hbnd).
  rewrite Hrow. simpl.
  destruct Hwf as (Hd & Hw & Hnz & Hmlen & Hrows).
  pose proof (col_range (width cms) key i Hw Hnz) as Hcol.
  set (j := col (width cms) key i) in *.
  destruct (index_in_range row j) as [c Hc]; [lia|].
  rewrite Hc. simpl. eexists. split; [reflexivity|].
  apply index_Done in Hrow as [_ Hrow'].
  apply index_Done in Hc as [_ Hc'].
  split; [|split; [reflexivity|split; [reflexivity|]]].
  - repeat split; simpl; try assumption.
    + rewrite length_insert. exact Hmlen.
    + apply Forall_insert; [exact Hrows|].
      rewrite length_insert. split; [exact Hlen|].
      apply Forall_insert; [exact Hbnd|apply wrap64_range].
  - intros i' j'. unfold cell at 1. simpl. unfold index.
    destruct (i' <? 0) eqn:Ei'.
    { apply Z.ltb_lt in Ei'.
      replace (i' =? i) with false by (symmetry; apply Z.eqb_neq; lia).
      simpl. unfold cell, index. rewrite (proj2 (Z.ltb_lt i' 0)) by lia.
      reflexivity. }
    apply Z.ltb_ge in Ei'.
    destruct (Z.eqb_spec i' i) as [->|Hne].
    + rewrite list_lookup_insert_eq by lia. simpl.
      unfold cell, index. rewrite (proj2 (Z.ltb_ge i 0)) by lia.
      rewrite Hrow'.
      destruct (j' <? 0) eqn:Ej'.
      { apply Z.ltb_lt in Ej'.
        replace (j' =? j) with false by (symmetry; apply Z.eqb_neq; lia).
        reflexivity. }
      apply Z.ltb_ge in Ej'.
      destruct (Z.eqb_spec j' j) as [->|Hnej].
      * rewrite list_lookup_insert_eq by lia. rewrite Hc'. reflexivity.
      * rewrite list_lookup_insert_ne by lia. reflexivity.
    + rewrite list_lookup_insert_ne by lia. simpl.
      unfold cell, index. rewrite (proj2 (Z.ltb_ge i' 0)) by lia.
      reflexivity.
Qed.

Lemma add_loop_spec key cnt n :
  forall i cms,
    cms_wf cms -> 0 <= i -> i + Z.of_nat n <= depth cms ->
    exists cms',
      add_loop key cnt n i cms = Done cms' /\ cms_wf cms' /\
      depth cms' = depth cms /\ width cms' = width cms /\
      forall i' j',
        cell cms' i' j' =
        if (i <=? i') && (i' <? i + Z.of_nat n)
           && (j' =? col (width cms) key i')
        then wrap64 (cell cms i' j' + cnt) else cell cms i' j'.
Proof.
  induction n as [|n IH]; intros i cms Hwf Hi Hn; simpl.
  - exists cms. repeat split; try assumption; try apply Hwf.
    intros i' j'. zbool.
  - destruct (add_row_spec key cnt i cms Hwf) as
        (cms1 & Hrow & Hwf1 & Hd1 & Hw1 & Hcell1); [lia|].
    rewrite Hrow. simpl.
    destruct (IH (i + 1) cms1 Hwf1) as (cms' & Hloop & Hwf' & Hd' & Hw' & Hcell');
      [lia|lia|].
    exists cms'. split; [exact Hloop|]. split; [exact Hwf'|].
    split; [congruence|]. split; [congruence|].
    intros i' j'. rewrite Hcell', Hcell1, Hw1.
    destruct (Z.eqb_spec i' i) as [->|Hne].
    + destruct (Z.eqb_spec j' (col (width cms) key i)); zbool.
    + destruct (Z.eqb_spec j' (col (width cms) key i')); zbool.
Qed.

Lemma Add_spec cms key cnt :
  cms_wf cms ->
  exists cms',
    Add cms key cnt = Done cms' /\ cms_wf cms' /\
    depth cms' = depth cms /\ width cms' = width cms /\
    forall i j, 0 <= i < depth cms ->
      cell cms' i j =
      if j =? col (width cms) key i
      then wrap64 (cell cms i j + cnt) else cell cms i j.
Proof.
  intros Hwf. unfold Add.
  destruct (add_loop_spec key cnt (Z.to_nat (depth cms)) 0 cms Hwf)
    as (cms' & Hloop & Hwf' & Hd & Hw & Hcell); [lia| |].
  { destruct Hwf as [Hd _]. lia. }
  exists cms'. repeat (split; [assumption|]).
  intros i j Hi. rewrite Hcell.
  destruct (Z.eqb_spec j (col (width cms) key i)); zbool.
Qed.

Lemma wrap64_add_l a b : wrap64 (wrap64 a + b) = wrap64 (a + b).
Proof. unfold wrap64. apply Zplus_mod_idemp_l. Qed.

(** After a stream of [Add]s every counter holds, modulo [2^64], what it
    held before plus the counts of the keys that fall into its column. *)
Lemma AddAll_spec ops :
  forall cms,
    cms_wf cms ->
    exists cms',
      AddAll cms ops = Done cms' /\ cms_wf cms' /\
      depth cms' = depth cms /\ width cms' = width cms /\
      forall i j, 0 <= i < depth cms ->
        cell cms' i j
        = wrap64 (cell cms i j + col_total (width cms) ops i j).
Proof.
  induction ops as [|[k n] rest IH]; intros cms Hwf; simpl.
  - exists cms. repeat (split; [auto|]). intros i j _.
    unfold col_total. simpl. rewrite Z.add_0_r.
    pose proof (cell_bounded cms i j Hwf). unfold wrap64.
    rewrite Z.mod_small by lia. reflexivity.
  - destruct (Add_spec cms k n Hwf) as (cms1 & Hadd & Hwf1 & Hd1 & Hw1 & Hc1).
    rewrite Hadd. simpl.
    destruct (IH cms1 Hwf1) as (cms' & Hall & Hwf' & Hd' & Hw' & Hc').
    exists cms'. split; [exact Hall|]. split; [exact Hwf'|].
    split; [congruence|]. split; [congruence|].
    intros i j Hi. rewrite Hc' by lia. rewrite Hw1, Hc1 by lia.
    unfold col_total. simpl. fold (col_total (width cms) rest i j).
    rewrite (Z.eqb_sym j).
    destruct (col (width cms) k i =? j);
      [rewrite wrap64_add_l|]; f_equal; lia.
Qed.

Lemma estimate_loop_spec cms key n :
  forall i min,
    cms_wf cms -> 0 <= i -> i + Z.of_nat n <= depth cms ->
    exists e,
      estimate_loop cms key n i min = Done e /\ e <= min /\
      (forall i', i <= i' < i + Z.of_nat n ->
                  e <= cell cms i' (col (width cms) key i')) /\
      (e = min \/
       exists i', i <= i' < i + Z.of_nat n /\
                  e = cell cms i' (col (width cms) key i')).
Proof.
  induction n as [|n IH]; intros i min Hwf Hi Hn; simpl.
  - exists min. split; [reflexivity|]. split; [lia|].
    split; [intros; lia|left; reflexivity].
  - unfold estimate_row. rewrite column_spec by exact Hwf. simpl.
    destruct (wf_row cms i Hwf) as (row & Hrow & Hlen & _); [lia|].
    rewrite Hrow. simpl.
    pose proof Hwf as (Hd & Hw & Hnz & _).
    pose proof (col_range (width cms) key i Hw Hnz) as Hcol.
    destruct (index_in_range row (col (width cms) key i)) as [c Hc]; [lia|].
    rewrite Hc. simpl.
    assert (Hcell : cell cms i (col (width cms) key i) = c).
    { unfold cell. rewrite Hrow, Hc. reflexivity. }
    destruct (IH (i + 1) (if c <? min then c else min) Hwf)
      as (e & He & Hle & Hall & Hex); [lia|lia|].
    exists e. split; [exact He|].
    assert (Hm : (if c <? min then c else min) <= min /\
                 (if c <? min then c else min) <= c).
    { destruct (Z.ltb_spec c min); lia. }
    split; [lia|]. split.
    + intros i' Hi'. destruct (Z.eq_dec i' i) as [->|Hne].
      * rewrite Hcell. lia.
      * apply Hall. lia.
    + destruct Hex as [->|(i' & Hi' & ->)].
      * destruct (Z.ltb_spec c min).
        -- right. exists i. split; [lia|]. rewrite Hcell. reflexivity.
        -- left. reflexivity.
      * right. exists i'. split; [lia|reflexivity].
Qed.

Lemma sum_where_nonneg {K : Type} (P : K -> bool) ops :
  Forall (fun op => 0 <= snd op) ops -> 0 <= sum_where P ops.
Proof.
  induction 1 as [|[k n] rest Hn _ IH]; simpl; [lia|].
  simpl in Hn. destruct (P k); lia.
Qed.

Lemma sum_where_mono {K : Type} (P Q : K -> bool) ops :
  Forall (fun op => 0 <= snd op) ops ->
  (forall k, P k = true -> Q k = true) ->
  sum_where P ops <= sum_where Q ops.
Proof.
  intros Hops HPQ. induction Hops as [|[k n] rest Hn _ IH]; simpl; [lia|].
  simpl in Hn. destruct (P k) eqn:EP.
  - rewrite (HPQ _ EP). lia.
  - destruct (Q k); lia.
Qed.

Lemma sum_where_zero {K : Type} (P : K -> bool) ops :
  (forall k n, In (k, n) ops -> 0 < n -> P k = false) ->
  Forall (fun op => 0 <= snd op) ops ->
  sum_where P ops = 0.
Proof.
  intros HP Hops. induction Hops as [|[k n] rest Hn _ IH]; simpl;
    [reflexivity|].
  simpl in Hn. rewrite IH by (intros; eapply HP; [right|]; eassumption).
  destruct (P k) eqn:EP; [|reflexivity].
  destruct (Z.eq_dec n 0) as [->|Hne]; [reflexivity|].
  rewrite (HP k n) in EP; [discriminate|left; reflexivity|lia].
Qed.

Lemma bytes_eqb_eq a b : bytes_eqb a b = true -> a = b.
Proof.
  unfold bytes_eqb. destruct (List.list_eq_dec Byte.byte_eq_dec a b);
    [auto|discriminate].
Qed.

(** C1, as the code has it.  On a fresh sketch of non-zero width, a stream
    of [Add]s whose counts sum to less than [2^64] runs without panic, and
    afterwards [Estimate(k)] is at least the sum of the counts added for
    [k]; it is 0 for a key [k] for which some row holds no collision, that
    is, no key added with a positive count shares [k]'s column in that row
    (in particular for every key when nothing was added and the sketch has
    a row). *)
Theorem cms_estimate_bounds d w ops cms0 :
  NewCountMinSketch d w = Done cms0 ->
  wrap32 w <> 0 ->
  Forall (fun op => 0 <= snd op) ops ->
  stream_total ops < two64 ->
  exists cms,
    AddAll cms0 ops = Done cms /\
    forall k, exists e,
      Estimate cms k = Done e /\
      key_total ops k <= e /\
      ((exists i, 0 <= i < d /\
          forall k' n, In (k', n) ops -> 0 < n ->
                       col w k' i <> col w k i) ->
       e = 0).
Proof.
  intros Hnew Hnz Hops Htotal.
  destruct (new_wf d w cms0 Hnew Hnz) as (Hwf0 & Hd0 & Hw0 & Hzero).
  destruct (AddAll_spec ops cms0 Hwf0) as (cms & Hall & Hwf & Hd & Hw & Hcell).
  exists cms. split; [exact Hall|]. intros k.
  assert (Hval : forall i j, 0 <= i < d -> cell cms i j = col_total w ops i j).
  { intros i j Hi. rewrite Hcell by lia. rewrite Hw0, Hzero. simpl.
    apply Z.mod_small. split; [apply sum_where_nonneg; exact Hops|].
    eapply Z.le_lt_trans; [|exact Htotal].
    apply sum_where_mono; [exact Hops|reflexivity]. }
  destruct (estimate_loop_spec cms k (Z.to_nat (depth cms)) 0 MaxUint64 Hwf)
    as (e & He & Hmax & Hrows & Hsome); [lia| |].
  { destruct Hwf as [Hdep _]. lia. }
  exists e. split; [exact He|].
  assert (Hdz : Z.of_nat (Z.to_nat (depth cms)) = d).
  { destruct Hwf as [Hdep _]. lia. }
  rewrite Z.add_0_l, Hdz in Hrows, Hsome. rewrite Hw, Hw0 in Hrows, Hsome.
  assert (Hkt : forall i, key_total ops k <= col_total w ops i (col w k i)).
  { intros i. apply sum_where_mono; [exact Hops|].
    intros k' Hk'. apply bytes_eqb_eq in Hk'. subst k'. apply Z.eqb_refl. }
  assert (Hlow : key_total ops k <= e).
  { destruct Hsome as [->|(i & Hi & ->)].
    - unfold MaxUint64. specialize (Hkt 0).
      assert (col_total w ops 0 (col w k 0) < two64); [|lia].
      eapply Z.le_lt_trans; [|exact Htotal].
      apply sum_where_mono; [exact Hops|reflexivity].
    - rewrite Hval by lia. apply Hkt. }
  split; [exact Hlow|].
  intros (i & Hi & Hfree).
  assert (Hz : col_total w ops i (col w k i) = 0).
  { apply sum_where_zero; [|exact Hops].
    intros k' n Hin Hn. apply Z.eqb_neq. eapply Hfree; eassumption. }
  pose proof (Hrows i Hi) as Hle. rewrite Hval, Hz in Hle by lia.
  assert (0 <= key_total ops k) by (apply sum_where_nonneg; exact Hops).
  lia.
Qed.

End CMSFacts.

(** The first scenario of the specification: add "a" 5, "b" 3, "a" 2. *)
Lemma cms_estimate_bounds_scenario :
  let ops := [(bytes_of "a", 5); (bytes_of "b", 3); (bytes_of "a", 2)] in
  exists cms,
    CMS.AddAll default_sketch ops = Done cms /\
    forall k, exists e,
      CMS.Estimate cms k = Done e /\
      key_total ops k <= e /\
      ((exists i, 0 <= i < 5 /\
          forall k' n, In (k', n) ops -> 0 < n ->
                       col 272 k' i <> col 272 k i) ->
       e = 0).
Proof.
  apply (cms_estimate_bounds 5 272
           [(bytes_of "a", 5); (bytes_of "b", 3); (bytes_of "a", 2)]).
  - reflexivity.
  - vm_compute. discriminate.
  - repeat constructor; simpl; lia.
  - vm_compute. reflexivity.
Defined.

(** C1, as stated, fails.  The keys "costarring" and "liquid" have the same
    FNV-1a hash, hence the same column in every row: after one [Add] of
    "costarring" the key "liquid", never added, is estimated at 1.  And the
    counters wrap: after adding [2^64 - 1] and then 1 for "a", the estimate
    of "a" is 0. *)
Lemma cms_never_added_key_estimated_nonzero :
  (exists cms,
     CMS.AddAll default_sketch [(bytes_of "costarring", 1)] = Done cms /\
     ~ In (bytes_of "liquid") (map fst [(bytes_of "costarring", 1)]) /\
     CMS.Estimate cms (bytes_of "liquid") = Done 1) /\
  (exists cms,
     CMS.AddAll default_sketch [(bytes_of "a", MaxUint64); (bytes_of "a", 1)]
     = Done cms /\
     CMS.Estimate cms (bytes_of "a") = Done 0).
Proof.
  split.
  - eexists. split; [vm_compute; reflexivity|]. split.
    + intros [H|[]]. vm_compute in H. discriminate H.
    + vm_compute. reflexivity.
  - eexists. split; [vm_compute; reflexivity|]. vm_compute. reflexivity.
Qed.

(** ** The heap of item pointers *)

Section HeapFacts.

Lemma swap_perm {A : Type} (l : list A) (i j : nat) a b :
  l !! i = Some a -> l !! j = Some b ->
  <[j := a]> (<[i := b]> l) ≡ₚ l.
Proof.
  intros Hi Hj. apply Permutation_inj.
  split; [rewrite !length_insert; reflexivity|].
  pose proof (lookup_lt_Some _ _ _ Hi) as Hli.
  pose proof (lookup_lt_Some _ _ _ Hj) as Hlj.
  exists (fun k => if decide (k = j) then i
                   else if decide (k = i) then j else k).
  split.
  - intros k1 k2. repeat case_decide; congruence.
  - intros k. destruct (decide (k = j)) as [->|Hkj].
    + rewrite list_lookup_insert_eq by (rewrite length_insert; exact Hlj).
      symmetry. exact Hi.
    + rewrite list_lookup_insert_ne by congruence.
      destruct (decide (k = i)) as [->|Hki].
      * rewrite list_lookup_insert_eq by exact Hli. symmetry. exact Hj.
      * rewrite list_lookup_insert_ne by congruence. reflexivity.
Qed.

Lemma same_data_refl m : same_data m m.
Proof. split; [reflexivity|]. intros a it H. exists it. auto. Qed.

Lemma same_data_trans m1 m2 m3 :
  same_data m1 m2 -> same_data m2 m3 -> same_data m1 m3.
Proof.
  intros [L1 H1] [L2 H2]. split; [congruence|].
  intros a it Ha. destruct (H1 a it Ha) as (it2 & Ha2 & K2 & C2 & E2).
  destruct (H2 a it2 Ha2) as (it3 & Ha3 & K3 & C3 & E3).
  exists it3. repeat split; congruence.
Qed.

Lemma same_data_set_Index m a it i :
  m !! a = Some it -> same_data m (<[a := set_Index it i]> m).
Proof.
  intros Ha. split; [apply length_insert|].
  intros c it0 Hc. destruct (decide (c = a)) as [->|Hne].
  - rewrite list_lookup_insert_eq by (eapply lookup_lt_Some; exact Ha).
    exists (set_Index it i). rewrite Ha in Hc. inversion Hc; subst.
    auto.
  - rewrite list_lookup_insert_ne by congruence. exists it0. auto.
Qed.

Lemma shuffled_refl s : shuffled s s.
Proof. split; [reflexivity|]. split; [apply same_data_refl|auto]. Qed.

Lemma shuffled_trans s1 s2 s3 :
  shuffled s1 s2 -> shuffled s2 s3 -> shuffled s1 s3.
Proof.
  intros (P1 & D1 & F1) (P2 & D2 & F2).
  split; [etransitivity; eassumption|].
  split; [eapply same_data_trans; eassumption|].
  intros a Ha. rewrite F2, F1; [reflexivity|exact Ha|].
  rewrite P1. exact Ha.
Qed.

Lemma shuffled_valid s s' : shuffled s s' -> valid s -> valid s'.
Proof.
  intros (P & [L _] & _) Hv. unfold valid in *. rewrite P, L. exact Hv.
Qed.

Lemma shuffled_Len s s' : shuffled s s' -> SSHeap.Len s' = SSHeap.Len s.
Proof.
  intros (P & _). unfold SSHeap.Len. rewrite (Permutation_length P).
  reflexivity.
Qed.

Lemma valid_deref s k a :
  valid s -> slots s !! k = Some a -> exists it, cells s !! a = Some it.
Proof.
  intros Hv Hk. unfold valid in Hv. rewrite Forall_forall in Hv.
  apply lookup_lt_is_Some_2. apply Hv. apply list_elem_of_lookup. eauto.
Qed.

Lemma slot_in_range s i :
  0 <= i < SSHeap.Len s ->
  exists a, slots s !! Z.to_nat i = Some a /\ index (slots s) i = Done a.
Proof.
  intros Hi. destruct (index_in_range (slots s) i) as [a Ha]; [exact Hi|].
  exists a. split; [|exact Ha]. apply index_Done in Ha. tauto.
Qed.

Lemma Less_spec s i j :
  valid s -> 0 <= i < SSHeap.Len s -> 0 <= j < SSHeap.Len s ->
  SSHeap.Less s i j = Done (cnt s i <? cnt s j).
Proof.
  intros Hv Hi Hj. unfold SSHeap.Less, cnt.
  destruct (slot_in_range s i Hi) as (a & Ha & ->).
  destruct (slot_in_range s j Hj) as (b & Hb & ->).
  destruct (valid_deref s _ _ Hv Ha) as [x Hx].
  destruct (valid_deref s _ _ Hv Hb) as [y Hy].
  simpl. unfold deref. rewrite Hx, Hy. reflexivity.
Qed.

Lemma Swap_spec s i j :
  valid s -> 0 <= i < SSHeap.Len s -> 0 <= j < SSHeap.Len s ->
  exists s',
    SSHeap.Swap s i j = Done s' /\
    shuffled s s' /\
    (forall k, 0 <= k < SSHeap.Len s -> cnt s' k = cnt s (transp i j k)) /\
    (forall lax, NoDup (slots s) -> idx_ok lax s -> idx_ok lax s').
Proof.
  intros Hv Hi Hj. unfold SSHeap.Swap.
  destruct (slot_in_range s i Hi) as (a & Ha & ->).
  destruct (slot_in_range s j Hj) as (b & Hb & ->).
  destruct (valid_deref s _ _ Hv Ha) as [xa Hxa].
  destruct (valid_deref s _ _ Hv Hb) as [xb Hxb].
  pose proof (lookup_lt_Some _ _ _ Hxa) as Hla.
  pose proof (lookup_lt_Some _ _ _ Hxb) as Hlb.
  pose proof (lookup_lt_Some _ _ _ Ha) as Hli.
  pose proof (lookup_lt_Some _ _ _ Hb) as Hlj.
  simpl. unfold deref at 1. rewrite Hxb. simpl.
  set (m1 := <[b := set_Index xb i]> (cells s)).
  assert (Hy : exists y, m1 !! a = Some y /\ Key y = Key xa /\
                         Count y = Count xa /\ Error y = Error xa /\
                         (a <> b -> y = xa)).
  { unfold m1. destruct (decide (a = b)) as [->|Hab].
    - rewrite list_lookup_insert_eq by exact Hlb.
      exists (set_Index xb i). rewrite Hxa in Hxb. inversion Hxb; subst.
      repeat split; auto. congruence.
    - rewrite list_lookup_insert_ne by congruence. exists xa. auto. }
  destruct Hy as (y & Hy & HyK & HyC & HyE & Hyne).
  unfold deref. rewrite Hy. simpl. eexists. split; [reflexivity|].
  set (m2 := <[a := set_Index y j]> m1).
  assert (Hm2 : forall c,
             m2 !! c = if decide (c = a) then Some (set_Index y j)
                       else if decide (c = b) then Some (set_Index xb i)
                       else cells s !! c).
  { intros c. unfold m2, m1. destruct (decide (c = a)) as [->|Hca].
    - rewrite list_lookup_insert_eq by (rewrite length_insert; exact Hla).
      reflexivity.
    - rewrite list_lookup_insert_ne by congruence.
      destruct (decide (c = b)) as [->|Hcb].
      + rewrite list_lookup_insert_eq by exact Hlb. reflexivity.
      + rewrite list_lookup_insert_ne by congruence. reflexivity. }
  assert (Hsl : forall k,
             <[Z.to_nat j := a]> (<[Z.to_nat i := b]> (slots s)) !! k =
             if decide (k = Z.to_nat j) then Some a
             else if decide (k = Z.to_nat i) then Some b
             else slots s !! k).
  { intros k. destruct (decide (k = Z.to_nat j)) as [->|Hkj].
    - rewrite list_lookup_insert_eq by (rewrite length_insert; exact Hlj).
      reflexivity.
    - rewrite list_lookup_insert_ne by congruence.
      destruct (decide (k = Z.to_nat i)) as [->|Hki].
      + rewrite list_lookup_insert_eq by exact Hli. reflexivity.
      + rewrite list_lookup_insert_ne by congruence. reflexivity. }
  split; [|split].
  - (* shuffled *)
    split; [apply swap_perm; assumption|]. simpl. split.
    + split; [unfold m2, m1; rewrite !length_insert; reflexivity|].
      intros c it Hc. rewrite Hm2.
      destruct (decide (c = a)) as [->|Hca].
      * exists (set_Index y j). rewrite Hxa in Hc. inversion Hc; subst.
        simpl. auto.
      * destruct (decide (c = b)) as [->|Hcb].
        -- exists (set_Index xb i). rewrite Hxb in Hc. inversion Hc; subst.
           simpl. auto.
        -- exists it. auto.
    + intros c Hc. fold m1 m2. rewrite Hm2.
      destruct (decide (c = a)) as [->|Hca].
      { exfalso. apply Hc. apply list_elem_of_lookup. eauto. }
      destruct (decide (c = b)) as [->|Hcb].
      { exfalso. apply Hc. apply list_elem_of_lookup. eauto. }
      reflexivity.
  - (* counts *)
    intros k Hk. unfold cnt at 1. simpl. fold m1 m2.
    destruct (slot_in_range s k Hk) as (c & Hc & Hic).
    unfold index. rewrite (proj2 (Z.ltb_ge k 0)) by lia. rewrite Hsl.
    unfold transp.
    destruct (decide (Z.to_nat k = Z.to_nat j)) as [Hkj|Hkj].
    + assert (k = j) by lia. subst k.
      destruct (Z.eqb_spec j i) as [->|Hji].
      * rewrite Hm2. rewrite decide_True by reflexivity. simpl.
        unfold cnt. rewrite Hic. rewrite Ha in Hc. inversion Hc; subst.
        rewrite Hxa. congruence.
      * rewrite Z.eqb_refl. rewrite Hm2, decide_True by reflexivity. simpl.
        unfold cnt. destruct (slot_in_range s i Hi) as (a' & Ha' & ->).
        rewrite Ha in Ha'. inversion Ha'; subst. rewrite Hxa. congruence.
    + destruct (Z.eqb_spec k j) as [->|Hkj']; [congruence|].
      destruct (decide (Z.to_nat k = Z.to_nat i)) as [Hki|Hki].
      * assert (k = i) by lia. subst k. rewrite Z.eqb_refl.
        unfold cnt. destruct (slot_in_range s j Hj) as (b' & Hb' & ->).
        rewrite Hb in Hb'. inversion Hb'; subst. rewrite Hxb, Hm2.
        destruct (decide (b' = a)) as [->|Hba].
        -- simpl. rewrite Hxa in Hxb. inversion Hxb; subst. congruence.
        -- rewrite decide_True by reflexivity. reflexivity.
      * destruct (Z.eqb_spec k i) as [->|Hki']; [congruence|].
        rewrite Hc. unfold cnt. rewrite Hic.
        destruct (cells s !! c) as [it|] eqn:Hcc.
        -- destruct (proj2 (proj1 (conj (same_data_refl _) I)) c it Hcc)
             as (_ & _ & _).
           rewrite Hm2.
           destruct (decide (c = a)) as [->|Hca].
           { simpl. rewrite Hxa in Hcc. inversion Hcc; subst. congruence. }
           destruct (decide (c = b)) as [->|Hcb].
           { simpl. rewrite Hxb in Hcc. inversion Hcc; subst. reflexivity. }
           rewrite Hcc. reflexivity.
        -- apply lookup_ge_None in Hcc.
           pose proof (lookup_lt_Some _ _ _ Hc).
           destruct (valid_deref s _ _ Hv Hc) as [it Hit].
           apply lookup_lt_Some in Hit. lia.
  - (* indices *)
    intros lax Hnd Hidx k c it. simpl. fold m1 m2. rewrite Hsl, Hm2.
    destruct (decide (k = Z.to_nat j)) as [->|Hkj].
    + intros [= <-]. rewrite decide_True by reflexivity.
      intros [= <-]. simpl. left. lia.
    + destruct (decide (k = Z.to_nat i)) as [->|Hki].
      * intros [= <-].
        destruct (decide (b = a)) as [Hba|Hba].
        { exfalso. subst b. apply Hkj.
          eapply NoDup_lookup; eassumption. }
        rewrite decide_True by reflexivity. intros [= <-]. simpl. left. lia.
      * intros Hc.
        destruct (decide (c = a)) as [->|Hca].
        { exfalso. apply Hki. eapply NoDup_lookup; eassumption. }
        destruct (decide (c = b)) as [->|Hcb].
        { exfalso. apply Hkj. eapply NoDup_lookup; eassumption. }
        intros Hit. eapply Hidx; eassumption.
Qed.

Lemma placed_swap_closed lax : swap_closed (placed lax).
Proof.
  intros s i j s' Hv Hi Hj [Hnd Hidx] Hsw.
  destruct (Swap_spec s i j Hv Hi Hj) as (s'' & Hsw' & Hsh & _ & Hix).
  rewrite Hsw in Hsw'. inversion Hsw'; subst s''.
  split; [|apply Hix; assumption].
  destruct Hsh as (P & _). rewrite P. exact Hnd.
Qed.

Lemma true_swap_closed : swap_closed (fun _ => True).
Proof. intros s i j s' _ _ _ _ _. exact I. Qed.

Section Loops.

Variable I : hstate -> Prop.
Hypothesis I_swap : swap_closed I.

Lemma swap_step s i j :
  valid s -> I s -> 0 <= i < SSHeap.Len s -> 0 <= j < SSHeap.Len s ->
  exists s', SSHeap.Swap s i j = Done s' /\ shuffled s s' /\
             valid s' /\ I s' /\ SSHeap.Len s' = SSHeap.Len s.
Proof.
  intros Hv HI Hi Hj.
  destruct (Swap_spec s i j Hv Hi Hj) as (s' & Hsw & Hsh & _).
  exists s'. split; [exact Hsw|]. split; [exact Hsh|].
  split; [eapply shuffled_valid; eassumption|].
  split; [exact (I_swap s i j s' Hv Hi Hj HI Hsw)|].
  apply shuffled_Len. exact Hsh.
Qed.

Lemma up_spec fuel :
  forall s j,
    valid s -> I s -> -1 <= j < SSHeap.Len s ->
    1 <= Z.of_nat fuel -> j < Z.of_nat fuel ->
    exists s', Heap.up fuel s j = Done s' /\ shuffled s s' /\ I s'.
Proof.
  induction fuel as [|fuel IH]; intros s j Hv HI Hj Hf1 Hf; [lia|].
  simpl. destruct (Z.eqb_spec (Z.quot (j - 1) 2) j) as [Heq|Hne].
  { exists s. split; [reflexivity|]. split; [apply shuffled_refl|exact HI]. }
  assert (Hj1 : 1 <= j).
  { destruct (Z.eq_dec j (-1)) as [->|]; [exfalso; apply Hne; reflexivity|].
    destruct (Z.eq_dec j 0) as [->|]; [exfalso; apply Hne; reflexivity|].
    lia. }
  assert (Hp : 0 <= Z.quot (j - 1) 2 < j).
  { rewrite Z.quot_div_nonneg by lia.
    split; [apply Z.div_pos; lia|].
    apply Z.div_lt_upper_bound; lia. }
  set (i := Z.quot (j - 1) 2) in *.
  rewrite Less_spec by (try assumption; lia). simpl.
  destruct (cnt s j <? cnt s i); simpl.
  - destruct (swap_step s i j Hv HI) as (s1 & Hsw & Hsh & Hv1 & HI1 & HL1);
      [lia|lia|].
    rewrite Hsw. simpl.
    destruct (IH s1 i Hv1 HI1) as (s' & Hup & Hsh' & HI'); [lia|lia|lia|].
    exists s'. split; [exact Hup|].
    split; [eapply shuffled_trans; eassumption|exact HI'].
  - exists s. split; [reflexivity|]. split; [apply shuffled_refl|exact HI].
Qed.

Lemma down_loop_spec fuel :
  forall s i n,
    valid s -> I s -> 0 <= n <= SSHeap.Len s ->
    1 <= Z.of_nat fuel -> (0 <= i -> n - i < Z.of_nat fuel) ->
    exists s' i',
      Heap.down_loop fuel s i n = Done (s', i') /\ shuffled s s' /\ I s' /\
      i <= i'.
Proof.
  induction fuel as [|fuel IH]; intros s i n Hv HI Hn Hf1 Hf; [lia|].
  simpl.
  destruct ((2 * i + 1 >=? n) || (2 * i + 1 <? 0)) eqn:Estop.
  { exists s, i. split; [reflexivity|]. split; [apply shuffled_refl|].
    split; [exact HI|lia]. }
  apply orb_false_iff in Estop as [E1 E2].
  rewrite Z.geb_leb in E1. apply Z.leb_gt in E1. apply Z.ltb_ge in E2.
  assert (Hi : 0 <= i) by lia.
  assert (Hj : exists j,
             (if 2 * i + 1 + 1 <? n
              then lt <- SSHeap.Less s (2 * i + 1 + 1) (2 * i + 1) ;;
                   Done (if lt then 2 * i + 1 + 1 else 2 * i + 1)
              else Done (2 * i + 1)) = Done j /\
             2 * i + 1 <= j < n).
  { destruct (Z.ltb_spec (2 * i + 1 + 1) n).
    - rewrite Less_spec by (try assumption; lia). simpl.
      destruct (cnt s (2 * i + 1 + 1) <? cnt s (2 * i + 1));
        eexists; (split; [reflexivity|lia]).
    - eexists. split; [reflexivity|lia]. }
  destruct Hj as (j & -> & Hjr). simpl.
  rewrite Less_spec by (try assumption; lia). simpl.
  destruct (cnt s j <? cnt s i); simpl.
  - destruct (swap_step s i j Hv HI) as (s1 & Hsw & Hsh & Hv1 & HI1 & HL1);
      [lia|lia|].
    rewrite Hsw. simpl.
    destruct (IH s1 j n Hv1 HI1) as (s' & i' & Hd & Hsh' & HI' & Hle);
      [lia|lia|lia|].
    exists s', i'. split; [exact Hd|].
    split; [eapply shuffled_trans; eassumption|]. split; [exact HI'|lia].
  - exists s, i. split; [reflexivity|]. split; [apply shuffled_refl|].
    split; [exact HI|lia].
Qed.

Lemma down_spec s i n :
  valid s -> I s -> 0 <= n <= SSHeap.Len s ->
  exists s' moved,
    Heap.down s i n = Done (s', moved) /\ shuffled s s' /\ I s'.
Proof.
  intros Hv HI Hn. unfold Heap.down, Heap.fuel_for.
  destruct (down_loop_spec (S (length (slots s))) s i n Hv HI Hn)
    as (s' & i' & Hd & Hsh & HI' & _).
  - lia.
  - unfold SSHeap.Len in Hn. lia.
  - rewrite Hd. simpl. eauto.
Qed.

Lemma Fix_spec s i :
  valid s -> I s -> -1 <= i < SSHeap.Len s ->
  exists s', Heap.Fix s i = Done s' /\ shuffled s s' /\ I s'.
Proof.
  intros Hv HI Hi. unfold Heap.Fix.
  destruct (down_spec s i (SSHeap.Len s) Hv HI) as (s1 & moved & Hd & Hsh & HI1).
  { unfold SSHeap.Len. lia. }
  rewrite Hd. simpl. destruct moved; simpl.
  - exists s1. auto.
  - pose proof (shuffled_Len _ _ Hsh) as HL.
    destruct (up_spec (Heap.fuel_for s1) s1 i) as (s' & Hup & Hsh' & HI');
      try assumption.
    + eapply shuffled_valid; eassumption.
    + lia.
    + unfold Heap.fuel_for. lia.
    + unfold Heap.fuel_for. unfold SSHeap.Len in *. lia.
    + exists s'. split; [exact Hup|].
      split; [eapply shuffled_trans; eassumption|exact HI'].
Qed.

Lemma init_loop_spec k :
  forall s i,
    valid s -> I s ->
    exists s', Heap.init_loop k s i (SSHeap.Len s) = Done s' /\
               shuffled s s' /\ I s'.
Proof.
  induction k as [|k IH]; intros s i Hv HI; simpl.
  - exists s. split; [reflexivity|]. split; [apply shuffled_refl|exact HI].
  - destruct (down_spec s i (SSHeap.Len s) Hv HI) as (s1 & moved & Hd & Hsh & HI1).
    { unfold SSHeap.Len. lia. }
    rewrite Hd. simpl.
    destruct (IH s1 (i - 1)) as (s' & Hl & Hsh' & HI');
      [eapply shuffled_valid; eassumption|exact HI1|].
    rewrite (shuffled_Len _ _ Hsh) in Hl.
    exists s'. split; [exact Hl|].
    split; [eapply shuffled_trans; eassumption|exact HI'].
Qed.

Lemma Init_spec s :
  valid s -> I s ->
  exists s', Heap.Init s = Done s' /\ shuffled s s' /\ I s'.
Proof. intros Hv HI. unfold Heap.Init. apply init_loop_spec; assumption. Qed.

End Loops.

End HeapFacts.

(** ** Heap order through [down], [up] and [Fix] *)

Section OrderFacts.

Lemma parent_child k i :
  1 <= k -> 0 <= i -> (parent k = i <-> k = 2 * i + 1 \/ k = 2 * i + 2).
Proof. unfold parent. intros. Z.div_mod_to_equations. lia. Qed.

Lemma parent_lt k : 1 <= k -> 0 <= parent k < k.
Proof. unfold parent. intros. Z.div_mod_to_equations. lia. Qed.

Lemma quot_parent j : 1 <= j -> Z.quot (j - 1) 2 = parent j.
Proof. intros. unfold parent. apply Z.quot_div_nonneg; lia. Qed.

Lemma transp_other i j k : k <> i -> k <> j -> transp i j k = k.
Proof.
  intros. unfold transp.
  destruct (Z.eqb_spec k i); [lia|]. destruct (Z.eqb_spec k j); [lia|].
  reflexivity.
Qed.

Lemma transp_l i j : transp i j i = j.
Proof. unfold transp. rewrite Z.eqb_refl. reflexivity. Qed.

Lemma transp_r i j : transp i j j = i.
Proof.
  unfold transp. destruct (Z.eqb_spec j i); [auto|].
  rewrite Z.eqb_refl. reflexivity.
Qed.

Lemma ordered_below_stop s i :
  ordered_below s i ->
  (forall j, 1 <= j < SSHeap.Len s -> parent j = i -> cnt s i <= cnt s j) ->
  heap_ordered s.
Proof.
  intros [Ha _] Hc j Hj. destruct (Z.eq_dec (parent j) i) as [Hp|Hp].
  - rewrite Hp. apply Hc; assumption.
  - apply Ha; assumption.
Qed.

Lemma down_loop_order fuel :
  forall s i s' i',
    valid s -> 0 <= i < SSHeap.Len s -> ordered_below s i ->
    Heap.down_loop fuel s i (SSHeap.Len s) = Done (s', i') ->
    heap_ordered s'.
Proof.
  induction fuel as [|fuel IH]; intros s i s' i' Hv Hi Hord Hrun;
    [discriminate|].
  cbn [Heap.down_loop] in Hrun. set (n := SSHeap.Len s) in *.
  destruct ((2 * i + 1 >=? n) || (2 * i + 1 <? 0)) eqn:Estop.
  { inversion Hrun; subst s' i'. apply (ordered_below_stop s i Hord).
    intros j Hj Hp. exfalso. apply parent_child in Hp; [|lia|lia].
    apply orb_true_iff in Estop as [E|E].
    - rewrite Z.geb_leb in E. apply Z.leb_le in E. fold n in Hj. lia.
    - apply Z.ltb_lt in E. lia. }
  apply orb_false_iff in Estop as [E1 E2].
  rewrite Z.geb_leb in E1. apply Z.leb_gt in E1. apply Z.ltb_ge in E2.
  assert (Hj : exists j,
             (if 2 * i + 1 + 1 <? n
              then lt <- SSHeap.Less s (2 * i + 1 + 1) (2 * i + 1) ;;
                   Done (if lt then 2 * i + 1 + 1 else 2 * i + 1)
              else Done (2 * i + 1)) = Done j /\
             (j = 2 * i + 1 \/ j = 2 * i + 2) /\ j < n /\
             cnt s j <= cnt s (2 * i + 1) /\
             (2 * i + 2 < n -> cnt s j <= cnt s (2 * i + 2))).
  { destruct (Z.ltb_spec (2 * i + 1 + 1) n).
    - rewrite Less_spec by (try assumption; fold n; lia). simpl.
      replace (2 * i + 1 + 1) with (2 * i + 2) by lia.
      destruct (Z.ltb_spec (cnt s (2 * i + 2)) (cnt s (2 * i + 1)));
        eexists; (split; [reflexivity|]); repeat split; lia.
    - eexists. split; [reflexivity|]. repeat split; lia. }
  destruct Hj as (j & Hjeq & Hjc & Hjn & Hj1 & Hj2).
  rewrite Hjeq in Hrun. cbn [obind] in Hrun.
  rewrite Less_spec in Hrun by (try assumption; fold n; lia).
  cbn [obind] in Hrun.
  destruct (Z.ltb_spec (cnt s j) (cnt s i)) as [Hlt|Hge]; cbn [negb] in Hrun.
  2:{ inversion Hrun; subst s' i'. apply (ordered_below_stop s i Hord).
      intros k Hk Hp. apply parent_child in Hp; [|lia|lia].
      fold n in Hk. destruct Hp as [->| ->]; [lia|]. specialize (Hj2 ltac:(lia)).
      lia. }
  destruct (Swap_spec s i j Hv) as (s1 & Hsw & Hsh & Hcnt & _);
    [fold n; lia|fold n; lia|].
  rewrite Hsw in Hrun. cbn [obind] in Hrun.
  pose proof (shuffled_Len _ _ Hsh) as HL. fold n in HL, Hcnt.
  rewrite <- HL in Hrun.
  apply (IH s1 j s' i'); [eapply shuffled_valid; eassumption|lia| |exact Hrun].
  destruct Hord as [Ha Hb]. fold n in Ha, Hb.
  assert (Hpj : parent j = i) by (apply parent_child; lia).
  split.
  - intros k Hk Hp. rewrite HL in Hk.
    pose proof (parent_lt k ltac:(lia)) as Hpk.
    rewrite (Hcnt k) by lia. rewrite (Hcnt (parent k)) by lia.
    destruct (Z.eq_dec (parent k) i) as [Hpi|Hpi].
    + rewrite Hpi, transp_l.
      apply parent_child in Hpi as Hk2; [|lia|lia].
      destruct (Z.eq_dec k j) as [->|Hkj].
      * rewrite transp_r. lia.
      * rewrite transp_other by lia.
        destruct Hk2 as [->| ->]; destruct Hjc as [->| ->]; lia.
    + rewrite (transp_other i j (parent k)) by lia.
      destruct (Z.eq_dec k i) as [->|Hki].
      * rewrite transp_l. apply (Hb j); lia.
      * assert (k <> j) by (intros ->; lia).
        rewrite transp_other by lia. apply Ha; lia.
  - intros k Hk Hp Hj1'. rewrite HL in Hk. rewrite Hpj.
    rewrite (Hcnt k) by lia. rewrite (Hcnt i) by lia.
    rewrite transp_l.
    assert (k <> i /\ k <> j).
    { pose proof (parent_lt k ltac:(lia)). lia. }
    rewrite transp_other by lia.
    pose proof (Ha k ltac:(lia) ltac:(lia)) as Hak. rewrite Hp in Hak.
    exact Hak.
Qed.

Lemma ordered_above_stop s j :
  ordered_above s j ->
  (1 <= j -> cnt s (parent j) <= cnt s j) ->
  heap_ordered s.
Proof.
  intros [Ha _] Hc k Hk. destruct (Z.eq_dec k j) as [->|Hne].
  - apply Hc. lia.
  - apply Ha; assumption.
Qed.

Lemma up_order fuel :
  forall s j s',
    valid s -> 0 <= j < SSHeap.Len s -> ordered_above s j ->
    Heap.up fuel s j = Done s' ->
    heap_ordered s'.
Proof.
  induction fuel as [|fuel IH]; intros s j s' Hv Hj Hord Hrun;
    [discriminate|].
  cbn [Heap.up] in Hrun.
  destruct (Z.eqb_spec (Z.quot (j - 1) 2) j) as [Heq|Hne].
  { inversion Hrun; subst s'. apply (ordered_above_stop s j Hord).
    intros Hj1. rewrite quot_parent in Heq by lia.
    pose proof (parent_lt j Hj1). lia. }
  assert (Hj1 : 1 <= j).
  { destruct (Z.eq_dec j 0) as [->|]; [exfalso; apply Hne; reflexivity|lia]. }
  rewrite quot_parent in Hrun by lia.
  pose proof (parent_lt j Hj1) as Hp.
  set (i := parent j) in *.
  rewrite Less_spec in Hrun by (try assumption; lia).
  cbn [obind] in Hrun.
  destruct (Z.ltb_spec (cnt s j) (cnt s i)) as [Hlt|Hge]; cbn [negb] in Hrun.
  2:{ inversion Hrun; subst s'. apply (ordered_above_stop s j Hord).
      intros _. exact Hge. }
  destruct (Swap_spec s i j Hv) as (s1 & Hsw & Hsh & Hcnt & _); [lia|lia|].
  rewrite Hsw in Hrun. cbn [obind] in Hrun.
  pose proof (shuffled_Len _ _ Hsh) as HL.
  apply (IH s1 i s'); [eapply shuffled_valid; eassumption|lia| |exact Hrun].
  destruct Hord as [Ha Hb].
  split.
  - intros k Hk Hki. rewrite HL in Hk.
    pose proof (parent_lt k ltac:(lia)) as Hpk.
    rewrite (Hcnt k) by lia. rewrite (Hcnt (parent k)) by lia.
    destruct (Z.eq_dec k j) as [->|Hkj].
    + fold i. rewrite transp_l, transp_r. lia.
    + rewrite (transp_other i j k) by lia.
      destruct (Z.eq_dec (parent k) i) as [Hpi|Hpi].
      * rewrite Hpi, transp_l. specialize (Ha k ltac:(lia) Hkj).
        rewrite Hpi in Ha. lia.
      * destruct (Z.eq_dec (parent k) j) as [Hpj|Hpj].
        -- rewrite Hpj, transp_r. apply (Hb k); lia.
        -- rewrite transp_other by lia. apply Ha; lia.
  - intros k Hk Hpk Hi1. rewrite HL in Hk.
    pose proof (parent_lt i Hi1) as Hpi.
    rewrite (Hcnt k) by lia. rewrite (Hcnt (parent i)) by lia.
    rewrite (transp_other i j (parent i)) by lia.
    assert (Hgi : cnt s (parent i) <= cnt s i) by (apply Ha; lia).
    destruct (Z.eq_dec k j) as [->|Hkj].
    + rewrite transp_r. exact Hgi.
    + assert (k <> i) by (pose proof (parent_lt k ltac:(lia)); lia).
      rewrite transp_other by lia.
      specialize (Ha k ltac:(lia) Hkj). rewrite Hpk in Ha. lia.
Qed.

Lemma heap_ordered_above s j :
  heap_ordered s -> ordered_above s j.
Proof.
  intros Ho. split.
  - intros k Hk _. apply Ho. exact Hk.
  - intros k Hk Hp Hj. etransitivity; [apply Ho|].
    + pose proof (parent_lt k ltac:(lia)). lia.
    + rewrite <- Hp. apply Ho. exact Hk.
Qed.

Lemma Fix_order s i s' :
  valid s -> 0 <= i < SSHeap.Len s -> ordered_below s i ->
  Heap.Fix s i = Done s' -> heap_ordered s'.
Proof.
  intros Hv Hi Hord Hfix. unfold Heap.Fix, Heap.down in Hfix.
  apply obind_Done in Hfix as ([s1 moved] & Hd & Hfix).
  apply obind_Done in Hd as ([s1' i'] & Hd & Heq).
  inversion Heq; subst s1 moved; clear Heq.
  pose proof (down_loop_order _ _ _ _ _ Hv Hi Hord Hd) as Ho1.
  cbn [fst snd] in Hfix.
  destruct (i' >? i); cbn [negb] in Hfix.
  - inversion Hfix; subst. exact Ho1.
  - destruct (down_loop_spec (fun _ => True) true_swap_closed
                (Heap.fuel_for s) s i (SSHeap.Len s) Hv I)
      as (s2 & i2 & Hd2 & Hsh & _).
    + lia.
    + unfold Heap.fuel_for. lia.
    + unfold Heap.fuel_for, SSHeap.Len. lia.
    + rewrite Hd in Hd2. inversion Hd2; subst s2 i2.
      apply (up_order (Heap.fuel_for s1') s1' i s');
        [eapply shuffled_valid; eassumption| | |exact Hfix].
      * rewrite (shuffled_Len _ _ Hsh). exact Hi.
      * apply heap_ordered_above. exact Ho1.
Qed.

(** In a min-heap the root holds the least count. *)
Lemma root_min s :
  heap_ordered s ->
  forall k, 0 <= k < SSHeap.Len s -> cnt s 0 <= cnt s k.
Proof.
  intros Ho.
  assert (H : forall (m : nat) k,
             (Z.to_nat k <= m)%nat -> 0 <= k < SSHeap.Len s ->
             cnt s 0 <= cnt s k).
  { induction m as [|m IH]; intros k Hm Hk.
    - assert (k = 0) by lia. subst k. lia.
    - destruct (Z.eq_dec k 0) as [->|Hne]; [lia|].
      pose proof (parent_lt k ltac:(lia)).
      etransitivity; [apply (IH (parent k)); lia|]. apply Ho. lia. }
  intros k Hk. apply (H (Z.to_nat k)); [lia|exact Hk].
Qed.

End OrderFacts.

(** ** The Space-Saving structure: structure *)

Arguments Heap.up : simpl never.
Arguments Heap.down_loop : simpl never.
Arguments Heap.Fix : simpl never.
Arguments Heap.Init : simpl never.

Section SSFacts.

Import SS.
Import Algo.

Lemma linked_shuffled its s s' :
  shuffled s s' -> linked its s -> linked its s'.
Proof.
  intros (P & [_ D] & _) [L1 L2]. split.
  - intros key a Hk. destruct (L1 key a Hk) as (Hin & it & Hit & HK).
    split; [rewrite P; exact Hin|].
    destruct (D a it Hit) as (it' & Hit' & HK' & _).
    exists it'. split; [exact Hit'|congruence].
  - intros a Ha. rewrite P in Ha. destruct (L2 a Ha) as (it & Hit & Hk).
    destruct (D a it Hit) as (it' & Hit' & HK' & _).
    exists it'. split; [exact Hit'|]. rewrite HK'. exact Hk.
Qed.

Lemma ss_inv_shuffled lax cap its s s' :
  ss_inv lax (mkSS cap its (slots s) (cells s)) ->
  shuffled s s' -> placed lax s' ->
  ss_inv lax (mkSS cap its (slots s') (cells s')).
Proof.
  intros (Hv & _ & Hl & Hc) Hsh Hp. unfold ss_inv, hs in *. simpl in *.
  destruct s as [h m], s' as [h' m']. simpl in *.
  split; [eapply shuffled_valid; eassumption|]. split; [exact Hp|].
  split; [eapply linked_shuffled; eassumption|].
  destruct Hsh as (P & _). simpl in P. rewrite (Permutation_length P).
  exact Hc.
Qed.

Lemma ss_inv_same_place lax cap its h m m' :
  ss_inv lax (mkSS cap its h m) -> same_place m m' ->
  ss_inv lax (mkSS cap its h m').
Proof.
  intros (Hv & [Hnd Hidx] & [L1 L2] & Hc) [HL D].
  unfold ss_inv, hs, valid, placed in *. simpl in *.
  split; [rewrite HL; exact Hv|]. split; [split; [exact Hnd|]|split].
  - intros k a it' Hk Hit'.
    destruct (L2 a) as (it & Hit & _); [apply list_elem_of_lookup; eauto|].
    destruct (D a it Hit) as (it2 & Hit2 & _ & HI).
    simpl in Hit'. rewrite Hit2 in Hit'. inversion Hit'; subst it2.
    rewrite HI. eapply Hidx; eassumption.
  - split.
    + intros key a Hk. destruct (L1 key a Hk) as (Hin & it & Hit & HK).
      split; [exact Hin|].
      destruct (D a it Hit) as (it' & Hit' & HK' & _).
      exists it'. split; [exact Hit'|congruence].
    + intros a Ha. destruct (L2 a Ha) as (it & Hit & Hk).
      destruct (D a it Hit) as (it' & Hit' & HK' & _).
      exists it'. split; [exact Hit'|]. rewrite HK'. exact Hk.
  - exact Hc.
Qed.

Lemma same_place_refl m : same_place m m.
Proof. split; [reflexivity|]. intros a it H. exists it. auto. Qed.

Lemma same_place_trans m1 m2 m3 :
  same_place m1 m2 -> same_place m2 m3 -> same_place m1 m3.
Proof.
  intros [L1 H1] [L2 H2]. split; [congruence|].
  intros a it Ha. destruct (H1 a it Ha) as (it2 & Ha2 & K2 & I2).
  destruct (H2 a it2 Ha2) as (it3 & Ha3 & K3 & I3).
  exists it3. repeat split; congruence.
Qed.

Lemma same_place_insert m a it it' :
  m !! a = Some it -> Key it' = Key it -> Index it' = Index it ->
  same_place m (<[a := it']> m).
Proof.
  intros Ha HK HI. split; [apply length_insert|].
  intros c it0 Hc. destruct (decide (c = a)) as [->|Hne].
  - rewrite list_lookup_insert_eq by (eapply lookup_lt_Some; exact Ha).
    exists it'. rewrite Ha in Hc. inversion Hc; subst. auto.
  - rewrite list_lookup_insert_ne by congruence. exists it0. auto.
Qed.

(** The index recorded in a node is -1 or a position of the heap. *)
Lemma inv_index_range lax ss key a it :
  ss_inv lax ss -> items ss !! key = Some a -> mem ss !! a = Some it ->
  -1 <= Index it < Z.of_nat (length (heap ss)).
Proof.
  intros (_ & [_ Hidx] & [L1 _] & _) Hk Hit.
  destruct (L1 key a Hk) as (Hin & _).
  apply list_elem_of_lookup in Hin as [k Hkk].
  pose proof (lookup_lt_Some _ _ _ Hkk).
  destruct (Hidx k a it Hkk Hit) as [->|[_ ->]]; simpl in *; lia.
Qed.

(** *** Add: the key exists *)

Lemma Add_existing lax ss key n a item :
  ss_inv lax ss -> items ss !! key = Some a -> mem ss !! a = Some item ->
  let mid := mkH (heap ss)
               (<[a := set_Count item (wrap64 (Count item + n))]> (mem ss)) in
  exists s',
    Heap.Fix mid (Index item) = Done s' /\
    Add ss key n = Done (with_hs ss (items ss) s') /\
    shuffled mid s' /\
    ss_inv lax (with_hs ss (items ss) s').
Proof.
  intros Hinv Hk Hit mid.
  assert (Hmid : ss_inv lax (mkSS (capacity ss) (items ss)
                                  (slots mid) (cells mid))).
  { apply ss_inv_same_place with (m := mem ss).
    - destruct ss; exact Hinv.
    - apply same_place_insert with (it := item); auto. }
  pose proof (inv_index_range lax ss key a item Hinv Hk Hit) as Hr.
  destruct (Fix_spec (placed lax) (placed_swap_closed lax) mid (Index item))
    as (s' & Hfix & Hsh & Hp).
  - apply Hmid.
  - apply Hmid.
  - unfold SSHeap.Len. simpl. exact Hr.
  - exists s'. split; [exact Hfix|]. split.
    + unfold Add. rewrite Hk. unfold deref. rewrite Hit. simpl.
      fold mid. rewrite Hfix. reflexivity.
    + split; [exact Hsh|]. unfold with_hs.
      eapply ss_inv_shuffled; eassumption.
Qed.

(** *** Add: a new key below capacity *)

Lemma Add_push lax ss key n :
  ss_inv lax ss -> items ss !! key = None ->
  Z.of_nat (length (heap ss)) < capacity ss ->
  let a := length (mem ss) in
  let mid := mkH (heap ss ++ [a])
               (mem ss ++ [mkItem key n 0 (Z.of_nat (length (heap ss)))]) in
  exists s',
    Heap.up (Heap.fuel_for mid) mid (SSHeap.Len mid - 1) = Done s' /\
    Add ss key n = Done (with_hs ss (<[key := a]> (items ss)) s') /\
    shuffled mid s' /\
    ss_inv lax (with_hs ss (<[key := a]> (items ss)) s').
Proof.
  intros Hinv Hk Hcap a mid.
  destruct Hinv as (Hv & [Hnd Hidx] & [L1 L2] & Hc).
  unfold hs, valid in *. simpl in *.
  assert (Hfresh : a ∉ heap ss).
  { intros Hin. rewrite Forall_forall in Hv. specialize (Hv a Hin).
    unfold a in Hv. lia. }
  assert (Hmid : ss_inv lax (mkSS (capacity ss) (<[key := a]> (items ss))
                                  (slots mid) (cells mid))).
  { unfold mid, ss_inv, hs, valid, placed, idx_ok, linked. simpl.
    split; [|split; [split|split]].
    - apply Forall_app. split.
      + eapply Forall_impl; [exact Hv|]. intros c Hc'. simpl in Hc'.
        rewrite length_app. simpl. lia.
      + constructor; [|constructor]. rewrite length_app. simpl. unfold a. lia.
    - apply NoDup_app. split; [exact Hnd|]. split.
      + intros c Hc1 Hc2. apply list_elem_of_singleton in Hc2. subst c.
        contradiction.
      + apply NoDup_singleton.
    - intros k c it Hkc Hit. apply lookup_app_Some in Hkc as [Hkc|[Hge Hkc]].
      + assert (Hlt : (c < length (mem ss))%nat).
        { rewrite Forall_forall in Hv. apply Hv.
          apply list_elem_of_lookup. eauto. }
        rewrite lookup_app_l in Hit by exact Hlt.
        eapply Hidx; eassumption.
      + apply list_lookup_singleton_Some in Hkc as [Hk0 <-].
        rewrite lookup_app_r in Hit by (unfold a; lia).
        replace (a - length (mem ss))%nat with 0%nat in Hit by (unfold a; lia).
        simpl in Hit. inversion Hit; subst it. simpl. left. lia.
    - split.
      + intros key' c Hk'. destruct (decide (key' = key)) as [->|Hne].
        * rewrite lookup_insert_eq in Hk'. inversion Hk'; subst c.
          split; [apply elem_of_app; right; apply list_elem_of_singleton;
                  reflexivity|].
          eexists. split.
          { rewrite lookup_app_r by (unfold a; lia).
            replace (a - length (mem ss))%nat with 0%nat by (unfold a; lia).
            reflexivity. }
          reflexivity.
        * rewrite lookup_insert_ne in Hk' by congruence.
          destruct (L1 key' c Hk') as (Hin & it & Hit & HK).
          split; [apply elem_of_app; left; exact Hin|].
          exists it. split; [|exact HK].
          rewrite lookup_app_l by (eapply lookup_lt_Some; exact Hit).
          exact Hit.
      + intros c Hc'. apply elem_of_app in Hc' as [Hc'|Hc'].
        * destruct (L2 c Hc') as (it & Hit & Hkk).
          exists it. split.
          -- rewrite lookup_app_l by (eapply lookup_lt_Some; exact Hit).
             exact Hit.
          -- rewrite lookup_insert_ne; [exact Hkk|].
             intros Heq. rewrite <- Heq in Hkk. congruence.
        * apply list_elem_of_singleton in Hc'. subst c.
          eexists. split.
          -- rewrite lookup_app_r by (unfold a; lia).
             replace (a - length (mem ss))%nat with 0%nat by (unfold a; lia).
             reflexivity.
          -- simpl. apply lookup_insert_eq.
    - rewrite length_app. simpl. lia. }
  destruct (up_spec (placed lax) (placed_swap_closed lax) (Heap.fuel_for mid)
              mid (SSHeap.Len mid - 1)) as (s' & Hup & Hsh & Hp).
  - apply Hmid.
  - apply Hmid.
  - unfold SSHeap.Len. lia.
  - unfold Heap.fuel_for. lia.
  - unfold Heap.fuel_for, SSHeap.Len. lia.
  - exists s'. split; [exact Hup|]. split.
    + unfold Add. rewrite Hk. unfold SSHeap.Len, hs. simpl.
      rewrite (proj2 (Z.ltb_lt _ _) Hcap).
      unfold Heap.Push, SSHeap.Push, deref. simpl.
      rewrite lookup_app_r by lia.
      replace (length (mem ss) - length (mem ss))%nat with 0%nat by lia.
      simpl. unfold SSHeap.Len. simpl.
      replace (<[length (mem ss) :=
                  set_Index (mkItem key n 0 0)
                            (Z.of_nat (length (heap ss)))]>
                 (mem ss ++ [mkItem key n 0 0]))
        with (cells mid).
      2:{ simpl. rewrite insert_app_r_alt by lia.
          replace (length (mem ss) - length (mem ss))%nat with 0%nat by lia.
          reflexivity. }
      change (mkH (heap ss ++ [length (mem ss)]) (cells mid)) with mid.
      unfold SSHeap.Len in Hup. simpl in Hup. subst a. rewrite Hup.
      reflexivity.
    + split; [exact Hsh|]. unfold with_hs.
      eapply ss_inv_shuffled; eassumption.
Qed.

(** *** Add: a new key at capacity replaces the root *)

Lemma Add_evict lax ss key n a smallest :
  ss_inv lax ss -> items ss !! key = None ->
  capacity ss <= Z.of_nat (length (heap ss)) ->
  heap ss !! 0%nat = Some a -> mem ss !! a = Some smallest ->
  let mid := mkH (heap ss)
               (<[a := mkItem key (wrap64 (Count smallest + n))
                              (Count smallest) (Index smallest)]> (mem ss)) in
  let its := <[key := a]> (delete (Key smallest) (items ss)) in
  exists s',
    Heap.Fix mid 0 = Done s' /\
    Add ss key n = Done (with_hs ss its s') /\
    shuffled mid s' /\
    ss_inv lax (with_hs ss its s').
Proof.
  intros Hinv Hk Hcap Ha Hsm mid its.
  pose proof Hinv as (Hv & [Hnd Hidx] & [L1 L2] & Hc).
  unfold hs, valid in *. simpl in *.
  pose proof (lookup_lt_Some _ _ _ Hsm) as Hla.
  assert (Hina : a ∈ heap ss) by (apply list_elem_of_lookup; eauto).
  assert (Hsmk : items ss !! Key smallest = Some a).
  { destruct (L2 a Hina) as (it & Hit & Hkk). congruence. }
  assert (Hmid : ss_inv lax (mkSS (capacity ss) its (slots mid) (cells mid))).
  { unfold mid, its, ss_inv, hs, valid, placed, idx_ok, linked. simpl.
    split; [|split; [split|split]].
    - rewrite length_insert. exact Hv.
    - exact Hnd.
    - intros k c it Hkc Hit. destruct (decide (c = a)) as [->|Hne].
      + rewrite list_lookup_insert_eq in Hit by exact Hla.
        inversion Hit; subst it. simpl. eapply Hidx; eassumption.
      + rewrite list_lookup_insert_ne in Hit by congruence.
        eapply Hidx; eassumption.
    - split.
      + intros key' c Hk'. destruct (decide (key' = key)) as [->|Hne].
        * rewrite lookup_insert_eq in Hk'. inversion Hk'; subst c.
          split; [exact Hina|]. eexists. split.
          { apply list_lookup_insert_eq. exact Hla. }
          reflexivity.
        * rewrite lookup_insert_ne in Hk' by congruence.
          apply lookup_delete_Some in Hk' as [Hne' Hk'].
          destruct (L1 key' c Hk') as (Hin & it & Hit & HK).
          split; [exact Hin|]. exists it. split; [|exact HK].
          rewrite list_lookup_insert_ne; [exact Hit|].
          intros <-. apply Hne'. congruence.
      + intros c Hc'. destruct (decide (c = a)) as [->|Hne].
        * eexists. split.
          { apply list_lookup_insert_eq. exact Hla. }
          simpl. apply lookup_insert_eq.
        * destruct (L2 c Hc') as (it & Hit & Hkk).
          exists it. split.
          { rewrite list_lookup_insert_ne by congruence. exact Hit. }
          rewrite lookup_insert_ne by (intros Heq; rewrite <- Heq in Hkk;
                                       congruence).
          rewrite lookup_delete_ne; [exact Hkk|].
          intros Heq. rewrite Heq in Hsmk. congruence.
    - exact Hc. }
  destruct (Fix_spec (placed lax) (placed_swap_closed lax) mid 0)
    as (s' & Hfix & Hsh & Hp).
  - apply Hmid.
  - apply Hmid.
  - unfold SSHeap.Len. simpl. apply lookup_lt_Some in Ha. lia.
  - exists s'. split; [exact Hfix|]. split.
    + unfold Add. rewrite Hk. unfold SSHeap.Len, hs. simpl.
      rewrite (proj2 (Z.ltb_ge _ _) Hcap).
      unfold index. simpl. change (Z.to_nat 0) with 0%nat. rewrite Ha. simpl.
      unfold deref. rewrite Hsm. simpl. fold mid. rewrite Hfix. reflexivity.
    + split; [exact Hsh|]. unfold with_hs.
      eapply ss_inv_shuffled; eassumption.
Qed.

(** *** Add preserves the invariant and, with a positive capacity, returns *)

Lemma Add_total lax ss key n :
  ss_inv lax ss -> 0 < capacity ss ->
  exists ss', Add ss key n = Done ss' /\ ss_inv lax ss' /\
              capacity ss' = capacity ss.
Proof.
  intros Hinv Hcap. pose proof Hinv as (Hv & _ & [L1 L2] & Hc).
  destruct (items ss !! key) as [a|] eqn:Hk.
  - destruct (L1 key a Hk) as (_ & item & Hit & _).
    destruct (Add_existing lax ss key n a item Hinv Hk Hit)
      as (s' & _ & Hadd & _ & Hinv').
    eexists. split; [exact Hadd|]. split; [exact Hinv'|reflexivity].
  - destruct (Z.lt_ge_cases (Z.of_nat (length (heap ss))) (capacity ss))
      as [Hlt|Hge].
    + destruct (Add_push lax ss key n Hinv Hk Hlt) as (s' & _ & Hadd & _ & Hinv').
      eexists. split; [exact Hadd|]. split; [exact Hinv'|reflexivity].
    + destruct (lookup_lt_is_Some_2 (heap ss) 0%nat) as [a Ha]; [lia|].
      destruct (valid_deref (hs ss) 0%nat a Hv Ha) as [smallest Hsm].
      destruct (Add_evict lax ss key n a smallest Hinv Hk Hge Ha Hsm)
        as (s' & _ & Hadd & _ & Hinv').
      eexists. split; [exact Hadd|]. split; [exact Hinv'|reflexivity].
Qed.

Lemma Add_without_capacity lax ss key n :
  ss_inv lax ss -> capacity ss <= 0 -> Add ss key n = Panic.
Proof.
  intros (Hv & _ & [L1 L2] & Hc) Hcap.
  assert (Hnil : heap ss = []).
  { destruct (heap ss); [reflexivity|simpl in Hc; lia]. }
  unfold Add. destruct (items ss !! key) as [a|] eqn:Hk.
  - destruct (L1 key a Hk) as (Hin & _). simpl in Hin. rewrite Hnil in Hin.
    inversion Hin.
  - unfold SSHeap.Len, hs. cbn [slots]. rewrite Hnil.
    destruct (Z.ltb_spec (Z.of_nat (length (@nil nat))) (capacity ss)) as [Hlt|_];
      [simpl in Hlt; lia|reflexivity].
Qed.

Lemma Add_inv lax ss key n ss' :
  ss_inv lax ss -> Add ss key n = Done ss' ->
  ss_inv lax ss' /\ capacity ss' = capacity ss.
Proof.
  intros Hinv Hadd. destruct (Z.lt_ge_cases 0 (capacity ss)) as [Hpos|Hle].
  - destruct (Add_total lax ss key n Hinv Hpos) as (ss1 & Hadd1 & Hinv1 & Hc1).
    rewrite Hadd in Hadd1. inversion Hadd1; subst. auto.
  - rewrite (Add_without_capacity lax ss key n Hinv Hle) in Hadd.
    discriminate.
Qed.

(** *** Decay and Clear *)

Lemma decay_items_spec scale entries :
  forall m,
    (forall k a, In (k, a) entries -> (a < length m)%nat) ->
    exists m', decay_items scale entries m = Done m' /\ same_place m m'.
Proof.
  induction entries as [|[k a] rest IH]; intros m Hin; simpl.
  - exists m. split; [reflexivity|apply same_place_refl].
  - destruct (lookup_lt_is_Some_2 m a) as [it Hit].
    { apply (Hin k). left. reflexivity. }
    unfold deref. rewrite Hit. simpl.
    destruct (IH (<[a := set_Error (set_Count it (scale (Count it)))
                                   (scale (Error (set_Count it (scale (Count it)))))]> m))
      as (m' & Hd & Hsp).
    { intros k' a' Hin'. rewrite length_insert. apply (Hin k'). right.
      exact Hin'. }
    exists m'. split; [exact Hd|].
    eapply same_place_trans; [|exact Hsp].
    apply same_place_insert with (it := it); auto.
Qed.

Lemma Decay_spec lax scale ss :
  ss_inv lax ss ->
  exists ss', Decay scale ss = Done ss' /\ ss_inv lax ss' /\
              capacity ss' = capacity ss.
Proof.
  intros Hinv. pose proof Hinv as (Hv & _ & [L1 L2] & Hc).
  destruct (decay_items_spec scale (map_to_list (items ss)) (mem ss))
    as (m' & Hd & Hsp).
  { intros k a Hin. apply list_elem_of_In in Hin.
    apply elem_of_map_to_list in Hin.
    destruct (L1 k a Hin) as (_ & it & Hit & _).
    eapply lookup_lt_Some. exact Hit. }
  assert (Hmid : ss_inv lax (mkSS (capacity ss) (items ss) (heap ss) m')).
  { apply ss_inv_same_place with (m := mem ss); [destruct ss; exact Hinv|].
    exact Hsp. }
  destruct (Init_spec (placed lax) (placed_swap_closed lax)
              (mkH (heap ss) m')) as (s' & Hinit & Hsh & Hp).
  - apply Hmid.
  - apply Hmid.
  - exists (with_hs ss (items ss) s'). split.
    + unfold Decay. rewrite Hd. simpl. rewrite Hinit. reflexivity.
    + split; [|reflexivity]. unfold with_hs.
      apply (ss_inv_shuffled lax (capacity ss) (items ss)
               (mkH (heap ss) m') s'); assumption.
Qed.

Lemma Clear_inv lax ss :
  0 <= capacity ss -> ss_inv lax (Clear ss).
Proof.
  intros Hc. unfold Clear, ss_inv, hs, valid, placed, idx_ok, linked. simpl.
  split; [constructor|]. split; [split; [constructor|]|split; [split|]].
  - intros k a it Hk. rewrite lookup_nil in Hk. discriminate.
  - intros key a Hk. rewrite lookup_empty in Hk. discriminate.
  - intros a Ha. inversion Ha.
  - exact Hc.
Qed.

Lemma New_inv lax cap ss :
  NewSpaceSaving cap = Done ss ->
  ss_inv lax ss /\ capacity ss = cap /\ items ss = ∅ /\ heap ss = [].
Proof.
  unfold NewSpaceSaving. destruct (Z.ltb_spec cap 0); [discriminate|].
  intros [= <-]. split; [|auto].
  apply (Clear_inv lax (mkSS cap ∅ [] [])). exact H.
Qed.

Lemma run_op_inv lax ss op ss' :
  ss_inv lax ss -> 0 <= capacity ss -> run_op ss op = Done ss' ->
  ss_inv lax ss' /\ capacity ss' = capacity ss.
Proof.
  intros Hinv Hcap. destruct op as [key n|scale|]; simpl.
  - apply Add_inv. exact Hinv.
  - intros Hd. destruct (Decay_spec lax scale ss Hinv) as (ss1 & Hd1 & H1 & H2).
    rewrite Hd in Hd1. inversion Hd1; subst. auto.
  - intros [= <-]. split; [apply Clear_inv; exact Hcap|reflexivity].
Qed.

Lemma run_op_total lax ss op :
  ss_inv lax ss -> 0 < capacity ss -> exists ss', run_op ss op = Done ss'.
Proof.
  intros Hinv Hcap. destruct op as [key n|scale|]; simpl.
  - destruct (Add_total lax ss key n Hinv Hcap) as (ss' & H & _). eauto.
  - destruct (Decay_spec lax scale ss Hinv) as (ss' & H & _). eauto.
  - eauto.
Qed.

Lemma run_ops_inv lax ops :
  forall ss ss',
    ss_inv lax ss -> 0 <= capacity ss -> run_ops ss ops = Done ss' ->
    ss_inv lax ss' /\ capacity ss' = capacity ss.
Proof.
  induction ops as [|op rest IH]; intros ss ss' Hinv Hcap; simpl.
  - intros [= <-]. auto.
  - intros H. apply obind_Done in H as (ss1 & Hop & Hrest).
    destruct (run_op_inv lax ss op ss1 Hinv Hcap Hop) as [Hinv1 Hc1].
    destruct (IH ss1 ss' Hinv1) as [Hinv' Hc']; [lia|exact Hrest|].
    split; [exact Hinv'|congruence].
Qed.

Lemma run_ops_total lax ops :
  forall ss,
    ss_inv lax ss -> 0 < capacity ss -> exists ss', run_ops ss ops = Done ss'.
Proof.
  induction ops as [|op rest IH]; intros ss Hinv Hcap; simpl; [eauto|].
  destruct (run_op_total lax ss op Hinv Hcap) as [ss1 Hop].
  rewrite Hop. simpl.
  destruct (run_op_inv lax ss op ss1 Hinv) as [Hinv1 Hc1]; [lia|exact Hop|].
  apply IH; [exact Hinv1|lia].
Qed.

(** C10: after any sequence of [Add], [Decay] and [Clear] on a structure
    made by [NewSpaceSaving], the key map and the heap describe the same
    nodes: a map entry's node holds that key and sits in the heap slot named
    by its [Index]; a heap node is found in the map under its key and its
    [Index] is its slot; and there are at most [capacity] nodes.  With a
    positive capacity every such sequence runs to completion. *)
Theorem ss_map_heap_consistent cap ops ss0 :
  NewSpaceSaving cap = Done ss0 ->
  (0 < cap -> exists ss, run_ops ss0 ops = Done ss) /\
  forall ss, run_ops ss0 ops = Done ss ->
    (forall key a, items ss !! key = Some a ->
       exists it, mem ss !! a = Some it /\ Key it = key /\
                  0 <= Index it /\
                  heap ss !! Z.to_nat (Index it) = Some a) /\
    (forall i a, heap ss !! i = Some a ->
       exists it, mem ss !! a = Some it /\ Index it = Z.of_nat i /\
                  items ss !! Key it = Some a) /\
    Z.of_nat (length (heap ss)) <= capacity ss /\
    capacity ss = cap.
Proof.
  intros Hnew. destruct (New_inv false cap ss0 Hnew) as (Hinv0 & Hc0 & _).
  assert (H0 : 0 <= capacity ss0).
  { unfold NewSpaceSaving in Hnew. destruct (Z.ltb_spec cap 0);
      [discriminate|]. lia. }
  split.
  - intros Hpos. apply (run_ops_total false); [exact Hinv0|lia].
  - intros ss Hrun.
    destruct (run_ops_inv false ops ss0 ss Hinv0 H0 Hrun)
      as [(Hv & [Hnd Hidx] & [L1 L2] & Hc) Hcap].
    unfold hs in *. simpl in *.
    split; [|split; [|split; [exact Hc|congruence]]].
    + intros key a Hk. destruct (L1 key a Hk) as (Hin & it & Hit & HK).
      exists it. split; [exact Hit|]. split; [exact HK|].
      apply list_elem_of_lookup in Hin as [k Hkk].
      destruct (Hidx k a it Hkk Hit) as [->|[? _]]; [|discriminate].
      split; [lia|]. rewrite Nat2Z.id. exact Hkk.
    + intros i a Hi.
      destruct (L2 a) as (it & Hit & Hk); [apply list_elem_of_lookup; eauto|].
      exists it. split; [exact Hit|]. split; [|exact Hk].
      destruct (Hidx i a it Hi Hit) as [->|[? _]]; [reflexivity|discriminate].
Qed.

End SSFacts.

Lemma ss_map_heap_consistent_scenario :
  let ss0 := SS.mkSS 2 ∅ [] [] in
  (0 < 2 -> exists ss, run_ops ss0 scenario_ss_ops = Done ss) /\
  forall ss, run_ops ss0 scenario_ss_ops = Done ss ->
    (forall key a, SS.items ss !! key = Some a ->
       exists it, SS.mem ss !! a = Some it /\ Key it = key /\
                  0 <= Index it /\
                  SS.heap ss !! Z.to_nat (Index it) = Some a) /\
    (forall i a, SS.heap ss !! i = Some a ->
       exists it, SS.mem ss !! a = Some it /\ Index it = Z.of_nat i /\
                  SS.items ss !! Key it = Some a) /\
    Z.of_nat (length (SS.heap ss)) <= SS.capacity ss /\
    SS.capacity ss = 2.
Proof.
  apply (ss_map_heap_consistent 2 scenario_ss_ops (SS.mkSS 2 ∅ [] [])).
  reflexivity.
Defined.

(** ** The Space-Saving structure: the Metwally bounds *)

Section MetwallyFacts.

Import SS.
Import Algo.

Lemma hs_with_hs ss its s : hs (with_hs ss its s) = s.
Proof. destruct s. reflexivity. Qed.

Lemma nodes_sat_shuffled P s s' :
  shuffled s s' -> nodes_sat P s -> nodes_sat P s'.
Proof.
  intros (Pm & [HL D] & _) Hs a it' Ha Hit'. rewrite Pm in Ha.
  destruct (lookup_lt_is_Some_2 (cells s) a) as [it Hit].
  { rewrite <- HL. eapply lookup_lt_Some. exact Hit'. }
  destruct (D a it Hit) as (it2 & Hit2 & HK & HC & HE).
  rewrite Hit' in Hit2. inversion Hit2; subst it2.
  rewrite HK, HC, HE. apply (Hs a it Ha Hit).
Qed.

Lemma nodes_sat_insert (P Q : string -> Z -> Z -> Prop) h m a it' :
  nodes_sat P (mkH h m) ->
  Q (Key it') (Count it') (Error it') ->
  (forall c x, c ∈ h -> c <> a -> m !! c = Some x ->
               P (Key x) (Count x) (Error x) ->
               Q (Key x) (Count x) (Error x)) ->
  nodes_sat Q (mkH h (<[a := it']> m)).
Proof.
  intros HP HQ Hother c x Hc Hx. simpl in *.
  destruct (decide (c = a)) as [->|Hne].
  - rewrite list_lookup_insert in Hx. case_decide.
    + inversion Hx; subst x. exact HQ.
    + exfalso. apply lookup_lt_Some in Hx. tauto.
  - rewrite list_lookup_insert_ne in Hx by congruence.
    apply (Hother c x Hc Hne Hx). apply (HP c x Hc Hx).
Qed.

Lemma cnt_at s k a it :
  slots s !! k = Some a -> cells s !! a = Some it ->
  cnt s (Z.of_nat k) = Count it.
Proof.
  intros Hk Hit. unfold cnt, index.
  rewrite (proj2 (Z.ltb_ge _ _)) by lia. rewrite Nat2Z.id, Hk, Hit.
  reflexivity.
Qed.

Lemma cnt_insert_other h m a it' p k :
  NoDup h -> h !! p = Some a -> k <> Z.of_nat p ->
  cnt (mkH h (<[a := it']> m)) k = cnt (mkH h m) k.
Proof.
  intros Hnd Hp Hk. unfold cnt, index. simpl.
  destruct (k <? 0) eqn:E; [reflexivity|]. apply Z.ltb_ge in E.
  destruct (h !! Z.to_nat k) as [c|] eqn:Hc; [|reflexivity].
  rewrite list_lookup_insert_ne; [reflexivity|].
  intros <-. apply Hk.
  rewrite <- (NoDup_lookup _ _ _ _ Hnd Hc Hp). lia.
Qed.

Lemma cnt_insert_same h m a it' p :
  h !! p = Some a -> (a < length m)%nat ->
  cnt (mkH h (<[a := it']> m)) (Z.of_nat p) = Count it'.
Proof.
  intros Hp Ha. apply (cnt_at _ p a it'); simpl; [exact Hp|].
  apply list_lookup_insert_eq. exact Ha.
Qed.

(** Raising the count of slot [i] of a min-heap leaves a heap that [down]
    repairs from [i]. *)
Lemma ordered_below_raise s s1 i :
  heap_ordered s -> SSHeap.Len s1 = SSHeap.Len s -> 0 <= i ->
  (forall k, k <> i -> cnt s1 k = cnt s k) -> cnt s i <= cnt s1 i ->
  ordered_below s1 i.
Proof.
  intros Ho HL Hi Hsame Hraise. split.
  - intros j Hj Hp. rewrite HL in Hj. rewrite (Hsame (parent j)) by exact Hp.
    destruct (Z.eq_dec j i) as [->|Hne].
    + etransitivity; [apply Ho; exact Hj|exact Hraise].
    + rewrite Hsame by exact Hne. apply Ho. exact Hj.
  - intros j Hj Hp Hi1. rewrite HL in Hj.
    pose proof (parent_lt i Hi1). pose proof (parent_lt j ltac:(lia)).
    rewrite (Hsame (parent i)) by lia. rewrite (Hsame j) by lia.
    etransitivity; [apply Ho; lia|]. rewrite <- Hp. apply Ho. exact Hj.
Qed.

Lemma sum_where_app {K : Type} (P : K -> bool) ops1 ops2 :
  sum_where P (ops1 ++ ops2) = sum_where P ops1 + sum_where P ops2.
Proof.
  induction ops1 as [|[k n] rest IH]; simpl; [reflexivity|].
  rewrite IH. lia.
Qed.

Lemma ss_true_snoc ops key n k :
  ss_true (ops ++ [(key, n)]) k
  = ss_true ops k + (if String.eqb k key then n else 0).
Proof. unfold ss_true. rewrite sum_where_app. simpl. lia. Qed.

Lemma stream_total_snoc {K : Type} (ops : list (K * Z)) key n :
  stream_total (ops ++ [(key, n)]) = stream_total ops + n.
Proof. unfold stream_total. rewrite sum_where_app. simpl. lia. Qed.

Lemma wrap64_small x : 0 <= x < two64 -> wrap64 x = x.
Proof. intros. unfold wrap64. apply Z.mod_small. assumption. Qed.

(** The minimum is at the root: every node counts at least as much. *)
Lemma root_least ss a0 it0 :
  valid (hs ss) -> heap_ordered (hs ss) ->
  heap ss !! 0%nat = Some a0 -> mem ss !! a0 = Some it0 ->
  nodes_sat (fun _ count _ => Count it0 <= count) (hs ss).
Proof.
  intros Hv Ho H0 Hit0 a it Ha Hit. simpl in *.
  apply list_elem_of_lookup in Ha as [k Hk].
  rewrite <- (cnt_at (hs ss) 0 a0 it0 H0 Hit0).
  rewrite <- (cnt_at (hs ss) k a it Hk Hit).
  apply root_min; [exact Ho|]. unfold SSHeap.Len. simpl.
  apply lookup_lt_Some in Hk. lia.
Qed.

Lemma metwally_existing ops ss key n a item :
  ss_inv false ss -> metwally ops ss ->
  items ss !! key = Some a -> mem ss !! a = Some item ->
  0 <= n -> stream_total ops + n < two64 ->
  exists ss',
    Add ss key n = Done ss' /\ ss_inv false ss' /\
    capacity ss' = capacity ss /\ metwally (ops ++ [(key, n)]) ss'.
Proof.
  intros Hinv (Hnn & Ho & Hnodes & Hout) Hk Hit Hn Htot.
  destruct (Add_existing false ss key n a item Hinv Hk Hit)
    as (s' & Hfix & Hadd & Hsh & Hinv').
  exists (with_hs ss (items ss) s').
  split; [exact Hadd|]. split; [exact Hinv'|]. split; [reflexivity|].
  destruct Hinv as (Hv & [Hnd Hidx] & [L1 L2] & Hc).
  unfold hs in *. simpl in *.
  destruct (L1 key a Hk) as (Hin & it0 & Hit0 & HK).
  rewrite Hit in Hit0. inversion Hit0; subst it0; clear Hit0.
  apply list_elem_of_lookup in Hin as Hpos. destruct Hpos as [p Hp].
  assert (Hix : Index item = Z.of_nat p).
  { destruct (Hidx p a item Hp Hit) as [H|[H _]]; [exact H|discriminate]. }
  destruct (Hnodes a item Hin Hit) as (HE & HT & HS). rewrite HK in HT.
  assert (Hc' : wrap64 (Count item + n) = Count item + n).
  { apply wrap64_small. lia. }
  rewrite Hc', Hix in *.
  set (mid := mkH (heap ss) (<[a := set_Count item (Count item + n)]> (mem ss)))
    in *.
  pose proof (lookup_lt_Some _ _ _ Hit) as Hla.
  pose proof (lookup_lt_Some _ _ _ Hp) as Hlp.
  assert (Hvm : valid mid).
  { unfold valid, mid. simpl. rewrite length_insert. exact Hv. }
  assert (Ho' : heap_ordered s').
  { apply (Fix_order mid (Z.of_nat p) s' Hvm); [| |exact Hfix].
    - unfold SSHeap.Len, mid. simpl. lia.
    - apply (ordered_below_raise (mkH (heap ss) (mem ss))); [exact Ho| |lia| |].
      + reflexivity.
      + intros k Hkp. apply (cnt_insert_other _ _ _ _ p); assumption.
      + unfold mid. rewrite (cnt_insert_same _ _ _ _ p Hp Hla).
        rewrite (cnt_at (mkH (heap ss) (mem ss)) p a item Hp Hit). simpl.
        lia. }
  assert (Hother : forall c x, c ∈ heap ss -> c <> a -> mem ss !! c = Some x ->
                               Key x <> key).
  { intros c x Hcin Hca Hx Heq. destruct (L2 c Hcin) as (x' & Hx' & Hkx).
    rewrite Hx in Hx'. inversion Hx'; subst x'. rewrite Heq in Hkx.
    congruence. }
  unfold metwally. rewrite hs_with_hs. simpl.
  split; [apply Forall_app; split; [exact Hnn|repeat constructor; exact Hn]|].
  split; [exact Ho'|]. split.
  - apply (nodes_sat_shuffled _ mid s' Hsh).
    apply (nodes_sat_insert (node_bounds ops)); [exact Hnodes| |].
    + unfold node_bounds. simpl. rewrite ss_true_snoc, stream_total_snoc.
      rewrite HK, String.eqb_refl. lia.
    + intros c x Hcin Hca Hx (HE' & HT' & HS'). unfold node_bounds.
      rewrite ss_true_snoc, stream_total_snoc.
      pose proof (Hother c x Hcin Hca Hx) as Hne.
      apply String.eqb_neq in Hne. rewrite Hne. lia.
  - intros k Hkn. destruct (Hout k Hkn) as [Hle Hfree].
    assert (Hkk : String.eqb k key = false).
    { apply String.eqb_neq. intros ->. congruence. }
    split.
    + apply (nodes_sat_shuffled _ mid s' Hsh).
      apply (nodes_sat_insert (fun _ count _ => ss_true ops k <= count));
        [exact Hle| |].
      * simpl. rewrite ss_true_snoc, Hkk. specialize (Hle a item Hin Hit).
        simpl in Hle. lia.
      * intros c x _ _ _ Hx. rewrite ss_true_snoc, Hkk. lia.
    + intros Hlen. rewrite ss_true_snoc, Hkk.
      destruct Hsh as (Pm & _). rewrite (Permutation_length Pm) in Hlen.
      simpl in Hlen. rewrite Hfree by exact Hlen. lia.
Qed.

Lemma cnt_push h m a new k :
  valid (mkH h m) -> 0 <= k < Z.of_nat (length h) ->
  cnt (mkH (h ++ [a]) (m ++ [new])) k = cnt (mkH h m) k.
Proof.
  intros Hv Hk. unfold cnt, index. simpl.
  rewrite (proj2 (Z.ltb_ge _ _)) by lia.
  rewrite lookup_app_l by lia.
  destruct (h !! Z.to_nat k) as [c|] eqn:Hc; [|reflexivity].
  destruct (valid_deref (mkH h m) _ c Hv Hc) as [x Hx]. simpl in Hx.
  rewrite lookup_app_l by (eapply lookup_lt_Some; exact Hx). reflexivity.
Qed.

Lemma nodes_sat_push (P Q : string -> Z -> Z -> Prop) h m new :
  valid (mkH h m) -> nodes_sat P (mkH h m) ->
  Q (Key new) (Count new) (Error new) ->
  (forall c x, c ∈ h -> m !! c = Some x ->
               P (Key x) (Count x) (Error x) ->
               Q (Key x) (Count x) (Error x)) ->
  nodes_sat Q (mkH (h ++ [length m]) (m ++ [new])).
Proof.
  intros Hv HP HQ Hother c x Hc Hx. simpl in *.
  apply elem_of_app in Hc as [Hc|Hc].
  - unfold valid in Hv. rewrite Forall_forall in Hv. specialize (Hv c Hc).
    simpl in Hv. rewrite lookup_app_l in Hx by exact Hv.
    apply (Hother c x Hc Hx). apply (HP c x Hc Hx).
  - apply list_elem_of_singleton in Hc. subst c.
    rewrite lookup_app_r in Hx by lia.
    replace (length m - length m)%nat with 0%nat in Hx by lia.
    simpl in Hx. inversion Hx; subst x. exact HQ.
Qed.

Lemma metwally_push ops ss key n :
  ss_inv false ss -> metwally ops ss ->
  items ss !! key = None ->
  Z.of_nat (length (heap ss)) < capacity ss ->
  0 <= n -> stream_total ops + n < two64 ->
  exists ss',
    Add ss key n = Done ss' /\ ss_inv false ss' /\
    capacity ss' = capacity ss /\ metwally (ops ++ [(key, n)]) ss'.
Proof.
  intros Hinv (Hnn & Ho & Hnodes & Hout) Hk Hcap Hn Htot.
  destruct (Add_push false ss key n Hinv Hk Hcap)
    as (s' & Hup & Hadd & Hsh & Hinv').
  exists (with_hs ss (<[key := length (mem ss)]> (items ss)) s').
  split; [exact Hadd|]. split; [exact Hinv'|]. split; [reflexivity|].
  destruct Hinv as (Hv & [Hnd Hidx] & [L1 L2] & Hc).
  unfold hs in *. simpl in *.
  set (new := mkItem key n 0 (Z.of_nat (length (heap ss)))) in *.
  set (mid := mkH (heap ss ++ [length (mem ss)]) (mem ss ++ [new])) in *.
  destruct (Hout key Hk) as [_ Hzero]. specialize (Hzero Hcap).
  assert (Hvm : valid mid).
  { unfold valid, mid. simpl. apply Forall_app. split.
    - eapply Forall_impl; [exact Hv|]. intros c Hc'. simpl in Hc'.
      rewrite length_app. simpl. lia.
    - constructor; [|constructor]. rewrite length_app. simpl. lia. }
  assert (HLm : SSHeap.Len mid = Z.of_nat (length (heap ss)) + 1).
  { unfold SSHeap.Len, mid. simpl. rewrite length_app. simpl. lia. }
  assert (Ho' : heap_ordered s').
  { apply (up_order (Heap.fuel_for mid) mid (SSHeap.Len mid - 1) s' Hvm);
      [lia| |exact Hup].
    split.
    - intros k Hkr Hkn. pose proof (parent_lt k ltac:(lia)).
      unfold mid. rewrite !cnt_push by (try assumption; lia).
      apply Ho. unfold SSHeap.Len. simpl. lia.
    - intros k Hkr Hp _. exfalso. pose proof (parent_lt k ltac:(lia)).
      apply parent_child in Hp; lia. }
  assert (Hother : forall c x, c ∈ heap ss -> mem ss !! c = Some x ->
                               Key x <> key).
  { intros c x Hcin Hx Heq. destruct (L2 c Hcin) as (x' & Hx' & Hkx).
    rewrite Hx in Hx'. inversion Hx'; subst x'. rewrite Heq in Hkx.
    congruence. }
  assert (Htnn : 0 <= stream_total ops).
  { apply sum_where_nonneg. exact Hnn. }
  unfold metwally. rewrite hs_with_hs. simpl.
  split; [apply Forall_app; split; [exact Hnn|repeat constructor; exact Hn]|].
  split; [exact Ho'|]. split.
  - apply (nodes_sat_shuffled _ mid s' Hsh).
    apply (nodes_sat_push (node_bounds ops)); [exact Hv|exact Hnodes| |].
    + unfold node_bounds. simpl. rewrite ss_true_snoc, stream_total_snoc.
      rewrite String.eqb_refl, Hzero. lia.
    + intros c x Hcin Hx (HE' & HT' & HS'). unfold node_bounds.
      rewrite ss_true_snoc, stream_total_snoc.
      pose proof (Hother c x Hcin Hx) as Hne.
      apply String.eqb_neq in Hne. rewrite Hne. lia.
  - intros k Hkn.
    assert (Hkk : k <> key).
    { intros ->. rewrite lookup_insert_eq in Hkn. discriminate. }
    rewrite lookup_insert_ne in Hkn by congruence.
    destruct (Hout k Hkn) as [_ Hfree]. specialize (Hfree Hcap).
    apply String.eqb_neq in Hkk.
    assert (Hz : ss_true (ops ++ [(key, n)]) k = 0).
    { rewrite ss_true_snoc, Hkk. lia. }
    split; [|intros _; exact Hz].
    apply (nodes_sat_shuffled _ mid s' Hsh).
    apply (nodes_sat_push (node_bounds ops)); [exact Hv|exact Hnodes| |].
    + simpl. rewrite Hz. exact Hn.
    + intros c x _ _ (HE' & _). rewrite Hz. lia.
Qed.

Lemma metwally_evict ops ss key n a old :
  ss_inv false ss -> metwally ops ss ->
  items ss !! key = None ->
  capacity ss <= Z.of_nat (length (heap ss)) ->
  heap ss !! 0%nat = Some a -> mem ss !! a = Some old ->
  0 <= n -> stream_total ops + n < two64 ->
  exists ss',
    Add ss key n = Done ss' /\ ss_inv false ss' /\
    capacity ss' = capacity ss /\ metwally (ops ++ [(key, n)]) ss'.
Proof.
  intros Hinv (Hnn & Ho & Hnodes & Hout) Hk Hcap Ha Hold Hn Htot.
  destruct (Add_evict false ss key n a old Hinv Hk Hcap Ha Hold)
    as (s' & Hfix & Hadd & Hsh & Hinv').
  eexists. split; [exact Hadd|]. split; [exact Hinv'|].
  split; [reflexivity|].
  destruct Hinv as (Hv & [Hnd Hidx] & [L1 L2] & Hc).
  pose proof (root_least ss a old Hv Ho Ha Hold) as Hmin.
  unfold hs in *. simpl in *.
  assert (Hin : a ∈ heap ss) by (apply list_elem_of_lookup; eauto).
  destruct (Hnodes a old Hin Hold) as (HE & HT & HS).
  destruct (Hout key Hk) as [Hkle _]. specialize (Hkle a old Hin Hold).
  simpl in Hkle.
  assert (Hc' : wrap64 (Count old + n) = Count old + n).
  { apply wrap64_small. lia. }
  rewrite Hc' in *.
  set (new := mkItem key (Count old + n) (Count old) (Index old)) in *.
  set (mid := mkH (heap ss) (<[a := new]> (mem ss))) in *.
  pose proof (lookup_lt_Some _ _ _ Hold) as Hla.
  assert (Hvm : valid mid).
  { unfold valid, mid. simpl. rewrite length_insert. exact Hv. }
  assert (Ho' : heap_ordered s').
  { apply (Fix_order mid 0 s' Hvm); [| |exact Hfix].
    - unfold SSHeap.Len, mid. simpl. apply lookup_lt_Some in Ha. lia.
    - apply (ordered_below_raise (mkH (heap ss) (mem ss))); [exact Ho| |lia| |].
      + reflexivity.
      + intros k Hkp. apply (cnt_insert_other _ _ _ _ 0%nat); assumption.
      + unfold mid.
        rewrite (cnt_insert_same _ _ _ _ 0%nat Ha Hla : cnt _ 0 = _).
        rewrite (cnt_at (mkH (heap ss) (mem ss)) 0 a old Ha Hold : cnt _ 0 = _).
        simpl. lia. }
  assert (Hother : forall c x, c ∈ heap ss -> mem ss !! c = Some x ->
                               Key x <> key).
  { intros c x Hcin Hx Heq. destruct (L2 c Hcin) as (x' & Hx' & Hkx).
    rewrite Hx in Hx'. inversion Hx'; subst x'. rewrite Heq in Hkx.
    congruence. }
  assert (Htk : 0 <= ss_true ops key).
  { apply sum_where_nonneg. exact Hnn. }
  unfold metwally. rewrite hs_with_hs. simpl.
  split; [apply Forall_app; split; [exact Hnn|repeat constructor; exact Hn]|].
  split; [exact Ho'|]. split.
  - apply (nodes_sat_shuffled _ mid s' Hsh).
    apply (nodes_sat_insert (node_bounds ops)); [exact Hnodes| |].
    + unfold node_bounds. simpl. rewrite ss_true_snoc, stream_total_snoc.
      rewrite String.eqb_refl. lia.
    + intros c x Hcin _ Hx (HE' & HT' & HS'). unfold node_bounds.
      rewrite ss_true_snoc, stream_total_snoc.
      pose proof (Hother c x Hcin Hx) as Hne.
      apply String.eqb_neq in Hne. rewrite Hne. lia.
  - intros k Hkn.
    assert (Hkk : k <> key).
    { intros ->. rewrite lookup_insert_eq in Hkn. discriminate. }
    rewrite lookup_insert_ne in Hkn by congruence.
    apply String.eqb_neq in Hkk as Hkb.
    assert (Hkm : ss_true ops k <= Count old).
    { apply lookup_delete_None in Hkn as [<-|Hkn].
      - lia.
      - destruct (Hout k Hkn) as [Hle _]. apply (Hle a old Hin Hold). }
    split.
    + apply (nodes_sat_shuffled _ mid s' Hsh).
      apply (nodes_sat_insert (fun _ count _ => Count old <= count));
        [exact Hmin| |].
      * simpl. rewrite ss_true_snoc, Hkb. lia.
      * intros c x _ _ _ Hx. rewrite ss_true_snoc, Hkb. lia.
    + intros Hlen. exfalso.
      destruct Hsh as (Pm & _). rewrite (Permutation_length Pm) in Hlen.
      simpl in Hlen. lia.
Qed.

(** One [Add] keeps the structural and the Metwally invariant, as long as
    the counts of the stream fit into a [uint64]. *)
Lemma metwally_step ops ss key n :
  ss_inv false ss -> metwally ops ss -> 0 < capacity ss ->
  0 <= n -> stream_total ops + n < two64 ->
  exists ss',
    Add ss key n = Done ss' /\ ss_inv false ss' /\
    capacity ss' = capacity ss /\ metwally (ops ++ [(key, n)]) ss'.
Proof.
  intros Hinv Hm Hcap Hn Htot. pose proof Hinv as (Hv & _ & [L1 L2] & Hc).
  destruct (items ss !! key) as [a|] eqn:Hk.
  - destruct (L1 key a Hk) as (_ & item & Hit & _).
    eapply metwally_existing; eassumption.
  - destruct (Z.lt_ge_cases (Z.of_nat (length (heap ss))) (capacity ss))
      as [Hlt|Hge].
    + apply metwally_push; assumption.
    + destruct (lookup_lt_is_Some_2 (heap ss) 0%nat) as [a Ha]; [lia|].
      destruct (valid_deref (hs ss) 0%nat a Hv Ha) as [old Hold].
      eapply metwally_evict; eassumption.
Qed.

Lemma metwally_run rest :
  forall done ss,
    ss_inv false ss -> metwally done ss -> 0 < capacity ss ->
    Forall (fun op => 0 <= snd op) rest ->
    stream_total (done ++ rest) < two64 ->
    exists ss',
      AddAll ss rest = Done ss' /\ ss_inv false ss' /\
      capacity ss' = capacity ss /\ metwally (done ++ rest) ss'.
Proof.
  induction rest as [|[key n] rest IH]; intros done ss Hinv Hm Hcap Hnn Htot.
  - exists ss. rewrite app_nil_r. simpl. auto.
  - inversion Hnn as [|? ? Hn Hnn']; subst. simpl in Hn.
    assert (Hsplit : done ++ (key, n) :: rest = (done ++ [(key, n)]) ++ rest).
    { rewrite <- app_assoc. reflexivity. }
    rewrite Hsplit in Htot |- *.
    assert (Hrest : 0 <= stream_total rest).
    { apply sum_where_nonneg. exact Hnn'. }
    destruct (metwally_step done ss key n Hinv Hm Hcap Hn)
      as (ss1 & Hadd & Hinv1 & Hc1 & Hm1).
    { unfold stream_total in *. rewrite sum_where_app in Htot.
      rewrite sum_where_app in Htot. simpl in Htot. lia. }
    destruct (IH (done ++ [(key, n)]) ss1 Hinv1 Hm1)
      as (ss' & Hall & Hinv' & Hc' & Hm'); [lia|exact Hnn'|exact Htot|].
    exists ss'. simpl. rewrite Hadd. simpl.
    split; [exact Hall|]. split; [exact Hinv'|].
    split; [congruence|exact Hm'].
Qed.

Lemma metwally_new cap ss0 :
  NewSpaceSaving cap = Done ss0 -> metwally [] ss0.
Proof.
  unfold NewSpaceSaving. destruct (cap <? 0); [discriminate|].
  intros [= <-]. unfold metwally, hs. simpl.
  split; [constructor|]. split.
  - intros j Hj. unfold SSHeap.Len in Hj. simpl in Hj. lia.
  - split.
    + intros a it Ha. inversion Ha.
    + intros k _. split; [intros a it Ha; inversion Ha|reflexivity].
Qed.

Lemma AddAll_without_capacity ops ss0 ss :
  ss_inv false ss0 -> capacity ss0 <= 0 -> AddAll ss0 ops = Done ss ->
  ops = [] /\ ss = ss0.
Proof.
  intros Hinv Hcap. destruct ops as [|[key n] rest]; simpl.
  - intros [= <-]. auto.
  - rewrite (Add_without_capacity false ss0 key n Hinv Hcap). discriminate.
Qed.

(** What the eviction of the root does, in a state that satisfies the
    invariants. *)
Lemma evict_effect ops ss key n :
  ss_inv false ss -> metwally ops ss -> 0 < capacity ss ->
  items ss !! key = None ->
  capacity ss <= Z.of_nat (length (heap ss)) ->
  0 <= n -> stream_total ops + n < two64 ->
  exists a old ss' it,
    heap ss !! 0%nat = Some a /\ mem ss !! a = Some old /\
    nodes_sat (fun _ count _ => Count old <= count) (hs ss) /\
    Add ss key n = Done ss' /\
    items ss' !! key = Some a /\ items ss' !! Key old = None /\
    mem ss' !! a = Some it /\ Key it = key /\
    Count it = Count old + n /\ Error it = Count old.
Proof.
  intros Hinv Hm Hcap Hk Hge Hn Htot.
  pose proof Hinv as (Hv & _ & [L1 L2] & _).
  pose proof Hm as (_ & Ho & Hnodes & _).
  destruct (lookup_lt_is_Some_2 (heap ss) 0%nat) as [a Ha]; [lia|].
  destruct (valid_deref (hs ss) 0%nat a Hv Ha) as [old Hold].
  simpl in Ha, Hold.
  destruct (Add_evict false ss key n a old Hinv Hk Hge Ha Hold)
    as (s' & _ & Hadd & Hsh & _).
  assert (Hin : a ∈ heap ss) by (apply list_elem_of_lookup; eauto).
  destruct (Hnodes a old Hin Hold) as (HE & HT & HS).
  destruct Hsh as (_ & [_ D] & _). simpl in D.
  destruct (D a (mkItem key (wrap64 (Count old + n)) (Count old) (Index old)))
    as (it & Hit & HK & HC & HEr).
  { apply list_lookup_insert_eq. eapply lookup_lt_Some. exact Hold. }
  simpl in HK, HC, HEr.
  exists a, old, (with_hs ss (<[key := a]> (delete (Key old) (items ss))) s'), it.
  split; [exact Ha|]. split; [exact Hold|].
  split; [apply (root_least ss a old Hv Ho Ha Hold)|].
  split; [exact Hadd|]. simpl.
  split; [apply lookup_insert_eq|]. split.
  - destruct (L2 a Hin) as (old' & Hold' & Hkk). simpl in Hold'.
    rewrite Hold in Hold'. inversion Hold'; subst old'.
    rewrite lookup_insert_ne by (intros ->; congruence).
    apply lookup_delete_eq.
  - split; [exact Hit|]. split; [exact HK|]. split; [|exact HEr].
    rewrite HC. apply wrap64_small. lia.
Qed.

(** C2, as the code has it.  Take a structure made by [NewSpaceSaving] and
    a stream of [Add]s whose counts sum to less than [2^64].  With a
    positive capacity the stream runs to completion, and in every state it
    ends in, every node satisfies [error <= count] and
    [count - error <= total added for its key <= count].  When a further key
    that has no node arrives at full capacity, the root of the heap is a
    node of least count; the new node takes its place with
    [count = old.count + n] and [error = old.count], and the key of the old
    node leaves the map. *)
Theorem ss_metwally_bounds cap ops ss0 :
  NewSpaceSaving cap = Done ss0 ->
  Forall (fun op => 0 <= snd op) ops ->
  stream_total ops < two64 ->
  (0 < cap -> exists ss, AddAll ss0 ops = Done ss) /\
  forall ss, AddAll ss0 ops = Done ss ->
    (forall key a it,
        items ss !! key = Some a -> mem ss !! a = Some it ->
        Error it <= Count it /\
        Count it - Error it <= ss_true ops key <= Count it) /\
    (forall key n,
        0 < cap -> items ss !! key = None ->
        capacity ss <= Z.of_nat (length (heap ss)) ->
        0 <= n -> stream_total ops + n < two64 ->
        exists a old ss' it,
          heap ss !! 0%nat = Some a /\ mem ss !! a = Some old /\
          nodes_sat (fun _ count _ => Count old <= count) (hs ss) /\
          Add ss key n = Done ss' /\
          items ss' !! key = Some a /\ items ss' !! Key old = None /\
          mem ss' !! a = Some it /\ Key it = key /\
          Count it = Count old + n /\ Error it = Count old).
Proof.
  intros Hnew Hnn Htot.
  destruct (New_inv false cap ss0 Hnew) as (Hinv0 & Hc0 & Hi0 & _).
  pose proof (metwally_new cap ss0 Hnew) as Hm0.
  assert (Hrun : 0 < cap ->
                 exists ss, AddAll ss0 ops = Done ss /\ ss_inv false ss /\
                            capacity ss = cap /\ metwally ops ss).
  { intros Hpos.
    destruct (metwally_run ops [] ss0 Hinv0 Hm0) as (ss & H1 & H2 & H3 & H4);
      [lia|exact Hnn|exact Htot|].
    exists ss. split; [exact H1|]. split; [exact H2|].
    split; [congruence|exact H4]. }
  split.
  - intros Hpos. destruct (Hrun Hpos) as (ss & H & _). eauto.
  - intros ss Hsome. destruct (Z.lt_ge_cases 0 cap) as [Hpos|Hle].
    + destruct (Hrun Hpos) as (ss1 & Hall & Hinv & Hcap & Hm).
      rewrite Hsome in Hall. inversion Hall; subst ss1; clear Hall.
      split.
      * intros key a it Hk Hit.
        destruct Hinv as (_ & _ & [L1 _] & _).
        destruct (L1 key a Hk) as (Hin & it' & Hit' & HK).
        simpl in Hin, Hit'. rewrite Hit in Hit'. inversion Hit'; subst it'.
        destruct Hm as (_ & _ & Hnodes & _).
        destruct (Hnodes a it Hin Hit) as (HE & HT & _).
        rewrite HK in HT. lia.
      * intros key n _ Hk Hge Hn Htn.
        apply (evict_effect ops); try assumption. lia.
    + destruct (AddAll_without_capacity ops ss0 ss Hinv0) as [-> ->];
        [lia|exact Hsome|].
      split.
      * intros key a it Hk. rewrite Hi0, lookup_empty in Hk. discriminate.
      * intros key n Hpos. lia.
Qed.

End MetwallyFacts.

(** The second scenario of the specification: capacity 2 and the stream
    first 10, second 5, third 1. *)
Lemma ss_metwally_bounds_scenario :
  let ops := [("first", 10); ("second", 5); ("third", 1)] in
  let ss0 := SS.mkSS 2 ∅ [] [] in
  (0 < 2 -> exists ss, SS.AddAll ss0 ops = Done ss) /\
  forall ss, SS.AddAll ss0 ops = Done ss ->
    (forall key a it,
        SS.items ss !! key = Some a -> SS.mem ss !! a = Some it ->
        Error it <= Count it /\
        Count it - Error it <= ss_true ops key <= Count it) /\
    (forall key n,
        0 < 2 -> SS.items ss !! key = None ->
        SS.capacity ss <= Z.of_nat (length (SS.heap ss)) ->
        0 <= n -> stream_total ops + n < two64 ->
        exists a old ss' it,
          SS.heap ss !! 0%nat = Some a /\ SS.mem ss !! a = Some old /\
          nodes_sat (fun _ count _ => Count old <= count) (SS.hs ss) /\
          SS.Add ss key n = Done ss' /\
          SS.items ss' !! key = Some a /\ SS.items ss' !! Key old = None /\
          SS.mem ss' !! a = Some it /\ Key it = key /\
          Count it = Count old + n /\ Error it = Count old).
Proof.
  apply (ss_metwally_bounds 2 [("first", 10); ("second", 5); ("third", 1)]
           (SS.mkSS 2 ∅ [] [])).
  - reflexivity.
  - repeat constructor; simpl; lia.
  - vm_compute. reflexivity.
Defined.

(** C2, as stated, fails: the counters are [uint64] and wrap.  With
    capacity 1, adding [2^64 - 1] for "a" and then 2 for "b" leaves the
    node of "b" with count 1 and error [2^64 - 1]; adding [2^64 - 1] and
    then 1 for "a" leaves its node with count 0. *)
Lemma ss_bounds_fail_on_wrap :
  (exists ss a it,
     SS.AddAll (SS.mkSS 1 ∅ [] []) [("a", MaxUint64); ("b", 2)] = Done ss /\
     SS.items ss !! "b" = Some a /\ SS.mem ss !! a = Some it /\
     ~ Error it <= Count it) /\
  (exists ss a it,
     SS.AddAll (SS.mkSS 1 ∅ [] []) [("a", MaxUint64); ("a", 1)] = Done ss /\
     SS.items ss !! "a" = Some a /\ SS.mem ss !! a = Some it /\
     ~ ss_true [("a", MaxUint64); ("a", 1)] "a" <= Count it).
Proof.
  split.
  - eexists _, 0%nat, _. split; [vm_compute; reflexivity|].
    split; [vm_compute; reflexivity|]. split; [vm_compute; reflexivity|].
    vm_compute. intros H. apply H. reflexivity.
  - eexists _, 0%nat, _. split; [vm_compute; reflexivity|].
    split; [vm_compute; reflexivity|]. split; [vm_compute; reflexivity|].
    vm_compute. intros H. apply H. reflexivity.
Qed.

(** ** The Space-Saving structure: TopK *)

Arguments Heap.down : simpl never.
Arguments SSHeap.Swap : simpl never.

Section TopKFacts.

Import SS.
Import Algo.

Lemma Heap_Pop_spec s :
  valid s -> 1 <= SSHeap.Len s ->
  exists s' a it,
    Heap.Pop s = Done (s', a) /\
    slots s ≡ₚ slots s' ++ [a] /\
    same_data (cells s) (cells s') /\
    (forall c, c ∉ slots s -> cells s' !! c = cells s !! c) /\
    cells s' !! a = Some it /\ Index it = -1.
Proof.
  intros Hv Hlen. unfold Heap.Pop.
  destruct (swap_step (fun _ => True) true_swap_closed s 0 (SSHeap.Len s - 1)
              Hv I) as (s1 & Hsw & Hsh1 & Hv1 & _ & HL1); [lia|lia|].
  rewrite Hsw. simpl.
  destruct (down_spec (fun _ => True) true_swap_closed s1 0
              (SSHeap.Len s - 1) Hv1 I) as (s2 & moved & Hd & Hsh2 & _);
    [lia|].
  rewrite Hd. simpl.
  pose proof (shuffled_trans _ _ _ Hsh1 Hsh2) as Hsh.
  pose proof (shuffled_valid _ _ Hsh Hv) as Hv2.
  pose proof (shuffled_Len _ _ Hsh) as HL2.
  unfold SSHeap.Pop.
  destruct (slot_in_range s2 (SSHeap.Len s2 - 1)) as (a & Ha & Hia); [lia|].
  rewrite Hia. simpl.
  destruct (valid_deref s2 _ a Hv2 Ha) as [it Hit].
  unfold deref. rewrite Hit. simpl.
  exists (mkH (take (Z.to_nat (SSHeap.Len s2 - 1)) (slots s2))
              (<[a := set_Index it (-1)]> (cells s2))), a, (set_Index it (-1)).
  split; [reflexivity|]. simpl.
  destruct Hsh as (P & D & F).
  assert (Hsplit : slots s2
                   = take (Z.to_nat (SSHeap.Len s2 - 1)) (slots s2) ++ [a]).
  { rewrite <- (take_S_r _ _ _ Ha). symmetry. apply take_ge.
    unfold SSHeap.Len in *. lia. }
  split; [rewrite <- Hsplit; symmetry; exact P|].
  split; [eapply same_data_trans; [exact D|];
          apply same_data_set_Index; exact Hit|].
  split.
  - intros c Hc. rewrite list_lookup_insert_ne.
    + apply F. exact Hc.
    + intros <-. apply Hc. rewrite <- P. apply list_elem_of_lookup. eauto.
  - split; [|reflexivity]. apply list_lookup_insert_eq.
    eapply lookup_lt_Some. exact Hit.
Qed.

Lemma drain_spec fuel :
  forall s res,
    valid s -> NoDup (slots s) -> (length (slots s) <= fuel)%nat ->
    exists s' new popped,
      drain fuel s res = Done (s', res ++ new) /\
      slots s' = [] /\ popped ≡ₚ slots s /\
      same_data (cells s) (cells s') /\
      (forall c, c ∉ slots s -> cells s' !! c = cells s !! c) /\
      Forall2 (fun a it => cells s' !! a = Some it /\ Index it = -1)
              popped new.
Proof.
  induction fuel as [|fuel IH]; intros s res Hv Hnd Hf.
  - assert (Hnil : slots s = []) by (destruct (slots s); [auto|simpl in Hf; lia]).
    exists s, [], []. simpl. unfold SSHeap.Len. rewrite Hnil. simpl.
    rewrite app_nil_r. split; [reflexivity|]. split; [reflexivity|].
    split; [reflexivity|]. split; [apply same_data_refl|].
    split; [auto|constructor].
  - simpl. destruct (Z.gtb_spec (SSHeap.Len s) 0) as [Hpos|Hz].
    + destruct (Heap_Pop_spec s Hv) as (s1 & a & it & Hpop & P & D & F & Hit & Hix);
        [lia|].
      rewrite Hpop. simpl. unfold deref. rewrite Hit. simpl.
      assert (Hnd1 : NoDup (slots s1 ++ [a])) by (rewrite <- P; exact Hnd).
      apply NoDup_app in Hnd1 as (Hnd1 & Hdisj & _).
      assert (Hv1 : valid s1).
      { unfold valid in *. destruct D as [HL _]. rewrite HL.
        rewrite Forall_forall in *. intros c Hc. apply Hv. rewrite P.
        apply elem_of_app. left. exact Hc. }
      destruct (IH s1 (res ++ [it]) Hv1 Hnd1)
        as (s' & new & popped & Hdr & Hnil & Pp & D' & F' & Hall).
      { apply Permutation_length in P. rewrite length_app in P. simpl in P.
        lia. }
      exists s', (it :: new), (a :: popped).
      split; [rewrite Hdr, <- app_assoc; reflexivity|].
      split; [exact Hnil|].
      split; [rewrite P, Pp; apply Permutation_cons_append|].
      split; [eapply same_data_trans; eassumption|].
      assert (Ha1 : a ∉ slots s1).
      { intros Hin. apply (Hdisj a Hin). apply list_elem_of_singleton.
        reflexivity. }
      split.
      * intros c Hc. rewrite F', F; [reflexivity|exact Hc|].
        intros Hin. apply Hc. rewrite P. apply elem_of_app. left. exact Hin.
      * constructor; [|exact Hall]. rewrite F' by exact Ha1. auto.
    + assert (Hnil : slots s = []).
      { unfold SSHeap.Len in Hz. destruct (slots s); [auto|simpl in Hz; lia]. }
      exists s, [], []. rewrite app_nil_r. rewrite Hnil.
      split; [reflexivity|]. split; [reflexivity|].
      split; [reflexivity|]. split; [apply same_data_refl|].
      split; [auto|constructor].
Qed.

Lemma Forall2_item_at (m : list Item) popped new :
  Forall2 (fun a it => m !! a = Some it /\ Index it = -1) popped new ->
  new = item_at m <$> popped.
Proof.
  induction 1 as [|a it popped new [Ha _] _ IH]; [reflexivity|].
  simpl. unfold item_at at 1. rewrite Ha. simpl. f_equal. exact IH.
Qed.

(** The keys of the heap nodes are the keys of the map. *)
Lemma linked_keys its s :
  linked its s -> NoDup (slots s) ->
  (fun a => Key (item_at (cells s) a)) <$> slots s
  ≡ₚ (map_to_list its).*1.
Proof.
  intros [L1 L2] Hnd. apply NoDup_Permutation.
  - apply NoDup_fmap_2_strong; [|exact Hnd].
    intros a a' Ha Ha' Heq.
    destruct (L2 a Ha) as (it & Hit & Hk).
    destruct (L2 a' Ha') as (it' & Hit' & Hk').
    unfold item_at in Heq. rewrite Hit, Hit' in Heq. simpl in Heq.
    rewrite Heq in Hk. congruence.
  - apply NoDup_fst_map_to_list.
  - intros key. rewrite list_elem_of_fmap. split.
    + intros (a & -> & Ha). destruct (L2 a Ha) as (it & Hit & Hk).
      unfold item_at. rewrite Hit. simpl.
      apply list_elem_of_fmap. exists (Key it, a). split; [reflexivity|].
      apply elem_of_map_to_list. exact Hk.
    + intros Hin. apply list_elem_of_fmap in Hin as ([k a] & -> & Hin).
      apply elem_of_map_to_list in Hin.
      destruct (L1 k a Hin) as (Ha & it & Hit & HK).
      exists a. split; [|exact Ha]. unfold item_at. rewrite Hit. simpl.
      symmetry. exact HK.
Qed.

(** [TopK] with a [k] that covers the heap: it returns one item per node,
    with the node's key, count and error, writes -1 into every [Index] and
    changes nothing else. *)
Lemma TopK_spec lax ss k :
  ss_inv lax ss -> Z.of_nat (length (heap ss)) <= k ->
  exists result ss',
    TopK ss k = Done (result, ss') /\
    ss_inv true ss' /\
    capacity ss' = capacity ss /\ items ss' = items ss /\
    heap ss' = heap ss /\ same_data (mem ss) (mem ss') /\
    length result = length (heap ss) /\
    Key <$> result ≡ₚ (map_to_list (items ss)).*1 /\
    Forall (fun it => exists a it0,
              items ss !! Key it = Some a /\ mem ss !! a = Some it0 /\
              Count it = Count it0 /\ Error it = Error it0) result.
Proof.
  intros (Hv & [Hnd Hidx] & Hl & Hc) Hk. unfold hs in *. simpl in *.
  destruct (drain_spec (length (heap ss)) (mkH (heap ss) (mem ss)) [] Hv Hnd)
    as (s' & new & popped & Hdr & Hnil & Pp & D & F & Hall); [simpl; lia|].
  simpl in *.
  pose proof (Forall2_item_at _ _ _ Hall) as Hnew.
  assert (Hlen : length new = length (heap ss)).
  { rewrite Hnew, length_fmap. apply Permutation_length. exact Pp. }
  exists (reverse new), (mkSS (capacity ss) (items ss) (heap ss) (cells s')).
  assert (Hl' : linked (items ss) (mkH (heap ss) (cells s'))).
  { apply (linked_shuffled _ (mkH (heap ss) (mem ss))); [|exact Hl].
    split; [reflexivity|]. split; [exact D|exact F]. }
  split.
  - unfold TopK. rewrite Hdr. simpl. rewrite Hlen.
    destruct (Z.gtb_spec k (Z.of_nat (length (heap ss)))) as [Hgt|Hle].
    + destruct (Z.ltb_spec (Z.of_nat (length (heap ss))) 0); [lia|].
      rewrite take_ge by (rewrite length_reverse; lia). reflexivity.
    + destruct (Z.ltb_spec k 0); [lia|].
      rewrite take_ge by (rewrite length_reverse; lia). reflexivity.
  - simpl. split.
    { unfold ss_inv, hs, valid, placed. simpl.
      split; [destruct D as [HL _]; rewrite HL; exact Hv|].
      split; [split; [exact Hnd|]|split; [exact Hl'|exact Hc]].
      intros i a it Hi Hit. right. split; [reflexivity|].
      assert (Hin : a ∈ popped).
      { rewrite Pp. apply list_elem_of_lookup. eauto. }
      apply list_elem_of_lookup in Hin as [j Hj].
      destruct (Forall2_lookup_l _ _ _ _ _ Hall Hj) as (it' & _ & Hit' & Hix).
      simpl in Hit. congruence. }
    split; [reflexivity|]. split; [reflexivity|]. split; [reflexivity|].
    split; [exact D|]. split; [rewrite length_reverse; exact Hlen|]. split.
    + rewrite fmap_reverse, reverse_Permutation, Hnew, <- list_fmap_compose.
      rewrite Pp. apply (linked_keys (items ss) (mkH (heap ss) (cells s'))).
      * exact Hl'.
      * exact Hnd.
    + apply Forall_forall. intros it Hit.
      rewrite elem_of_reverse, Hnew in Hit.
      apply list_elem_of_fmap in Hit as (a & -> & Ha). rewrite Pp in Ha.
      destruct Hl as [_ L2]. destruct (L2 a Ha) as (it0 & Hit0 & Hk0).
      destruct D as [_ D]. destruct (D a it0 Hit0) as (it' & Hit' & HK & HC & HE).
      exists a, it0. unfold item_at. simpl in *. rewrite Hit'. simpl.
      rewrite HK. auto.
Qed.

End TopKFacts.

(** ** The detector: the exchange sort of [TopK] *)

Section SortFacts.

Import Detector.

Lemma sort_step_spec l i j x y :
  (i < j)%nat -> l !! i = Some x -> l !! j = Some y ->
  exists x' y',
    sort_step l i j !! i = Some x' /\ sort_step l i j !! j = Some y' /\
    Count y' <= Count x' /\ Count x <= Count x' /\
    (forall k, k <> i -> k <> j -> sort_step l i j !! k = l !! k) /\
    length (sort_step l i j) = length l /\
    take i (sort_step l i j) = take i l /\
    drop i (sort_step l i j) ≡ₚ drop i l.
Proof.
  intros Hij Hi Hj. unfold sort_step. rewrite Hi, Hj.
  pose proof (lookup_lt_Some _ _ _ Hi) as Hli.
  pose proof (lookup_lt_Some _ _ _ Hj) as Hlj.
  destruct (Z.ltb_spec (Count x) (Count y)) as [Hlt|Hge].
  - exists y, x. split; [|split; [|split; [|split; [|split; [|split; [|split]]]]]].
    + rewrite list_lookup_insert_ne by lia.
      apply list_lookup_insert_eq. exact Hli.
    + apply list_lookup_insert_eq. rewrite length_insert. exact Hlj.
    + lia.
    + lia.
    + intros k Hki Hkj. rewrite !list_lookup_insert_ne by congruence.
      reflexivity.
    + rewrite !length_insert. reflexivity.
    + rewrite !take_insert_ge by lia. reflexivity.
    + rewrite !drop_insert_ge by lia.
      replace (i - i)%nat with 0%nat by lia.
      apply swap_perm; rewrite lookup_drop.
      * rewrite Nat.add_0_r. exact Hi.
      * replace (i + (j - i))%nat with j by lia. exact Hj.
  - exists x, y. repeat split; auto; lia.
Qed.

Lemma sort_inner_spec i n :
  forall j l,
    (i < j)%nat -> (j + n)%nat = length l ->
    (forall b x y, (i < b < j)%nat -> l !! i = Some x -> l !! b = Some y ->
                   Count y <= Count x) ->
    length (sort_inner n i j l) = length l /\
    take i (sort_inner n i j l) = take i l /\
    drop i (sort_inner n i j l) ≡ₚ drop i l /\
    (forall b x y, (i < b)%nat ->
       sort_inner n i j l !! i = Some x -> sort_inner n i j l !! b = Some y ->
       Count y <= Count x).
Proof.
  induction n as [|n IH]; intros j l Hij Hlen HP; simpl.
  - split; [reflexivity|]. split; [reflexivity|]. split; [reflexivity|].
    intros b x y Hb Hx Hy. apply (HP b x y); try assumption.
    pose proof (lookup_lt_Some _ _ _ Hy). lia.
  - destruct (lookup_lt_is_Some_2 l i) as [x Hx]; [lia|].
    destruct (lookup_lt_is_Some_2 l j) as [y Hy]; [lia|].
    destruct (sort_step_spec l i j x y Hij Hx Hy)
      as (x' & y' & Hi' & Hj' & Hyx & Hxx & Hother & Hl & Ht & Hd).
    destruct (IH (S j) (sort_step l i j)) as (Hl2 & Ht2 & Hd2 & Hmax).
    + lia.
    + rewrite Hl. lia.
    + intros b x0 y0 Hb Hx0 Hy0. rewrite Hi' in Hx0. inversion Hx0; subst x0.
      destruct (decide (b = j)) as [->|Hne].
      * rewrite Hj' in Hy0. inversion Hy0; subst. exact Hyx.
      * rewrite Hother in Hy0 by lia.
        specialize (HP b x y0). etransitivity; [apply HP|exact Hxx];
          [lia|exact Hx|exact Hy0].
    + split; [congruence|]. split; [congruence|].
      split; [etransitivity; eassumption|exact Hmax].
Qed.

Lemma sort_outer_spec n :
  forall i l,
    (i + n)%nat = (length l - 1)%nat -> (i < length l)%nat ->
    settled i l ->
    sort_outer n i l ≡ₚ l /\ descending (sort_outer n i l).
Proof.
  induction n as [|n IH]; intros i l Hn Hi HQ; simpl.
  - split; [reflexivity|]. intros a b x y Hab Hx Hy.
    destruct (decide (a < i)%nat) as [Hlt|Hge].
    + eapply HQ; eassumption.
    + pose proof (lookup_lt_Some _ _ _ Hy).
      assert (b = a) by lia. subst b. rewrite Hx in Hy. inversion Hy. lia.
  - destruct (sort_inner_spec i (length l - S i) (S i) l)
      as (Hl & Ht & Hd & Hmax); [lia|lia|intros; lia|].
    set (l1 := sort_inner (length l - S i) i (S i) l) in *.
    assert (Hperm : l1 ≡ₚ l).
    { rewrite <- (take_drop i l1), <- (take_drop i l), Ht, Hd. reflexivity. }
    destruct (IH (S i) l1) as [Hp Hdesc].
    + rewrite Hl. lia.
    + rewrite Hl. lia.
    + intros a b x y Ha Hab Hx Hy.
      destruct (decide (a < i)%nat) as [Hlt|Hge].
      * assert (Hxa : l !! a = Some x).
        { rewrite <- (lookup_take_lt l i a), <- Ht by exact Hlt.
          rewrite lookup_take_lt by exact Hlt. exact Hx. }
        destruct (decide (b < i)%nat) as [Hbl|Hbg].
        -- assert (Hyb : l !! b = Some y).
           { rewrite <- (lookup_take_lt l i b), <- Ht by exact Hbl.
             rewrite lookup_take_lt by exact Hbl. exact Hy. }
           eapply HQ; [exact Hlt|exact Hab|exact Hxa|exact Hyb].
        -- assert (Hin : y ∈ drop i l).
           { rewrite <- Hd. apply list_elem_of_lookup. exists (b - i)%nat.
             rewrite lookup_drop. replace (i + (b - i))%nat with b by lia.
             exact Hy. }
           apply list_elem_of_lookup in Hin as [b' Hb'].
           rewrite lookup_drop in Hb'.
           eapply (HQ a (i + b')%nat); [exact Hlt|lia|exact Hxa|exact Hb'].
      * assert (a = i) by lia. subst a.
        destruct (decide (b = i)) as [->|Hne].
        -- rewrite Hx in Hy. inversion Hy. lia.
        -- eapply (Hmax b); [lia|exact Hx|exact Hy].
    + split; [etransitivity; eassumption|exact Hdesc].
Qed.

Lemma sort_desc_spec l : sort_desc l ≡ₚ l /\ descending (sort_desc l).
Proof.
  unfold sort_desc. destruct l as [|x l].
  - simpl. split; [reflexivity|]. intros a b x y _ Hx.
    rewrite lookup_nil in Hx. discriminate.
  - apply sort_outer_spec; simpl; try lia.
    intros a b x0 y0 Ha. lia.
Qed.

(** A descending list is sorted in the sense of the standard library. *)
Lemma descending_sorted l :
  descending l ->
  StronglySorted (fun x y => Count y <= Count x) l.
Proof.
  induction l as [|x l IH]; intros Hd; constructor.
  - apply IH. intros a b u v Hab Hu Hv.
    apply (Hd (S a) (S b) u v); [lia|exact Hu|exact Hv].
  - apply Forall_forall. intros y Hy.
    apply list_elem_of_lookup in Hy as [b Hb].
    apply (Hd 0%nat (S b) x y); [lia|reflexivity|exact Hb].
Qed.

End SortFacts.

(** ** The detector: invariant, TopK and IsHot *)

Section DetectorFacts.

Import Detector.

Lemma Estimate_total sk key :
  cms_wf sk -> exists e, CMS.Estimate sk key = Done e /\ 0 <= e < two64.
Proof.
  intros Hwf. unfold CMS.Estimate.
  destruct (estimate_loop_spec sk key (Z.to_nat (CMS.depth sk)) 0 MaxUint64 Hwf)
    as (e & He & Hle & _ & Hsome); [lia| |].
  { destruct Hwf as [Hd _]. lia. }
  exists e. split; [exact He|].
  destruct Hsome as [->|(i & _ & ->)].
  - unfold MaxUint64, two64. lia.
  - apply cell_bounded. exact Hwf.
Qed.

Lemma Decay_wf scale sk :
  cms_wf sk -> scale_ok scale -> cms_wf (CMS.Decay scale sk).
Proof.
  intros (Hd & Hw & Hnz & Hlen & Hrows) Hs.
  unfold cms_wf, CMS.Decay. simpl.
  split; [exact Hd|]. split; [exact Hw|]. split; [exact Hnz|].
  split; [rewrite List.length_map; exact Hlen|].
  apply List.Forall_map. eapply Forall_impl; [exact Hrows|].
  intros row [Hl Hb]. simpl. split; [rewrite List.length_map; exact Hl|].
  apply List.Forall_map. eapply Forall_impl; [exact Hb|].
  intros c Hc. simpl. apply Hs. exact Hc.
Qed.

Lemma cms_Reset_wf sk : cms_wf sk -> cms_wf (CMS.Reset sk).
Proof.
  intros Hwf. apply (Decay_wf (fun _ => 0) sk Hwf).
  intros c _. unfold two64. lia.
Qed.

Lemma estimate_all_spec sk its :
  cms_wf sk ->
  exists result,
    estimate_all sk its = Done result /\
    Key <$> result = Algo.Key <$> its /\
    Forall (fun kc => CMS.Estimate sk (bytes_of (Key kc)) = Done (Count kc))
           result.
Proof.
  intros Hwf. induction its as [|it rest (result & Hr & Hk & Hall)]; simpl.
  - exists []. split; [reflexivity|]. split; [reflexivity|constructor].
  - destruct (Estimate_total sk (bytes_of (Algo.Key it)) Hwf) as (e & He & _).
    rewrite He. simpl. rewrite Hr. simpl.
    exists (mkKeyCount (Algo.Key it) e :: result).
    split; [reflexivity|]. split; [simpl; f_equal; exact Hk|].
    constructor; [exact He|exact Hall].
Qed.

Lemma contains_key_spec l key :
  contains_key l key = true <-> exists kc, kc ∈ l /\ Key kc = key.
Proof.
  induction l as [|x l IH]; simpl.
  - split; [discriminate|]. intros (kc & Hin & _). inversion Hin.
  - destruct (String.eqb (Key x) key) eqn:E.
    + apply String.eqb_eq in E. split; [|reflexivity].
      intros _. exists x. split; [left|exact E].
    + apply String.eqb_neq in E. rewrite IH. split.
      * intros (kc & Hin & Hk). exists kc. split; [right; exact Hin|exact Hk].
      * intros (kc & Hin & Hk). apply elem_of_cons in Hin as [->|Hin];
          [contradiction|]. exists kc. auto.
Qed.

(** What [TopK] returns in a state that satisfies the invariant. *)
Lemma detector_TopK_spec d :
  det_inv d ->
  exists result d',
    TopK d = Done (result, d') /\
    Key <$> result ≡ₚ (map_to_list (SS.items (topK d))).*1 /\
    Z.of_nat (length result) <= CfgTopK (config d) /\
    Forall (fun kc => GetCount d (Key kc) = Done (Count kc)) result /\
    descending result /\
    det_inv d' /\ sketch d' = sketch d /\ config d' = config d /\
    SS.items (topK d') = SS.items (topK d).
Proof.
  intros (Hwf & Hss & Hcap & Hpos & Hsc).
  pose proof Hss as (_ & _ & _ & Hlen).
  destruct (TopK_spec true (topK d) (CfgTopK (config d)) Hss)
    as (its & ss' & Htop & Hss' & Hc' & Hi' & Hh' & _ & Hl & Hkeys & _);
    [lia|].
  destruct (estimate_all_spec (sketch d) its Hwf) as (r1 & Hest & Hk1 & Hall).
  destruct (sort_desc_spec r1) as [Hperm Hdesc].
  exists (sort_desc r1),
         (mkDetector (sketch d) ss' (config d) (lastDecay d) (decayInterval d)).
  split; [unfold TopK; rewrite Htop; simpl; rewrite Hest; reflexivity|].
  split; [rewrite Hperm, Hk1; exact Hkeys|].
  split.
  { rewrite (Permutation_length Hperm).
    assert (length r1 = length its) as ->.
    { rewrite <- (length_fmap Key r1), Hk1, length_fmap. reflexivity. }
    rewrite Hl. lia. }
  split; [rewrite Hperm; exact Hall|].
  split; [exact Hdesc|].
  split; [|simpl; auto].
  unfold det_inv. simpl. repeat (split; [assumption|]).
  split; [congruence|]. split; assumption.
Qed.

(** What [IsHot] returns in a state that satisfies the invariant. *)
Lemma detector_IsHot_spec d key :
  det_inv d ->
  (0 < HotThreshold (config d) ->
   exists c b,
     GetCount d key = Done c /\ IsHot d key = Done (b, d) /\
     (b = true <-> HotThreshold (config d) <= c)) /\
  (HotThreshold (config d) = 0 ->
   exists result d' b,
     TopK d = Done (result, d') /\ IsHot d key = Done (b, d') /\
     (b = true <-> exists kc, kc ∈ result /\ Key kc = key)).
Proof.
  intros Hinv. pose proof Hinv as (Hwf & _).
  destruct (Estimate_total (sketch d) (bytes_of key) Hwf) as (c & Hc & _).
  split.
  - intros Hpos. exists c, (c >=? HotThreshold (config d)).
    split; [exact Hc|]. split.
    + unfold IsHot, GetCount. rewrite Hc. simpl.
      rewrite (proj2 (Z.gtb_lt _ _)) by lia. reflexivity.
    + rewrite Z.geb_le. reflexivity.
  - intros Hzero.
    destruct (detector_TopK_spec d Hinv) as (result & d' & Htop & _).
    exists result, d', (contains_key result key).
    split; [exact Htop|]. split.
    + unfold IsHot, GetCount. rewrite Hc. simpl. rewrite Hzero. simpl.
      rewrite Htop. reflexivity.
    + apply contains_key_spec.
Qed.

(** *** The invariant holds in every state the detector can reach *)

Lemma detector_New_inv cfg now d :
  New cfg now = Done d -> wrap32 (Width cfg) <> 0 ->
  scale_ok (DecayScale cfg) -> det_inv d.
Proof.
  unfold New. intros H Hnz Hsc.
  set (cfg1 := if CfgTopK cfg <=? 0
               then mkConfig (Width cfg) DefaultTopK (DecayScale cfg)
                             (DecayInterval cfg) (HotThreshold cfg)
               else cfg) in *.
  set (cfg2 := if DecayInterval cfg1 <=? 0
               then mkConfig (Width cfg1) (CfgTopK cfg1) (DecayScale cfg1)
                             DefaultDecayInterval (HotThreshold cfg1)
               else cfg1) in *.
  assert (Hw : Width cfg2 = Width cfg /\ DecayScale cfg2 = DecayScale cfg /\
               0 < CfgTopK cfg2).
  { unfold cfg2. destruct (DecayInterval cfg1 <=? 0); unfold cfg1;
      destruct (Z.leb_spec (CfgTopK cfg) 0); simpl;
      unfold DefaultTopK; repeat split; lia. }
  destruct Hw as (Hw & Hs & Hk).
  apply obind_Done in H as (sk & Hsk & H).
  apply obind_Done in H as (tk & Htk & H). inversion H; subst d; clear H.
  rewrite Hw in Hsk.
  destruct (new_wf _ _ _ Hsk Hnz) as (Hwf & _).
  destruct (New_inv true _ _ Htk) as (Hss & Hc & _).
  unfold det_inv. simpl. rewrite Hs. auto.
Qed.

Lemma det_step_inv d op :
  det_inv d -> exists d', det_step d op = Done d' /\ det_inv d'.
Proof.
  intros Hinv. pose proof Hinv as (Hwf & Hss & Hcap & Hpos & Hsc).
  destruct op as [now key count| |key|now]; simpl.
  - unfold Increment.
    set (sk := if now - lastDecay d >=? decayInterval d
               then CMS.Decay (DecayScale (config d)) (sketch d)
               else sketch d).
    assert (Hwf1 : cms_wf sk).
    { unfold sk. destruct (_ >=? _); [apply Decay_wf|]; assumption. }
    destruct (Add_spec sk (bytes_of key) count Hwf1) as (sk' & Hadd & Hwf' & _).
    rewrite Hadd. simpl.
    destruct (Add_total true (topK d) key count Hss) as (tk' & Htk & Hss' & Hc');
      [lia|].
    rewrite Htk. simpl. eexists. split; [reflexivity|].
    unfold det_inv. simpl. repeat (split; [assumption|]).
    split; [congruence|]. split; assumption.
  - destruct (detector_TopK_spec d Hinv)
      as (r & d' & Htop & _ & _ & _ & _ & Hinv' & _).
    rewrite Htop. simpl. eauto.
  - unfold IsHot, GetCount.
    destruct (Estimate_total (sketch d) (bytes_of key) Hwf) as (c & Hc & _).
    rewrite Hc. simpl.
    destruct (HotThreshold (config d) >? 0); simpl; [eauto|].
    destruct (detector_TopK_spec d Hinv)
      as (r & d' & Htop & _ & _ & _ & _ & Hinv' & _).
    rewrite Htop. simpl. eauto.
  - unfold Reset.
    destruct (SS.NewSpaceSaving (CfgTopK (config d))) as [tk| |] eqn:Htk;
      [|unfold SS.NewSpaceSaving in Htk;
        destruct (Z.ltb_spec (CfgTopK (config d)) 0);
        [lia|discriminate]..].
    simpl. eexists. split; [reflexivity|].
    destruct (New_inv true _ _ Htk) as (Hss' & Hc' & _).
    unfold det_inv. simpl.
    split; [apply cms_Reset_wf; exact Hwf|]. auto.
Qed.

Lemma det_run_inv ops :
  forall d, det_inv d -> exists d', det_run d ops = Done d' /\ det_inv d'.
Proof.
  induction ops as [|op rest IH]; intros d Hinv; simpl; [eauto|].
  destruct (det_step_inv d op Hinv) as (d1 & Hstep & Hinv1).
  rewrite Hstep. simpl. apply IH. exact Hinv1.
Qed.

(** Every state reached from [New] by operations of the interface
    satisfies the invariant, and every such run completes. *)
Lemma detector_reachable_inv cfg now d0 ops :
  New cfg now = Done d0 -> wrap32 (Width cfg) <> 0 ->
  scale_ok (DecayScale cfg) ->
  exists d, det_run d0 ops = Done d /\ det_inv d.
Proof.
  intros Hnew Hnz Hsc. apply det_run_inv.
  eapply detector_New_inv; eassumption.
Qed.

(** C3: in every state [d] that a detector built by [New] reaches through
    calls of its interface (each of which completes), [TopK] returns one
    entry per key tracked by the Space-Saving structure (at most K of them,
    K the configured TopK), each carrying the sketch estimate of its key, in
    non-increasing order of that count. *)
Theorem detector_topk_sorted cfg now d0 ops :
  New cfg now = Done d0 ->
  wrap32 (Width cfg) <> 0 ->
  scale_ok (DecayScale cfg) ->
  exists d,
    det_run d0 ops = Done d /\
    exists result d',
      TopK d = Done (result, d') /\
      Key <$> result ≡ₚ (map_to_list (SS.items (topK d))).*1 /\
      Z.of_nat (length result) <= CfgTopK (config d) /\
      Forall (fun kc => GetCount d (Key kc) = Done (Count kc)) result /\
      StronglySorted (fun x y => Count y <= Count x) result.
Proof.
  intros Hnew Hnz Hsc.
  destruct (detector_reachable_inv cfg now d0 ops Hnew Hnz Hsc)
    as (d & Hrun & Hinv).
  exists d. split; [exact Hrun|].
  destruct (detector_TopK_spec d Hinv)
    as (result & d' & Htop & Hkeys & Hlen & Hall & Hdesc & _).
  exists result, d'. repeat (split; [assumption|]).
  apply descending_sorted. exact Hdesc.
Qed.

(** C4: in every state [d] that a detector built by [New] reaches through
    calls of its interface, with a positive threshold [IsHot(k)] is
    [GetCount(k) >= threshold], and with threshold zero [IsHot(k)] holds
    exactly when [k] is the key of an entry of the list that [TopK()]
    returns. *)
Theorem is_hot_semantics cfg now d0 ops key :
  New cfg now = Done d0 ->
  wrap32 (Width cfg) <> 0 ->
  scale_ok (DecayScale cfg) ->
  exists d,
    det_run d0 ops = Done d /\
    (0 < HotThreshold (config d) ->
     exists c b,
       GetCount d key = Done c /\ IsHot d key = Done (b, d) /\
       (b = true <-> HotThreshold (config d) <= c)) /\
    (HotThreshold (config d) = 0 ->
     exists result d' b,
       TopK d = Done (result, d') /\ IsHot d key = Done (b, d') /\
       (b = true <-> exists kc, kc ∈ result /\ Key kc = key)).
Proof.
  intros Hnew Hnz Hsc.
  destruct (detector_reachable_inv cfg now d0 ops Hnew Hnz Hsc)
    as (d & Hrun & Hinv).
  exists d. split; [exact Hrun|].
  apply detector_IsHot_spec. exact Hinv.
Qed.

End DetectorFacts.

Lemma scenario_scale_ok : scale_ok (fun c => c * 98 / 100).
Proof.
  intros c Hc. unfold two64 in *. split.
  - apply Z.div_pos; lia.
  - apply Z.div_lt_upper_bound; lia.
Qed.

Lemma run_keeps_threshold ops :
  forall d1 d2,
    det_run d1 ops = Done d2 ->
    Detector.HotThreshold (Detector.config d2)
    = Detector.HotThreshold (Detector.config d1).
Proof.
  induction ops as [|op rest IH]; intros d1 d2 H; simpl in H.
  - inversion H. reflexivity.
  - apply obind_Done in H as (dm & Hstep & Hrest).
    rewrite (IH _ _ Hrest). clear IH Hrest.
    destruct op; simpl in Hstep.
    + unfold Detector.Increment in Hstep.
      apply obind_Done in Hstep as (? & _ & Hstep).
      apply obind_Done in Hstep as (? & _ & Hstep).
      inversion Hstep. reflexivity.
    + apply obind_Done in Hstep as ([r dm'] & Htop & Hd).
      inversion Hd; subst. unfold Detector.TopK in Htop.
      apply obind_Done in Htop as (? & _ & Htop).
      apply obind_Done in Htop as (? & _ & Htop).
      inversion Htop. reflexivity.
    + apply obind_Done in Hstep as ([r dm'] & Hhot & Hd).
      inversion Hd; subst. unfold Detector.IsHot in Hhot.
      apply obind_Done in Hhot as (? & _ & Hhot).
      destruct (_ >? 0); [inversion Hhot; reflexivity|].
      apply obind_Done in Hhot as ([r' dm''] & Htop & Hd').
      inversion Hd'; subst. unfold Detector.TopK in Htop.
      apply obind_Done in Htop as (? & _ & Htop).
      apply obind_Done in Htop as (? & _ & Htop).
      inversion Htop. reflexivity.
    + unfold Detector.Reset in Hstep.
      apply obind_Done in Hstep as (? & _ & Hstep).
      inversion Hstep. reflexivity.
Qed.

Lemma scenario_new thr :
  exists d0,
    Detector.New (scenario_config thr) 0 = Done d0 /\
    Detector.HotThreshold (Detector.config d0) = thr.
Proof.
  destruct (Detector.New (scenario_config thr) 0) as [d0| |] eqn:Hnew;
    try (vm_compute in Hnew; discriminate Hnew).
  exists d0. split; [reflexivity|].
  vm_compute in Hnew. inversion Hnew. reflexivity.
Qed.

Lemma scenario_width thr :
  wrap32 (Detector.Width (scenario_config thr)) <> 0.
Proof. vm_compute. discriminate. Qed.

Lemma detector_topk_sorted_scenario :
  exists d0 d,
    Detector.New (scenario_config 50) 0 = Done d0 /\
    det_run d0 scenario_ops = Done d /\
    exists result d',
      Detector.TopK d = Done (result, d') /\
      Detector.Key <$> result
      ≡ₚ (map_to_list (SS.items (Detector.topK d))).*1 /\
      Z.of_nat (length result)
      <= Detector.CfgTopK (Detector.config d) /\
      Forall (fun kc => Detector.GetCount d (Detector.Key kc)
                        = Done (Detector.Count kc)) result /\
      StronglySorted (fun x y => Detector.Count y <= Detector.Count x) result.
Proof.
  destruct (scenario_new 50) as (d0 & Hnew & _).
  destruct (detector_topk_sorted (scenario_config 50) 0 d0 scenario_ops
              Hnew (scenario_width 50) scenario_scale_ok)
    as (d & Hrun & H).
  exists d0, d. split; [exact Hnew|]. split; [exact Hrun|]. exact H.
Defined.

Lemma is_hot_semantics_scenario :
  (exists d0 d,
     Detector.New (scenario_config 50) 0 = Done d0 /\
     det_run d0 scenario_ops = Done d /\
     exists c b,
       Detector.GetCount d "medium" = Done c /\
       Detector.IsHot d "medium" = Done (b, d) /\
       (b = true <-> 50 <= c)) /\
  (exists d0 d,
     Detector.New (scenario_config 0) 0 = Done d0 /\
     det_run d0 scenario_ops = Done d /\
     exists result d' b,
       Detector.TopK d = Done (result, d') /\
       Detector.IsHot d "medium" = Done (b, d') /\
       (b = true <-> exists kc, kc ∈ result /\ Detector.Key kc = "medium")).
Proof.
  split.
  - destruct (scenario_new 50) as (d0 & Hnew & Hthr).
    destruct (is_hot_semantics (scenario_config 50) 0 d0 scenario_ops
                "medium" Hnew (scenario_width 50) scenario_scale_ok)
      as (d & Hrun & Hpos & _).
    exists d0, d. split; [exact Hnew|]. split; [exact Hrun|].
    rewrite (run_keeps_threshold _ _ _ Hrun), Hthr in Hpos.
    apply Hpos. lia.
  - destruct (scenario_new 0) as (d0 & Hnew & Hthr).
    destruct (is_hot_semantics (scenario_config 0) 0 d0 scenario_ops
                "medium" Hnew (scenario_width 0) scenario_scale_ok)
      as (d & Hrun & _ & Hzero).
    exists d0, d. split; [exact Hnew|]. split; [exact Hrun|].
    apply Hzero.
    rewrite (run_keeps_threshold _ _ _ Hrun), Hthr. reflexivity.
Defined.

(** The values of the scenario: the list that [TopK] returns, and [IsHot]
    of two keys under threshold 50. *)
Example scenario_values :
  (d <- scenario_detector 50 ;;
   r <- Detector.TopK d ;;
   h1 <- Detector.IsHot d "popular" ;;
   h2 <- Detector.IsHot d "rare" ;;
   Done (fst r, fst h1, fst h2))
  = Done ([kc "popular" 100; kc "medium" 50; kc "other" 1], true, false).
Proof. vm_compute. reflexivity. Qed.
(** * Further properties of the code *)

(** ** The Count-Min Sketch: upper bound, reset and decay *)

Section CMSMore.

Import CMS.

(** After a stream of adds that does not overflow, every counter holds
    the total of its column. *)
Lemma AddAll_cells d w ops cms0 :
  NewCountMinSketch d w = Done cms0 ->
  wrap32 w <> 0 ->
  Forall (fun op => 0 <= snd op) ops ->
  stream_total ops < two64 ->
  exists cms,
    AddAll cms0 ops = Done cms /\ cms_wf cms /\
    depth cms = d /\ width cms = w /\
    forall i j, 0 <= i < d -> cell cms i j = col_total w ops i j.
Proof.
  intros Hnew Hnz Hops Htotal.
  destruct (new_wf d w cms0 Hnew Hnz) as (Hwf0 & Hd0 & Hw0 & Hzero).
  destruct (AddAll_spec ops cms0 Hwf0) as (cms & Hall & Hwf & Hd & Hw & Hcell).
  exists cms. split; [exact Hall|]. split; [exact Hwf|].
  split; [congruence|]. split; [congruence|].
  intros i j Hi. rewrite Hcell by lia. rewrite Hw0, Hzero. simpl.
  apply Z.mod_small. split; [apply sum_where_nonneg; exact Hops|].
  eapply Z.le_lt_trans; [|exact Htotal].
  apply sum_where_mono; [exact Hops|reflexivity].
Qed.

(** The estimate of a sketch with at least one row is the least of the
    counters that the key selects. *)
Lemma Estimate_least cms key :
  cms_wf cms -> 0 < depth cms ->
  exists e,
    Estimate cms key = Done e /\
    (forall i, 0 <= i < depth cms ->
               e <= cell cms i (col (width cms) key i)) /\
    (exists i, 0 <= i < depth cms /\ e = cell cms i (col (width cms) key i)).
Proof.
  intros Hwf Hd. unfold Estimate.
  destruct (estimate_loop_spec cms key (Z.to_nat (depth cms)) 0 MaxUint64 Hwf)
    as (e & He & Hle & Hrows & Hsome); [lia|lia|].
  replace (0 + Z.of_nat (Z.to_nat (depth cms))) with (depth cms)
    in Hrows, Hsome by lia.
  exists e. split; [exact He|]. split; [exact Hrows|].
  destruct Hsome as [->|Hsome]; [|exact Hsome].
  exists 0. split; [lia|].
  pose proof (Hrows 0 ltac:(lia)) as H0.
  pose proof (cell_bounded cms 0 (col (width cms) key 0) Hwf) as Hb.
  unfold MaxUint64 in *. lia.
Qed.

(** X1: after a stream of adds whose counts sum below 2^64, the estimate
    of every key is the least, over the rows, of the total added for the
    keys that share the key's column in that row; in particular it never
    exceeds the total of the whole stream. *)
Theorem cms_estimate_upper_bound d w ops cms0 :
  NewCountMinSketch d w = Done cms0 ->
  wrap32 w <> 0 ->
  0 < d ->
  Forall (fun op => 0 <= snd op) ops ->
  stream_total ops < two64 ->
  exists cms,
    AddAll cms0 ops = Done cms /\
    forall k, exists e,
      Estimate cms k = Done e /\
      (forall i, 0 <= i < d -> e <= col_total w ops i (col w k i)) /\
      (exists i, 0 <= i < d /\ e = col_total w ops i (col w k i)) /\
      e <= stream_total ops.
Proof.
  intros Hnew Hnz Hd Hops Htotal.
  destruct (AddAll_cells d w ops cms0 Hnew Hnz Hops Htotal)
    as (cms & Hall & Hwf & Hdep & Hwid & Hcell).
  exists cms. split; [exact Hall|]. intros k.
  destruct (Estimate_least cms k Hwf) as (e & He & Hrows & i0 & Hi0 & Heq);
    [lia|].
  rewrite Hdep, Hwid in *.
  exists e. split; [exact He|]. split.
  { intros i Hi. rewrite <- Hcell by exact Hi. apply Hrows. exact Hi. }
  split.
  { exists i0. split; [exact Hi0|]. rewrite <- Hcell by exact Hi0. exact Heq. }
  rewrite Heq, Hcell by exact Hi0.
  apply sum_where_mono; [exact Hops|reflexivity].
Qed.

(** The counters of a decayed sketch. *)
Lemma Decay_cell scale cms i j :
  cms_wf cms -> 0 <= i < depth cms -> 0 <= j < width cms ->
  cell (Decay scale cms) i j = scale (cell cms i j).
Proof.
  intros Hwf Hi Hj.
  destruct (wf_row cms i Hwf Hi) as (row & Hrow & Hlen & _).
  unfold cell. rewrite Hrow. unfold Decay. simpl.
  apply index_Done in Hrow as [_ Hrow].
  assert (Hrow' : index (map (map scale) (matrix cms)) i
                  = Done (map scale row)).
  { apply index_Done. split; [lia|].
    change (map (map scale) (matrix cms)) with (map scale <$> matrix cms).
    rewrite list_lookup_fmap, Hrow. reflexivity. }
  rewrite Hrow'.
  destruct (index_in_range row j) as (c & Hc); [lia|].
  rewrite Hc. apply index_Done in Hc as [_ Hc].
  assert (Hc' : index (map scale row) j = Done (scale c)).
  { apply index_Done. split; [lia|].
    change (map scale row) with (scale <$> row).
    rewrite list_lookup_fmap, Hc. reflexivity. }
  rewrite Hc'. reflexivity.
Qed.

(** The estimate of a decayed sketch, for a decay map that is monotone on
    counters. *)
Lemma Decay_estimate scale cms key e :
  cms_wf cms -> 0 < depth cms ->
  scale_ok scale ->
  (forall a b, 0 <= a <= b -> b < two64 -> scale a <= scale b) ->
  Estimate cms key = Done e ->
  Estimate (Decay scale cms) key = Done (scale e).
Proof.
  intros Hwf Hd Hok Hmono He.
  destruct (Estimate_least cms key Hwf Hd) as (e0 & He0 & Hrows & i0 & Hi0 & Heq).
  assert (Hee : e0 = e) by congruence.
  rewrite Hee in Hrows, Heq. clear Hee He0.
  pose proof (Decay_wf scale cms Hwf Hok) as Hwf'.
  destruct (Estimate_least (Decay scale cms) key Hwf')
    as (e' & He' & Hrows' & i1 & Hi1 & Heq'); [exact Hd|].
  rewrite He'. f_equal.
  change (depth (Decay scale cms)) with (depth cms) in *.
  change (width (Decay scale cms)) with (width cms) in *.
  assert (Hcol : forall i, 0 <= col (width cms) key i < width cms).
  { intros i. destruct Hwf as (_ & Hw & Hnz & _). apply col_range; assumption. }
  assert (Hlow : e' <= scale e).
  { specialize (Hrows' i0 Hi0).
    rewrite Decay_cell in Hrows' by (try assumption; apply Hcol).
    rewrite <- Heq in Hrows'. exact Hrows'. }
  assert (Hhigh : scale e <= e').
  { rewrite Heq', Decay_cell by (try assumption; apply Hcol).
    pose proof (cell_bounded cms i1 (col (width cms) key i1) Hwf) as Hb1.
    pose proof (cell_bounded cms i0 (col (width cms) key i0) Hwf) as Hb0.
    apply Hmono; [|lia]. split; [lia|]. apply Hrows. exact Hi1. }
  lia.
Qed.

(** X2: whatever has been added, after [Reset] the estimate of every key
    is 0. *)
Theorem cms_reset_forgets d w ops cms0 cms key :
  NewCountMinSketch d w = Done cms0 ->
  wrap32 w <> 0 ->
  0 < d ->
  AddAll cms0 ops = Done cms ->
  Estimate (Reset cms) key = Done 0.
Proof.
  intros Hnew Hnz Hd Hall.
  destruct (new_wf d w cms0 Hnew Hnz) as (Hwf0 & Hd0 & _).
  destruct (AddAll_spec ops cms0 Hwf0) as (cms' & Hall' & Hwf & Hdep & _).
  rewrite Hall in Hall'. inversion Hall'; subst cms'; clear Hall'.
  destruct (Estimate_total cms key Hwf) as (e & He & _).
  change (Reset cms) with (Decay (fun _ => 0) cms).
  apply (Decay_estimate (fun _ => 0) cms key e Hwf); try assumption.
  - lia.
  - intros c _. unfold two64. lia.
  - intros. lia.
Qed.

(** X3: a decay that is monotone on counters commutes with estimation:
    the estimate of every key in the decayed sketch is the decayed
    estimate. *)
Theorem cms_decay_scales_estimates d w ops cms0 cms scale key :
  NewCountMinSketch d w = Done cms0 ->
  wrap32 w <> 0 ->
  0 < d ->
  AddAll cms0 ops = Done cms ->
  scale_ok scale ->
  (forall a b, 0 <= a <= b -> b < two64 -> scale a <= scale b) ->
  exists e,
    Estimate cms key = Done e /\
    Estimate (Decay scale cms) key = Done (scale e).
Proof.
  intros Hnew Hnz Hd Hall Hok Hmono.
  destruct (new_wf d w cms0 Hnew Hnz) as (Hwf0 & Hd0 & _).
  destruct (AddAll_spec ops cms0 Hwf0) as (cms' & Hall' & Hwf & Hdep & _).
  rewrite Hall in Hall'. inversion Hall'; subst cms'; clear Hall'.
  destruct (Estimate_total cms key Hwf) as (e & He & _).
  exists e. split; [exact He|].
  apply Decay_estimate; try assumption. lia.
Qed.

End CMSMore.

Lemma cms_estimate_upper_bound_scenario :
  let ops := [(bytes_of "a", 5); (bytes_of "b", 3); (bytes_of "a", 2)] in
  exists cms,
    CMS.AddAll default_sketch ops = Done cms /\
    forall k, exists e,
      CMS.Estimate cms k = Done e /\
      (forall i, 0 <= i < 5 -> e <= col_total 272 ops i (col 272 k i)) /\
      (exists i, 0 <= i < 5 /\ e = col_total 272 ops i (col 272 k i)) /\
      e <= stream_total ops.
Proof.
  intros ops.
  apply (cms_estimate_upper_bound 5 272 ops default_sketch).
  - reflexivity.
  - vm_compute. discriminate.
  - lia.
  - repeat constructor; simpl; lia.
  - vm_compute. reflexivity.
Defined.

Lemma cms_reset_forgets_scenario :
  exists cms,
    CMS.AddAll default_sketch [(bytes_of "a", 5); (bytes_of "b", 3)]
    = Done cms /\
    CMS.Estimate (CMS.Reset cms) (bytes_of "a") = Done 0.
Proof.
  destruct (CMS.AddAll default_sketch [(bytes_of "a", 5); (bytes_of "b", 3)])
    as [cms| |] eqn:Hall; try (vm_compute in Hall; discriminate Hall).
  exists cms. split; [reflexivity|].
  apply (cms_reset_forgets 5 272 [(bytes_of "a", 5); (bytes_of "b", 3)]
           default_sketch cms).
  - reflexivity.
  - vm_compute. discriminate.
  - lia.
  - exact Hall.
Defined.

Lemma scenario_scale_mono a b :
  0 <= a <= b -> b < two64 -> a * 98 / 100 <= b * 98 / 100.
Proof. intros Hab _. apply Z.div_le_mono; lia. Qed.

Lemma cms_decay_scales_estimates_scenario :
  exists cms e,
    CMS.AddAll default_sketch [(bytes_of "a", 50); (bytes_of "b", 3)]
    = Done cms /\
    CMS.Estimate cms (bytes_of "a") = Done e /\
    CMS.Estimate (CMS.Decay (fun c => c * 98 / 100) cms) (bytes_of "a")
    = Done (e * 98 / 100).
Proof.
  destruct (CMS.AddAll default_sketch [(bytes_of "a", 50); (bytes_of "b", 3)])
    as [cms| |] eqn:Hall; try (vm_compute in Hall; discriminate Hall).
  destruct (cms_decay_scales_estimates 5 272
              [(bytes_of "a", 50); (bytes_of "b", 3)] default_sketch cms
              (fun c => c * 98 / 100) (bytes_of "a"))
    as (e & He & Hd).
  - reflexivity.
  - vm_compute. discriminate.
  - lia.
  - exact Hall.
  - exact scenario_scale_ok.
  - exact scenario_scale_mono.
  - exists cms, e. split; [reflexivity|]. split; [exact He|exact Hd].
Defined.
(** ** The Space-Saving structure: counts, TopK and the heap indices *)

Section SSMore.

Import SS.
Import Algo.

(** The states reached from [NewSpaceSaving] by [Add], [Decay] and
    [Clear] satisfy the structural invariant. *)
Lemma reachable_ss_inv cap ops ss0 ss :
  NewSpaceSaving cap = Done ss0 -> run_ops ss0 ops = Done ss ->
  ss_inv false ss /\ capacity ss = cap /\ 0 <= cap.
Proof.
  intros Hnew Hrun.
  destruct (New_inv false cap ss0 Hnew) as (Hinv0 & Hc0 & _).
  assert (H0 : 0 <= cap).
  { unfold NewSpaceSaving in Hnew. destruct (Z.ltb_spec cap 0);
      [discriminate|lia]. }
  destruct (run_ops_inv false ops ss0 ss Hinv0 ltac:(lia) Hrun) as [Hinv Hcap].
  split; [exact Hinv|]. split; [congruence|exact H0].
Qed.

Lemma Count_tracked ss k a it :
  items ss !! k = Some a -> mem ss !! a = Some it ->
  SS.Count ss k = Done (Count it).
Proof.
  intros Hk Hit. unfold SS.Count, deref. rewrite Hk, Hit. reflexivity.
Qed.

Lemma Count_untracked ss k :
  items ss !! k = None -> SS.Count ss k = Done 0.
Proof. intros Hk. unfold SS.Count. rewrite Hk. reflexivity. Qed.

(** The count that [Count] reads after a heap repair is the count that
    the item had before the repair. *)
Lemma Count_after ss its mid s' k b it :
  shuffled mid s' -> its !! k = Some b -> cells mid !! b = Some it ->
  SS.Count (with_hs ss its s') k = Done (Count it).
Proof.
  intros (_ & (_ & D) & _) Hk Hit.
  destruct (D b it Hit) as (it' & Hit' & _ & HC & _).
  unfold SS.Count, with_hs, deref. simpl. rewrite Hk, Hit'. simpl.
  rewrite HC. reflexivity.
Qed.

(** X4: [Add(key, n)] always leaves [key] tracked, with the count
    [c + n] (modulo 2^64), where [c] is the key's count if it was tracked,
    0 if it was not and there was room, and otherwise the count of the heap
    root, whose key is dropped; the count of every other key is
    unchanged. *)
Theorem ss_add_updates_one_count cap ops ss0 ss key n :
  NewSpaceSaving cap = Done ss0 ->
  0 < cap ->
  run_ops ss0 ops = Done ss ->
  0 <= n < two64 ->
  exists ss' c victim,
    Add ss key n = Done ss' /\
    SS.Count ss' key = Done (wrap64 (c + n)) /\
    (forall k, k <> key ->
       SS.Count ss' k
       = if decide (victim = Some k) then Done 0 else SS.Count ss k) /\
    (is_Some (items ss !! key) -> SS.Count ss key = Done c /\ victim = None) /\
    (items ss !! key = None -> Z.of_nat (length (heap ss)) < cap ->
       c = 0 /\ victim = None) /\
    (items ss !! key = None -> cap <= Z.of_nat (length (heap ss)) ->
       exists a it, heap ss !! 0%nat = Some a /\ mem ss !! a = Some it /\
                    c = Count it /\ victim = Some (Key it)).
Proof.
  intros Hnew Hpos Hrun Hn.
  destruct (reachable_ss_inv cap ops ss0 ss Hnew Hrun) as (Hinv & Hcap & _).
  pose proof Hinv as (Hv & [Hnd Hidx] & [L1 L2] & Hc).
  unfold hs, valid in *. simpl in *. rewrite Forall_forall in Hv.
  destruct (items ss !! key) as [a|] eqn:Hk.
  - (* the key is tracked *)
    destruct (L1 key a Hk) as (Hin & item & Hit & HK).
    destruct (Add_existing false ss key n a item Hinv Hk Hit)
      as (s' & _ & Hadd & Hsh & _).
    exists (with_hs ss (items ss) s'), (Count item), None.
    split; [exact Hadd|]. split.
    { apply (Count_after ss (items ss) _ s' key a
               (set_Count item (wrap64 (Count item + n))) Hsh Hk).
      simpl. apply list_lookup_insert_eq.
      apply lookup_lt_Some in Hit. exact Hit. }
    split.
    { intros k Hne. destruct (decide (None = Some k)); [discriminate|].
      destruct (items ss !! k) as [b|] eqn:Hkb.
      - destruct (L1 k b Hkb) as (_ & itb & Hitb & HKb).
        assert (b <> a) by (intros ->; congruence).
        rewrite (Count_tracked ss k b itb Hkb Hitb).
        apply (Count_after ss (items ss) _ s' k b itb Hsh Hkb). simpl.
        rewrite list_lookup_insert_ne by congruence. exact Hitb.
      - rewrite (Count_untracked ss k Hkb).
        apply Count_untracked. exact Hkb. }
    split.
    { intros _. split; [|reflexivity]. apply Count_tracked with (a := a); auto. }
    split; [intros H; discriminate H|intros H; discriminate H].
  - destruct (Z.lt_ge_cases (Z.of_nat (length (heap ss))) (capacity ss))
      as [Hroom|Hfull].
    + (* a new key, with room *)
      destruct (Add_push false ss key n Hinv Hk Hroom)
        as (s' & _ & Hadd & Hsh & _).
      exists (with_hs ss (<[key := length (mem ss)]> (items ss)) s'), 0, None.
      split; [exact Hadd|]. split.
      { rewrite Z.add_0_l, wrap64_small by exact Hn.
        apply (Count_after ss _ _ s' key (length (mem ss))
                 (mkItem key n 0 (Z.of_nat (length (heap ss)))) Hsh).
        - apply lookup_insert_eq.
        - simpl. rewrite lookup_app_r by lia. rewrite Nat.sub_diag.
          reflexivity. }
      split.
      { intros k Hne. destruct (decide (None = Some k)); [discriminate|].
        destruct (items ss !! k) as [b|] eqn:Hkb.
        - destruct (L1 k b Hkb) as (Hinb & itb & Hitb & HKb).
          rewrite (Count_tracked ss k b itb Hkb Hitb).
          apply (Count_after ss _ _ s' k b itb Hsh).
          + rewrite lookup_insert_ne by congruence. exact Hkb.
          + simpl. rewrite lookup_app_l by (apply lookup_lt_Some in Hitb; lia).
            exact Hitb.
        - rewrite (Count_untracked ss k Hkb).
          apply Count_untracked. unfold with_hs. simpl.
          rewrite lookup_insert_ne by congruence. exact Hkb. }
      split; [intros [? H]; discriminate H|].
      split; [intros _ _; split; reflexivity|]. intros _ Hge. lia.
    + (* a new key that replaces the root *)
      destruct (lookup_lt_is_Some_2 (heap ss) 0%nat) as [a Hroot]; [lia|].
      assert (Ha : a ∈ heap ss) by (apply list_elem_of_lookup; eauto).
      destruct (L2 a Ha) as (old & Hold & Hko).
      destruct (Add_evict false ss key n a old Hinv Hk Hfull Hroot Hold)
        as (s' & _ & Hadd & Hsh & _).
      exists (with_hs ss (<[key := a]> (delete (Key old) (items ss))) s'),
             (Count old), (Some (Key old)).
      split; [exact Hadd|]. split.
      { apply (Count_after ss _ _ s' key a
                 (mkItem key (wrap64 (Count old + n)) (Count old) (Index old))
                 Hsh).
        - apply lookup_insert_eq.
        - simpl. apply list_lookup_insert_eq.
          apply lookup_lt_Some in Hold. exact Hold. }
      split.
      { intros k Hne.
        destruct (decide (Some (Key old) = Some k)) as [Heq|Hneq].
        - inversion Heq; subst k. apply Count_untracked.
          unfold with_hs. simpl. rewrite lookup_insert_ne by congruence.
          apply lookup_delete_eq.
        - assert (Hko' : Key old <> k) by congruence.
          destruct (items ss !! k) as [b|] eqn:Hkb.
          + destruct (L1 k b Hkb) as (Hinb & itb & Hitb & HKb).
            assert (b <> a) by (intros ->; congruence).
            rewrite (Count_tracked ss k b itb Hkb Hitb).
            apply (Count_after ss _ _ s' k b itb Hsh).
            * rewrite lookup_insert_ne by congruence.
              rewrite lookup_delete_ne by congruence. exact Hkb.
            * simpl. rewrite list_lookup_insert_ne by congruence. exact Hitb.
          + rewrite (Count_untracked ss k Hkb).
            apply Count_untracked. unfold with_hs. simpl.
            rewrite lookup_insert_ne by congruence.
            rewrite lookup_delete_ne by congruence. exact Hkb. }
      split; [intros [? H]; discriminate H|].
      split; [intros _ Hlt; lia|].
      intros _ _. exists a, old. auto.
Qed.

(** [TopK] for an arbitrary [k]. *)
Lemma TopK_any lax ss k :
  ss_inv lax ss ->
  (k < 0 -> TopK ss k = Panic) /\
  (0 <= k ->
   exists result ss',
     TopK ss k = Done (result, ss') /\
     ss_inv true ss' /\
     capacity ss' = capacity ss /\ items ss' = items ss /\
     heap ss' = heap ss /\ same_data (mem ss) (mem ss') /\
     Z.of_nat (length result) = Z.min k (Z.of_nat (length (heap ss))) /\
     NoDup (Key <$> result) /\
     Forall (fun it => Index it = -1 /\
               exists a it0,
                 items ss !! Key it = Some a /\ mem ss !! a = Some it0 /\
                 Count it = Count it0 /\ Error it = Error it0) result /\
     (forall key a, items ss !! key = Some a ->
        exists it, mem ss' !! a = Some it /\ Index it = -1)).
Proof.
  intros (Hv & [Hnd Hidx] & Hl & Hc). unfold hs in *. simpl in *.
  destruct (drain_spec (length (heap ss)) (mkH (heap ss) (mem ss)) [] Hv Hnd)
    as (s' & new & popped & Hdr & Hnil & Pp & D & F & Hall); [simpl; lia|].
  simpl in *.
  pose proof (Forall2_item_at _ _ _ Hall) as Hnew.
  assert (Hlen : length new = length (heap ss)).
  { rewrite Hnew, length_fmap. apply Permutation_length. exact Pp. }
  assert (Hl' : linked (items ss) (mkH (heap ss) (cells s'))).
  { apply (linked_shuffled _ (mkH (heap ss) (mem ss))); [|exact Hl].
    split; [reflexivity|]. split; [exact D|exact F]. }
  assert (Hneg1 : forall a, a ∈ heap ss ->
            exists it, cells s' !! a = Some it /\ Index it = -1).
  { intros a Ha. rewrite <- Pp in Ha.
    apply list_elem_of_lookup in Ha as [j Hj].
    destruct (Forall2_lookup_l _ _ _ _ _ Hall Hj) as (it' & _ & Hit' & Hix).
    eauto. }
  split.
  - intros Hk. unfold TopK. rewrite Hdr. simpl. rewrite Hlen.
    destruct (Z.gtb_spec k (Z.of_nat (length (heap ss)))); [lia|].
    destruct (Z.ltb_spec k 0); [reflexivity|lia].
  - intros Hk.
    set (k' := Z.min k (Z.of_nat (length (heap ss)))).
    exists (take (Z.to_nat k') (reverse new)),
           (mkSS (capacity ss) (items ss) (heap ss) (cells s')).
    split.
    { unfold TopK. rewrite Hdr. simpl. rewrite Hlen.
      destruct (Z.gtb_spec k (Z.of_nat (length (heap ss)))) as [Hgt|Hle].
      + destruct (Z.ltb_spec (Z.of_nat (length (heap ss))) 0); [lia|].
        unfold k'. rewrite Z.min_r by lia. reflexivity.
      + destruct (Z.ltb_spec k 0); [lia|].
        unfold k'. rewrite Z.min_l by lia. reflexivity. }
    simpl. split.
    { unfold ss_inv, hs, valid, placed. simpl.
      split; [destruct D as [HL _]; rewrite HL; exact Hv|].
      split; [split; [exact Hnd|]|split; [exact Hl'|exact Hc]].
      intros i a it Hi Hit. right. split; [reflexivity|].
      destruct (Hneg1 a) as (it' & Hit' & Hix);
        [apply list_elem_of_lookup; eauto|].
      simpl in Hit. congruence. }
    split; [reflexivity|]. split; [reflexivity|]. split; [reflexivity|].
    split; [exact D|]. split.
    { rewrite length_take, length_reverse, Hlen. unfold k'. lia. }
    assert (Hkeys : Key <$> reverse new ≡ₚ (map_to_list (items ss)).*1).
    { rewrite fmap_reverse, reverse_Permutation, Hnew, <- list_fmap_compose.
      rewrite Pp. apply (linked_keys (items ss) (mkH (heap ss) (cells s'))).
      - exact Hl'.
      - exact Hnd. }
    split.
    { rewrite fmap_take.
      eapply sublist_NoDup; [|apply sublist_take].
      rewrite Hkeys. apply NoDup_fst_map_to_list. }
    split.
    { apply Forall_forall. intros it Hit.
      apply elem_of_take in Hit as (j & Hit & _).
      apply list_elem_of_lookup_2 in Hit.
      rewrite elem_of_reverse, Hnew in Hit.
      apply list_elem_of_fmap in Hit as (a & -> & Ha). rewrite Pp in Ha.
      destruct (Hneg1 a Ha) as (it' & Hit' & Hix).
      destruct Hl as [_ L2]. destruct (L2 a Ha) as (it0 & Hit0 & Hk0).
      destruct D as [_ D]. destruct (D a it0 Hit0) as (it1 & Hit1 & HK & HC & HE).
      unfold item_at. simpl in *. rewrite Hit'. simpl.
      split; [exact Hix|]. exists a, it0.
      assert (it1 = it') by congruence. subst it1.
      rewrite HK. auto. }
    intros key a Hka. destruct Hl as [L1 _].
    destruct (L1 key a Hka) as (Hin & _). apply Hneg1. exact Hin.
Qed.

(** X5: [TopK(k)] returns [min(k, n)] of the [n] tracked items, one per
    key, each a copy with the key's count and error; a negative [k]
    panics.  The call changes neither the keys, the counts nor the heap
    slice, but it leaves the [Index] field of every tracked item at -1. *)
Theorem ss_topk_resets_indices cap ops ss0 ss k :
  NewSpaceSaving cap = Done ss0 ->
  run_ops ss0 ops = Done ss ->
  (k < 0 -> TopK ss k = Panic) /\
  (0 <= k ->
   exists result ss',
     TopK ss k = Done (result, ss') /\
     Z.of_nat (length result) = Z.min k (Z.of_nat (length (heap ss))) /\
     NoDup (Key <$> result) /\
     Forall (fun it => exists a it0,
               items ss !! Key it = Some a /\ mem ss !! a = Some it0 /\
               Count it = Count it0 /\ Error it = Error it0) result /\
     items ss' = items ss /\ heap ss' = heap ss /\
     same_data (mem ss) (mem ss') /\
     (forall key a, items ss' !! key = Some a ->
        exists it, mem ss' !! a = Some it /\ Index it = -1)).
Proof.
  intros Hnew Hrun.
  destruct (reachable_ss_inv cap ops ss0 ss Hnew Hrun) as (Hinv & _).
  destruct (TopK_any false ss k Hinv) as [Hneg Hpos].
  split; [exact Hneg|]. intros Hk.
  destruct (Hpos Hk) as (result & ss' & Htop & _ & _ & Hi & Hh & D & Hlen
                         & Hnd & Hall & Hidx).
  exists result, ss'. split; [exact Htop|]. split; [exact Hlen|].
  split; [exact Hnd|]. split.
  { eapply Forall_impl; [exact Hall|]. intros it [_ H]. exact H. }
  split; [exact Hi|]. split; [exact Hh|]. split; [exact D|].
  intros key a Hka. rewrite Hi in Hka. eapply Hidx. exact Hka.
Qed.

(** [heap.Fix] at the index -1 does nothing. *)
Lemma Fix_at_minus_one s : Heap.Fix s (-1) = Done s.
Proof.
  unfold Heap.Fix, Heap.down, Heap.fuel_for.
  lazy beta iota zeta delta [Heap.down_loop].
  change (2 * -1 + 1 <? 0) with true. rewrite orb_true_r.
  lazy beta iota zeta delta [obind fst snd Heap.up negb].
  change (-1 >? -1) with false. lazy beta iota.
  change (Z.quot (-1 - 1) 2 =? -1) with true. reflexivity.
Qed.

(** X6: once [TopK] has run, [Add] on a tracked key adds to the key's
    count but no longer moves the item in the heap: its [Index] is -1 and
    [heap.Fix] at -1 does nothing, so the heap slice stays as it was. *)
Theorem ss_add_after_topk_skips_fix cap ops ss0 ss k result ss1 key a n :
  NewSpaceSaving cap = Done ss0 ->
  run_ops ss0 ops = Done ss ->
  TopK ss k = Done (result, ss1) ->
  items ss1 !! key = Some a ->
  exists item,
    mem ss1 !! a = Some item /\
    Add ss1 key n
    = Done (mkSS (capacity ss1) (items ss1) (heap ss1)
              (<[a := set_Count item (wrap64 (Count item + n))]> (mem ss1))).
Proof.
  intros Hnew Hrun Htop Hka.
  destruct (reachable_ss_inv cap ops ss0 ss Hnew Hrun) as (Hinv & _).
  destruct (TopK_any false ss k Hinv) as [Hneg Hpos].
  destruct (Z.lt_ge_cases k 0) as [Hk|Hk].
  { rewrite (Hneg Hk) in Htop. discriminate Htop. }
  destruct (Hpos Hk) as (result' & ss' & Htop' & _ & _ & Hi & _ & _ & _
                         & _ & _ & Hidx).
  rewrite Htop in Htop'. inversion Htop'; subst result' ss'; clear Htop'.
  rewrite Hi in Hka. destruct (Hidx key a Hka) as (item & Hit & Hix).
  exists item. split; [exact Hit|].
  unfold Add, deref. rewrite Hi, Hka, Hit. cbn [obind].
  cbn [Index set_Count]. rewrite Hix, Fix_at_minus_one. cbn [obind].
  unfold with_hs. simpl. reflexivity.
Qed.

End SSMore.

Lemma ss_add_updates_one_count_scenario :
  let ops := [OpAdd "first" 10; OpAdd "second" 5] in
  let ss0 := SS.mkSS 2 ∅ [] [] in
  exists ss ss' c victim,
    run_ops ss0 ops = Done ss /\
    SS.Add ss "third" 1 = Done ss' /\
    SS.Count ss' "third" = Done (wrap64 (c + 1)) /\
    (forall k, k <> "third" ->
       SS.Count ss' k
       = if decide (victim = Some k) then Done 0 else SS.Count ss k) /\
    (is_Some (SS.items ss !! "third") ->
       SS.Count ss "third" = Done c /\ victim = None) /\
    (SS.items ss !! "third" = None ->
       Z.of_nat (length (SS.heap ss)) < 2 -> c = 0 /\ victim = None) /\
    (SS.items ss !! "third" = None ->
       2 <= Z.of_nat (length (SS.heap ss)) ->
       exists a it, SS.heap ss !! 0%nat = Some a /\
                    SS.mem ss !! a = Some it /\
                    c = Count it /\ victim = Some (Key it)).
Proof.
  intros ops ss0.
  destruct (run_ops ss0 ops) as [ss| |] eqn:Hrun;
    try (vm_compute in Hrun; discriminate Hrun).
  destruct (ss_add_updates_one_count 2 ops ss0 ss "third" 1)
    as (ss' & c & victim & H).
  - reflexivity.
  - lia.
  - exact Hrun.
  - unfold two64. lia.
  - exists ss, ss', c, victim. split; [reflexivity|exact H].
Defined.

Lemma ss_topk_resets_indices_scenario :
  let ops := [OpAdd "first" 10; OpAdd "second" 5] in
  let ss0 := SS.mkSS 2 ∅ [] [] in
  exists ss,
    run_ops ss0 ops = Done ss /\
    (-1 < 0 -> SS.TopK ss (-1) = Panic) /\
    (0 <= 1 ->
     exists result ss',
       SS.TopK ss 1 = Done (result, ss') /\
       Z.of_nat (length result) = Z.min 1 (Z.of_nat (length (SS.heap ss))) /\
       NoDup (Key <$> result) /\
       Forall (fun it => exists a it0,
                 SS.items ss !! Key it = Some a /\
                 SS.mem ss !! a = Some it0 /\
                 Count it = Count it0 /\ Error it = Error it0) result /\
       SS.items ss' = SS.items ss /\ SS.heap ss' = SS.heap ss /\
       same_data (SS.mem ss) (SS.mem ss') /\
       (forall key a, SS.items ss' !! key = Some a ->
          exists it, SS.mem ss' !! a = Some it /\ Index it = -1)).
Proof.
  intros ops ss0.
  destruct (run_ops ss0 ops) as [ss| |] eqn:Hrun;
    try (vm_compute in Hrun; discriminate Hrun).
  exists ss. split; [reflexivity|].
  split.
  - apply (ss_topk_resets_indices 2 ops ss0 ss (-1) eq_refl Hrun).
  - apply (ss_topk_resets_indices 2 ops ss0 ss 1 eq_refl Hrun).
Defined.

(** With capacity 2: after [Add a 1], [Add b 2] and a [TopK], adding 5 to
    [a] leaves [a] at the root although [b] now has the smaller count, and
    the next new key replaces [a], not [b]. *)
Lemma ss_add_after_topk_skips_fix_scenario :
  let ops := [OpAdd "a" 1; OpAdd "b" 2] in
  let ss0 := SS.mkSS 2 ∅ [] [] in
  exists ss result ss1 a item,
    run_ops ss0 ops = Done ss /\
    SS.TopK ss 2 = Done (result, ss1) /\
    SS.items ss1 !! "a" = Some a /\
    SS.mem ss1 !! a = Some item /\
    SS.Add ss1 "a" 5
    = Done (SS.mkSS (SS.capacity ss1) (SS.items ss1) (SS.heap ss1)
              (<[a := set_Count item (wrap64 (Count item + 5))]>
                 (SS.mem ss1))).
Proof.
  intros ops ss0.
  destruct (run_ops ss0 ops) as [ss| |] eqn:Hrun;
    try (vm_compute in Hrun; discriminate Hrun).
  destruct (SS.TopK ss 2) as [[result ss1]| |] eqn:Htop;
    try (vm_compute in Hrun; inversion Hrun; subst ss;
         vm_compute in Htop; discriminate Htop).
  destruct (SS.items ss1 !! "a") as [a|] eqn:Hka;
    try (vm_compute in Hrun; inversion Hrun; subst ss;
         vm_compute in Htop; inversion Htop; subst ss1;
         vm_compute in Hka; discriminate Hka).
  destruct (ss_add_after_topk_skips_fix 2 ops ss0 ss 2 result ss1 "a" a 5
              eq_refl Hrun Htop Hka) as (item & Hit & Hadd).
  exists ss, result, ss1, a, item. auto.
Defined.

Example ss_eviction_after_topk :
  (ss <- run_ops (SS.mkSS 2 ∅ [] []) [OpAdd "a" 1; OpAdd "b" 2] ;;
   r <- SS.TopK ss 2 ;;
   ss <- SS.Add (snd r) "a" 5 ;;
   ss <- SS.Add ss "c" 1 ;;
   ca <- SS.Count ss "a" ;;
   cb <- SS.Count ss "b" ;;
   cc <- SS.Count ss "c" ;;
   Done (ca, cb, cc))
  = Done (0, 2, 7).
Proof. vm_compute. reflexivity. Qed.
(** ** The detector: reset, and hot keys under the threshold 0 *)

Section DetectorMore.

Import Detector.

(** [Add] leaves its key tracked. *)
Lemma Add_tracks lax ss key n ss' :
  ss_inv lax ss -> SS.Add ss key n = Done ss' ->
  is_Some (SS.items ss' !! key).
Proof.
  intros Hinv Hadd.
  pose proof Hinv as (Hv & _ & [L1 L2] & Hc).
  destruct (SS.items ss !! key) as [a|] eqn:Hk.
  - destruct (L1 key a Hk) as (_ & item & Hit & _).
    destruct (Add_existing lax ss key n a item Hinv Hk Hit)
      as (s' & _ & Hadd' & _).
    rewrite Hadd in Hadd'. inversion Hadd'. simpl. rewrite Hk. eauto.
  - destruct (Z.lt_ge_cases (Z.of_nat (length (SS.heap ss))) (SS.capacity ss))
      as [Hroom|Hfull].
    + destruct (Add_push lax ss key n Hinv Hk Hroom) as (s' & _ & Hadd' & _).
      rewrite Hadd in Hadd'. inversion Hadd'. simpl.
      rewrite lookup_insert_eq. eauto.
    + destruct (SS.heap ss !! 0%nat) as [a|] eqn:Hroot.
      * destruct (L2 a) as (old & Hold & _);
          [apply list_elem_of_lookup; eauto|].
        destruct (Add_evict lax ss key n a old Hinv Hk Hfull Hroot Hold)
          as (s' & _ & Hadd' & _).
        rewrite Hadd in Hadd'. inversion Hadd'. simpl.
        rewrite lookup_insert_eq. eauto.
      * unfold SS.Add in Hadd. rewrite Hk in Hadd.
        destruct (Z.ltb_spec (SSHeap.Len (SS.hs ss)) (SS.capacity ss));
          [unfold SSHeap.Len, SS.hs in *; simpl in *; lia|].
        assert (Hi : index (SS.heap ss) 0 = Panic)
          by (unfold index; change (0 <? 0) with false;
              change (Z.to_nat 0) with 0%nat; cbv iota;
              rewrite Hroot; reflexivity).
        rewrite Hi in Hadd. discriminate Hadd.
Qed.

(** The sketch of a detector keeps the five rows it is created with. *)
Lemma det_step_depth d op d' :
  det_inv d -> det_step d op = Done d' ->
  CMS.depth (sketch d') = CMS.depth (sketch d).
Proof.
  intros Hinv Hstep. pose proof Hinv as (Hwf & Hss & Hcap & Hpos & Hsc).
  destruct op as [now key count| |key|now]; simpl in Hstep.
  - unfold Increment in Hstep.
    apply obind_Done in Hstep as (sk' & Hadd & Hstep).
    apply obind_Done in Hstep as (tk' & _ & Hstep).
    inversion Hstep; subst d'; clear Hstep. simpl.
    set (sk := if now - lastDecay d >=? decayInterval d
               then CMS.Decay (DecayScale (config d)) (sketch d)
               else sketch d) in *.
    assert (Hwf1 : cms_wf sk).
    { unfold sk. destruct (_ >=? _); [apply Decay_wf|]; assumption. }
    destruct (Add_spec sk (bytes_of key) count Hwf1)
      as (sk2 & Hadd2 & _ & Hd2 & _).
    rewrite Hadd in Hadd2. inversion Hadd2; subst sk2. rewrite Hd2.
    unfold sk. destruct (_ >=? _); reflexivity.
  - apply obind_Done in Hstep as ([r d1] & Htop & Hd).
    inversion Hd; subst d'; clear Hd. unfold TopK in Htop.
    apply obind_Done in Htop as (? & _ & Htop).
    apply obind_Done in Htop as (? & _ & Htop).
    inversion Htop. reflexivity.
  - apply obind_Done in Hstep as ([r d1] & Hhot & Hd).
    inversion Hd; subst d'; clear Hd. unfold IsHot in Hhot.
    apply obind_Done in Hhot as (? & _ & Hhot).
    destruct (_ >? 0); [inversion Hhot; reflexivity|].
    apply obind_Done in Hhot as ([r' d2] & Htop & Hd').
    inversion Hd'; subst. unfold TopK in Htop.
    apply obind_Done in Htop as (? & _ & Htop).
    apply obind_Done in Htop as (? & _ & Htop).
    inversion Htop. reflexivity.
  - unfold Reset in Hstep.
    apply obind_Done in Hstep as (? & _ & Hstep).
    inversion Hstep. reflexivity.
Qed.

Lemma det_run_depth ops :
  forall d d',
    det_inv d -> det_run d ops = Done d' ->
    det_inv d' /\ CMS.depth (sketch d') = CMS.depth (sketch d).
Proof.
  induction ops as [|op rest IH]; intros d d' Hinv Hrun; simpl in Hrun.
  - inversion Hrun; subst. auto.
  - apply obind_Done in Hrun as (d1 & Hstep & Hrest).
    destruct (det_step_inv d op Hinv) as (d1' & Hstep' & Hinv1).
    rewrite Hstep in Hstep'. inversion Hstep'; subst d1'.
    destruct (IH d1 d' Hinv1 Hrest) as [Hinv' Hd].
    split; [exact Hinv'|]. rewrite Hd.
    eapply det_step_depth; eassumption.
Qed.

Lemma reachable_detector cfg now d0 ops d :
  New cfg now = Done d0 -> wrap32 (Width cfg) <> 0 ->
  scale_ok (DecayScale cfg) -> det_run d0 ops = Done d ->
  det_inv d /\ CMS.depth (sketch d) = 5.
Proof.
  intros Hnew Hnz Hsc Hrun.
  pose proof (detector_New_inv cfg now d0 Hnew Hnz Hsc) as Hinv0.
  destruct (det_run_depth ops d0 d Hinv0 Hrun) as [Hinv Hd].
  split; [exact Hinv|]. rewrite Hd.
  unfold New in Hnew.
  apply obind_Done in Hnew as (sk & Hsk & Hnew).
  apply obind_Done in Hnew as (tk & _ & Hnew).
  inversion Hnew; subst d0. simpl.
  unfold CMS.NewCountMinSketch in Hsk.
  destruct (_ || _); [discriminate|]. inversion Hsk. reflexivity.
Qed.

(** X7: [Reset] forgets everything: in the state it produces the count
    of every key is 0, [TopK] is empty and no key is hot, whatever the
    threshold. *)
Theorem detector_reset_clears cfg now d0 ops d now' :
  New cfg now = Done d0 ->
  wrap32 (Width cfg) <> 0 ->
  scale_ok (DecayScale cfg) ->
  det_run d0 ops = Done d ->
  exists d',
    Reset d now' = Done d' /\
    TopK d' = Done ([], d') /\
    forall key,
      GetCount d' key = Done 0 /\ IsHot d' key = Done (false, d').
Proof.
  intros Hnew Hnz Hsc Hrun.
  destruct (reachable_detector cfg now d0 ops d Hnew Hnz Hsc Hrun)
    as [Hinv Hdepth].
  pose proof Hinv as (Hwf & Hss & Hcap & Hpos & _).
  unfold Reset, SS.NewSpaceSaving.
  destruct (Z.ltb_spec (CfgTopK (config d)) 0) as [|_]; [lia|].
  cbn [obind]. eexists. split; [reflexivity|].
  assert (Htop : TopK (mkDetector (CMS.Reset (sketch d))
                         (SS.mkSS (CfgTopK (config d)) ∅ [] [])
                         (config d) now' (decayInterval d))
                 = Done ([], mkDetector (CMS.Reset (sketch d))
                               (SS.mkSS (CfgTopK (config d)) ∅ [] [])
                               (config d) now' (decayInterval d))).
  { unfold TopK, SS.TopK. simpl.
    replace (CfgTopK (config d) >? Z.of_nat 0) with true
      by (symmetry; apply Z.gtb_lt; simpl; lia).
    simpl. reflexivity. }
  split; [exact Htop|]. intros key.
  assert (Hz : CMS.Estimate (CMS.Reset (sketch d)) (bytes_of key) = Done 0).
  { destruct (Estimate_total (sketch d) (bytes_of key) Hwf) as (e & He & _).
    change (CMS.Reset (sketch d)) with (CMS.Decay (fun _ => 0) (sketch d)).
    apply (Decay_estimate (fun _ => 0) (sketch d) (bytes_of key) e Hwf);
      try assumption.
    - lia.
    - intros c _. unfold two64. lia.
    - intros. lia. }
  split; [exact Hz|].
  unfold IsHot, GetCount. cbn [sketch config]. rewrite Hz. cbn [obind].
  destruct (Z.gtb_spec (HotThreshold (config d)) 0) as [Hthr|Hthr].
  - destruct (Z.geb_spec 0 (HotThreshold (config d))); [lia|reflexivity].
  - rewrite Htop. reflexivity.
Qed.

(** X8: under the threshold 0 (the default), a key is hot as soon as it
    has been incremented, whatever its count: [Increment] leaves the key
    in the Space-Saving structure, and [IsHot] then only asks whether the
    key is tracked. *)
Theorem incremented_key_is_hot cfg now d0 ops d now' key n :
  New cfg now = Done d0 ->
  wrap32 (Width cfg) <> 0 ->
  scale_ok (DecayScale cfg) ->
  det_run d0 ops = Done d ->
  HotThreshold (config d) = 0 ->
  exists d1 d2,
    Increment d now' key n = Done d1 /\
    IsHot d1 key = Done (true, d2).
Proof.
  intros Hnew Hnz Hsc Hrun Hthr.
  destruct (reachable_detector cfg now d0 ops d Hnew Hnz Hsc Hrun)
    as [Hinv _].
  destruct (det_step_inv d (DoIncrement now' key n) Hinv)
    as (d1 & Hstep & Hinv1).
  simpl in Hstep.
  assert (Hcfg : config d1 = config d /\
                 is_Some (SS.items (topK d1) !! key)).
  { unfold Increment in Hstep.
    apply obind_Done in Hstep as (sk' & _ & Hstep).
    apply obind_Done in Hstep as (tk' & Hadd & Hstep).
    inversion Hstep; subst d1. simpl. split; [reflexivity|].
    destruct Hinv as (_ & Hss & _).
    eapply Add_tracks; eassumption. }
  destruct Hcfg as [Hcfg [a Hka]].
  destruct (detector_TopK_spec d1 Hinv1)
    as (result & d2 & Htop & Hkeys & _).
  pose proof Hinv1 as (Hwf1 & _).
  destruct (Estimate_total (sketch d1) (bytes_of key) Hwf1) as (c & Hc & _).
  exists d1, d2. split; [exact Hstep|].
  unfold IsHot, GetCount. rewrite Hc. cbn [obind].
  rewrite Hcfg, Hthr. change (0 >? 0) with false. cbn iota.
  rewrite Htop. cbn [obind fst snd]. f_equal. f_equal.
  apply contains_key_spec.
  assert (Hin : key ∈ Key <$> result).
  { rewrite Hkeys. apply list_elem_of_fmap.
    exists (key, a). split; [reflexivity|].
    apply elem_of_map_to_list. exact Hka. }
  apply list_elem_of_fmap in Hin as (kc & Hk & Hin). eauto.
Qed.

End DetectorMore.

Lemma detector_reset_clears_scenario :
  exists d0 d d',
    Detector.New (scenario_config 50) 0 = Done d0 /\
    det_run d0 scenario_ops = Done d /\
    Detector.Reset d 5 = Done d' /\
    Detector.TopK d' = Done ([], d') /\
    forall key,
      Detector.GetCount d' key = Done 0 /\
      Detector.IsHot d' key = Done (false, d').
Proof.
  destruct (scenario_new 50) as (d0 & Hnew & _).
  destruct (detector_reachable_inv _ _ d0 scenario_ops Hnew
              (scenario_width 50) scenario_scale_ok) as (d & Hrun & _).
  destruct (detector_reset_clears (scenario_config 50) 0 d0 scenario_ops d 5
              Hnew (scenario_width 50) scenario_scale_ok Hrun)
    as (d' & H).
  exists d0, d, d'. split; [exact Hnew|]. split; [exact Hrun|exact H].
Defined.

Lemma incremented_key_is_hot_scenario :
  exists d0 d d1 d2,
    Detector.New (scenario_config 0) 0 = Done d0 /\
    det_run d0 scenario_ops = Done d /\
    Detector.Increment d 5 "seen-once" 1 = Done d1 /\
    Detector.IsHot d1 "seen-once" = Done (true, d2).
Proof.
  destruct (scenario_new 0) as (d0 & Hnew & Hthr0).
  destruct (detector_reachable_inv _ _ d0 scenario_ops Hnew
              (scenario_width 0) scenario_scale_ok) as (d & Hrun & _).
  destruct (incremented_key_is_hot (scenario_config 0) 0 d0 scenario_ops d 5
              "seen-once" 1 Hnew (scenario_width 0) scenario_scale_ok Hrun)
    as (d1 & d2 & Hinc & Hhot).
  - rewrite (run_keeps_threshold _ _ _ Hrun). exact Hthr0.
  - exists d0, d, d1, d2. auto.
Defined.
(** ** The local cache: round trip, eviction order and statistics *)

Section LocalCacheMore.

Import LocalCache.

Context {V : Type}.



(** What the loop of [evictLRU] returns, started after its first
    entry. *)
Lemma oldest_entry_least (entries : list (string * CacheItem V)) :
  forall k t,
    let r := oldest_entry entries k t false in
    (r.1.2 <= t)%Z /\
    (forall e, e ∈ entries -> (r.1.2 <= Expiration e.2)%Z) /\
    ((r.1.1 = k /\ r.1.2 = t) \/
     exists item, (r.1.1, item) ∈ entries /\ r.1.2 = Expiration item).
Proof.
  induction entries as [|[key item] rest IH]; intros k t; simpl.
  - split; [lia|]. split; [|left; auto].
    intros e He. apply elem_of_nil in He. destruct He.
  - destruct (Z.ltb_spec (Expiration item) t) as [Hlt|Hge].
    + destruct (IH key (Expiration item)) as (H1 & H2 & H3).
      split; [lia|]. split.
      * intros e He. apply elem_of_cons in He as [->|He]; [exact H1|].
        apply H2. exact He.
      * right. destruct H3 as [[-> ->]|(it & Hin & Heq)].
        -- exists item. split; [left|reflexivity].
        -- exists it. split; [right; exact Hin|exact Heq].
    + destruct (IH k t) as (H1 & H2 & H3).
      split; [exact H1|]. split.
      * intros e He. apply elem_of_cons in He as [->|He]; [simpl; lia|].
        apply H2. exact He.
      * destruct H3 as [H3|(it & Hin & Heq)]; [left; exact H3|].
        right. exists it. split; [right; exact Hin|exact Heq].
Qed.

(** X10: on a cache that holds no entry under the empty key, [evictLRU]
    removes exactly one entry, and no entry expires earlier than the
    removed one; so whenever some entry has expired, an expired entry is
    removed. *)
Theorem evictLRU_removes_earliest (p : localCachePolicy V) :
  cache p !! "" = None -> cache p <> ∅ ->
  exists k item,
    cache p !! k = Some item /\
    evictLRU p = mkLocalCachePolicy (config p) (delete k (cache p))
                                    (LocalCache.size p - 1)%Z /\
    (forall k' item', cache p !! k' = Some item' ->
                      (Expiration item <= Expiration item')%Z) /\
    (forall now k' item',
        cache p !! k' = Some item' -> IsExpired now item' = true ->
        IsExpired now item = true).
Proof.
  intros Hempty Hne. unfold evictLRU.
  destruct (map_to_list (cache p)) as [|[k1 i1] rest] eqn:Hl.
  { apply map_to_list_empty_iff in Hl. contradiction. }
  cbn [oldest_entry orb].
  pose proof (oldest_entry_least rest k1 (Expiration i1)) as (H1 & H2 & H3).
  destruct (oldest_entry rest k1 (Expiration i1) false) as [[k t] f].
  cbn [fst snd] in *.
  assert (Hfound : exists item, (k, item) ∈ (k1, i1) :: rest /\
                                t = Expiration item).
  { destruct H3 as [[-> ->]|(it & Hin & Heq)].
    - exists i1. split; [left|reflexivity].
    - exists it. split; [right; exact Hin|exact Heq]. }
  destruct Hfound as (item & Hin & Ht).
  rewrite <- Hl in Hin. apply elem_of_map_to_list in Hin.
  assert (Hmin : forall k' item', cache p !! k' = Some item' ->
                                  (Expiration item <= Expiration item')%Z).
  { intros k' item' Hk'. apply elem_of_map_to_list in Hk'.
    rewrite Hl in Hk'. rewrite <- Ht.
    apply elem_of_cons in Hk' as [Heq|Hk'].
    - inversion Heq; subst. exact H1.
    - apply (H2 (k', item')). exact Hk'. }
  exists k, item. split; [exact Hin|]. split.
  { destruct (String.eqb_spec k ""); [congruence|]. reflexivity. }
  split; [exact Hmin|].
  intros now k' item' Hk' Hexp. unfold IsExpired in *.
  apply Z.gtb_lt in Hexp. apply Z.gtb_lt.
  specialize (Hmin k' item' Hk'). lia.
Qed.

Lemma count_expired_bounds now (entries : list (string * CacheItem V)) :
  forall acc,
    (acc <= fold_left (fun expiredCount e =>
                         if IsExpired now (snd e) then (expiredCount + 1)%Z
                         else expiredCount) entries acc
         <= acc + Z.of_nat (length entries))%Z.
Proof.
  induction entries as [|e rest IH]; intros acc; simpl; [lia|].
  destruct (IsExpired now e.2).
  - specialize (IH (acc + 1)%Z). lia.
  - specialize (IH acc). lia.
Qed.

(** X11: as long as no entry is stored under the empty key, the
    statistics of a cache of capacity at least 1 are consistent after any
    run of [Apply] calls: [Size] is the number of entries, and
    [0 <= ExpiredItems <= Size <= Capacity]. *)
Theorem cache_stats_consistent cfg
    (calls : list (Z * list Z * Context V)) now :
  (1 <= trunc (Capacity cfg))%Z ->
  Forall (fun c => CtxKey c.2 <> "") calls ->
  let p := ApplyAll (newLocalCachePolicy cfg) calls in
  let stats := GetCacheStats p now in
  StatsSize stats = Z.of_nat (base.size (cache p)) /\
  StatsCapacity stats = trunc (Capacity cfg) /\
  (0 <= StatsExpiredItems stats <= StatsSize stats)%Z /\
  (StatsSize stats <= StatsCapacity stats)%Z.
Proof.
  intros Hcap Hkeys p stats.
  assert (H : forall q : localCachePolicy V,
             config q = cfg -> cache q !! "" = None -> within_capacity q ->
             within_capacity (ApplyAll q calls) /\
             config (ApplyAll q calls) = cfg).
  { clear p stats. induction Hkeys as [|[[t rnd] ctx] rest Hk _ IH];
      intros q Hc He Hw; simpl; [auto|].
    destruct (Apply_within_capacity q t rnd ctx) as (Hc' & He' & Hw');
      [rewrite Hc; exact Hcap|exact He|exact Hk|exact Hw|].
    apply IH; [congruence|exact He'|exact Hw']. }
  destruct (H (newLocalCachePolicy cfg)) as [[Hsz Hle] Hcfg].
  - reflexivity.
  - apply lookup_empty.
  - unfold within_capacity. simpl. rewrite map_size_empty. lia.
  - fold p in Hsz, Hle, Hcfg. unfold stats, GetCacheStats.
    cbn [StatsSize StatsCapacity StatsExpiredItems].
    rewrite Hcfg in *. split; [exact Hsz|]. split; [reflexivity|].
    split; [|exact Hle].
    pose proof (count_expired_bounds now (map_to_list (cache p)) 0%Z) as Hb.
    rewrite length_map_to_list in Hb. rewrite Hsz. lia.
Qed.

End LocalCacheMore.

Lemma evictLRU_removes_earliest_scenario :
  let p := LocalCache.ApplyAll (plain_policy 2)
             [ (0%Z, [], set_ctx "a" "v" None);
               (5%Z, [], set_ctx "b" "w" None) ] in
  exists k item,
    LocalCache.cache p !! k = Some item /\
    LocalCache.evictLRU p
    = LocalCache.mkLocalCachePolicy (LocalCache.config p)
        (delete k (LocalCache.cache p)) (LocalCache.size p - 1)%Z /\
    (forall k' item', LocalCache.cache p !! k' = Some item' ->
       (LocalCache.Expiration item <= LocalCache.Expiration item')%Z) /\
    (forall now k' item',
        LocalCache.cache p !! k' = Some item' ->
        LocalCache.IsExpired now item' = true ->
        LocalCache.IsExpired now item = true).
Proof.
  intros p. apply (evictLRU_removes_earliest p).
  - vm_compute. reflexivity.
  - intros H. apply (f_equal (fun m => m !! "a")) in H.
    vm_compute in H. discriminate H.
Defined.

Lemma cache_stats_consistent_scenario :
  let calls := [ (0%Z, [], set_ctx "a" "v" None);
                 (5%Z, [], set_ctx "b" "w" None);
                 (6%Z, [], set_ctx "c" "x" None) ] in
  let p := LocalCache.ApplyAll
             (LocalCache.newLocalCachePolicy
                (LocalCache.mkLocalCacheConfig 60 0 2 (8 # 10))) calls in
  let stats := LocalCache.GetCacheStats p 70000000000%Z in
  LocalCache.StatsSize stats = Z.of_nat (base.size (LocalCache.cache p)) /\
  LocalCache.StatsCapacity stats = 2%Z /\
  (0 <= LocalCache.StatsExpiredItems stats <= LocalCache.StatsSize stats)%Z /\
  (LocalCache.StatsSize stats <= LocalCache.StatsCapacity stats)%Z.
Proof.
  intros calls p stats.
  apply (cache_stats_consistent
           (LocalCache.mkLocalCacheConfig 60 0 2 (8 # 10)) calls).
  - vm_compute. discriminate.
  - repeat constructor; simpl; discriminate.
Defined.

(** ** Key splitting: the shard keys *)

Section ShardKeys.

Import KeySplitting.

Lemma chars_app (s1 s2 : string) :
  String.list_ascii_of_string (s1 +:+ s2)
  = String.list_ascii_of_string s1 ++ String.list_ascii_of_string s2.
Proof.
  induction s1 as [|c s1 IH]; simpl; [reflexivity|]. rewrite IH. reflexivity.
Qed.

Lemma chars_inj (s1 s2 : string) :
  String.list_ascii_of_string s1 = String.list_ascii_of_string s2 -> s1 = s2.
Proof.
  intros H. rewrite <- (String.string_of_list_ascii_of_string s1),
              <- (String.string_of_list_ascii_of_string s2), H. reflexivity.
Qed.

(** The decimal digits are not colons. *)
Lemma pretty_N_char_colon x : pretty_N_char x <> ":"%char.
Proof.
  unfold pretty_N_char.
  destruct x as [|p]; [discriminate|].
  do 4 (destruct p as [p|p|]; try discriminate).
Qed.

Lemma pretty_N_go_colon x :
  forall s,
    ~ In ":"%char (String.list_ascii_of_string s) ->
    ~ In ":"%char (String.list_ascii_of_string (pretty_N_go x s)).
Proof.
  induction (N.lt_wf_0 x) as [x _ IH]; intros s Hs.
  destruct (N.eq_dec x 0%N) as [->|Hx]; [exact Hs|].
  rewrite pretty_N_go_step by lia.
  apply IH.
  - apply N.div_lt; lia.
  - simpl. intros [Hc|Hc]; [|exact (Hs Hc)].
    exact (pretty_N_char_colon _ Hc).
Qed.

Lemma pretty_Z_colon (i : Z) :
  0 <= i -> ~ In ":"%char (String.list_ascii_of_string (pretty i)).
Proof.
  intros Hi. destruct i as [|p|p]; [| |lia].
  - simpl. intros [H|[]]. discriminate H.
  - unfold pretty, pretty_Z, pretty, pretty_positive, pretty, pretty_N.
    destruct (decide (N.pos p = 0%N)); [discriminate|].
    apply pretty_N_go_colon. simpl. tauto.
Qed.

(** Two lists that agree, each split at its first colon, agree on both
    sides of it. *)
Lemma split_at_colon (l1 l2 r1 r2 : list ascii) :
  l1 ++ ":"%char :: r1 = l2 ++ ":"%char :: r2 ->
  ~ In ":"%char l1 -> ~ In ":"%char l2 ->
  l1 = l2 /\ r1 = r2.
Proof.
  revert l2. induction l1 as [|c1 l1 IH]; intros [|c2 l2] H H1 H2; simpl in *.
  - inversion H. auto.
  - inversion H; subst. tauto.
  - inversion H; subst. tauto.
  - inversion H; subst. destruct (IH l2) as [-> ->]; [assumption|tauto|tauto|].
    auto.
Qed.

(** A shard key determines the key and the shard it was made from. *)
Lemma shardKey_inj key1 i1 key2 i2 :
  0 <= i1 -> 0 <= i2 ->
  shardKey key1 i1 = shardKey key2 i2 -> key1 = key2 /\ i1 = i2.
Proof.
  intros H1 H2 Heq. unfold shardKey in Heq.
  apply (f_equal String.list_ascii_of_string) in Heq.
  rewrite !chars_app in Heq.
  apply (f_equal (@rev ascii)) in Heq.
  rewrite !rev_app_distr in Heq. simpl in Heq.
  rewrite <- !app_assoc in Heq. simpl in Heq.
  apply split_at_colon in Heq as [Hd Hk].
  - split.
    + inversion Hk as [Hk']. apply (f_equal (@rev ascii)) in Hk'.
      rewrite !rev_involutive in Hk'. apply chars_inj. exact Hk'.
    + apply (f_equal (@rev ascii)) in Hd. rewrite !rev_involutive in Hd.
      apply chars_inj in Hd. apply (inj pretty). exact Hd.
  - rewrite <- in_rev. apply pretty_Z_colon. exact H1.
  - rewrite <- in_rev. apply pretty_Z_colon. exact H2.
Qed.

(** The loop of [generateShardKeys] writes the shard key of [j] at every
    position [j] it visits. *)
Lemma fill_shards_lookup key n :
  forall (i : nat) l (j : nat),
    (i + n <= length l)%nat ->
    fill_shards key n (Z.of_nat i) l !! j
    = if decide (i <= j < i + n)%nat
      then Some (shardKey key (Z.of_nat j)) else l !! j.
Proof.
  induction n as [|n IH]; intros i l j Hlen; simpl.
  - destruct (decide (i <= j < i + 0)%nat); [lia|reflexivity].
  - replace (Z.of_nat i + 1) with (Z.of_nat (S i)) by lia.
    rewrite IH by (rewrite length_insert; lia). rewrite Nat2Z.id.
    destruct (decide (S i <= j < S i + n)%nat) as [Hin|Hout].
    + destruct (decide (i <= j < i + S n)%nat); [reflexivity|lia].
    + destruct (decide (j = i)) as [->|Hne].
      * rewrite list_lookup_insert_eq by lia.
        destruct (decide (i <= i < i + S n)%nat); [reflexivity|lia].
      * rewrite list_lookup_insert_ne by congruence.
        destruct (decide (i <= j < i + S n)%nat); [lia|reflexivity].
Qed.

Lemma fill_shards_length key n :
  forall i l, length (fill_shards key n i l) = length l.
Proof.
  induction n as [|n IH]; intros i l; simpl; [reflexivity|].
  rewrite IH, length_insert. reflexivity.
Qed.

Lemma generateShardKeys_spec (p : keySplittingPolicy) key :
  0 <= Manager.Shards (config p) ->
  exists keys,
    generateShardKeys p key = Done keys /\
    Z.of_nat (length keys) = Manager.Shards (config p) /\
    forall j : nat,
      keys !! j = if decide (Z.of_nat j < Manager.Shards (config p))
                  then Some (shardKey key (Z.of_nat j)) else None.
Proof.
  intros Hs. unfold generateShardKeys.
  destruct (Z.ltb_spec (Manager.Shards (config p)) 0); [lia|].
  eexists. split; [reflexivity|]. split.
  - rewrite fill_shards_length, length_replicate. lia.
  - intros j.
    rewrite (fill_shards_lookup key _ 0%nat) by (rewrite length_replicate; lia).
    destruct (decide (0 <= j < 0 + Z.to_nat (Manager.Shards (config p)))%nat).
    + destruct (decide (Z.of_nat j < Manager.Shards (config p)));
        [reflexivity|lia].
    + destruct (decide (Z.of_nat j < Manager.Shards (config p))); [lia|].
      apply lookup_replicate_None. lia.
Qed.

(** X12: for a non-negative shard count [generateShardKeys] returns
    exactly that many keys, pairwise distinct, the [i]-th being
    [key:shard:i]; a negative shard count panics. *)
Theorem shard_keys_distinct (p : keySplittingPolicy) key :
  (Manager.Shards (config p) < 0 -> generateShardKeys p key = Panic) /\
  (0 <= Manager.Shards (config p) ->
   exists keys,
     generateShardKeys p key = Done keys /\
     Z.of_nat (length keys) = Manager.Shards (config p) /\
     NoDup keys /\
     forall i, 0 <= i < Manager.Shards (config p) ->
       keys !! Z.to_nat i = Some (key +:+ ":shard:" +:+ pretty i)).
Proof.
  split.
  - intros Hneg. unfold generateShardKeys.
    destruct (Z.ltb_spec (Manager.Shards (config p)) 0); [reflexivity|lia].
  - intros Hs.
    destruct (generateShardKeys_spec p key Hs) as (keys & Hgen & Hlen & Hlook).
    exists keys. split; [exact Hgen|]. split; [exact Hlen|]. split.
    + apply NoDup_alt. intros a b x Ha Hb.
      rewrite Hlook in Ha, Hb.
      destruct (decide (Z.of_nat a < _)); [|discriminate].
      destruct (decide (Z.of_nat b < _)); [|discriminate].
      inversion Ha as [Ha']. inversion Hb as [Hb']. rewrite <- Hb' in Ha'.
      apply shardKey_inj in Ha' as [_ Hab]; lia.
    + intros i Hi. rewrite Hlook, Z2Nat.id by lia.
      destruct (decide (i < _)); [reflexivity|lia].
Qed.

(** X13: shard keys never collide across keys: a shard key produced for
    one key is never produced for another key, whatever the shard counts
    of the two policies. *)
Theorem shard_keys_disjoint (p1 p2 : keySplittingPolicy) key1 key2
    keys1 keys2 :
  generateShardKeys p1 key1 = Done keys1 ->
  generateShardKeys p2 key2 = Done keys2 ->
  key1 <> key2 ->
  forall sk, sk ∈ keys1 -> sk ∉ keys2.
Proof.
  intros H1 H2 Hne sk Hin1 Hin2. apply Hne.
  assert (Hs1 : 0 <= Manager.Shards (config p1)).
  { unfold generateShardKeys in H1.
    destruct (Z.ltb_spec (Manager.Shards (config p1)) 0); [discriminate|lia]. }
  assert (Hs2 : 0 <= Manager.Shards (config p2)).
  { unfold generateShardKeys in H2.
    destruct (Z.ltb_spec (Manager.Shards (config p2)) 0); [discriminate|lia]. }
  destruct (generateShardKeys_spec p1 key1 Hs1) as (k1 & Hg1 & _ & Hl1).
  destruct (generateShardKeys_spec p2 key2 Hs2) as (k2 & Hg2 & _ & Hl2).
  rewrite H1 in Hg1. inversion Hg1; subst k1.
  rewrite H2 in Hg2. inversion Hg2; subst k2.
  apply list_elem_of_lookup in Hin1 as [a Ha].
  apply list_elem_of_lookup in Hin2 as [b Hb].
  rewrite Hl1 in Ha. rewrite Hl2 in Hb.
  destruct (decide (Z.of_nat a < _)); [|discriminate].
  destruct (decide (Z.of_nat b < _)); [|discriminate].
  inversion Ha as [Ha']. inversion Hb as [Hb']. rewrite <- Hb' in Ha'.
  apply shardKey_inj in Ha' as [Hk _]; [exact Hk|lia|lia].
Qed.

Context {V : Type}.

(** X14: with a positive shard count a get is answered by the full list
    of shard keys together with one of them, the one numbered
    [rnd mod shards]; a set is answered by the same list together with
    the value and the TTL override of the request.  With a shard count of
    0 a get panics, while a set is answered with an empty list. *)
Theorem key_splitting_actions (p : keySplittingPolicy) rnd key
    (value : V) ttl :
  (0 < Manager.Shards (config p) -> 0 <= rnd ->
   exists keys,
     generateShardKeys p key = Done keys /\
     Apply (V:=V) p rnd (LocalCache.mkContext key LocalCache.GetRequest)
     = Done (mkResult
               (Some (GetAction
                        (mkGetAction key
                           (shardKey key (rnd mod Manager.Shards (config p)))
                           keys)))
               None) /\
     shardKey key (rnd mod Manager.Shards (config p)) ∈ keys /\
     Apply p rnd (LocalCache.mkContext key (LocalCache.SetRequest value ttl))
     = Done (mkResult
               (Some (SetAction (mkSetAction key keys value ttl EmptyString)))
               None)) /\
  (Manager.Shards (config p) = 0 ->
   Apply (V:=V) p rnd (LocalCache.mkContext key LocalCache.GetRequest) = Panic /\
   Apply p rnd (LocalCache.mkContext key (LocalCache.SetRequest value ttl))
   = Done (mkResult
             (Some (SetAction (mkSetAction key [] value ttl EmptyString)))
             None)).
Proof.
  split.
  - intros Hs Hr.
    destruct (generateShardKeys_spec p key ltac:(lia)) as (keys & Hgen & Hlen & Hl).
    exists keys. split; [exact Hgen|].
    assert (Hm : 0 <= rnd mod Manager.Shards (config p)
                 < Manager.Shards (config p)) by (apply Z.mod_pos_bound; lia).
    assert (Hk : keys !! Z.to_nat (rnd mod Manager.Shards (config p))
                 = Some (shardKey key (rnd mod Manager.Shards (config p)))).
    { rewrite Hl, Z2Nat.id by lia. destruct (decide (_ < _)); [reflexivity|lia]. }
    split.
    + unfold Apply, handleLookAsideGet. cbn [LocalCache.CtxData LocalCache.CtxKey].
      rewrite Hgen. cbn [obind].
      destruct (Z.eqb_spec (Manager.Shards (config p)) 0); [lia|].
      rewrite Z.rem_mod_nonneg by lia.
      assert (Hi : index keys (rnd mod Manager.Shards (config p))
                   = Done (shardKey key (rnd mod Manager.Shards (config p)))).
      { apply index_Done. split; [lia|exact Hk]. }
      rewrite Hi. reflexivity.
    + split; [apply list_elem_of_lookup; eauto|].
      unfold Apply, handleLookAsideSet.
      cbn [LocalCache.CtxData LocalCache.CtxKey]. rewrite Hgen. reflexivity.
  - intros Hz. unfold Apply, handleLookAsideGet, handleLookAsideSet.
    cbn [LocalCache.CtxData LocalCache.CtxKey].
    unfold generateShardKeys. rewrite Hz. simpl. split; reflexivity.
Qed.

End ShardKeys.

Lemma shard_keys_distinct_scenario :
  let p := KeySplitting.mkKeySplittingPolicy (Manager.mkKeySplittingConfig 3) in
  exists keys,
    KeySplitting.generateShardKeys p "user:1" = Done keys /\
    Z.of_nat (length keys) = 3 /\
    NoDup keys /\
    forall i, 0 <= i < 3 ->
      keys !! Z.to_nat i = Some ("user:1" +:+ ":shard:" +:+ pretty i).
Proof.
  intros p.
  apply (proj2 (shard_keys_distinct p "user:1")). simpl. lia.
Defined.

Lemma shard_keys_disjoint_scenario :
  let p1 := KeySplitting.mkKeySplittingPolicy (Manager.mkKeySplittingConfig 3) in
  let p2 := KeySplitting.mkKeySplittingPolicy (Manager.mkKeySplittingConfig 12) in
  exists keys1 keys2,
    KeySplitting.generateShardKeys p1 "user:1" = Done keys1 /\
    KeySplitting.generateShardKeys p2 "user:1:shard:1" = Done keys2 /\
    "user:1:shard:1" ∈ keys1 /\
    ("user:1:shard:1" ∉ keys2).
Proof.
  intros p1 p2.
  exists ["user:1:shard:0"; "user:1:shard:1"; "user:1:shard:2"].
  eexists.
  assert (H1 : KeySplitting.generateShardKeys p1 "user:1"
               = Done ["user:1:shard:0"; "user:1:shard:1"; "user:1:shard:2"])
    by (vm_compute; reflexivity).
  assert (H2 : "user:1:shard:1"
               ∈ ["user:1:shard:0"; "user:1:shard:1"; "user:1:shard:2"])
    by (right; left).
  split; [exact H1|]. split; [vm_compute; reflexivity|].
  split; [exact H2|].
  refine (shard_keys_disjoint p1 p2 "user:1" "user:1:shard:1" _ _ H1 _ _
            "user:1:shard:1" H2).
  - vm_compute. reflexivity.
  - discriminate.
Defined.

Lemma key_splitting_actions_scenario :
  let p := KeySplitting.mkKeySplittingPolicy (Manager.mkKeySplittingConfig 3) in
  let p0 := KeySplitting.mkKeySplittingPolicy (Manager.mkKeySplittingConfig 0) in
  (exists keys,
     KeySplitting.generateShardKeys p "k" = Done keys /\
     KeySplitting.Apply (V:=string) p 7
       (LocalCache.mkContext "k" LocalCache.GetRequest)
     = Done (KeySplitting.mkResult
               (Some (KeySplitting.GetAction
                        (KeySplitting.mkGetAction "k"
                           (KeySplitting.shardKey "k" (7 mod 3)) keys)))
               None) /\
     KeySplitting.shardKey "k" (7 mod 3) ∈ keys /\
     KeySplitting.Apply p 7
       (LocalCache.mkContext "k" (LocalCache.SetRequest "v" (Some 10%Q)))
     = Done (KeySplitting.mkResult
               (Some (KeySplitting.SetAction
                        (KeySplitting.mkSetAction "k" keys "v" (Some 10%Q)
                                                  EmptyString)))
               None)) /\
  (KeySplitting.Apply (V:=string) p0 7
     (LocalCache.mkContext "k" LocalCache.GetRequest) = Panic /\
   KeySplitting.Apply p0 7
     (LocalCache.mkContext "k" (LocalCache.SetRequest "v" (Some 10%Q)))
   = Done (KeySplitting.mkResult
             (Some (KeySplitting.SetAction
                      (KeySplitting.mkSetAction "k" [] "v" (Some 10%Q)
                                                EmptyString)))
             None)).
Proof.
  intros p p0. split.
  - apply (proj1 (key_splitting_actions p 7 "k" "v" (Some 10%Q)));
      simpl; lia.
  - apply (proj2 (key_splitting_actions p0 7 "k" "v" (Some 10%Q))).
    reflexivity.
Defined.
(** ** The policy manager: which keys get the policy *)

Section ManagerMore.

Import Manager.

Context {V Regexp : Type}.
Variable Compile : string -> option Regexp.
Variable MatchString : Regexp -> string -> bool.

(** [GetPolicy] answers with the manager's policy or with nothing; it
    answers with the policy exactly for the keys that are whitelisted or
    matched by a registered pattern. *)
Lemma GetPolicy_spec (m : manager V Regexp) key :
  (GetPolicy MatchString m key = Some (policy m) \/
   GetPolicy MatchString m key = None) /\
  (GetPolicy MatchString m key = Some (policy m) <->
   whitelistKeys m !! key = Some true \/
   exists p r, patternRegexps m !! p = Some r /\ MatchString r key = true).
Proof.
  unfold GetPolicy.
  destruct (whitelistKeys m !! key) as [[|]|] eqn:Hw; simpl.
  - split; [left; reflexivity|]. split; [intros _; left; reflexivity|auto].
  - destruct (existsb _ _) eqn:He.
    + split; [left; reflexivity|]. split; [|auto]. intros _. right.
      apply existsb_exists in He as ([p r] & Hin & Hm).
      exists p, r. split; [|exact Hm].
      apply elem_of_map_to_list. apply list_elem_of_In. exact Hin.
    + split; [right; reflexivity|]. split; [discriminate|].
      intros [H|(p & r & Hp & Hm)]; [discriminate|].
      assert (Ht : existsb (fun e => MatchString e.2 key)
                           (map_to_list (patternRegexps m)) = true).
      { apply existsb_exists. exists (p, r). split; [|exact Hm].
        apply list_elem_of_In. apply elem_of_map_to_list. exact Hp. }
      rewrite He in Ht. discriminate.
  - destruct (existsb _ _) eqn:He.
    + split; [left; reflexivity|]. split; [|auto]. intros _. right.
      apply existsb_exists in He as ([p r] & Hin & Hm).
      exists p, r. split; [|exact Hm].
      apply elem_of_map_to_list. apply list_elem_of_In. exact Hin.
    + split; [right; reflexivity|]. split; [discriminate|].
      intros [H|(p & r & Hp & Hm)]; [discriminate|].
      assert (Ht : existsb (fun e => MatchString e.2 key)
                           (map_to_list (patternRegexps m)) = true).
      { apply existsb_exists. exists (p, r). split; [|exact Hm].
        apply list_elem_of_In. apply elem_of_map_to_list. exact Hp. }
      rewrite He in Ht. discriminate.
Qed.

(** The whitelist that [New] builds from the configured keys. *)
Lemma whitelist_fold keys :
  forall (wl : gmap string bool) key,
    fold_left (fun wl key => <[key := true]> wl) keys wl !! key
    = if in_dec String.string_dec key keys then Some true else wl !! key.
Proof.
  induction keys as [|k rest IH]; intros wl key; simpl; [reflexivity|].
  rewrite IH.
  destruct (in_dec String.string_dec key rest) as [Hin|Hout].
  - destruct (String.string_dec k key); reflexivity.
  - destruct (String.string_dec k key) as [->|Hne].
    + apply lookup_insert_eq.
    + apply lookup_insert_ne. exact Hne.
Qed.

(** A successful registration loop: every pattern compiled, and the
    compiled patterns were added under their strings. *)
Lemma register_all_inr patterns :
  forall (m m' : manager V Regexp),
    register_all Compile m patterns = inr m' ->
    policy m' = policy m /\ whitelistKeys m' = whitelistKeys m /\
    (forall p, In p patterns -> Compile p <> None) /\
    forall p, patternRegexps m' !! p
              = if in_dec String.string_dec p patterns then Compile p
                else patternRegexps m !! p.
Proof.
  induction patterns as [|x rest IH]; intros m m' Hreg; simpl in Hreg.
  - inversion Hreg; subst. repeat split; auto.
  - unfold RegisterPattern in Hreg.
    destruct (Compile x) as [r|] eqn:Hx; [|discriminate].
    destruct (IH _ _ Hreg) as (Hp & Hw & Hall & Hlook). simpl in *.
    split; [exact Hp|]. split; [exact Hw|]. split.
    + intros p [<-|Hin]; [congruence|apply Hall; exact Hin].
    + intros p. rewrite Hlook.
      destruct (in_dec String.string_dec p rest) as [Hin|Hout].
      * destruct (String.string_dec x p); reflexivity.
      * destruct (String.string_dec x p) as [->|Hne].
        -- rewrite lookup_insert_eq. congruence.
        -- apply lookup_insert_ne. exact Hne.
Qed.

(** X15: a manager built by [New] hands out its policy exactly for the
    keys of [WhitelistKeys] and for the keys matched by one of the
    [WhitelistPatterns]; for every other key [GetPolicy] returns nil. *)
Theorem new_manager_selects cfg (m : manager V Regexp) key :
  New Compile cfg = inr m ->
  (GetPolicy MatchString m key = Some (policy m) \/
   GetPolicy MatchString m key = None) /\
  (GetPolicy MatchString m key = Some (policy m) <->
   In key (WhitelistKeys cfg) \/
   exists p r, In p (WhitelistPatterns cfg) /\ Compile p = Some r /\
               MatchString r key = true).
Proof.
  intros Hnew.
  destruct (GetPolicy_spec m key) as [Hsome Hiff].
  split; [exact Hsome|]. rewrite Hiff. clear Hsome Hiff.
  assert (Hm : exists p0 : Policy V,
             register_all Compile
               (mkManager p0 ∅
                  (fold_left (fun wl key => <[key := true]> wl)
                             (WhitelistKeys cfg) ∅))
               (WhitelistPatterns cfg) = inr m).
  { unfold New in Hnew.
    destruct (String.eqb (Type_ cfg) LocalCache).
    - destruct (Params cfg); try discriminate. eexists. exact Hnew.
    - destruct (String.eqb (Type_ cfg) KeySplitting); [|discriminate].
      destruct (Params cfg); try discriminate. eexists. exact Hnew. }
  destruct Hm as (p0 & Hreg).
  destruct (register_all_inr _ _ _ Hreg) as (_ & Hw & _ & Hlook).
  simpl in Hw, Hlook.
  split.
  - intros [Hkey|(p & r & Hp & Hmatch)].
    + left. rewrite Hw, whitelist_fold in Hkey.
      destruct (in_dec String.string_dec key (WhitelistKeys cfg));
        [assumption|].
      rewrite lookup_empty in Hkey. discriminate.
    + right. exists p, r. rewrite Hlook in Hp.
      destruct (in_dec String.string_dec p (WhitelistPatterns cfg)).
      * auto.
      * rewrite lookup_empty in Hp. discriminate.
  - intros [Hkey|(p & r & Hin & Hc & Hmatch)].
    + left. rewrite Hw, whitelist_fold.
      destruct (in_dec String.string_dec key (WhitelistKeys cfg));
        [reflexivity|contradiction].
    + right. exists p, r. split; [|exact Hmatch]. rewrite Hlook.
      destruct (in_dec String.string_dec p (WhitelistPatterns cfg));
        [exact Hc|contradiction].
Qed.

(** X16: at run time, a key added to the whitelist gets the policy; a
    key removed from it gets the policy only if a registered pattern
    matches it; neither call changes the answer for any other key; and a
    pattern that compiles extends the answers to the keys it matches. *)
Theorem manager_updates (m : manager V Regexp) key :
  GetPolicy MatchString (AddWhitelistKey m key) key = Some (policy m) /\
  (GetPolicy MatchString (RemoveWhitelistKey m key) key = Some (policy m) <->
   exists p r, patternRegexps m !! p = Some r /\ MatchString r key = true) /\
  (forall k, k <> key ->
     GetPolicy MatchString (AddWhitelistKey m key) k
     = GetPolicy MatchString m k /\
     GetPolicy MatchString (RemoveWhitelistKey m key) k
     = GetPolicy MatchString m k) /\
  (forall pattern r,
     Compile pattern = Some r ->
     exists m',
       RegisterPattern Compile m pattern = inr m' /\
       policy m' = policy m /\
       forall k, MatchString r k = true ->
                 GetPolicy MatchString m' k = Some (policy m)).
Proof.
  split; [|split; [|split]].
  - unfold GetPolicy, AddWhitelistKey. simpl.
    rewrite lookup_insert_eq. reflexivity.
  - destruct (GetPolicy_spec (RemoveWhitelistKey m key) key) as [_ Hiff].
    change (policy (RemoveWhitelistKey m key)) with (policy m) in Hiff.
    rewrite Hiff. unfold RemoveWhitelistKey. simpl.
    rewrite lookup_delete_eq. split.
    + intros [H|H]; [discriminate|exact H].
    + intros H. right. exact H.
  - intros k Hne. unfold GetPolicy, AddWhitelistKey, RemoveWhitelistKey.
    simpl. rewrite lookup_insert_ne, lookup_delete_ne by congruence.
    split; reflexivity.
  - intros pattern r Hc. unfold RegisterPattern. rewrite Hc.
    eexists. split; [reflexivity|]. split; [reflexivity|].
    intros k Hk.
    apply (GetPolicy_spec
             (mkManager (policy m) (<[pattern := r]> (patternRegexps m))
                        (whitelistKeys m)) k).
    right. exists pattern, r. simpl. rewrite lookup_insert_eq. auto.
Qed.

End ManagerMore.

Lemma new_manager_selects_scenario :
  let cfg := Manager.mkConfig Manager.LocalCache
               (Manager.ParamLocalCache
                  (LocalCache.mkLocalCacheConfig 60 0 100 (8 # 10)))
               ["hot"] ["user:"] in
  exists m : Manager.manager string string,
    Manager.New bracket_Compile cfg = inr m /\
    (Manager.GetPolicy String.prefix m "user:42" = Some (Manager.policy m) \/
     Manager.GetPolicy String.prefix m "user:42" = None) /\
    (Manager.GetPolicy String.prefix m "user:42" = Some (Manager.policy m) <->
     In "user:42" (Manager.WhitelistKeys cfg) \/
     exists p r, In p (Manager.WhitelistPatterns cfg) /\
                 bracket_Compile p = Some r /\
                 String.prefix r "user:42" = true).
Proof.
  intros cfg.
  destruct (Manager.New (V:=string) bracket_Compile cfg) as [e|m] eqn:Hnew;
    [vm_compute in Hnew; discriminate Hnew|].
  exists m. split; [reflexivity|].
  apply (new_manager_selects bracket_Compile String.prefix cfg m "user:42").
  exact Hnew.
Defined.
(** ** The snapshot history: bound, metadata and time series *)

Section HistoryMore.

Import History.

(** The effect of one [Add] on the list of snapshots. *)
Lemma add_snapshots h now keys :
  exists snap,
    Timestamp snap = now /\ Keys snap = keys /\
    snapshots (Add h now keys)
    = if (Z.of_nat (length (snapshots h ++ [snap])) >? maxSize h)%Z
      then drop 1 (snapshots h ++ [snap]) else snapshots h ++ [snap].
Proof.
  unfold Add.
  destruct (update_meta now keys ∅ (keyMeta h)) as [cm km].
  exists (mkSnapshot now keys cm). simpl. auto.
Qed.

Lemma keep_last_app {A : Type} (m : nat) (l r : list A) :
  drop (length (drop (length l - m) l ++ r) - m) (drop (length l - m) l ++ r)
  = drop (length (l ++ r) - m) (l ++ r).
Proof.
  destruct (Nat.le_gt_cases (length l) m) as [Hle|Hgt].
  - replace (length l - m)%nat with 0%nat by lia. rewrite drop_0. reflexivity.
  - rewrite !length_app, length_drop.
    replace (length l - (length l - m) + length r - m)%nat
      with (length r) by lia.
    replace (length l + length r - m)%nat
      with ((length l - m) + length r)%nat by lia.
    rewrite <- drop_drop. f_equal.
    rewrite drop_app_le by lia. reflexivity.
Qed.

Lemma addall_snapshots calls :
  forall h,
    (0 < maxSize h)%Z ->
    (length (snapshots h) <= Z.to_nat (maxSize h))%nat ->
    stamp <$> snapshots (AddAll h calls)
    = drop (length ((stamp <$> snapshots h) ++ calls)
            - Z.to_nat (maxSize h))
           ((stamp <$> snapshots h) ++ calls).
Proof.
  induction calls as [|[now keys] rest IH]; intros h Hpos Hlen.
  - simpl. rewrite app_nil_r, length_fmap.
    replace (length (snapshots h) - Z.to_nat (maxSize h))%nat with 0%nat by lia.
    rewrite drop_0. reflexivity.
  - simpl.
    destruct (add_snapshots h now keys) as (snap & Ht & Hk & Hs).
    assert (Hstep : stamp <$> snapshots (Add h now keys)
                    = drop (length ((stamp <$> snapshots h) ++ [(now, keys)])
                            - Z.to_nat (maxSize h))
                           ((stamp <$> snapshots h) ++ [(now, keys)])).
    { assert (Hsn : stamp <$> (snapshots h ++ [snap])
                    = (stamp <$> snapshots h) ++ [(now, keys)]).
      { rewrite fmap_app. simpl. unfold stamp at 2. rewrite Ht, Hk.
        reflexivity. }
      assert (Hl1 : length (snapshots h ++ [snap])
                    = S (length (snapshots h)))
        by (rewrite length_app; simpl; lia).
      assert (Hl2 : length ((stamp <$> snapshots h) ++ [(now, keys)])
                    = S (length (snapshots h)))
        by (rewrite length_app, length_fmap; simpl; lia).
      rewrite Hs, Hl1, Hl2.
      destruct (Z.gtb_spec (Z.of_nat (S (length (snapshots h))))
                           (maxSize h)) as [Hgt|Hle].
      - replace (S (length (snapshots h)) - Z.to_nat (maxSize h))%nat
          with 1%nat by lia.
        rewrite fmap_drop, Hsn. reflexivity.
      - replace (S (length (snapshots h)) - Z.to_nat (maxSize h))%nat
          with 0%nat by lia.
        rewrite drop_0. exact Hsn. }
    assert (Hlen1 : (length (snapshots (Add h now keys))
                     <= Z.to_nat (maxSize h))%nat).
    { rewrite <- (length_fmap stamp), Hstep, length_drop, length_app, length_fmap.
      simpl. lia. }
    rewrite (IH (Add h now keys)); rewrite ?add_maxSize; try assumption.
    rewrite Hstep.
    rewrite (keep_last_app (Z.to_nat (maxSize h))
               ((stamp <$> snapshots h) ++ [(now, keys)]) rest).
    rewrite <- app_assoc. reflexivity.
Qed.

(** X17: the history keeps the latest snapshots only: after any run of
    [Add] calls it holds the clock readings and key lists of the last
    [maxSize] calls, in order, where [maxSize] is the size asked for, or
    30 when that is not positive. *)
Theorem history_keeps_latest n calls :
  let h := AddAll (newHotKeyHistory n) calls in
  let m := Z.to_nat (maxSize h) in
  maxSize h = (if (n <=? 0)%Z then 30%Z else n) /\
  stamp <$> snapshots h = drop (length calls - m) calls /\
  length (snapshots h) = Nat.min (length calls) m.
Proof.
  intros h m.
  assert (Hm : maxSize h = maxSize (newHotKeyHistory n))
    by apply addall_maxSize.
  pose proof (new_maxSize n) as Hpos.
  assert (Hsnap : stamp <$> snapshots h = drop (length calls - m) calls).
  { unfold m, h. rewrite addall_maxSize.
    rewrite (addall_snapshots calls (newHotKeyHistory n) Hpos);
      [reflexivity|simpl; lia]. }
  split; [rewrite Hm; reflexivity|]. split; [exact Hsnap|].
  rewrite <- (length_fmap stamp), Hsnap, length_drop.
  lia.
Qed.

(** The metadata of a key after a run of [Add] calls, starting from any
    history. *)
Lemma addall_keyMeta calls :
  forall h k,
    keyMeta (AddAll h calls) !! k
    = match last_seen calls k with
      | Some (l, c) =>
          Some (mkKeyMetadata
                  (match keyMeta h !! k with
                   | Some meta => FirstSeen meta
                   | None => default 0%Z (first_seen calls k)
                   end) l c)
      | None => keyMeta h !! k
      end.
Proof.
  induction calls as [|[now keys] rest IH]; intros h k; simpl; [reflexivity|].
  rewrite IH, add_keyMeta.
  destruct (last_seen rest k) as [[l c]|].
  - destruct (last_count keys k) as [c0|]; [|reflexivity].
    destruct (keyMeta h !! k); reflexivity.
  - destruct (last_count keys k) as [c0|]; [|reflexivity].
    destruct (keyMeta h !! k); reflexivity.
Qed.

(** X18: the key metadata is never dropped: after any run of [Add]
    calls the history has metadata for exactly the keys that some call
    listed, however long ago, and for such a key [FirstSeen] is the clock
    reading of the first call that listed it, [LastSeen] that of the last
    one, and [PrevCount] the count it had in that last call. *)
Theorem history_metadata n calls k :
  keyMeta (AddAll (newHotKeyHistory n) calls) !! k
  = match first_seen calls k, last_seen calls k with
    | Some f, Some (l, c) => Some (mkKeyMetadata f l c)
    | _, _ => None
    end.
Proof.
  rewrite addall_keyMeta. simpl. rewrite lookup_empty.
  assert (H : last_seen calls k <> None -> first_seen calls k <> None).
  { induction calls as [|[now keys] rest IH]; simpl; [auto|].
    destruct (last_count keys k); [discriminate|].
    destruct (last_seen rest k); [|auto]. intros _. apply IH. discriminate. }
  destruct (last_seen calls k) as [[l c]|].
  - destruct (first_seen calls k); [reflexivity|].
    exfalso. apply H; [discriminate|reflexivity].
  - destruct (first_seen calls k); reflexivity.
Qed.

(** The loop of [GetTimeSeries] over the requested keys. *)
Lemma series_keys_spec later interval snapshot keys :
  forall kd0 rd0 pc0,
    (later = true -> forall key, In key keys -> is_Some (pc0 !! key)) ->
    exists kd rd pc,
      fold_left (series_key later interval snapshot) keys (kd0, rd0, pc0)
      = (kd, rd, pc) /\
      (forall key,
         kd !! key = if in_dec String.string_dec key keys
                     then Some (find_count (Keys snapshot) key)
                     else kd0 !! key) /\
      (forall key,
         pc !! key = if in_dec String.string_dec key keys
                     then Some (find_count (Keys snapshot) key)
                     else pc0 !! key) /\
      (forall key, ~ In key keys -> rd !! key = rd0 !! key) /\
      (forall key, In key keys ->
         exists r, rd !! key = Some r /\ (0 <= r)%Q /\
                   (later && negb (Qle_bool interval 0) = false -> r = 0%Q)).
Proof.
  induction keys as [|k rest IH]; intros kd0 rd0 pc0 Hpc.
  - exists kd0, rd0, pc0. simpl. repeat split; auto. intros key [].
  - cbn [fold_left series_key].
    set (cc := find_count (Keys snapshot) k).
    set (rate := if later && negb (Qle_bool interval 0)
                 then match pc0 !! k with
                      | Some prevCount =>
                          (inject_Z
                             (if (int64 (int64 cc - int64 prevCount) <? 0)%Z
                              then 0%Z
                              else int64 (int64 cc - int64 prevCount))
                           / interval)%Q
                      | None => (inject_Z cc / interval)%Q
                      end
                 else 0%Q).
    assert (Hrate : (0 <= rate)%Q /\
                    (later && negb (Qle_bool interval 0) = false ->
                     rate = 0%Q)).
    { unfold rate. destruct (later && negb (Qle_bool interval 0)) eqn:Hc.
      - split; [|discriminate].
        apply andb_true_iff in Hc as [Hl Hi].
        destruct (Hpc Hl k (or_introl eq_refl)) as [prev Hprev].
        rewrite Hprev.
        assert (Hpos : (0 < interval)%Q).
        { apply Qnot_le_lt. intros Hle. apply Qle_bool_iff in Hle.
          rewrite Hle in Hi. discriminate. }
        apply Qle_shift_div_l; [exact Hpos|].
        rewrite Qmult_0_l.
        change 0%Q with (inject_Z 0). rewrite <- Zle_Qle.
        destruct (Z.ltb_spec (int64 (int64 cc - int64 prev)) 0); lia.
      - split; [apply Qle_refl|reflexivity]. }
    destruct (IH (<[k := cc]> kd0) (<[k := rate]> rd0) (<[k := cc]> pc0))
      as (kd & rd & pc & Hfold & Hkd & Hpcs & Hrd0 & Hrd).
    { intros Hl key Hin. destruct (decide (key = k)) as [->|Hne].
      - rewrite lookup_insert_eq. eauto.
      - rewrite lookup_insert_ne by congruence. apply Hpc; [exact Hl|].
        right. exact Hin. }
    exists kd, rd, pc. split; [exact Hfold|].
    split; [|split; [|split]].
    + intros key. rewrite Hkd.
      destruct (in_dec String.string_dec key rest) as [Hin|Hout].
      * destruct (in_dec String.string_dec key (k :: rest)) as [|Hn];
          [reflexivity|]. exfalso. apply Hn. right. exact Hin.
      * destruct (in_dec String.string_dec key (k :: rest)) as [[->|Hin]|Hn].
        -- apply lookup_insert_eq.
        -- contradiction.
        -- apply lookup_insert_ne. intros ->. apply Hn. left. reflexivity.
    + intros key. rewrite Hpcs.
      destruct (in_dec String.string_dec key rest) as [Hin|Hout].
      * destruct (in_dec String.string_dec key (k :: rest)) as [|Hn];
          [reflexivity|]. exfalso. apply Hn. right. exact Hin.
      * destruct (in_dec String.string_dec key (k :: rest)) as [[->|Hin]|Hn].
        -- apply lookup_insert_eq.
        -- contradiction.
        -- apply lookup_insert_ne. intros ->. apply Hn. left. reflexivity.
    + intros key Hn. rewrite Hrd0 by (intros Hin; apply Hn; right; exact Hin).
      apply lookup_insert_ne. intros ->. apply Hn. left. reflexivity.
    + intros key Hin.
      destruct (in_dec String.string_dec key rest) as [Hr|Hr];
        [apply Hrd; exact Hr|].
      destruct Hin as [->|Hin]; [|contradiction].
      rewrite Hrd0 by exact Hr. rewrite lookup_insert_eq.
      exists rate. split; [reflexivity|exact Hrate].
Qed.

(** The loop of [GetTimeSeries] over the snapshots. *)
Lemma series_loop_spec keys snaps :
  forall later pc pt res,
    (later = true -> forall key, In key keys -> is_Some (pc !! key)) ->
    exists pts,
      series_loop snaps keys later pc pt res = res ++ pts /\
      Forall2 (series_point keys) snaps pts /\
      (later = false ->
       forall p, head pts = Some p ->
         TimeSeriesData.Interval p = 0%Q /\
         forall key r, TimeSeriesData.Rates p !! key = Some r -> r = 0%Q).
Proof.
  induction snaps as [|s rest IH]; intros later pc pt res Hpc.
  - exists []. simpl. rewrite app_nil_r. split; [reflexivity|].
    split; [constructor|]. intros _ p H. discriminate H.
  - simpl.
    set (interval := if later
                     then (inject_Z (Timestamp s - pt)
                           / inject_Z 1000000000)%Q
                     else 0%Q).
    destruct (series_keys_spec later interval s keys ∅ ∅ pc Hpc)
      as (kd & rd & pc' & Hfold & Hkd & Hpcs & Hrd0 & Hrd).
    rewrite Hfold.
    set (point := TimeSeriesData.mk (Timestamp s) kd rd interval).
    destruct (IH true pc' (Timestamp s) (res ++ [point])) as (pts & Hloop & Hall & _).
    { intros _ key Hin. rewrite Hpcs.
      destruct (in_dec String.string_dec key keys); [eauto|contradiction]. }
    exists (point :: pts). split.
    { rewrite Hloop, <- app_assoc. reflexivity. }
    split.
    + constructor; [|exact Hall].
      unfold series_point, point. simpl. split; [reflexivity|]. split.
      { intros key. rewrite Hkd, lookup_empty. reflexivity. }
      split.
      { intros key. split.
        - intros Hin. destruct (Hrd key Hin) as (r & Hr & _). eauto.
        - intros [r Hr]. destruct (in_dec String.string_dec key keys) as [|Hn];
            [assumption|].
          rewrite (Hrd0 key Hn), lookup_empty in Hr. discriminate. }
      intros key r Hr.
      destruct (in_dec String.string_dec key keys) as [Hin|Hn].
      * destruct (Hrd key Hin) as (r' & Hr' & Hpos & _). congruence.
      * rewrite (Hrd0 key Hn), lookup_empty in Hr. discriminate.
    + intros Hl p Hp. simpl in Hp. inversion Hp; subst p. unfold point. simpl.
      split; [unfold interval; rewrite Hl; reflexivity|].
      intros key r Hr.
      destruct (in_dec String.string_dec key keys) as [Hin|Hn].
      * destruct (Hrd key Hin) as (r' & Hr' & _ & Hz).
        rewrite Hl in Hz. simpl in Hz. rewrite Hz in Hr' by reflexivity.
        congruence.
      * rewrite (Hrd0 key Hn), lookup_empty in Hr. discriminate.
Qed.

(** X19: [GetTimeSeries] returns one point per snapshot of the history,
    or per snapshot of its last [maxPoints] ones when [maxPoints] is
    positive, in order.  Each point carries the snapshot's clock reading
    and, for exactly the requested keys, the key's count in the snapshot
    (0 when the snapshot does not list it) and a rate that is never
    negative; the first point has interval 0 and only zero rates. *)
Theorem time_series_shape h keys maxPoints :
  let shown :=
    if (maxPoints >? 0)%Z
    then drop (length (snapshots h) - Z.to_nat maxPoints) (snapshots h)
    else snapshots h in
  let pts := GetTimeSeries h keys maxPoints in
  Forall2 (series_point keys) shown pts /\
  (forall p, head pts = Some p ->
     TimeSeriesData.Interval p = 0%Q /\
     forall key r, TimeSeriesData.Rates p !! key = Some r -> r = 0%Q).
Proof.
  intros shown pts. unfold pts, GetTimeSeries.
  destruct (Z.eqb_spec (Z.of_nat (length (snapshots h))) 0) as [Hz|Hnz].
  { assert (Hnil : snapshots h = []) by (destruct (snapshots h); [auto|simpl in Hz; lia]).
    unfold shown. rewrite Hnil. simpl.
    destruct (maxPoints >? 0)%Z; (split; [constructor|intros p H; discriminate H]). }
  set (startIdx := if (maxPoints >? 0)%Z
                      && (Z.of_nat (length (snapshots h)) >? maxPoints)%Z
                   then (Z.of_nat (length (snapshots h)) - maxPoints)%Z
                   else 0%Z).
  assert (Hshown : shown = drop (Z.to_nat startIdx) (snapshots h)).
  { unfold shown, startIdx.
    destruct (Z.gtb_spec maxPoints 0) as [Hp|Hp]; simpl.
    - destruct (Z.gtb_spec (Z.of_nat (length (snapshots h))) maxPoints).
      + f_equal. lia.
      + replace (length (snapshots h) - Z.to_nat maxPoints)%nat with 0%nat
          by lia. reflexivity.
    - reflexivity. }
  destruct (series_loop_spec keys (drop (Z.to_nat startIdx) (snapshots h))
              false ∅ 0%Z []) as (pts' & Hloop & Hall & Hfirst);
    [discriminate|].
  rewrite Hloop, Hshown. simpl. split; [exact Hall|].
  apply Hfirst. reflexivity.
Qed.

End HistoryMore.
(** ** The life cycle and the options *)

(** X20: a life-cycle call that fails leaves the singleton as it was; a
    successful [New] leaves an engine that is initialized and not running,
    a successful [Start] a running one and a successful [Stop] none at
    all; [GetInstance] succeeds on a running engine only.  [New] fails on
    an existing engine and [Start] on a missing or running one. *)
Theorem lifecycle_transitions (g : Engine.global) (op : life_op) :
  (fst (life_step g op) <> None -> snd (life_step g op) = g) /\
  (fst (life_step g op) = None ->
   snd (life_step g op)
   = match op with
     | CallNew _ => Some (Engine.mkKeyFlare false)
     | CallStart _ => Some (Engine.mkKeyFlare true)
     | CallStop _ => None
     end) /\
  ((exists kf, Engine.GetInstance g = inr kf) <->
   g = Some (Engine.mkKeyFlare true)) /\
  (forall ok, g <> None ->
     fst (Engine.New g ok) = Some Engine.AlreadyInitialized) /\
  (forall ok, fst (Engine.Start g ok) = None <->
              g = Some (Engine.mkKeyFlare false) /\ ok = true).
Proof.
  split; [|split; [|split; [|split]]].
  - destruct op as [[]|[]|[]], g as [[[]]|]; simpl; congruence.
  - destruct op as [[]|[]|[]], g as [[[]]|]; simpl; congruence.
  - destruct g as [[[]]|]; simpl; split.
    + intros _. reflexivity.
    + intros _. eexists. reflexivity.
    + intros [kf H]. discriminate H.
    + intros H. discriminate H.
    + intros [kf H]. discriminate H.
    + intros H. discriminate H.
  - intros ok Hg. destruct g as [kf|]; [reflexivity|congruence].
  - intros ok. destruct g as [[[]]|], ok; simpl; split;
      try (intros H; discriminate H); try (intros [H1 H2]; congruence);
      auto.
Qed.

Section Options.

Import Keyflare.

Lemma Qle_bool_false x : Qle_bool x 0 = false -> (0 < x)%Q.
Proof.
  intros Hx. apply Qnot_le_lt. intros Hle. apply Qle_bool_iff in Hle.
  congruence.
Qed.

Lemma Qle_bool_pos x : (0 < x)%Q -> Qle_bool x 0 = false.
Proof.
  intros Hx. destruct (Qle_bool x 0) eqn:E; [|reflexivity].
  apply Qle_bool_iff in E. exfalso. apply (Qlt_not_le _ _ Hx E).
Qed.

(** A default that passes its own test is applied at most once. *)
Lemma default_once {A : Type} (test : A -> bool) (dflt x : A) :
  test dflt = false ->
  (if test (if test x then dflt else x) then dflt
   else (if test x then dflt else x))
  = (if test x then dflt else x).
Proof.
  intros Hd. destruct (test x) eqn:Hx; [rewrite Hd|rewrite Hx]; reflexivity.
Qed.

Lemma applyDetectorDefaults_fields o :
  applyDetectorDefaults o
  = mkDetectorOptions
      (if Qle_bool (ErrorRate o) 0 then DefaultDetectorErrorRate
       else ErrorRate o)
      (if TopK o <=? 0 then DefaultDetectorTopK else TopK o)
      (if Qle_bool (DecayFactor o) 0 then DefaultDetectorDecayFactor
       else DecayFactor o)
      (if DecayInterval o <=? 0 then DefaultDetectorDecayInterval
       else DecayInterval o)
      (HotThreshold o).
Proof.
  destruct o as [e t f i h]. unfold applyDetectorDefaults. simpl.
  destruct (Qle_bool e 0); simpl; destruct (t <=? 0); simpl;
    destruct (Qle_bool f 0); simpl; destruct (i <=? 0); reflexivity.
Qed.

Lemma applyDetectorDefaults_spec o :
  let r := applyDetectorDefaults o in
  applyDetectorDefaults r = r /\
  (0 < ErrorRate r)%Q /\ 0 < TopK r /\ (0 < DecayFactor r)%Q /\
  0 < DecayInterval r /\ HotThreshold r = HotThreshold o /\
  ((0 < ErrorRate o)%Q -> ErrorRate r = ErrorRate o) /\
  (0 < TopK o -> TopK r = TopK o) /\
  ((0 < DecayFactor o)%Q -> DecayFactor r = DecayFactor o) /\
  (0 < DecayInterval o -> DecayInterval r = DecayInterval o) /\
  (DecayInterval o <= 0 -> DecayInterval r = DefaultDetectorDecayInterval).
Proof.
  intros r. unfold r. split.
  { rewrite (applyDetectorDefaults_fields (applyDetectorDefaults o)).
    rewrite (applyDetectorDefaults_fields o). cbn [ErrorRate TopK DecayFactor
      DecayInterval HotThreshold].
    rewrite (default_once (fun x => Qle_bool x 0)) by reflexivity.
    rewrite (default_once (fun x => x <=? 0)) by reflexivity.
    rewrite (default_once (fun x => Qle_bool x 0) DefaultDetectorDecayFactor)
      by reflexivity.
    rewrite (default_once (fun x => x <=? 0) DefaultDetectorDecayInterval)
      by reflexivity.
    reflexivity. }
  rewrite (applyDetectorDefaults_fields o).
  cbn [ErrorRate TopK DecayFactor DecayInterval HotThreshold].
  split.
  { destruct (Qle_bool (ErrorRate o) 0) eqn:E;
      [reflexivity|apply Qle_bool_false; exact E]. }
  split.
  { destruct (Z.leb_spec (TopK o) 0); [reflexivity|lia]. }
  split.
  { destruct (Qle_bool (DecayFactor o) 0) eqn:E;
      [reflexivity|apply Qle_bool_false; exact E]. }
  split.
  { destruct (Z.leb_spec (DecayInterval o) 0); [reflexivity|lia]. }
  split; [reflexivity|]. split.
  { intros H. rewrite (Qle_bool_pos _ H). reflexivity. }
  split.
  { intros H. destruct (Z.leb_spec (TopK o) 0); [lia|reflexivity]. }
  split.
  { intros H. rewrite (Qle_bool_pos _ H). reflexivity. }
  split.
  { intros H. destruct (Z.leb_spec (DecayInterval o) 0); [lia|reflexivity]. }
  intros H. destruct (Z.leb_spec (DecayInterval o) 0); [reflexivity|lia].
Qed.





Lemma applyMetricsDefaults_fields o :
  applyMetricsDefaults o
  = mkMetricsOptions
      (if String.eqb (Namespace o) EmptyString then DefaultMetricsNamespace
       else Namespace o)
      (if String.eqb (MetricServerAddress o) EmptyString
       then DefaultMetricsServerAddress else MetricServerAddress o)
      (if CollectionInterval o <=? 0 then DefaultMetricsCollectionInterval
       else CollectionInterval o)
      (if HotKeyMetricLimit o <=? 0 then DefaultMetricsHotKeyLimit
       else HotKeyMetricLimit o)
      (if HotKeyHistorySize o <=? 0 then DefaultMetricsHotKeyHistorySize
       else HotKeyHistorySize o)
      (EnableAPI o).
Proof.
  destruct o as [ns ad ci li hs api]. unfold applyMetricsDefaults. simpl.
  destruct (String.eqb ns EmptyString); simpl;
    destruct (String.eqb ad EmptyString); simpl;
      destruct (ci <=? 0); simpl; destruct (li <=? 0); simpl;
        destruct (hs <=? 0); reflexivity.
Qed.

Lemma applyMetricsDefaults_spec o :
  let r := applyMetricsDefaults o in
  applyMetricsDefaults r = r /\
  Namespace r <> EmptyString /\ MetricServerAddress r <> EmptyString /\
  0 < CollectionInterval r /\ 0 < HotKeyMetricLimit r /\
  0 < HotKeyHistorySize r /\ EnableAPI r = EnableAPI o /\
  (CollectionInterval o <= 0 ->
   CollectionInterval r = DefaultMetricsCollectionInterval).
Proof.
  intros r. unfold r. split.
  { rewrite (applyMetricsDefaults_fields (applyMetricsDefaults o)).
    rewrite (applyMetricsDefaults_fields o).
    cbn [Namespace MetricServerAddress CollectionInterval HotKeyMetricLimit
         HotKeyHistorySize EnableAPI].
    rewrite (default_once (fun x => String.eqb x EmptyString)
               DefaultMetricsNamespace) by reflexivity.
    rewrite (default_once (fun x => String.eqb x EmptyString)
               DefaultMetricsServerAddress) by reflexivity.
    rewrite (default_once (fun x => x <=? 0) DefaultMetricsCollectionInterval)
      by reflexivity.
    rewrite (default_once (fun x => x <=? 0) DefaultMetricsHotKeyLimit)
      by reflexivity.
    rewrite (default_once (fun x => x <=? 0) DefaultMetricsHotKeyHistorySize)
      by reflexivity.
    reflexivity. }
  rewrite (applyMetricsDefaults_fields o).
  cbn [Namespace MetricServerAddress CollectionInterval HotKeyMetricLimit
       HotKeyHistorySize EnableAPI].
  split.
  { destruct (String.eqb_spec (Namespace o) EmptyString);
      [discriminate|assumption]. }
  split.
  { destruct (String.eqb_spec (MetricServerAddress o) EmptyString);
      [discriminate|assumption]. }
  split.
  { destruct (Z.leb_spec (CollectionInterval o) 0); [reflexivity|lia]. }
  split.
  { destruct (Z.leb_spec (HotKeyMetricLimit o) 0); [reflexivity|lia]. }
  split.
  { destruct (Z.leb_spec (HotKeyHistorySize o) 0); [reflexivity|lia]. }
  split; [reflexivity|].
  intros H. destruct (Z.leb_spec (CollectionInterval o) 0); [reflexivity|lia].
Qed.


Lemma int64_congr x : exists k, int64 x = x + k * two64.
Proof.
  unfold int64.
  pose proof (Z.div_mod x two64 ltac:(unfold two64; lia)) as Hdm.
  destruct (x mod two64 >=? 2 ^ 63).
  - exists (- (x / two64) - 1). lia.
  - exists (- (x / two64)). lia.
Qed.

Lemma int64_small x : - 2 ^ 63 <= x < 2 ^ 63 -> int64 x = x.
Proof.
  intros Hx. unfold int64, two64.
  destruct (Z.lt_ge_cases x 0).
  - replace (x mod 2 ^ 64) with (x + 2 ^ 64).
    + destruct (Z.geb_spec (x + 2 ^ 64) (2 ^ 63)); lia.
    + apply Z.mod_unique with (q := -1); lia.
  - rewrite Z.mod_small by lia.
    destruct (Z.geb_spec x (2 ^ 63)); lia.
Qed.

(** The product of a positive duration and [time.Second], computed in
    [int64], is never the duration itself. *)
Lemma int64_times_second d :
  0 < d < 2 ^ 63 -> int64 (d * Second) <> d.
Proof.
  intros Hd Heq.
  destruct (int64_congr (d * Second)) as [k Hk]. rewrite Heq in Hk.
  assert (Hdiv : (two64 | (Second - 1) * d)).
  { exists (- k). lia. }
  apply Z.gauss in Hdiv; [|vm_compute; reflexivity].
  destruct Hdiv as [q Hq]. unfold two64 in *. nia.
Qed.

(** X22: [New] multiplies the decay interval and the collection
    interval, which are durations already, by [time.Second] in [int64].
    The decay interval that reaches the detector is therefore never the
    configured one: it is a billion times longer when that fits, and for
    the default of 60 s it wraps to 4659767778871345152 ns; the default
    collection interval of 15 s wraps to a negative number. *)
Theorem facade_rescales_intervals (opts : list Option_) :
  let given := fold_left (fun options opt => opt options) opts
                         DefaultOptions in
  let d := DecayInterval (Detector_ (resolve opts)) in
  let cfg := toConfig (resolve opts) in
  0 < d /\
  (0 < DecayInterval (Detector_ given) ->
   d = DecayInterval (Detector_ given)) /\
  CfgDecayInterval (CfgDetector cfg) = int64 (d * Second) /\
  (d < 2 ^ 63 -> CfgDecayInterval (CfgDetector cfg) <> d) /\
  (d * Second < 2 ^ 63 -> CfgDecayInterval (CfgDetector cfg) = d * Second) /\
  (DecayInterval (Detector_ given) <= 0 ->
   CfgDecayInterval (CfgDetector cfg) = 4659767778871345152) /\
  (CollectionInterval (Metrics_ given) <= 0 ->
   CfgCollectionInterval (CfgMetrics cfg) = -3446744073709551616).
Proof.
  intros given d cfg. unfold cfg, d, resolve. fold given.
  unfold applyOptionsDefaults, toConfig. simpl.
  destruct (applyDetectorDefaults_spec (Detector_ given))
    as (_ & _ & _ & _ & Hi & _ & _ & _ & _ & Hkeep & Hdef).
  destruct (applyMetricsDefaults_spec (Metrics_ given))
    as (_ & _ & _ & _ & _ & _ & _ & Hcdef).
  simpl in *.
  split; [exact Hi|]. split; [exact Hkeep|]. split; [reflexivity|]. split.
  { intros Hlt. apply int64_times_second. lia. }
  split.
  { intros Hlt. apply int64_small. unfold Second in *. lia. }
  split.
  - intros Hle. rewrite (Hdef Hle). vm_compute. reflexivity.
  - intros Hle. rewrite (Hcdef Hle). vm_compute. reflexivity.
Qed.

Context {V Regexp : Type}.
Variable Compile : string -> option Regexp.



End Options.

Lemma facade_rescales_intervals_scenario :
  let cfg := Keyflare.toConfig (Keyflare.resolve []) in
  let short := [Keyflare.WithDetectorOptions
                  (Keyflare.mkDetectorOptions (1 # 100) 100 (98 # 100) 5 0)] in
  let unset := [Keyflare.WithDetectorOptions
                  (Keyflare.mkDetectorOptions 0 0 0 0 0);
                Keyflare.WithMetricsOptions
                  (Keyflare.mkMetricsOptions "" "" 0 0 0 false)] in
  Keyflare.DecayInterval (Keyflare.Detector_ (Keyflare.resolve []))
  = 60000000000 /\
  Keyflare.CfgDecayInterval (Keyflare.CfgDetector cfg)
  = 4659767778871345152 /\
  Keyflare.CfgDecayInterval
    (Keyflare.CfgDetector (Keyflare.toConfig (Keyflare.resolve short)))
  = 5000000000 /\
  Keyflare.CfgDecayInterval
    (Keyflare.CfgDetector (Keyflare.toConfig (Keyflare.resolve unset)))
  = 4659767778871345152 /\
  Keyflare.CfgCollectionInterval
    (Keyflare.CfgMetrics (Keyflare.toConfig (Keyflare.resolve unset)))
  = -3446744073709551616.
Proof.
  intros cfg short unset.
  pose proof (facade_rescales_intervals []) as H0.
  pose proof (facade_rescales_intervals short) as H1.
  pose proof (facade_rescales_intervals unset) as H2.
  cbv zeta in H0, H1, H2.
  destruct H0 as (_ & Hkeep & Hcfg & _).
  destruct H1 as (_ & Hkeep1 & _ & _ & Hfit & _).
  destruct H2 as (_ & _ & _ & _ & _ & Hdecay & Hcoll).
  split; [apply Hkeep; vm_compute; reflexivity|].
  split; [unfold cfg; rewrite Hcfg; vm_compute; reflexivity|].
  split.
  - rewrite Hfit; [rewrite Hkeep1; vm_compute; reflexivity|].
    rewrite Hkeep1; vm_compute; reflexivity.
  - split; [apply Hdecay|apply Hcoll]; vm_compute; discriminate.
Defined.

(** ** The heap order in every state, and the order of [TopK] *)

Section OrderMore.

Import SS.
Import Algo.

(** [Swap] changes the two slots it is given and no other. *)
Lemma Swap_slots s i j s' :
  SSHeap.Swap s i j = Done s' ->
  forall k : nat, k <> Z.to_nat i -> k <> Z.to_nat j ->
                  slots s' !! k = slots s !! k.
Proof.
  intros Hsw k Hi Hj. unfold SSHeap.Swap in Hsw.
  apply obind_Done in Hsw as (a & _ & Hsw).
  apply obind_Done in Hsw as (b & _ & Hsw).
  apply obind_Done in Hsw as (x & _ & Hsw).
  apply obind_Done in Hsw as (y & _ & Hsw).
  inversion Hsw; subst s'. simpl.
  rewrite !list_lookup_insert_ne by congruence. reflexivity.
Qed.

Lemma sifting_stop s n lo i :
  sifting s n lo i ->
  (forall j, 1 <= j < n -> parent j = i -> cnt s i <= cnt s j) ->
  heap_from s n lo.
Proof.
  intros [Ha _] Hc j Hj Hlo. destruct (Z.eq_dec (parent j) i) as [Hp|Hp].
  - rewrite Hp. apply Hc; assumption.
  - apply Ha; assumption.
Qed.

(** [down], run at slot [i] on the first [n] slots, repairs the heap
    below level [lo] and touches no slot before [i] or from [n] on. *)
Lemma down_loop_sift fuel n lo :
  forall s i s' i',
    valid s -> n <= SSHeap.Len s -> 0 <= lo <= i ->
    sifting s n lo i ->
    Heap.down_loop fuel s i n = Done (s', i') ->
    heap_from s' n lo /\ shuffled s s' /\
    forall k : nat, (Z.of_nat k < i \/ n <= Z.of_nat k) ->
                    slots s' !! k = slots s !! k.
Proof.
  induction fuel as [|fuel IH]; intros s i s' i' Hv Hn Hlo Hord Hrun;
    [discriminate|].
  lazy beta iota zeta delta [Heap.down_loop] in Hrun.
  fold Heap.down_loop in Hrun.
  destruct ((2 * i + 1 >=? n) || (2 * i + 1 <? 0)) eqn:Estop.
  { inversion Hrun; subst s' i'.
    split; [|split; [apply shuffled_refl|reflexivity]].
    apply (sifting_stop s n lo i Hord).
    intros j Hj Hp. exfalso. apply parent_child in Hp; [|lia|lia].
    apply orb_true_iff in Estop as [E|E].
    - rewrite Z.geb_leb in E. apply Z.leb_le in E. lia.
    - apply Z.ltb_lt in E. lia. }
  apply orb_false_iff in Estop as [E1 E2].
  rewrite Z.geb_leb in E1. apply Z.leb_gt in E1. apply Z.ltb_ge in E2.
  assert (Hj : exists j,
             (if 2 * i + 1 + 1 <? n
              then lt <- SSHeap.Less s (2 * i + 1 + 1) (2 * i + 1) ;;
                   Done (if lt then 2 * i + 1 + 1 else 2 * i + 1)
              else Done (2 * i + 1)) = Done j /\
             (j = 2 * i + 1 \/ j = 2 * i + 2) /\ j < n /\
             cnt s j <= cnt s (2 * i + 1) /\
             (2 * i + 2 < n -> cnt s j <= cnt s (2 * i + 2))).
  { destruct (Z.ltb_spec (2 * i + 1 + 1) n).
    - rewrite Less_spec by (try assumption; lia). simpl.
      replace (2 * i + 1 + 1) with (2 * i + 2) by lia.
      destruct (Z.ltb_spec (cnt s (2 * i + 2)) (cnt s (2 * i + 1)));
        eexists; (split; [reflexivity|]); repeat split; lia.
    - eexists. split; [reflexivity|]. repeat split; lia. }
  destruct Hj as (j & Hjeq & Hjc & Hjn & Hj1 & Hj2).
  rewrite Hjeq in Hrun. cbn [obind] in Hrun.
  rewrite Less_spec in Hrun by (try assumption; lia).
  cbn [obind] in Hrun.
  destruct (Z.ltb_spec (cnt s j) (cnt s i)) as [Hlt|Hge]; cbn [negb] in Hrun.
  2:{ inversion Hrun; subst s' i'.
      split; [|split; [apply shuffled_refl|reflexivity]].
      apply (sifting_stop s n lo i Hord).
      intros k Hk Hp. apply parent_child in Hp; [|lia|lia].
      destruct Hp as [->| ->]; [lia|]. specialize (Hj2 ltac:(lia)). lia. }
  destruct (Swap_spec s i j Hv) as (s1 & Hsw & Hsh & Hcnt & _); [lia|lia|].
  rewrite Hsw in Hrun. cbn [obind] in Hrun.
  pose proof (shuffled_Len _ _ Hsh) as HL.
  pose proof (shuffled_valid _ _ Hsh Hv) as Hv1.
  assert (Hpj : parent j = i) by (apply parent_child; lia).
  destruct (IH s1 j s' i' Hv1) as (Hheap & Hsh' & Hslots);
    [lia|lia| |exact Hrun|].
  - destruct Hord as [Ha Hb]. split.
    + intros k Hk Hlok Hp.
      pose proof (parent_lt k ltac:(lia)) as Hpk.
      rewrite (Hcnt k) by lia. rewrite (Hcnt (parent k)) by lia.
      destruct (Z.eq_dec (parent k) i) as [Hpi|Hpi].
      * rewrite Hpi, transp_l.
        apply parent_child in Hpi as Hk2; [|lia|lia].
        destruct (Z.eq_dec k j) as [->|Hkj].
        -- rewrite transp_r. lia.
        -- rewrite transp_other by lia.
           destruct Hk2 as [->| ->]; destruct Hjc as [->| ->]; lia.
      * rewrite (transp_other i j (parent k)) by lia.
        destruct (Z.eq_dec k i) as [->|Hki].
        -- rewrite transp_l. apply (Hb j); lia.
        -- assert (k <> j) by (intros ->; lia).
           rewrite transp_other by lia. apply Ha; lia.
    + intros k Hk Hp Hj1' Hloj. rewrite Hpj.
      rewrite (Hcnt k) by lia. rewrite (Hcnt i) by lia.
      rewrite transp_l.
      assert (k <> i /\ k <> j).
      { pose proof (parent_lt k ltac:(lia)). lia. }
      rewrite transp_other by lia.
      pose proof (Ha k ltac:(lia) ltac:(lia) ltac:(lia)) as Hak.
      rewrite Hp in Hak. exact Hak.
  - split; [exact Hheap|]. split; [eapply shuffled_trans; eassumption|].
    intros k Hk. rewrite Hslots by lia.
    apply (Swap_slots s i j s1 Hsw); lia.
Qed.

(** [down] leaves a slot that is at most its children where it is. *)
Lemma down_loop_stay fuel s i n :
  valid s -> 0 <= i -> n <= SSHeap.Len s ->
  (forall j, 1 <= j < n -> parent j = i -> cnt s i <= cnt s j) ->
  Heap.down_loop (S fuel) s i n = Done (s, i).
Proof.
  intros Hv Hi Hn Hc.
  lazy beta iota zeta delta [Heap.down_loop]. fold Heap.down_loop.
  destruct ((2 * i + 1 >=? n) || (2 * i + 1 <? 0)) eqn:Estop; [reflexivity|].
  apply orb_false_iff in Estop as [E1 E2].
  rewrite Z.geb_leb in E1. apply Z.leb_gt in E1. apply Z.ltb_ge in E2.
  assert (H1 : cnt s i <= cnt s (2 * i + 1)).
  { apply Hc; [lia|]. apply parent_child; lia. }
  destruct (Z.ltb_spec (2 * i + 1 + 1) n) as [H2|H2].
  - assert (H2' : cnt s i <= cnt s (2 * i + 1 + 1)).
    { apply Hc; [lia|]. apply parent_child; lia. }
    rewrite Less_spec by (try assumption; lia). cbn [obind].
    destruct (cnt s (2 * i + 1 + 1) <? cnt s (2 * i + 1)); cbn [obind];
      rewrite Less_spec by (try assumption; lia); cbn [obind].
    + destruct (Z.ltb_spec (cnt s (2 * i + 1 + 1)) (cnt s i)); [lia|].
      reflexivity.
    + destruct (Z.ltb_spec (cnt s (2 * i + 1)) (cnt s i)); [lia|].
      reflexivity.
  - cbn [obind]. rewrite Less_spec by (try assumption; lia). cbn [obind].
    destruct (Z.ltb_spec (cnt s (2 * i + 1)) (cnt s i)); [lia|]. reflexivity.
Qed.

(** [Fix] repairs a min-heap in which the count of one slot has been
    changed, whether raised or lowered. *)
Lemma Fix_after_change s0 s i s' :
  heap_ordered s0 -> SSHeap.Len s = SSHeap.Len s0 -> valid s ->
  0 <= i < SSHeap.Len s ->
  (forall k, k <> i -> cnt s k = cnt s0 k) ->
  Heap.Fix s i = Done s' ->
  heap_ordered s'.
Proof.
  intros Ho HL Hv Hi Hsame Hfix.
  destruct (Z.le_gt_cases (cnt s0 i) (cnt s i)) as [Hup|Hdown].
  - apply (Fix_order s i s' Hv Hi); [|exact Hfix].
    apply (ordered_below_raise s0); [exact Ho|exact HL|lia|exact Hsame|exact Hup].
  - assert (Hkids : forall j, 1 <= j < SSHeap.Len s -> parent j = i ->
                              cnt s i <= cnt s j).
    { intros j Hj Hp. pose proof (parent_lt j ltac:(lia)) as Hpl.
      rewrite (Hsame j) by lia.
      pose proof (Ho j ltac:(lia)) as Hoj. rewrite Hp in Hoj. lia. }
    assert (Habove : ordered_above s i).
    { split.
      - intros k Hk Hki. rewrite (Hsame k) by exact Hki.
        destruct (Z.eq_dec (parent k) i) as [Hp|Hp].
        + rewrite Hp. pose proof (Ho k ltac:(lia)) as Hok.
          rewrite Hp in Hok. lia.
        + rewrite (Hsame (parent k)) by exact Hp. apply Ho. lia.
      - intros k Hk Hp Hi1.
        pose proof (parent_lt i Hi1) as Hpi.
        pose proof (parent_lt k ltac:(lia)) as Hpk.
        rewrite (Hsame (parent i)) by lia. rewrite (Hsame k) by lia.
        etransitivity; [apply Ho; lia|].
        pose proof (Ho k ltac:(lia)) as Hok. rewrite Hp in Hok. exact Hok. }
    unfold Heap.Fix, Heap.down, Heap.fuel_for in Hfix.
    rewrite (down_loop_stay _ s i (SSHeap.Len s) Hv) in Hfix;
      [|lia|lia|exact Hkids].
    cbn [obind fst snd] in Hfix.
    rewrite Z.gtb_ltb, Z.ltb_irrefl in Hfix.
    cbn [negb] in Hfix.
    apply (up_order _ s i s' Hv Hi Habove Hfix).
Qed.

(** [heap.Init] makes a min-heap of any slice. *)
Lemma init_loop_order k :
  forall s i s',
    valid s -> Z.of_nat k = i + 1 -> i < SSHeap.Len s ->
    heap_from s (SSHeap.Len s) (i + 1) ->
    Heap.init_loop k s i (SSHeap.Len s) = Done s' ->
    heap_ordered s' /\ shuffled s s'.
Proof.
  induction k as [|k IH]; intros s i s' Hv Hk Hi Hheap Hrun.
  - simpl in Hrun. inversion Hrun; subst s'.
    split; [|apply shuffled_refl].
    intros j Hj. apply Hheap; [exact Hj|].
    pose proof (parent_lt j ltac:(lia)). lia.
  - cbn [Heap.init_loop] in Hrun.
    apply obind_Done in Hrun as ([s1 moved] & Hd & Hrun).
    unfold Heap.down in Hd.
    apply obind_Done in Hd as ([s1' i'] & Hd & Heq).
    inversion Heq; subst s1 moved; clear Heq. cbn [fst] in Hrun.
    destruct (down_loop_sift (Heap.fuel_for s) (SSHeap.Len s) i s i s1' i' Hv)
      as (Hheap1 & Hsh & _); [lia|lia| |exact Hd|].
    { split.
      - intros j Hj Hlo Hp. apply Hheap; [exact Hj|lia].
      - intros j Hj Hp Hi1 Hlo. pose proof (parent_lt i Hi1). lia. }
    pose proof (shuffled_Len _ _ Hsh) as HL.
    rewrite <- HL in Hrun.
    destruct (IH s1' (i - 1) s') as [Ho Hsh'].
    + eapply shuffled_valid; eassumption.
    + lia.
    + lia.
    + rewrite HL. replace (i - 1 + 1) with i by lia. exact Hheap1.
    + exact Hrun.
    + split; [exact Ho|eapply shuffled_trans; eassumption].
Qed.

Lemma Init_order s s' :
  valid s -> Heap.Init s = Done s' -> heap_ordered s' /\ shuffled s s'.
Proof.
  intros Hv Hinit. unfold Heap.Init in Hinit.
  assert (Hn : 0 <= SSHeap.Len s) by (unfold SSHeap.Len; lia).
  rewrite Z.quot_div_nonneg in Hinit by lia.
  apply (init_loop_order (Z.to_nat (SSHeap.Len s / 2)) s
           (SSHeap.Len s / 2 - 1) s' Hv); [| | |exact Hinit].
  - pose proof (Z.div_pos (SSHeap.Len s) 2 Hn ltac:(lia)). lia.
  - assert (SSHeap.Len s / 2 <= SSHeap.Len s)
      by (apply Z.div_le_upper_bound; lia).
    lia.
  - intros j Hj Hlo. exfalso. unfold parent in Hlo.
    replace (SSHeap.Len s / 2 - 1 + 1) with (SSHeap.Len s / 2) in Hlo by lia.
    Z.div_mod_to_equations. lia.
Qed.

(** *** The heap order is kept by [Add], [Decay] and [Clear] *)

Lemma decay_items_length scale entries :
  forall m m', decay_items scale entries m = Done m' -> length m' = length m.
Proof.
  induction entries as [|[k a] rest IH]; intros m m' H; simpl in H.
  - inversion H. reflexivity.
  - apply obind_Done in H as (item & _ & H).
    rewrite (IH _ _ H), length_insert. reflexivity.
Qed.

Lemma Add_order ss key n ss' :
  ss_inv false ss -> heap_ordered (hs ss) ->
  Add ss key n = Done ss' -> heap_ordered (hs ss').
Proof.
  intros Hinv Ho Hadd.
  pose proof Hinv as (Hv & [Hnd Hidx] & [L1 L2] & Hc).
  unfold hs, valid in *. simpl in *.
  destruct (items ss !! key) as [a|] eqn:Hk.
  - destruct (L1 key a Hk) as (Hin & item & Hit & HK).
    destruct (Add_existing false ss key n a item Hinv Hk Hit)
      as (s' & Hfix & Hadd' & _).
    rewrite Hadd in Hadd'. inversion Hadd'; subst ss'. simpl.
    apply list_elem_of_lookup in Hin as [p Hp].
    assert (Hix : Index item = Z.of_nat p).
    { destruct (Hidx p a item Hp Hit) as [H|[H _]]; [exact H|discriminate]. }
    rewrite Hix in Hfix.
    pose proof (lookup_lt_Some _ _ _ Hp) as Hlp.
    replace (mkH (slots s') (cells s')) with s' by (destruct s'; reflexivity).
    refine (Fix_after_change (mkH (heap ss) (mem ss)) _ _ s' Ho _ _ _ _ Hfix);
      [reflexivity| | |].
    + unfold valid. simpl. rewrite length_insert. exact Hv.
    + unfold SSHeap.Len. simpl. lia.
    + intros k Hkp. apply (cnt_insert_other _ _ _ _ p); assumption.
  - destruct (Z.lt_ge_cases (Z.of_nat (length (heap ss))) (capacity ss))
      as [Hroom|Hfull].
    + destruct (Add_push false ss key n Hinv Hk Hroom)
        as (s' & Hup & Hadd' & _).
      rewrite Hadd in Hadd'. inversion Hadd'; subst ss'. simpl.
      replace (mkH (slots s') (cells s')) with s' by (destruct s'; reflexivity).
      set (mid := mkH (heap ss ++ [length (mem ss)])
                      (mem ss ++ [mkItem key n 0
                                    (Z.of_nat (length (heap ss)))])) in *.
      assert (Hvm : valid mid).
      { unfold valid, mid. simpl. apply Forall_app. split.
        - eapply Forall_impl; [exact Hv|]. intros c Hc'. simpl in Hc'.
          rewrite length_app. simpl. lia.
        - constructor; [|constructor]. rewrite length_app. simpl. lia. }
      assert (HLm : SSHeap.Len mid = Z.of_nat (length (heap ss)) + 1).
      { unfold SSHeap.Len, mid. simpl. rewrite length_app. simpl. lia. }
      apply (up_order (Heap.fuel_for mid) mid (SSHeap.Len mid - 1) s' Hvm);
        [lia| |exact Hup].
      split.
      * intros k Hkr Hkn. pose proof (parent_lt k ltac:(lia)).
        unfold mid. rewrite !cnt_push by (try assumption; lia).
        apply Ho. unfold SSHeap.Len. simpl. lia.
      * intros k Hkr Hp _. exfalso. pose proof (parent_lt k ltac:(lia)).
        apply parent_child in Hp; lia.
    + destruct (heap ss !! 0%nat) as [a|] eqn:Hroot.
      * destruct (L2 a) as (old & Hold & _);
          [apply list_elem_of_lookup; eauto|].
        destruct (Add_evict false ss key n a old Hinv Hk Hfull Hroot Hold)
          as (s' & Hfix & Hadd' & _).
        rewrite Hadd in Hadd'. inversion Hadd'; subst ss'. simpl.
        replace (mkH (slots s') (cells s')) with s'
          by (destruct s'; reflexivity).
        pose proof (lookup_lt_Some _ _ _ Hroot) as Hlp.
        refine (Fix_after_change (mkH (heap ss) (mem ss)) _ _ s' Ho
                  _ _ _ _ Hfix); [reflexivity| | |].
        -- unfold valid. simpl. rewrite length_insert. exact Hv.
        -- unfold SSHeap.Len. simpl. lia.
        -- intros k Hkp. apply (cnt_insert_other _ _ _ _ 0%nat);
             [assumption|assumption|lia].
      * unfold Add in Hadd. rewrite Hk in Hadd.
        destruct (Z.ltb_spec (SSHeap.Len (hs ss)) (capacity ss));
          [unfold SSHeap.Len, hs in *; simpl in *; lia|].
        assert (Hi : index (heap ss) 0 = Panic)
          by (unfold index; change (0 <? 0) with false;
              change (Z.to_nat 0) with 0%nat; cbv iota;
              rewrite Hroot; reflexivity).
        rewrite Hi in Hadd. discriminate Hadd.
Qed.

Lemma Decay_order scale ss ss' :
  ss_inv false ss -> Decay scale ss = Done ss' -> heap_ordered (hs ss').
Proof.
  intros (Hv & _) Hdec. unfold Decay in Hdec.
  apply obind_Done in Hdec as (m & Hm & Hdec).
  apply obind_Done in Hdec as (s & Hinit & Hdec).
  inversion Hdec; subst ss'. unfold hs, with_hs. simpl.
  replace (mkH (slots s) (cells s)) with s by (destruct s; reflexivity).
  apply (Init_order (mkH (heap ss) m) s); [|exact Hinit].
  unfold valid, hs in *. simpl in *.
  rewrite (decay_items_length _ _ _ _ Hm). exact Hv.
Qed.

Lemma run_ops_order ops :
  forall ss ss',
    ss_inv false ss -> 0 <= capacity ss -> heap_ordered (hs ss) ->
    run_ops ss ops = Done ss' ->
    ss_inv false ss' /\ heap_ordered (hs ss').
Proof.
  induction ops as [|op rest IH]; intros ss ss' Hinv Hc Ho Hrun;
    simpl in Hrun.
  - inversion Hrun; subst. auto.
  - apply obind_Done in Hrun as (ss1 & Hstep & Hrest).
    destruct (run_op_inv false ss op ss1 Hinv Hc Hstep) as [Hinv1 Hc1].
    apply (IH ss1 ss' Hinv1); [lia| |exact Hrest].
    destruct op as [key n|scale|]; simpl in Hstep.
    + exact (Add_order ss key n ss1 Hinv Ho Hstep).
    + exact (Decay_order scale ss ss1 Hinv Hstep).
    + inversion Hstep; subst ss1. intros j Hj.
      unfold SSHeap.Len, hs, Clear in Hj. simpl in Hj. lia.
Qed.

Lemma reachable_order cap ops ss0 ss :
  NewSpaceSaving cap = Done ss0 -> run_ops ss0 ops = Done ss ->
  ss_inv false ss /\ heap_ordered (hs ss).
Proof.
  intros Hnew Hrun.
  destruct (New_inv false cap ss0 Hnew) as (Hinv0 & Hc0 & _ & Hh0).
  assert (H0 : 0 <= cap).
  { unfold NewSpaceSaving in Hnew. destruct (Z.ltb_spec cap 0);
      [discriminate|lia]. }
  apply (run_ops_order ops ss0 ss Hinv0); [lia| |exact Hrun].
  intros j Hj. unfold SSHeap.Len, hs in Hj. rewrite Hh0 in Hj.
  simpl in Hj. lia.
Qed.

(** X24: in every state that [Add], [Decay] and [Clear] reach, whatever
    the counts and the decay, the item at the root of the heap has the
    least count of all tracked items; so the key that [Add] replaces when
    the structure is full is always one of least count. *)
Theorem ss_root_is_least cap ops ss0 ss a0 it0 key a it :
  NewSpaceSaving cap = Done ss0 ->
  run_ops ss0 ops = Done ss ->
  heap ss !! 0%nat = Some a0 -> mem ss !! a0 = Some it0 ->
  items ss !! key = Some a -> mem ss !! a = Some it ->
  Count it0 <= Count it.
Proof.
  intros Hnew Hrun Hroot Hit0 Hk Hit.
  destruct (reachable_order cap ops ss0 ss Hnew Hrun) as [Hinv Ho].
  pose proof Hinv as (Hv & _ & [L1 _] & _).
  destruct (L1 key a Hk) as (Hin & _).
  apply (root_least ss a0 it0 Hv Ho Hroot Hit0 a it Hin Hit).
Qed.

(** *** [TopK] returns the largest counts, largest first *)

Lemma Swap_slot_to s i j s' a :
  SSHeap.Swap s i j = Done s' ->
  slots s !! Z.to_nat i = Some a -> (Z.to_nat j < length (slots s))%nat ->
  slots s' !! Z.to_nat j = Some a.
Proof.
  intros Hsw Hi Hj. unfold SSHeap.Swap in Hsw.
  apply obind_Done in Hsw as (a' & Ha' & Hsw).
  apply obind_Done in Hsw as (b & _ & Hsw).
  apply obind_Done in Hsw as (x & _ & Hsw).
  apply obind_Done in Hsw as (y & _ & Hsw).
  inversion Hsw; subst s'. simpl.
  apply index_Done in Ha' as [_ Ha']. rewrite Hi in Ha'.
  inversion Ha'; subst a'.
  apply list_lookup_insert_eq. rewrite length_insert. exact Hj.
Qed.

Lemma cnt_take_set_Index h m n a it i k :
  m !! a = Some it -> 0 <= k < Z.of_nat n ->
  cnt (mkH (take n h) (<[a := set_Index it i]> m)) k = cnt (mkH h m) k.
Proof.
  intros Hit Hk. unfold cnt, index. simpl.
  rewrite (proj2 (Z.ltb_ge _ _)) by lia.
  rewrite lookup_take_lt by lia.
  destruct (h !! Z.to_nat k) as [c|]; [|reflexivity].
  destruct (decide (c = a)) as [->|Hne].
  - rewrite list_lookup_insert_eq by (eapply lookup_lt_Some; exact Hit).
    rewrite Hit. reflexivity.
  - rewrite list_lookup_insert_ne by congruence. reflexivity.
Qed.

(** [heap.Pop] removes the root and leaves a min-heap. *)
Lemma Heap_Pop_order s s' a :
  valid s -> 1 <= SSHeap.Len s -> heap_ordered s ->
  Heap.Pop s = Done (s', a) ->
  slots s !! 0%nat = Some a /\ heap_ordered s'.
Proof.
  intros Hv Hlen Ho Hpop. unfold Heap.Pop in Hpop.
  set (n := SSHeap.Len s - 1) in *.
  apply obind_Done in Hpop as (s1 & Hsw & Hpop).
  apply obind_Done in Hpop as ([s2 moved] & Hd & Hpop).
  cbn [fst] in Hpop. unfold Heap.down in Hd.
  apply obind_Done in Hd as ([s2' i'] & Hd & Heq).
  inversion Heq; subst s2 moved; clear Heq.
  destruct (Swap_spec s 0 n Hv) as (s1' & Hsw' & Hsh1 & Hcnt & _);
    [lia|unfold n; lia|].
  rewrite Hsw in Hsw'. inversion Hsw'; subst s1'; clear Hsw'.
  pose proof (shuffled_Len _ _ Hsh1) as HL1.
  pose proof (shuffled_valid _ _ Hsh1 Hv) as Hv1.
  destruct (slot_in_range s 0) as (a0 & Ha0 & _); [lia|].
  change (Z.to_nat 0) with 0%nat in Ha0.
  assert (Hn1 : slots s1 !! Z.to_nat n = Some a0).
  { apply (Swap_slot_to s 0 n s1 a0 Hsw Ha0).
    unfold n, SSHeap.Len in *. lia. }
  destruct (down_loop_sift (Heap.fuel_for s1) n 0 s1 0 s2' i' Hv1)
    as (Hheap & Hsh2 & Hslots); [lia|lia| |exact Hd|].
  { split.
    - intros j Hj Hlo Hp. pose proof (parent_lt j ltac:(lia)) as Hpl.
      rewrite (Hcnt j) by lia. rewrite (Hcnt (parent j)) by lia.
      rewrite !transp_other by lia. apply Ho. lia.
    - intros j Hj Hp Hi1. lia. }
  pose proof (shuffled_Len _ _ Hsh2) as HL2.
  pose proof (shuffled_valid _ _ Hsh2 Hv1) as Hv2.
  assert (Hn2 : slots s2' !! Z.to_nat n = Some a0).
  { rewrite Hslots by lia. exact Hn1. }
  unfold SSHeap.Pop in Hpop.
  replace (SSHeap.Len s2' - 1) with n in Hpop by lia.
  apply obind_Done in Hpop as (item & Hitem & Hpop).
  apply obind_Done in Hpop as (it & Hit & Hpop).
  inversion Hpop; subst s' a; clear Hpop.
  apply index_Done in Hitem as [_ Hitem]. rewrite Hn2 in Hitem.
  inversion Hitem; subst item; clear Hitem.
  split; [exact Ha0|].
  unfold deref in Hit. destruct (cells s2' !! a0) as [it'|] eqn:Hc;
    [|discriminate]. inversion Hit; subst it'.
  intros j Hj.
  assert (HLs : SSHeap.Len
                  (mkH (take (Z.to_nat n) (slots s2'))
                       (<[a0 := set_Index it (-1)]> (cells s2'))) = n).
  { unfold SSHeap.Len. simpl. rewrite length_take.
    unfold n, SSHeap.Len in *. lia. }
  rewrite HLs in Hj. pose proof (parent_lt j ltac:(lia)) as Hpl.
  rewrite !(cnt_take_set_Index (slots s2') (cells s2') (Z.to_nat n) a0 it)
    by (try exact Hc; lia).
  replace (mkH (slots s2') (cells s2')) with s2' by (destruct s2'; reflexivity).
  apply Hheap; lia.
Qed.

(** Draining a min-heap yields its items in non-decreasing order of
    count. *)
Lemma drain_sorted fuel :
  forall s res s' out,
    valid s -> NoDup (slots s) -> (length (slots s) <= fuel)%nat ->
    heap_ordered s ->
    drain fuel s res = Done (s', out) ->
    exists new,
      out = res ++ new /\
      StronglySorted (fun x y => Count x <= Count y) new /\
      Forall (fun it => exists a it0,
                a ∈ slots s /\ cells s !! a = Some it0 /\
                Count it = Count it0) new.
Proof.
  induction fuel as [|fuel IH]; intros s res s' out Hv Hnd Hf Ho Hdr.
  - assert (Hnil : slots s = [])
      by (destruct (slots s); [auto|simpl in Hf; lia]).
    simpl in Hdr. unfold SSHeap.Len in Hdr. rewrite Hnil in Hdr.
    simpl in Hdr. inversion Hdr; subst. exists [].
    rewrite app_nil_r. split; [reflexivity|]. split; constructor.
  - cbn [drain] in Hdr.
    destruct (Z.gtb_spec (SSHeap.Len s) 0) as [Hpos|Hz].
    2:{ inversion Hdr; subst. exists [].
        rewrite app_nil_r. split; [reflexivity|]. split; constructor. }
    destruct (Heap_Pop_spec s Hv) as (s1 & a & it & Hpop & P & D & F & Hit & _);
      [lia|].
    rewrite Hpop in Hdr. cbn [obind fst snd] in Hdr.
    unfold deref in Hdr. rewrite Hit in Hdr. cbn [obind] in Hdr.
    destruct (Heap_Pop_order s s1 a Hv ltac:(lia) Ho Hpop) as [Hroot Ho1].
    assert (Hnd1 : NoDup (slots s1 ++ [a])) by (rewrite <- P; exact Hnd).
    apply NoDup_app in Hnd1 as (Hnd1 & _ & _).
    assert (Hv1 : valid s1).
    { unfold valid in *. destruct D as [HL _]. rewrite HL.
      rewrite Forall_forall in *. intros c Hc. apply Hv. rewrite P.
      apply elem_of_app. left. exact Hc. }
    destruct (IH s1 (res ++ [it]) s' out Hv1 Hnd1) as (new & Hout & Hs & Hall);
      [|exact Ho1|exact Hdr|].
    { apply Permutation_length in P. rewrite length_app in P. simpl in P.
      lia. }
    (* counts are those of the heap before the pop *)
    assert (Hback : forall b y0, b ∈ slots s -> cells s1 !! b = Some y0 ->
              exists yb, cells s !! b = Some yb /\ Count y0 = Count yb).
    { intros b y0 Hb Hy0. unfold valid in Hv. rewrite Forall_forall in Hv.
      destruct (lookup_lt_is_Some_2 (cells s) b (Hv b Hb)) as [yb Hyb].
      destruct D as [_ D]. destruct (D b yb Hyb) as (y' & Hy' & _ & HC & _).
      exists yb. split; [exact Hyb|]. congruence. }
    assert (Hain : a ∈ slots s) by (apply list_elem_of_lookup; eauto).
    destruct (Hback a it Hain Hit) as (ita & Hita & Hca).
    assert (Hmin : forall b yb, b ∈ slots s -> cells s !! b = Some yb ->
                                Count ita <= Count yb).
    { intros b yb Hb Hyb. apply list_elem_of_lookup in Hb as [kb Hkb].
      rewrite <- (cnt_at s 0 a ita Hroot Hita).
      rewrite <- (cnt_at s kb b yb Hkb Hyb).
      apply root_min; [exact Ho|]. unfold SSHeap.Len.
      apply lookup_lt_Some in Hkb. lia. }
    assert (Hall' : Forall (fun y => exists b yb,
                        b ∈ slots s /\ cells s !! b = Some yb /\
                        Count y = Count yb) new).
    { eapply Forall_impl; [exact Hall|]. intros y (b & y0 & Hb & Hy0 & Hc).
      assert (Hbs : b ∈ slots s)
        by (rewrite P; apply elem_of_app; left; exact Hb).
      destruct (Hback b y0 Hbs Hy0) as (yb & Hyb & Hcb).
      exists b, yb. split; [exact Hbs|]. split; [exact Hyb|]. congruence. }
    exists (it :: new). split; [rewrite Hout, <- app_assoc; reflexivity|].
    split.
    + constructor; [exact Hs|].
      eapply Forall_impl; [exact Hall'|]. intros y (b & yb & Hb & Hyb & Hc).
      rewrite Hca, Hc. apply (Hmin b yb Hb Hyb).
    + constructor; [|exact Hall']. exists a, ita. auto.
Qed.

Lemma sorted_reverse (l : list Item) :
  StronglySorted (fun x y => Count x <= Count y) l ->
  StronglySorted (fun x y => Count y <= Count x) (reverse l).
Proof.
  induction 1 as [|x l Hs IH Hall]; [constructor|].
  rewrite reverse_cons.
  assert (Happ : forall l1 l2 : list Item,
             StronglySorted (fun x y => Count y <= Count x) l1 ->
             StronglySorted (fun x y => Count y <= Count x) l2 ->
             (forall u v, u ∈ l1 -> v ∈ l2 -> Count v <= Count u) ->
             StronglySorted (fun x y => Count y <= Count x) (l1 ++ l2)).
  { clear. induction l1 as [|u l1 IHl]; intros l2 H1 H2 H12; [exact H2|].
    simpl. inversion H1; subst. constructor.
    - apply IHl; [assumption|assumption|].
      intros u' v Hu Hv. apply H12; [right; exact Hu|exact Hv].
    - apply Forall_app. split; [assumption|].
      apply Forall_forall. intros v Hv. apply H12; [left|exact Hv]. }
  apply Happ; [exact IH|repeat constructor|].
  intros u v Hu Hv. apply list_elem_of_singleton in Hv. subst v.
  rewrite elem_of_reverse in Hu. rewrite Forall_forall in Hall.
  apply Hall. exact Hu.
Qed.

(** X25: in every state that [Add], [Decay] and [Clear] reach, [TopK(k)]
    returns the tracked items of the [k] largest counts, in non-increasing
    order of count: the list is sorted, and every tracked key that is left
    out has a count no larger than any count of the list. *)
Theorem ss_topk_sorted cap ops ss0 ss k result ss' :
  NewSpaceSaving cap = Done ss0 ->
  run_ops ss0 ops = Done ss ->
  TopK ss k = Done (result, ss') ->
  StronglySorted (fun x y => Count y <= Count x) result /\
  forall key a it,
    items ss !! key = Some a -> mem ss !! a = Some it ->
    key ∉ (Key <$> result) ->
    Forall (fun r => Count it <= Count r) result.
Proof.
  intros Hnew Hrun Htop.
  destruct (reachable_order cap ops ss0 ss Hnew Hrun) as [Hinv Ho].
  pose proof Hinv as (Hv & [Hnd Hidx] & [L1 L2] & Hc).
  unfold hs in *. simpl in *.
  destruct (drain_spec (length (heap ss)) (mkH (heap ss) (mem ss)) [] Hv Hnd)
    as (s' & new & popped & Hdr & Hnil & Pp & D & F & Hall); [simpl; lia|].
  simpl in Hdr.
  destruct (drain_sorted (length (heap ss)) (mkH (heap ss) (mem ss)) []
              s' new Hv Hnd) as (new' & Hnew' & Hsorted & _);
    [simpl; lia|exact Ho|exact Hdr|].
  simpl in Hnew'. subst new'.
  pose proof (Forall2_item_at _ _ _ Hall) as Hitems.
  assert (Hlen : length new = length (heap ss)).
  { rewrite Hitems, length_fmap. apply Permutation_length. exact Pp. }
  unfold TopK in Htop. rewrite Hdr in Htop. cbn [obind fst snd] in Htop.
  set (k' := if k >? Z.of_nat (length new)
             then Z.of_nat (length new) else k) in *.
  destruct (k' <? 0); [discriminate|].
  inversion Htop; subst result ss'; clear Htop.
  pose proof (sorted_reverse new Hsorted) as Hdesc.
  rewrite <- (take_drop (Z.to_nat k') (reverse new)) in Hdesc.
  split.
  - clear -Hdesc. revert Hdesc.
    generalize (take (Z.to_nat k') (reverse new)) as l1.
    generalize (drop (Z.to_nat k') (reverse new)) as l2.
    intros l2 l1. induction l1 as [|x l1 IH]; intros H; [constructor|].
    simpl in H. inversion H; subst. constructor; [apply IH; assumption|].
    apply Forall_app in H3 as [H3 _]. exact H3.
  - intros key a it Hk Hit Hout.
    destruct (L1 key a Hk) as (Hin & it0 & Hit0 & HK).
    assert (it0 = it) by congruence. subst it0.
    destruct D as [_ D]. destruct (D a it Hit) as (it' & Hit' & HK' & HC & _).
    assert (Hx : it' ∈ reverse new).
    { rewrite elem_of_reverse, Hitems. apply list_elem_of_fmap.
      exists a. split; [unfold item_at; simpl; rewrite Hit'; reflexivity|].
      rewrite Pp. exact Hin. }
    rewrite <- (take_drop (Z.to_nat k') (reverse new)) in Hx.
    apply elem_of_app in Hx as [Hx|Hx].
    { exfalso. apply Hout. apply list_elem_of_fmap. exists it'.
      split; [congruence|exact Hx]. }
    apply Forall_forall. intros r Hr. rewrite <- HC.
    clear -Hdesc Hx Hr. revert Hdesc Hr.
    generalize (take (Z.to_nat k') (reverse new)) as l1.
    intros l1. induction l1 as [|u l1 IH]; intros H Hr.
    + apply elem_of_nil in Hr. destruct Hr.
    + simpl in H. inversion H; subst.
      apply elem_of_cons in Hr as [->|Hr]; [|apply IH; assumption].
      rewrite Forall_forall in H3. apply H3.
      apply elem_of_app. right. exact Hx.
Qed.

End OrderMore.

Lemma ss_root_is_least_scenario :
  let ops := [OpAdd "first" 10; OpAdd "second" 5; OpAdd "third" 1;
              OpDecay (fun c => c / 2); OpAdd "first" 1] in
  let ss0 := SS.mkSS 2 ∅ [] [] in
  exists ss a0 it0 a it,
    run_ops ss0 ops = Done ss /\
    SS.heap ss !! 0%nat = Some a0 /\ SS.mem ss !! a0 = Some it0 /\
    SS.items ss !! "first" = Some a /\ SS.mem ss !! a = Some it /\
    Count it0 <= Count it.
Proof.
  intros ops ss0.
  destruct (run_ops ss0 ops) as [ss| |] eqn:Hrun;
    try (vm_compute in Hrun; discriminate Hrun).
  destruct (SS.heap ss !! 0%nat) as [a0|] eqn:Hroot;
    try (vm_compute in Hrun; inversion Hrun; subst ss;
         vm_compute in Hroot; discriminate Hroot).
  destruct (SS.mem ss !! a0) as [it0|] eqn:Hit0;
    try (vm_compute in Hrun; inversion Hrun; subst ss;
         vm_compute in Hroot; inversion Hroot; subst a0;
         vm_compute in Hit0; discriminate Hit0).
  destruct (SS.items ss !! "first") as [a|] eqn:Hka;
    try (vm_compute in Hrun; inversion Hrun; subst ss;
         vm_compute in Hka; discriminate Hka).
  destruct (SS.mem ss !! a) as [it|] eqn:Hit;
    try (vm_compute in Hrun; inversion Hrun; subst ss;
         vm_compute in Hka; inversion Hka; subst a;
         vm_compute in Hit; discriminate Hit).
  exists ss, a0, it0, a, it. split; [reflexivity|].
  repeat (split; [assumption|]).
  exact (ss_root_is_least 2 ops ss0 ss a0 it0 "first" a it
           eq_refl Hrun Hroot Hit0 Hka Hit).
Defined.

Lemma ss_topk_sorted_scenario :
  let ops := [OpAdd "first" 10; OpAdd "second" 5; OpAdd "third" 1] in
  let ss0 := SS.mkSS 3 ∅ [] [] in
  exists ss result ss' a it,
    run_ops ss0 ops = Done ss /\
    SS.TopK ss 2 = Done (result, ss') /\
    SS.items ss !! "third" = Some a /\ SS.mem ss !! a = Some it /\
    ("third" ∉ (Key <$> result)) /\
    StronglySorted (fun x y => Count y <= Count x) result /\
    Forall (fun r => Count it <= Count r) result.
Proof.
  intros ops ss0.
  destruct (run_ops ss0 ops) as [ss| |] eqn:Hrun;
    try (vm_compute in Hrun; discriminate Hrun).
  destruct (SS.TopK ss 2) as [[result ss']| |] eqn:Htop;
    try (vm_compute in Hrun; inversion Hrun; subst ss;
         vm_compute in Htop; discriminate Htop).
  destruct (SS.items ss !! "third") as [a|] eqn:Hka;
    try (vm_compute in Hrun; inversion Hrun; subst ss;
         vm_compute in Hka; discriminate Hka).
  destruct (SS.mem ss !! a) as [it|] eqn:Hit;
    try (vm_compute in Hrun; inversion Hrun; subst ss;
         vm_compute in Hka; inversion Hka; subst a;
         vm_compute in Hit; discriminate Hit).
  assert (Hout : "third" ∉ (Key <$> result)).
  { pose proof Hrun as Hrun'. pose proof Htop as Htop'.
    vm_compute in Hrun'. inversion Hrun' as [Hss].
    rewrite <- Hss in Htop'. vm_compute in Htop'.
    inversion Htop' as [[Hres Hss']].
    intros Hin. apply list_elem_of_fmap in Hin as (x & Hx & Hin).
    repeat (apply elem_of_cons in Hin as [->|Hin]; [discriminate Hx|]).
    apply elem_of_nil in Hin. exact Hin. }
  destruct (ss_topk_sorted 3 ops ss0 ss 2 result ss' eq_refl Hrun Htop)
    as [Hsorted Hrest].
  exists ss, result, ss', a, it. split; [reflexivity|].
  split; [exact Htop|]. split; [exact Hka|]. split; [exact Hit|].
  split; [exact Hout|]. split; [exact Hsorted|].
  exact (Hrest "third" a it Hka Hit Hout).
Defined.
